(** * MoonShot: a shallow embedding of the interpreter pipeline

    The development follows the Go sources file by file: tokens and lexer,
    AST, parser, types and type checker, runtime values, environments,
    built-ins, evaluator and module loader.  Every Go function keeps its
    name.  Go code that can loop is modelled with explicit fuel, Go run-time
    panics (nil dereference, failed type assertion, index out of range) are
    an explicit outcome. *)

From Stdlib Require Import ZArith Ascii String List Bool Lia.
From Stdlib Require Import Floats DecimalString.
From stdpp Require Import base option list strings gmap.

#[local] Set Warnings "-register-all".
Local Open Scope string_scope.
Local Open Scope Z_scope.

(** ** Outcomes of stateful, possibly diverging or panicking code *)

Inductive outcome (St A : Type) : Type :=
| Done (a : A) (s : St)
| Panic (msg : string)
| OutOfFuel.
Arguments Done {St A} a s.
Arguments Panic {St A} msg.
Arguments OutOfFuel {St A}.

Definition M (St A : Type) : Type := St -> outcome St A.

Definition ret {St A} (a : A) : M St A := fun s => Done a s.

Definition bind {St A B} (m : M St A) (k : A -> M St B) : M St B :=
  fun s => match m s with
           | Done a s' => k a s'
           | Panic msg => Panic msg
           | OutOfFuel => OutOfFuel
           end.

Definition get {St} : M St St := fun s => Done s s.
Definition put {St} (s : St) : M St unit := fun _ => Done tt s.
Definition modify {St} (f : St -> St) : M St unit := fun s => Done tt (f s).
Definition gets {St A} (f : St -> A) : M St A := fun s => Done (f s) s.
Definition panic {St A} (msg : string) : M St A := fun _ => Panic msg.
Definition out_of_fuel {St A} : M St A := fun _ => OutOfFuel.

Declare Scope monad_scope.
Delimit Scope monad_scope with monad.
Notation "'let*' x ':=' m 'in' k" := (bind m (fun x => k))
  (at level 10, x pattern, m at level 100, k at level 200) : monad_scope.
Notation "'do' m 'then' k" := (bind m (fun _ => k))
  (at level 10, m at level 100, k at level 200) : monad_scope.
Local Open Scope monad_scope.

(** A Go [for cond { body }] loop, bounded by fuel. *)
Fixpoint while_loop {St} (fuel : nat) (cond : St -> bool) (body : M St unit) : M St unit :=
  match fuel with
  | O => out_of_fuel
  | S n => fun s => if cond s then (do body then while_loop n cond body) s else Done tt s
  end.

Definition when {St} (b : bool) (m : M St unit) : M St unit :=
  if b then m else ret tt.

(** ** token.go *)

Inductive TokenType : Set :=
| ILLEGAL | EOF | NEWLINE
| IDENT | INTEGER | FLOAT | STRING
| DEF | FUN | STRUCT | EXTEND | IF | ELSE | WHILE | FOR | IN | RETURN | MATCH
| SOME | NONE | OK | ERROR | IMPORT | AND | OR | NOT | IS | BREAK | CONTINUE
| MUTABLE | TRUE | FALSE
| ASSIGN | ASSIGN_MUT | PLUS | MINUS | MULTIPLY | DIVIDE | MODULO
| GT | LT | GTE | LTE | ARROW
| LPAREN | RPAREN | LBRACE | RBRACE | LBRACKET | RBRACKET | COMMA | COLON | DOT.

(** The [iota] value of each constant. *)
Definition TokenType_code (t : TokenType) : nat :=
  match t with
  | ILLEGAL => 0 | EOF => 1 | NEWLINE => 2
  | IDENT => 3 | INTEGER => 4 | FLOAT => 5 | STRING => 6
  | DEF => 7 | FUN => 8 | STRUCT => 9 | EXTEND => 10 | IF => 11 | ELSE => 12
  | WHILE => 13 | FOR => 14 | IN => 15 | RETURN => 16 | MATCH => 17
  | SOME => 18 | NONE => 19 | OK => 20 | ERROR => 21 | IMPORT => 22
  | AND => 23 | OR => 24 | NOT => 25 | IS => 26 | BREAK => 27 | CONTINUE => 28
  | MUTABLE => 29 | TRUE => 30 | FALSE => 31
  | ASSIGN => 32 | ASSIGN_MUT => 33 | PLUS => 34 | MINUS => 35 | MULTIPLY => 36
  | DIVIDE => 37 | MODULO => 38 | GT => 39 | LT => 40 | GTE => 41 | LTE => 42
  | ARROW => 43
  | LPAREN => 44 | RPAREN => 45 | LBRACE => 46 | RBRACE => 47 | LBRACKET => 48
  | RBRACKET => 49 | COMMA => 50 | COLON => 51 | DOT => 52
  end%nat.

Definition TokenType_eqb (a b : TokenType) : bool :=
  Nat.eqb (TokenType_code a) (TokenType_code b).

(** [tokenNames] and [TokenType.String]. *)
Definition TokenType_String (t : TokenType) : string :=
  match t with
  | ILLEGAL => "ILLEGAL" | EOF => "EOF" | NEWLINE => "NEWLINE"
  | IDENT => "IDENT" | INTEGER => "INTEGER" | FLOAT => "FLOAT" | STRING => "STRING"
  | DEF => "DEF" | FUN => "FUN" | STRUCT => "STRUCT" | EXTEND => "EXTEND"
  | IF => "IF" | ELSE => "ELSE" | WHILE => "WHILE" | FOR => "FOR" | IN => "IN"
  | RETURN => "RETURN" | MATCH => "MATCH" | SOME => "SOME" | NONE => "NONE"
  | OK => "OK" | ERROR => "ERROR" | IMPORT => "IMPORT" | AND => "AND" | OR => "OR"
  | NOT => "NOT" | IS => "IS" | BREAK => "BREAK" | CONTINUE => "CONTINUE"
  | MUTABLE => "MUTABLE" | TRUE => "TRUE" | FALSE => "FALSE"
  | ASSIGN => "=" | ASSIGN_MUT => "==" | PLUS => "+" | MINUS => "-"
  | MULTIPLY => "*" | DIVIDE => "/" | MODULO => "%" | GT => ">" | LT => "<"
  | GTE => ">=" | LTE => "<=" | ARROW => "->"
  | LPAREN => "(" | RPAREN => ")" | LBRACE => "{" | RBRACE => "}"
  | LBRACKET => "[" | RBRACKET => "]" | COMMA => "," | COLON => ":" | DOT => "."
  end.

Record Token : Set := mkToken {
  tok_Type : TokenType;
  tok_Literal : string;
  tok_Line : nat;
  tok_Column : nat
}.

(** The zero value [Token{}]. *)
Definition Token_zero : Token := mkToken ILLEGAL "" 0 0.

(** [keywords] as a lookup table. *)
Definition keywords (ident : string) : option TokenType :=
  if String.eqb ident "def" then Some DEF
  else if String.eqb ident "fun" then Some FUN
  else if String.eqb ident "struct" then Some STRUCT
  else if String.eqb ident "extend" then Some EXTEND
  else if String.eqb ident "if" then Some IF
  else if String.eqb ident "else" then Some ELSE
  else if String.eqb ident "while" then Some WHILE
  else if String.eqb ident "for" then Some FOR
  else if String.eqb ident "in" then Some IN
  else if String.eqb ident "return" then Some RETURN
  else if String.eqb ident "match" then Some MATCH
  else if String.eqb ident "Some" then Some SOME
  else if String.eqb ident "None" then Some NONE
  else if String.eqb ident "Ok" then Some OK
  else if String.eqb ident "Error" then Some ERROR
  else if String.eqb ident "import" then Some IMPORT
  else if String.eqb ident "and" then Some AND
  else if String.eqb ident "or" then Some OR
  else if String.eqb ident "not" then Some NOT
  else if String.eqb ident "is" then Some IS
  else if String.eqb ident "break" then Some BREAK
  else if String.eqb ident "continue" then Some CONTINUE
  else if String.eqb ident "Mutable" then Some MUTABLE
  else if String.eqb ident "true" then Some TRUE
  else if String.eqb ident "false" then Some FALSE
  else None.

Definition LookupIdent (ident : string) : TokenType :=
  match keywords ident with
  | Some tok => tok
  | None => IDENT
  end.

(** ** The lexer *)

Record Lexer : Set := mkLexer {
  input : string;
  pos : nat;      (* current position in input *)
  readPos : nat;  (* current reading position (after current char) *)
  ch : ascii;     (* current char under examination *)
  line : nat;     (* current line number *)
  column : nat    (* current column number *)
}.

(** The byte 0 that the lexer uses for end of input. *)
Definition NUL : ascii := Ascii.zero.

Definition byte_at (s : string) (i : nat) : ascii :=
  match String.get i s with
  | Some c => c
  | None => NUL
  end.

(** The Go slice expression [s[lo:hi]]. *)
Definition slice (s : string) (lo hi : nat) : string :=
  String.substring lo (hi - lo) s.

Definition readChar : M Lexer unit :=
  modify (fun l =>
    let c := if (String.length l.(input) <=? l.(readPos))%nat then NUL
             else byte_at l.(input) l.(readPos) in
    mkLexer l.(input) l.(readPos) (S l.(readPos)) c l.(line) (S l.(column))).

Definition peekChar (l : Lexer) : ascii :=
  if (String.length l.(input) <=? l.(readPos))%nat then NUL
  else byte_at l.(input) l.(readPos).

Definition NewLexer (inp : string) : Lexer :=
  match readChar (mkLexer inp 0 0 NUL 1 0) with
  | Done _ l => l
  | _ => mkLexer inp 0 0 NUL 1 0
  end.

Definition byte_in (lo hi c : ascii) : bool :=
  (nat_of_ascii lo <=? nat_of_ascii c)%nat && (nat_of_ascii c <=? nat_of_ascii hi)%nat.

Definition isLetter (c : ascii) : bool :=
  byte_in "a" "z" c || byte_in "A" "Z" c || Ascii.eqb c "_".

Definition isDigit (c : ascii) : bool := byte_in "0" "9" c.

(** Go's conversion [string(b)] of a byte: the UTF-8 encoding of the code
    point [b], two bytes long from 0x80 on. *)
Definition string_of_byte (c : ascii) : string :=
  let n := nat_of_ascii c in
  if (n <? 128)%nat then String c EmptyString
  else String (ascii_of_nat (192 + n / 64)) (String (ascii_of_nat (128 + n mod 64)) EmptyString).

Definition newToken (tokenType : TokenType) (literal : string) : M Lexer Token :=
  gets (fun l => mkToken tokenType literal l.(line) l.(column)).

Definition readIdentifier (fuel : nat) : M Lexer string :=
  let* p := gets pos in
  do while_loop fuel (fun l => isLetter l.(ch) || isDigit l.(ch)) readChar then
  gets (fun l => slice l.(input) p l.(pos)).

Definition readNumber (fuel : nat) : M Lexer (string * TokenType) :=
  let* p := gets pos in
  do while_loop fuel (fun l => isDigit l.(ch)) readChar then
  let* l := get in
  let* tokenType :=
    (if Ascii.eqb l.(ch) "." && isDigit (peekChar l) then
       do readChar then
       do while_loop fuel (fun l => isDigit l.(ch)) readChar then
       ret FLOAT
     else ret INTEGER) in
  gets (fun l => (slice l.(input) p l.(pos), tokenType)).

Definition readString (fuel : nat) : M Lexer string :=
  do readChar then
  let* p := gets pos in
  do while_loop fuel
       (fun l => negb (Ascii.eqb l.(ch) "034") && negb (Ascii.eqb l.(ch) NUL))
       (let* l := get in
        do when (Ascii.eqb l.(ch) "092" && negb (Ascii.eqb (peekChar l) NUL)) readChar then
        readChar) then
  gets (fun l => slice l.(input) p l.(pos)).

Definition skipWhitespaceExceptNewline (fuel : nat) : M Lexer unit :=
  while_loop fuel
    (fun l => Ascii.eqb l.(ch) " " || Ascii.eqb l.(ch) "009" || Ascii.eqb l.(ch) "013")
    readChar.

Definition skipComment (fuel : nat) : M Lexer unit :=
  while_loop fuel
    (fun l => negb (Ascii.eqb l.(ch) "010") && negb (Ascii.eqb l.(ch) NUL))
    readChar.

(** [NextToken]; the fuel bounds the scanning loops and the recursive call
    made after a comment. *)
Fixpoint NextToken (fuel : nat) : M Lexer Token :=
  match fuel with
  | O => out_of_fuel
  | S n =>
    do skipWhitespaceExceptNewline fuel then
    let* l := get in
    let tokLine := l.(line) in
    let tokColumn := l.(column) in
    let c := l.(ch) in
    let single (t : TokenType) : M Lexer Token :=
      let* tok := newToken t (string_of_byte c) in
      do readChar then ret tok in
    let double (next : ascii) (t2 : TokenType) (lit2 : string) (t1 : TokenType) : M Lexer Token :=
      if Ascii.eqb (peekChar l) next then
        do readChar then
        do readChar then ret (mkToken t2 lit2 tokLine tokColumn)
      else single t1 in
    if Ascii.eqb c "010" then
      let* tok := newToken NEWLINE (string_of_byte c) in
      do modify (fun l => mkLexer l.(input) l.(pos) l.(readPos) l.(ch) (S l.(line)) 0) then
      do readChar then ret tok
    else if Ascii.eqb c "=" then double "="%char ASSIGN_MUT "==" ASSIGN
    else if Ascii.eqb c "+" then single PLUS
    else if Ascii.eqb c "-" then double ">"%char ARROW "->" MINUS
    else if Ascii.eqb c "*" then single MULTIPLY
    else if Ascii.eqb c "/" then
      if Ascii.eqb (peekChar l) "/" then
        do skipComment fuel then NextToken n
      else single DIVIDE
    else if Ascii.eqb c "%" then single MODULO
    else if Ascii.eqb c ">" then double "="%char GTE ">=" GT
    else if Ascii.eqb c "<" then double "="%char LTE "<=" LT
    else if Ascii.eqb c "(" then single LPAREN
    else if Ascii.eqb c ")" then single RPAREN
    else if Ascii.eqb c "{" then single LBRACE
    else if Ascii.eqb c "}" then single RBRACE
    else if Ascii.eqb c "[" then single LBRACKET
    else if Ascii.eqb c "]" then single RBRACKET
    else if Ascii.eqb c "," then single COMMA
    else if Ascii.eqb c ":" then single COLON
    else if Ascii.eqb c "." then single DOT
    else if Ascii.eqb c "034" then
      let* lit := readString fuel in
      do readChar then ret (mkToken STRING lit tokLine tokColumn)
    else if Ascii.eqb c NUL then
      do readChar then ret (mkToken EOF "" tokLine tokColumn)
    else if isLetter c then
      let* lit := readIdentifier fuel in
      ret (mkToken (LookupIdent lit) lit tokLine tokColumn)
    else if isDigit c then
      let* r := readNumber fuel in
      ret (mkToken (snd r) (fst r) tokLine tokColumn)
    else single ILLEGAL
  end.

(** All tokens up to and including the first [EOF]. *)
Fixpoint tokenize_loop (fuel : nat) (n : nat) : M Lexer (list Token) :=
  match n with
  | O => out_of_fuel
  | S n' =>
    let* tok := NextToken fuel in
    if TokenType_eqb tok.(tok_Type) EOF then ret [tok]
    else let* rest := tokenize_loop fuel n' in ret (tok :: rest)
  end.

Definition tokenize (src : string) : option (list Token) :=
  let fuel := S (S (String.length src)) in
  match tokenize_loop fuel fuel (NewLexer src) with
  | Done toks _ => Some toks
  | _ => None
  end.

Definition token_types (src : string) : option (list (TokenType * string)) :=
  option_map (map (fun t => (t.(tok_Type), t.(tok_Literal)))) (tokenize src).

(** ** Host library

    Functions of the Go standard library and of the operating system that
    the interpreter calls and whose results depend on things outside the
    repository (decimal/binary floating-point conversion, Unicode tables,
    the file system).  They are taken as a parameter of the model. *)

Record Host : Type := mkHost {
  ParseFloat : string -> option float;     (* strconv.ParseFloat(s, 64) *)
  FormatG : float -> string;               (* fmt.Sprintf("%g", f) *)
  Quote : string -> string;                (* fmt.Sprintf("%q", s) *)
  FloatToInt64 : float -> Z;               (* int64(f) *)
  Sscanf_d : string -> option Z;           (* fmt.Sscanf(s, "%d", &i) *)
  Sscanf_f : string -> option float;       (* fmt.Sscanf(s, "%f", &f) *)
  TrimSpace : string -> string;            (* strings.TrimSpace *)
  ToUpper : string -> string;              (* strings.ToUpper *)
  ToLower : string -> string;              (* strings.ToLower *)
  Explode : string -> list string;         (* strings.Split with the empty separator *)
  ReadFile : string -> string + string;    (* os.ReadFile: content or error text *)
  MapOrder : string -> list string -> list nat  (* the order of a range over a map *)
}.

(** ** Iteration over a Go map

    Go leaves the order of a [range] over a map unspecified, and the
    run-time system varies it.  Here the host chooses it: for the [range]
    statement of the function [site] over a map with the keys [keys],
    [MapOrder host site keys] lists the positions at which the next entry
    is taken out of the entries that are left (a position counts modulo
    their number, a missing choice is 0).  Every order of the entries is
    the result of some choices ([permute_reaches] below).  The choice
    depends on the site and the keys alone: two ranges of one site over
    equal keys take one order, and no property below compares two such
    ranges. *)
Fixpoint permute_from {A} (n : nat) (choices : list nat) (l : list A) : list A :=
  match n with
  | O => []
  | S n' =>
    let i := Nat.modulo (hd 0%nat choices) (length l) in
    match l !! i with
    | Some x => x :: permute_from n' (tl choices) (delete i l)
    | None => []
    end
  end.

Definition permute {A} (choices : list nat) (l : list A) : list A :=
  permute_from (length l) choices l.

(** The entries of a map in the order in which [site] ranges over them;
    [key] gives the key of an entry. *)
Definition range_order {A} (host : Host) (site : string) (key : A -> string)
    (entries : list A) : list A :=
  permute (MapOrder host site (map key entries)) entries.

(** ** ast.go: syntax trees *)

Inductive TypeAnnotation : Type :=
| mkTypeAnnotation (ta_Token : Token) (ta_Name : string) (ta_TypeParams : list TypeAnnotation).

Definition ta_Name (ta : TypeAnnotation) : string :=
  match ta with mkTypeAnnotation _ n _ => n end.
Definition ta_TypeParams (ta : TypeAnnotation) : list TypeAnnotation :=
  match ta with mkTypeAnnotation _ _ ps => ps end.

Record Identifier : Type := mkIdentifier {
  id_Token : Token;
  id_Value : string
}.

Record FunctionParameter : Type := mkFunctionParameter {
  fp_Name : Identifier;
  fp_TypeHint : option TypeAnnotation
}.

Record StructField : Type := mkStructField {
  sf_Name : Identifier;
  sf_TypeHint : option TypeAnnotation
}.

(** [NilExpression] is the nil interface value that the parser returns for
    a production it could not parse; [NilStatement] is a nil pointer of a
    statement type stored in a [Statement] interface.  Go maps of the syntax
    tree ([MapLiteral.Pairs], keyed by node identity, [StructLiteral.Fields]
    and [WithExpression.Updates], keyed by name) are lists in source order:
    Go leaves their iteration order unspecified. *)
Inductive Expression : Type :=
| NilExpression
| IdentifierE (i : Identifier)
| IntegerLiteral (tok : Token) (Value : Z)
| FloatLiteral (tok : Token) (Value : float)
| StringLiteral (tok : Token) (Value : string)
| BooleanLiteral (tok : Token) (Value : bool)
| PrefixExpression (tok : Token) (Operator : string) (Right : Expression)
| InfixExpression (tok : Token) (Left : Expression) (Operator : string) (Right : Expression)
| AssignmentExpression (tok : Token) (Name : Identifier) (Value : Expression)
| IfExpression (tok : Token) (Condition : Expression)
    (Consequence : BlockStatement) (Alternative : option BlockStatement)
| FunctionLiteral (tok : Token) (Parameters : list Identifier) (Body : Expression)
| CallExpression (tok : Token) (Func : Expression) (Arguments : list Expression)
| MemberExpression (tok : Token) (Object : Expression) (Member : Identifier)
| IndexExpression (tok : Token) (Left : Expression) (Index : Expression)
| ListLiteral (tok : Token) (Elements : list Expression)
| MapLiteral (tok : Token) (Pairs : list (Expression * Expression))
| StructLiteral (tok : Token) (StructName : Identifier) (Fields : list (string * Expression))
| WithExpression (tok : Token) (Object : Expression) (Updates : list (string * Expression))
| OptionExpression (tok : Token) (IsSome : bool) (Value : Expression)
| ResultExpression (tok : Token) (IsOk : bool) (Value : Expression)
| MatchExpression (tok : Token) (Value : Expression) (Cases : list MatchCase)
| MutableExpression (tok : Token) (TypeHint : option TypeAnnotation) (Value : Expression)
with Statement : Type :=
| NilStatement
| DefStatement (tok : Token) (Name : Identifier) (TypeHint : option TypeAnnotation)
    (Value : Expression)
| ReturnStatement (tok : Token) (Value : Expression)
| ExpressionStatement (tok : Token) (Expr : Expression)
| BlockStmt (b : BlockStatement)
| FunctionStmt (f : FunctionStatement)
| WhileStatement (tok : Token) (Condition : Expression) (Body : BlockStatement)
| ForStatement (tok : Token) (Var : Identifier) (Iterable : Expression)
    (Body : BlockStatement)
| BreakStatement (tok : Token)
| ContinueStatement (tok : Token)
| StructStatement (tok : Token) (Name : Identifier) (Fields : list StructField)
| ExtendStatement (tok : Token) (TypeName : Identifier) (Methods : list FunctionStatement)
| ImportStatement (tok : Token) (Path : list string)
with BlockStatement : Type :=
| mkBlockStatement (tok : Token) (Statements : list Statement)
with FunctionStatement : Type :=
| mkFunctionStatement (tok : Token) (Name : Identifier) (Parameters : list FunctionParameter)
    (ReturnType : option TypeAnnotation) (Body : BlockStatement)
with MatchCase : Type :=
| mkMatchCase (Pattern : Expression) (BindingVar : option Identifier) (Body : BlockStatement).

Record Program : Type := mkProgram { Statements : list Statement }.

Definition block_Statements (b : BlockStatement) : list Statement :=
  match b with mkBlockStatement _ ss => ss end.
Definition fs_Name (f : FunctionStatement) : Identifier :=
  match f with mkFunctionStatement _ n _ _ _ => n end.
Definition fs_Parameters (f : FunctionStatement) : list FunctionParameter :=
  match f with mkFunctionStatement _ _ ps _ _ => ps end.
Definition fs_ReturnType (f : FunctionStatement) : option TypeAnnotation :=
  match f with mkFunctionStatement _ _ _ r _ => r end.
Definition fs_Body (f : FunctionStatement) : BlockStatement :=
  match f with mkFunctionStatement _ _ _ _ b => b end.
Definition mc_Pattern (c : MatchCase) : Expression :=
  match c with mkMatchCase p _ _ => p end.
Definition mc_BindingVar (c : MatchCase) : option Identifier :=
  match c with mkMatchCase _ b _ => b end.
Definition mc_Body (c : MatchCase) : BlockStatement :=
  match c with mkMatchCase _ _ b => b end.

(** [strings.Join]. *)
Fixpoint Join (elems : list string) (sep : string) : string :=
  match elems with
  | [] => ""
  | [x] => x
  | x :: rest => x ++ sep ++ Join rest sep
  end.

Definition mapM_option {A B} (f : A -> option B) : list A -> option (list B) :=
  fix go (l : list A) : option (list B) :=
    match l with
    | [] => Some []
    | x :: r =>
      match f x with
      | Some y => match go r with Some ys => Some (y :: ys) | None => None end
      | None => None
      end
    end.

Definition opt_bind {A B} (o : option A) (k : A -> option B) : option B :=
  match o with Some a => k a | None => None end.

Fixpoint TypeAnnotation_String (ta : TypeAnnotation) : string :=
  match ta with
  | mkTypeAnnotation _ name params =>
    match params with
    | [] => name
    | _ => name ++ "[" ++ Join (map TypeAnnotation_String params) ", " ++ "]"
    end
  end.

Definition dquote : string := String "034"%char EmptyString.

Definition concat_strings (l : list string) : string := Join l "".

Definition FunctionParameter_String (p : FunctionParameter) : string :=
  match p.(fp_TypeHint) with
  | Some h => p.(fp_Name).(id_Value) ++ ": " ++ TypeAnnotation_String h
  | None => p.(fp_Name).(id_Value)
  end.

Definition StructField_String (f : StructField) : string :=
  match f.(sf_TypeHint) with
  | Some h => f.(sf_Name).(id_Value) ++ ": " ++ TypeAnnotation_String h
  | None => f.(sf_Name).(id_Value)
  end.

Section NodeStrings.

Variable host : Host.

(** The [String] methods of the nodes.  [None] is the run-time panic of a
    method call through a nil interface or nil pointer.  The entries of a
    map, struct or update literal are rendered in the order of a [range]
    over the Go map that holds them. *)
Fixpoint Expression_String (e : Expression) : option string :=
  match e with
  | NilExpression => None
  | IdentifierE i => Some i.(id_Value)
  | IntegerLiteral tok _ => Some tok.(tok_Literal)
  | FloatLiteral tok _ => Some tok.(tok_Literal)
  | StringLiteral _ v => Some (dquote ++ v ++ dquote)
  | BooleanLiteral tok _ => Some tok.(tok_Literal)
  | PrefixExpression _ op r =>
    opt_bind (Expression_String r) (fun rs => Some ("(" ++ op ++ rs ++ ")"))
  | InfixExpression _ l op r =>
    opt_bind (Expression_String l) (fun ls =>
    opt_bind (Expression_String r) (fun rs =>
    Some ("(" ++ ls ++ " " ++ op ++ " " ++ rs ++ ")")))
  | AssignmentExpression _ name v =>
    opt_bind (Expression_String v) (fun vs => Some (name.(id_Value) ++ " == " ++ vs))
  | IfExpression _ c conseq alt =>
    opt_bind (Expression_String c) (fun cs =>
    opt_bind (BlockStatement_String conseq) (fun bs =>
    match alt with
    | Some a =>
      opt_bind (BlockStatement_String a) (fun als =>
      Some ("if " ++ cs ++ " " ++ bs ++ " else " ++ als))
    | None => Some ("if " ++ cs ++ " " ++ bs)
    end))
  | FunctionLiteral _ params body =>
    opt_bind (Expression_String body) (fun bs =>
    Some ("{ " ++ Join (map id_Value params) ", " ++ " -> " ++ bs ++ " }"))
  | CallExpression _ f args =>
    opt_bind (Expression_String f) (fun fs =>
    opt_bind (mapM_option Expression_String args) (fun ss =>
    Some (fs ++ "(" ++ Join ss ", " ++ ")")))
  | MemberExpression _ obj m =>
    opt_bind (Expression_String obj) (fun os => Some (os ++ "." ++ m.(id_Value)))
  | IndexExpression _ l i =>
    opt_bind (Expression_String l) (fun ls =>
    opt_bind (Expression_String i) (fun is_ =>
    Some ("(" ++ ls ++ "[" ++ is_ ++ "])")))
  | ListLiteral _ elems =>
    opt_bind (mapM_option Expression_String elems) (fun ss =>
    Some ("[" ++ Join ss ", " ++ "]"))
  | MapLiteral _ pairs =>
    opt_bind (mapM_option (fun kv : Expression * Expression =>
                match kv with
                | (k, v) =>
                  opt_bind (Expression_String k) (fun ks =>
                  opt_bind (Expression_String v) (fun vs => Some (ks, ks ++ ": " ++ vs)))
                end) pairs) (fun ss =>
    Some ("{" ++ Join (map snd (range_order host "MapLiteral.String" fst ss)) ", " ++ "}"))
  | StructLiteral _ name fields =>
    opt_bind (mapM_option (fun kv : string * Expression =>
                match kv with
                | (k, v) =>
                  opt_bind (Expression_String v) (fun vs => Some (k, k ++ ": " ++ vs))
                end) fields) (fun ss =>
    Some (name.(id_Value) ++ " { " ++
          Join (map snd (range_order host "StructLiteral.String" fst ss)) ", " ++ " }"))
  | WithExpression _ obj updates =>
    opt_bind (Expression_String obj) (fun os =>
    opt_bind (mapM_option (fun kv : string * Expression =>
                match kv with
                | (k, v) =>
                  opt_bind (Expression_String v) (fun vs => Some (k, k ++ ": " ++ vs))
                end) updates) (fun ss =>
    Some (os ++ ".with { " ++
          Join (map snd (range_order host "WithExpression.String" fst ss)) ", " ++ " }")))
  | OptionExpression _ isSome v =>
    if isSome then opt_bind (Expression_String v) (fun vs => Some ("Some(" ++ vs ++ ")"))
    else Some "None"
  | ResultExpression _ isOk v =>
    opt_bind (Expression_String v) (fun vs =>
    Some (if isOk then "Ok(" ++ vs ++ ")" else "Error(" ++ vs ++ ")"))
  | MatchExpression _ v cases =>
    opt_bind (Expression_String v) (fun vs =>
    opt_bind (mapM_option (fun c : MatchCase =>
                match c with
                | mkMatchCase p _ b =>
                  opt_bind (Expression_String p) (fun ps =>
                  opt_bind (BlockStatement_String b) (fun bs =>
                  Some (ps ++ " -> " ++ bs ++ " ")))
                end) cases) (fun ss =>
    Some ("match " ++ vs ++ " { " ++ concat_strings ss ++ "}")))
  | MutableExpression _ hint v =>
    opt_bind (Expression_String v) (fun vs =>
    Some ("Mutable" ++
          match hint with
          | Some h => "[" ++ TypeAnnotation_String h ++ "]"
          | None => ""
          end ++ "(" ++ vs ++ ")"))
  end
with Statement_String (s : Statement) : option string :=
  match s with
  | NilStatement => None
  | DefStatement _ name hint v =>
    let head := "def " ++ name.(id_Value) ++
                match hint with
                | Some h => ": " ++ TypeAnnotation_String h
                | None => ""
                end ++ " = " in
    match v with
    | NilExpression => Some head
    | _ => opt_bind (Expression_String v) (fun vs => Some (head ++ vs))
    end
  | ReturnStatement _ v =>
    match v with
    | NilExpression => Some "return "
    | _ => opt_bind (Expression_String v) (fun vs => Some ("return " ++ vs))
    end
  | ExpressionStatement _ e =>
    match e with
    | NilExpression => Some ""
    | _ => Expression_String e
    end
  | BlockStmt b => BlockStatement_String b
  | FunctionStmt f => FunctionStatement_String f
  | WhileStatement _ c b =>
    opt_bind (Expression_String c) (fun cs =>
    opt_bind (BlockStatement_String b) (fun bs =>
    Some ("while " ++ cs ++ " " ++ bs)))
  | ForStatement _ var it b =>
    opt_bind (Expression_String it) (fun its =>
    opt_bind (BlockStatement_String b) (fun bs =>
    Some ("for " ++ var.(id_Value) ++ " in " ++ its ++ " " ++ bs)))
  | BreakStatement _ => Some "break"
  | ContinueStatement _ => Some "continue"
  | StructStatement _ name fields =>
    Some ("struct " ++ name.(id_Value) ++ " { " ++
          Join (map StructField_String fields) ", " ++ " }")
  | ExtendStatement _ name methods =>
    opt_bind (mapM_option (fun m =>
                opt_bind (FunctionStatement_String m) (fun ms => Some (ms ++ " ")))
              methods) (fun ss =>
    Some ("extend " ++ name.(id_Value) ++ " { " ++ concat_strings ss ++ "}"))
  | ImportStatement _ path => Some ("import " ++ Join path ".")
  end
with BlockStatement_String (b : BlockStatement) : option string :=
  match b with
  | mkBlockStatement _ stmts =>
    opt_bind (mapM_option Statement_String stmts) (fun ss =>
    Some ("{ " ++ concat_strings ss ++ " }"))
  end
with FunctionStatement_String (f : FunctionStatement) : option string :=
  match f with
  | mkFunctionStatement _ name params ret body =>
    opt_bind (BlockStatement_String body) (fun bs =>
    Some ("fun " ++ name.(id_Value) ++ "(" ++
          Join (map FunctionParameter_String params) ", " ++ ")" ++
          match ret with
          | Some r => " -> " ++ TypeAnnotation_String r
          | None => ""
          end ++ " " ++ bs))
  end.

Definition Program_String (p : Program) : option string :=
  opt_bind (mapM_option Statement_String p.(Statements)) (fun ss => Some (concat_strings ss)).

End NodeStrings.

(** ** parser.go *)

(** Operator precedence levels ([iota] starts at the blank identifier). *)
Definition LOWEST : Z := 1.
Definition ASSIGN_PREC : Z := 2.   (* == *)
Definition OR_PREC : Z := 3.       (* or *)
Definition AND_PREC : Z := 4.      (* and *)
Definition IS_PREC : Z := 5.       (* is *)
Definition COMPARE_PREC : Z := 6.  (* >, <, >=, <= *)
Definition SUM_PREC : Z := 7.      (* +, - *)
Definition PRODUCT_PREC : Z := 8.  (* *, /, % *)
Definition PREFIX_PREC : Z := 9.   (* not, - *)
Definition CALL_PREC : Z := 10.    (* . *)
Definition INDEX_PREC : Z := 11.   (* [ *)

Definition precedences (t : TokenType) : option Z :=
  match t with
  | ASSIGN_MUT => Some ASSIGN_PREC
  | OR => Some OR_PREC
  | AND => Some AND_PREC
  | IS => Some IS_PREC
  | GT | LT | GTE | LTE => Some COMPARE_PREC
  | PLUS | MINUS => Some SUM_PREC
  | MULTIPLY | DIVIDE | MODULO => Some PRODUCT_PREC
  | LPAREN | DOT => Some CALL_PREC
  | LBRACKET => Some INDEX_PREC
  | _ => None
  end.

Record Parser : Set := mkParser {
  p_l : Lexer;
  curToken : Token;
  peekToken : Token;
  errors : list string
}.

(** The [%d] rendering of an integer. *)
Definition itoa (z : Z) : string := DecimalString.NilZero.string_of_int (Z.to_int z).

(** Fuel that always suffices for one [NextToken]: its loops consume one
    input byte per round. *)
Definition lexer_fuel (l : Lexer) : nat := S (S (String.length l.(input))).

Definition nextToken : M Parser unit :=
  fun p =>
    match NextToken (lexer_fuel p.(p_l)) p.(p_l) with
    | Done tok l' => Done tt (mkParser l' p.(peekToken) tok p.(errors))
    | Panic msg => Panic msg
    | OutOfFuel => OutOfFuel
    end.

Definition NewParser (l : Lexer) : outcome Parser unit :=
  (do nextToken then nextToken) (mkParser l Token_zero Token_zero []).

Definition Errors (p : Parser) : list string := p.(errors).

Definition addParseError (msg : string) : M Parser unit :=
  modify (fun p => mkParser p.(p_l) p.(curToken) p.(peekToken) (p.(errors) ++ [msg])).

Definition peekError (t : TokenType) : M Parser unit :=
  let* p := get in
  addParseError ("line " ++ itoa (Z.of_nat p.(peekToken).(tok_Line)) ++
                 ": expected next token to be " ++ TokenType_String t ++
                 ", got " ++ TokenType_String p.(peekToken).(tok_Type) ++ " instead").

Definition curTokenIs (t : TokenType) : M Parser bool :=
  gets (fun p => TokenType_eqb p.(curToken).(tok_Type) t).

Definition peekTokenIs (t : TokenType) : M Parser bool :=
  gets (fun p => TokenType_eqb p.(peekToken).(tok_Type) t).

Definition expectPeek (t : TokenType) : M Parser bool :=
  let* b := peekTokenIs t in
  if b then do nextToken then ret true
  else do peekError t then ret false.

Definition curPrecedence : M Parser Z :=
  gets (fun p => match precedences p.(curToken).(tok_Type) with
                 | Some z => z
                 | None => LOWEST
                 end).

Definition peekPrecedence : M Parser Z :=
  gets (fun p => match precedences p.(peekToken).(tok_Type) with
                 | Some z => z
                 | None => LOWEST
                 end).

(** A Go [for] loop with loop-carried variables [a], [break], and a
    [return] from the enclosing function. *)
Inductive loop_ctl (A R : Type) : Type :=
| LoopNext (a : A)
| LoopBreak (a : A)
| LoopReturn (r : R).
Arguments LoopNext {A R} a.
Arguments LoopBreak {A R} a.
Arguments LoopReturn {A R} r.

Fixpoint loop {St A R} (fuel : nat) (cond : St -> bool)
    (body : A -> M St (loop_ctl A R)) (a : A) : M St (A + R) :=
  match fuel with
  | O => out_of_fuel
  | S n => fun s =>
    if cond s then
      match body a s with
      | Done (LoopNext a') s' => loop n cond body a' s'
      | Done (LoopBreak a') s' => Done (inl a') s'
      | Done (LoopReturn r) s' => Done (inr r) s'
      | Panic msg => Panic msg
      | OutOfFuel => OutOfFuel
      end
    else Done (inl a) s
  end.

Definition cur_is (t : TokenType) (p : Parser) : bool :=
  TokenType_eqb p.(curToken).(tok_Type) t.
Definition peek_is (t : TokenType) (p : Parser) : bool :=
  TokenType_eqb p.(peekToken).(tok_Type) t.

Definition skipNewlines (fuel : nat) : M Parser unit :=
  while_loop fuel (cur_is NEWLINE) nextToken.

Definition curIdentifier : M Parser Identifier :=
  gets (fun p => mkIdentifier p.(curToken) p.(curToken).(tok_Literal)).

Fixpoint parseTypeAnnotation (fuel : nat) : M Parser TypeAnnotation :=
  match fuel with
  | O => out_of_fuel
  | S n =>
    let* tok := gets curToken in
    let* br := peekTokenIs LBRACKET in
    let* params :=
      (if br then
         do nextToken then
         do nextToken then
         let* r := loop (R := Empty_set) fuel (fun p => negb (cur_is RBRACKET p))
                     (fun acc =>
                        let* param := parseTypeAnnotation n in
                        let acc' := (acc ++ [param])%list in
                        let* comma := peekTokenIs COMMA in
                        if comma then do nextToken then do nextToken then ret (LoopNext acc')
                        else
                          let* rb := peekTokenIs RBRACKET in
                          if rb then do nextToken then ret (LoopNext acc')
                          else ret (LoopBreak acc'))
                     [] in
         match r with
         | inl acc => ret acc
         | inr e => match e with end
         end
       else ret []) in
    ret (mkTypeAnnotation tok tok.(tok_Literal) params)
  end.

Definition parseOptionalTypeHint (fuel : nat) : M Parser (option TypeAnnotation) :=
  let* colon := peekTokenIs COLON in
  if colon then
    do nextToken then
    do nextToken then
    let* ta := parseTypeAnnotation fuel in ret (Some ta)
  else ret None.

(** [nil] is [None]. *)
Definition parseFunctionParameters (fuel : nat) : M Parser (option (list FunctionParameter)) :=
  let* rp := peekTokenIs RPAREN in
  if rp then do nextToken then ret (Some [])
  else
    do nextToken then
    let* name := curIdentifier in
    let* hint := parseOptionalTypeHint fuel in
    let* r := loop (R := Empty_set) fuel (peek_is COMMA)
                (fun acc =>
                   do nextToken then
                   do nextToken then
                   let* name := curIdentifier in
                   let* hint := parseOptionalTypeHint fuel in
                   ret (LoopNext (acc ++ [mkFunctionParameter name hint])%list))
                [mkFunctionParameter name hint] in
    match r with
    | inl params =>
      let* ok := expectPeek RPAREN in
      if ok then ret (Some params) else ret None
    | inr e => match e with end
    end.

(** [m[k] = v] on the maps of the syntax tree. *)
Fixpoint assoc_set {V} (k : string) (v : V) (l : list (string * V)) : list (string * V) :=
  match l with
  | [] => [(k, v)]
  | (k', v') :: rest =>
    if String.eqb k k' then (k, v) :: rest else (k', v') :: assoc_set k v rest
  end.

Definition is_NilExpression (e : Expression) : bool :=
  match e with NilExpression => true | _ => false end.

(** [ml.Pairs[key] = value]: keys are node pointers, so every parsed key is
    new; only the nil key can occur twice. *)
Fixpoint pairs_set (k v : Expression) (l : list (Expression * Expression))
    : list (Expression * Expression) :=
  match l with
  | [] => [(k, v)]
  | (k', v') :: rest =>
    if is_NilExpression k && is_NilExpression k' then (k, v) :: rest
    else (k', v') :: pairs_set k v rest
  end.

(** [strconv.ParseInt(s, 0, 64)] on a string of decimal digits, which is
    what the lexer produces for an INTEGER token: base 0 reads a leading
    zero as octal.  Other strings are rejected. *)
Fixpoint parse_digits (base : Z) (s : string) (acc : Z) : option Z :=
  match s with
  | EmptyString => Some acc
  | String c rest =>
    let d := Z.of_nat (nat_of_ascii c) - 48 in
    if (0 <=? d) && (d <? base) then parse_digits base rest (acc * base + d)
    else None
  end.

Definition ParseInt (s : string) : option Z :=
  match s with
  | EmptyString => None
  | String c rest =>
    let r := match rest with
             | EmptyString => parse_digits 10 s 0
             | _ => if Ascii.eqb c "0" then parse_digits 8 rest 0 else parse_digits 10 s 0
             end in
    match r with
    | Some z => if z <=? 9223372036854775807 then Some z else None
    | None => None
    end
  end.

Section Parsing.

Variable host : Host.

(** The recursive entry points, at one unit of fuel less. *)
Record ParserRec : Type := mkParserRec {
  rec_parseExpression : Z -> M Parser Expression;
  rec_parseStatement : M Parser Statement
}.

Variable rec : ParserRec.
Variable fuel : nat.

Definition not_block_end (p : Parser) : bool :=
  negb (cur_is RBRACE p) && negb (cur_is EOF p).

Definition skipSeparator : M Parser unit :=
  do nextToken then
  let* p := get in
  do when (cur_is COMMA p || cur_is NEWLINE p) nextToken then
  skipNewlines fuel.

Definition parseBlockStatement : M Parser BlockStatement :=
  let* tok := gets curToken in
  do nextToken then
  do skipNewlines fuel then
  let* r := loop (R := Empty_set) fuel not_block_end
              (fun acc =>
                 let* stmt := rec_parseStatement rec in
                 do nextToken then
                 do skipNewlines fuel then
                 ret (LoopNext (acc ++ [stmt])%list))
              [] in
  match r with
  | inl stmts => ret (mkBlockStatement tok stmts)
  | inr e => match e with end
  end.

Definition parseFunctionStatement : M Parser (option FunctionStatement) :=
  let* tok := gets curToken in
  let* ok := expectPeek IDENT in
  if negb ok then ret None else
  let* name := curIdentifier in
  let* ok := expectPeek LPAREN in
  if negb ok then ret None else
  let* params := parseFunctionParameters fuel in
  let* arrow := peekTokenIs ARROW in
  let* retType :=
    (if arrow then
       do nextToken then
       do nextToken then
       let* ta := parseTypeAnnotation fuel in ret (Some ta)
     else ret None) in
  let* ok := expectPeek LBRACE in
  if negb ok then ret None else
  let* body := parseBlockStatement in
  ret (Some (mkFunctionStatement tok name (default [] params) retType body)).

Definition parseDefStatement : M Parser Statement :=
  let* tok := gets curToken in
  let* ok := expectPeek IDENT in
  if negb ok then ret NilStatement else
  let* name := curIdentifier in
  let* hint := parseOptionalTypeHint fuel in
  let* ok := expectPeek ASSIGN in
  if negb ok then ret NilStatement else
  do nextToken then
  let* v := rec_parseExpression rec LOWEST in
  ret (DefStatement tok name hint v).

Definition parseReturnStatement : M Parser Statement :=
  let* tok := gets curToken in
  do nextToken then
  let* p := get in
  if negb (cur_is NEWLINE p) && negb (cur_is RBRACE p) && negb (cur_is EOF p) then
    let* v := rec_parseExpression rec LOWEST in
    ret (ReturnStatement tok v)
  else ret (ReturnStatement tok NilExpression).

Definition parseWhileStatement : M Parser Statement :=
  let* tok := gets curToken in
  do nextToken then
  let* c := rec_parseExpression rec LOWEST in
  let* ok := expectPeek LBRACE in
  if negb ok then ret NilStatement else
  let* body := parseBlockStatement in
  ret (WhileStatement tok c body).

Definition parseForStatement : M Parser Statement :=
  let* tok := gets curToken in
  let* ok := expectPeek IDENT in
  if negb ok then ret NilStatement else
  let* var := curIdentifier in
  let* ok := expectPeek IN in
  if negb ok then ret NilStatement else
  do nextToken then
  let* it := rec_parseExpression rec LOWEST in
  let* ok := expectPeek LBRACE in
  if negb ok then ret NilStatement else
  let* body := parseBlockStatement in
  ret (ForStatement tok var it body).

Definition parseStructFields : M Parser (list StructField) :=
  do nextToken then
  do skipNewlines fuel then
  let* r := loop (R := Empty_set) fuel not_block_end
              (fun acc =>
                 let* name := curIdentifier in
                 let* hint := parseOptionalTypeHint fuel in
                 do skipSeparator then
                 ret (LoopNext (acc ++ [mkStructField name hint])%list))
              [] in
  match r with
  | inl fields => ret fields
  | inr e => match e with end
  end.

Definition parseStructStatement : M Parser Statement :=
  let* tok := gets curToken in
  let* ok := expectPeek IDENT in
  if negb ok then ret NilStatement else
  let* name := curIdentifier in
  let* ok := expectPeek LBRACE in
  if negb ok then ret NilStatement else
  let* fields := parseStructFields in
  ret (StructStatement tok name fields).

Definition parseExtendStatement : M Parser Statement :=
  let* tok := gets curToken in
  let* ok := expectPeek IDENT in
  if negb ok then ret NilStatement else
  let* name := curIdentifier in
  let* ok := expectPeek LBRACE in
  if negb ok then ret NilStatement else
  do nextToken then
  do skipNewlines fuel then
  let* r := loop (R := Empty_set) fuel not_block_end
              (fun acc =>
                 let* isFun := curTokenIs FUN in
                 let* acc' :=
                   (if isFun then
                      let* method := parseFunctionStatement in
                      match method with
                      | Some m => ret (acc ++ [m])%list
                      | None => ret acc
                      end
                    else ret acc) in
                 do nextToken then
                 do skipNewlines fuel then
                 ret (LoopNext acc'))
              [] in
  match r with
  | inl methods => ret (ExtendStatement tok name methods)
  | inr e => match e with end
  end.

Definition parseImportStatement : M Parser Statement :=
  let* tok := gets curToken in
  do nextToken then
  let* first := gets (fun p => p.(curToken).(tok_Literal)) in
  let* r := loop (R := Empty_set) fuel (peek_is DOT)
              (fun acc =>
                 do nextToken then
                 do nextToken then
                 let* lit := gets (fun p => p.(curToken).(tok_Literal)) in
                 ret (LoopNext (acc ++ [lit])%list))
              [first] in
  match r with
  | inl path => ret (ImportStatement tok path)
  | inr e => match e with end
  end.

Definition parseExpressionStatement : M Parser Statement :=
  let* tok := gets curToken in
  let* e := rec_parseExpression rec LOWEST in
  ret (ExpressionStatement tok e).

Definition parseExpressionList (endTok : TokenType) : M Parser (option (list Expression)) :=
  let* isEnd := peekTokenIs endTok in
  if isEnd then do nextToken then ret (Some [])
  else
    do nextToken then
    let* e := rec_parseExpression rec LOWEST in
    let* r := loop (R := Empty_set) fuel (peek_is COMMA)
                (fun acc =>
                   do nextToken then
                   do nextToken then
                   let* e := rec_parseExpression rec LOWEST in
                   ret (LoopNext (acc ++ [e])%list))
                [e] in
    match r with
    | inl l =>
      let* ok := expectPeek endTok in
      if ok then ret (Some l) else ret None
    | inr e => match e with end
    end.

(** The shared body of [parseStructLiteralBody] and [parseWithExpression]:
    [name: value] entries up to the closing brace; [None] is the early
    [return nil]. *)
Definition parseFieldEntries : M Parser (option (list (string * Expression))) :=
  let* r := loop fuel not_block_end
              (fun acc =>
                 let* fieldName := gets (fun p => p.(curToken).(tok_Literal)) in
                 let* ok := expectPeek COLON in
                 if negb ok then ret (LoopReturn tt) else
                 do nextToken then
                 let* v := rec_parseExpression rec LOWEST in
                 do skipSeparator then
                 ret (LoopNext (assoc_set fieldName v acc)))
              [] in
  match r with
  | inl fields => ret (Some fields)
  | inr _ => ret None
  end.

Definition parseStructLiteralBody (name : Identifier) : M Parser Expression :=
  let* tok := gets curToken in
  do nextToken then
  do skipNewlines fuel then
  let* fields := parseFieldEntries in
  match fields with
  | Some fs => ret (StructLiteral tok name fs)
  | None => ret NilExpression
  end.

Definition maybeParseStructLiteral (name : Identifier) : M Parser Expression :=
  let* lb := peekTokenIs LBRACE in
  let upper := match name.(id_Value) with
               | EmptyString => false
               | String c _ => byte_in "A" "Z" c
               end in
  if upper && lb then do nextToken then parseStructLiteralBody name
  else ret (IdentifierE name).

Definition parseIdentifier : M Parser Expression :=
  let* ident := curIdentifier in
  let* lb := peekTokenIs LBRACE in
  if lb then maybeParseStructLiteral ident else ret (IdentifierE ident).

Definition parseIntegerLiteral : M Parser Expression :=
  let* tok := gets curToken in
  match ParseInt tok.(tok_Literal) with
  | Some v => ret (IntegerLiteral tok v)
  | None =>
    do addParseError ("line " ++ itoa (Z.of_nat tok.(tok_Line)) ++ ": could not parse " ++
                      Quote host tok.(tok_Literal) ++ " as integer") then
    ret NilExpression
  end.

Definition parseFloatLiteral : M Parser Expression :=
  let* tok := gets curToken in
  match ParseFloat host tok.(tok_Literal) with
  | Some v => ret (FloatLiteral tok v)
  | None =>
    do addParseError ("line " ++ itoa (Z.of_nat tok.(tok_Line)) ++ ": could not parse " ++
                      Quote host tok.(tok_Literal) ++ " as float") then
    ret NilExpression
  end.

Definition parseStringLiteral : M Parser Expression :=
  let* tok := gets curToken in ret (StringLiteral tok tok.(tok_Literal)).

Definition parseBooleanLiteral : M Parser Expression :=
  let* tok := gets curToken in
  ret (BooleanLiteral tok (TokenType_eqb tok.(tok_Type) TRUE)).

Definition parsePrefixExpression : M Parser Expression :=
  let* tok := gets curToken in
  do nextToken then
  let* r := rec_parseExpression rec PREFIX_PREC in
  ret (PrefixExpression tok tok.(tok_Literal) r).

Definition parseInfixExpression (left : Expression) : M Parser Expression :=
  let* tok := gets curToken in
  let* precedence := curPrecedence in
  do nextToken then
  let* r := rec_parseExpression rec precedence in
  ret (InfixExpression tok left tok.(tok_Literal) r).

Definition parseAssignmentExpression (left : Expression) : M Parser Expression :=
  match left with
  | IdentifierE ident =>
    let* tok := gets curToken in
    do nextToken then
    let* v := rec_parseExpression rec LOWEST in
    ret (AssignmentExpression tok ident v)
  | _ =>
    let* tok := gets curToken in
    do addParseError ("line " ++ itoa (Z.of_nat tok.(tok_Line)) ++
                      ": left side of == must be an identifier") then
    ret NilExpression
  end.

Definition parseGroupedExpression : M Parser Expression :=
  do nextToken then
  let* e := rec_parseExpression rec LOWEST in
  let* ok := expectPeek RPAREN in
  if ok then ret e else ret NilExpression.

Definition parseListLiteral : M Parser Expression :=
  let* tok := gets curToken in
  let* elems := parseExpressionList RBRACKET in
  ret (ListLiteral tok (default [] elems)).

Definition parseLambdaWithFirstParam (token : Token) : M Parser Expression :=
  let* param := curIdentifier in
  do nextToken then
  do nextToken then
  let* body := rec_parseExpression rec LOWEST in
  let* ok := expectPeek RBRACE in
  if ok then ret (FunctionLiteral token [param] body) else ret NilExpression.

Definition parseLambdaMultiParam (token : Token) : M Parser Expression :=
  let* param := curIdentifier in
  let* r := loop (R := Empty_set) fuel (peek_is COMMA)
              (fun acc =>
                 do nextToken then
                 do nextToken then
                 let* param := curIdentifier in
                 ret (LoopNext (acc ++ [param])%list))
              [param] in
  match r with
  | inl params =>
    let* ok := expectPeek ARROW in
    if negb ok then ret NilExpression else
    do nextToken then
    let* body := rec_parseExpression rec LOWEST in
    let* ok := expectPeek RBRACE in
    if ok then ret (FunctionLiteral token params body) else ret NilExpression
  | inr e => match e with end
  end.

Definition parseMapLiteralBody (token : Token) : M Parser Expression :=
  let* r := loop fuel not_block_end
              (fun acc =>
                 let* key := rec_parseExpression rec LOWEST in
                 let* ok := expectPeek COLON in
                 if negb ok then ret (LoopReturn tt) else
                 do nextToken then
                 let* value := rec_parseExpression rec LOWEST in
                 do skipSeparator then
                 ret (LoopNext (pairs_set key value acc)))
              [] in
  match r with
  | inl pairs => ret (MapLiteral token pairs)
  | inr _ => ret NilExpression
  end.

Definition parseBraceExpression : M Parser Expression :=
  let* token := gets curToken in
  do nextToken then
  do skipNewlines fuel then
  let* p := get in
  if cur_is RBRACE p then ret (MapLiteral token [])
  else if cur_is IDENT p && peek_is ARROW p then parseLambdaWithFirstParam token
  else if cur_is IDENT p && peek_is COMMA p then parseLambdaMultiParam token
  else parseMapLiteralBody token.

Definition parseIfExpression : M Parser Expression :=
  let* tok := gets curToken in
  do nextToken then
  let* c := rec_parseExpression rec LOWEST in
  let* ok := expectPeek LBRACE in
  if negb ok then ret NilExpression else
  let* conseq := parseBlockStatement in
  let* isElse := peekTokenIs ELSE in
  if isElse then
    do nextToken then
    let* ok := expectPeek LBRACE in
    if negb ok then ret NilExpression else
    let* alt := parseBlockStatement in
    ret (IfExpression tok c conseq (Some alt))
  else ret (IfExpression tok c conseq None).

(** The type assertion of [expr] to an if-expression panics when
    [parseIfExpression] returned nil. *)
Definition parseIfStatement : M Parser Statement :=
  let* expr := parseIfExpression in
  match expr with
  | IfExpression tok _ _ _ => ret (ExpressionStatement tok expr)
  | _ => panic "interface conversion: interface is nil, not *main.IfExpression"
  end.

Definition parseCallExpression (function : Expression) : M Parser Expression :=
  let* tok := gets curToken in
  let* args := parseExpressionList RPAREN in
  ret (CallExpression tok function (default [] args)).

Definition parseWithExpression (object : Expression) : M Parser Expression :=
  let* tok := gets curToken in
  do nextToken then
  do nextToken then
  do skipNewlines fuel then
  let* updates := parseFieldEntries in
  match updates with
  | Some us => ret (WithExpression tok object us)
  | None => ret NilExpression
  end.

Definition parseMemberExpression (object : Expression) : M Parser Expression :=
  let* tok := gets curToken in
  let* ok := expectPeek IDENT in
  if negb ok then ret NilExpression else
  let* member := curIdentifier in
  let* lb := peekTokenIs LBRACE in
  if String.eqb member.(id_Value) "with" && lb then parseWithExpression object
  else ret (MemberExpression tok object member).

Definition parseIndexExpression (left : Expression) : M Parser Expression :=
  let* tok := gets curToken in
  do nextToken then
  let* idx := rec_parseExpression rec LOWEST in
  let* ok := expectPeek RBRACKET in
  if ok then ret (IndexExpression tok left idx) else ret NilExpression.

Definition parseOptionExpression : M Parser Expression :=
  let* tok := gets curToken in
  if TokenType_eqb tok.(tok_Type) NONE then ret (OptionExpression tok false NilExpression)
  else
    let* ok := expectPeek LPAREN in
    if negb ok then ret NilExpression else
    do nextToken then
    let* v := rec_parseExpression rec LOWEST in
    let* ok := expectPeek RPAREN in
    if ok then ret (OptionExpression tok true v) else ret NilExpression.

Definition parseResultExpression : M Parser Expression :=
  let* tok := gets curToken in
  let isOk := TokenType_eqb tok.(tok_Type) OK in
  let* ok := expectPeek LPAREN in
  if negb ok then ret NilExpression else
  do nextToken then
  let* v := rec_parseExpression rec LOWEST in
  let* ok := expectPeek RPAREN in
  if ok then ret (ResultExpression tok isOk v) else ret NilExpression.

Definition parseMatchCase : M Parser (option MatchCase) :=
  let* pat := rec_parseExpression rec LOWEST in
  let binding :=
    match pat with
    | OptionExpression _ true (IdentifierE ident) => Some ident
    | ResultExpression _ _ (IdentifierE ident) => Some ident
    | _ => None
    end in
  let* ok := expectPeek ARROW in
  if negb ok then ret None else
  let* ok := expectPeek LBRACE in
  if negb ok then
    (* Single expression form *)
    do nextToken then
    let* expr := rec_parseExpression rec LOWEST in
    ret (Some (mkMatchCase pat binding
                 (mkBlockStatement Token_zero [ExpressionStatement Token_zero expr])))
  else
    let* body := parseBlockStatement in
    ret (Some (mkMatchCase pat binding body)).

Definition parseMatchExpression : M Parser Expression :=
  let* tok := gets curToken in
  do nextToken then
  let* v := rec_parseExpression rec LOWEST in
  let* ok := expectPeek LBRACE in
  if negb ok then ret NilExpression else
  do nextToken then
  do skipNewlines fuel then
  let* r := loop (R := Empty_set) fuel not_block_end
              (fun acc =>
                 let* matchCase := parseMatchCase in
                 let acc' := match matchCase with
                             | Some c => (acc ++ [c])%list
                             | None => acc
                             end in
                 do nextToken then
                 do skipNewlines fuel then
                 ret (LoopNext acc'))
              [] in
  match r with
  | inl cases => ret (MatchExpression tok v cases)
  | inr e => match e with end
  end.

Definition parseMutableExpression : M Parser Expression :=
  let* tok := gets curToken in
  let* lb := peekTokenIs LBRACKET in
  let* hint :=
    (if lb then
       do nextToken then
       do nextToken then
       let* ta := parseTypeAnnotation fuel in
       let* ok := expectPeek RBRACKET in
       ret (if ok then Some (Some ta) else None)
     else ret (Some None)) in
  match hint with
  | None => ret NilExpression
  | Some h =>
    let* ok := expectPeek LPAREN in
    if negb ok then ret NilExpression else
    do nextToken then
    let* v := rec_parseExpression rec LOWEST in
    let* ok := expectPeek RPAREN in
    if ok then ret (MutableExpression tok h v) else ret NilExpression
  end.

(** [prefixParseFns], as registered by [NewParser]. *)
Definition prefixParseFns (t : TokenType) : option (M Parser Expression) :=
  match t with
  | IDENT => Some parseIdentifier
  | INTEGER => Some parseIntegerLiteral
  | FLOAT => Some parseFloatLiteral
  | STRING => Some parseStringLiteral
  | TRUE | FALSE => Some parseBooleanLiteral
  | MINUS | NOT => Some parsePrefixExpression
  | LPAREN => Some parseGroupedExpression
  | LBRACKET => Some parseListLiteral
  | LBRACE => Some parseBraceExpression
  | IF => Some parseIfExpression
  | SOME | NONE => Some parseOptionExpression
  | OK | ERROR => Some parseResultExpression
  | MATCH => Some parseMatchExpression
  | MUTABLE => Some parseMutableExpression
  | _ => None
  end.

(** [infixParseFns], as registered by [NewParser]. *)
Definition infixParseFns (t : TokenType) : option (Expression -> M Parser Expression) :=
  match t with
  | PLUS | MINUS | MULTIPLY | DIVIDE | MODULO
  | GT | LT | GTE | LTE | AND | OR | IS => Some parseInfixExpression
  | LPAREN => Some parseCallExpression
  | DOT => Some parseMemberExpression
  | LBRACKET => Some parseIndexExpression
  | ASSIGN_MUT => Some parseAssignmentExpression
  | _ => None
  end.

Definition parseExpression (precedence : Z) : M Parser Expression :=
  let* tok := gets curToken in
  match prefixParseFns tok.(tok_Type) with
  | None =>
    do addParseError ("line " ++ itoa (Z.of_nat tok.(tok_Line)) ++
                      ": no prefix parse function for " ++
                      TokenType_String tok.(tok_Type) ++ " found") then
    ret NilExpression
  | Some prefix =>
    let* leftExp := prefix in
    let* r := loop (R := Empty_set) fuel
                (fun p => negb (peek_is NEWLINE p) && negb (peek_is EOF p) &&
                          (precedence <? match precedences p.(peekToken).(tok_Type) with
                                         | Some z => z
                                         | None => LOWEST
                                         end))
                (fun leftExp =>
                   let* pk := gets peekToken in
                   match infixParseFns pk.(tok_Type) with
                   | None => ret (LoopBreak leftExp)
                   | Some infix =>
                     do nextToken then
                     let* e := infix leftExp in
                     ret (LoopNext e)
                   end)
                leftExp in
    match r with
    | inl e => ret e
    | inr e => match e with end
    end
  end.

(** A nil [*FunctionStatement] converted to [Statement] is a non-nil
    interface holding a nil pointer. *)
Definition parseStatement : M Parser Statement :=
  let* tok := gets curToken in
  match tok.(tok_Type) with
  | DEF => parseDefStatement
  | FUN =>
    let* f := parseFunctionStatement in
    ret (match f with Some f => FunctionStmt f | None => NilStatement end)
  | RETURN => parseReturnStatement
  | IF => parseIfStatement
  | WHILE => parseWhileStatement
  | FOR => parseForStatement
  | BREAK => ret (BreakStatement tok)
  | CONTINUE => ret (ContinueStatement tok)
  | STRUCT => parseStructStatement
  | EXTEND => parseExtendStatement
  | IMPORT => parseImportStatement
  | _ => parseExpressionStatement
  end.

End Parsing.

(** Tying the knot: one unit of fuel per nesting level of the recursive
    descent. *)
Fixpoint parser_rec (host : Host) (fuel depth : nat) : ParserRec :=
  match depth with
  | O => mkParserRec (fun _ => out_of_fuel) out_of_fuel
  | S d =>
    let r := parser_rec host fuel d in
    mkParserRec (parseExpression host r fuel) (parseStatement r fuel)
  end.

(** [ParseProgram].  The statement returned by [parseStatement] is never a
    nil interface, so it is always appended. *)
Definition ParseProgram (host : Host) (fuel : nat) : M Parser Program :=
  let* r := loop (R := Empty_set) fuel (fun p => negb (cur_is EOF p))
              (fun acc =>
                 do skipNewlines fuel then
                 let* eof := curTokenIs EOF in
                 if eof then ret (LoopBreak acc) else
                 let* stmt := rec_parseStatement (parser_rec host fuel fuel) in
                 do nextToken then
                 ret (LoopNext (acc ++ [stmt])%list))
              [] in
  match r with
  | inl stmts => ret (mkProgram stmts)
  | inr e => match e with end
  end.

(** Lexing and parsing of a source text: the program and the parse errors. *)
Definition parse_source (host : Host) (fuel : nat) (src : string)
    : outcome Parser (Program * list string) :=
  match NewParser (NewLexer src) with
  | Done _ p =>
    (let* prog := ParseProgram host fuel in
     let* errs := gets Errors in
     ret (prog, errs)) p
  | Panic msg => Panic msg
  | OutOfFuel => OutOfFuel
  end.

(** ** The type system (second half of ast.go) *)

(** [NilStructType] is the nil [*StructType] that a lookup in
    [tc.structs] yields for an unregistered name, stored in a [Type]
    interface. *)
Inductive Ty : Type :=
| IntegerType
| FloatType
| StringType
| BooleanType
| NullType
| ListType (Element : Ty)
| MapType (Key : Ty) (Value : Ty)
| OptionType (Element : Ty)
| ResultType (ValueType : Ty) (ErrorType : Ty)
| MutableType (Element : Ty)
| FunctionType (Parameters : list Ty) (Return : Ty)
| StructType (Name : string) (Fields : gmap string Ty)
| NilStructType
| AnyType.

(** [String]; [None] is the panic of reading a field through a nil pointer. *)
Fixpoint Ty_String (t : Ty) : option string :=
  match t with
  | IntegerType => Some "Integer"
  | FloatType => Some "Float"
  | StringType => Some "String"
  | BooleanType => Some "Boolean"
  | NullType => Some "Null"
  | ListType e => opt_bind (Ty_String e) (fun s => Some ("List[" ++ s ++ "]"))
  | MapType k v =>
    opt_bind (Ty_String k) (fun ks =>
    opt_bind (Ty_String v) (fun vs => Some ("Map[" ++ ks ++ ", " ++ vs ++ "]")))
  | OptionType e => opt_bind (Ty_String e) (fun s => Some ("Option[" ++ s ++ "]"))
  | ResultType v e =>
    opt_bind (Ty_String v) (fun vs =>
    opt_bind (Ty_String e) (fun es => Some ("Result[" ++ vs ++ ", " ++ es ++ "]")))
  | MutableType e => opt_bind (Ty_String e) (fun s => Some ("Mutable[" ++ s ++ "]"))
  | FunctionType ps r =>
    opt_bind (mapM_option Ty_String ps) (fun pss =>
    opt_bind (Ty_String r) (fun rs => Some ("(" ++ Join pss ", " ++ ") -> " ++ rs)))
  | StructType name _ => Some name
  | NilStructType => None
  | AnyType => Some "Any"
  end.

(** [t.Equals(o)]. *)
Fixpoint Equals (t o : Ty) {struct t} : option bool :=
  match t with
  | IntegerType => Some (match o with IntegerType => true | _ => false end)
  | FloatType => Some (match o with FloatType => true | _ => false end)
  | StringType => Some (match o with StringType => true | _ => false end)
  | BooleanType => Some (match o with BooleanType => true | _ => false end)
  | NullType => Some (match o with NullType => true | _ => false end)
  | ListType e => match o with ListType oe => Equals e oe | _ => Some false end
  | MapType k v =>
    match o with
    | MapType ok_ ov =>
      opt_bind (Equals k ok_) (fun b => if b then Equals v ov else Some false)
    | _ => Some false
    end
  | OptionType e => match o with OptionType oe => Equals e oe | _ => Some false end
  | ResultType v e =>
    match o with
    | ResultType ov oe =>
      opt_bind (Equals v ov) (fun b => if b then Equals e oe else Some false)
    | _ => Some false
    end
  | MutableType e => match o with MutableType oe => Equals e oe | _ => Some false end
  | FunctionType ps r =>
    match o with
    | FunctionType ops or_ =>
      if negb (length ps =? length ops)%nat then Some false
      else
        let params_equal :=
          (fix go (ps ops : list Ty) : option bool :=
             match ps, ops with
             | p :: ps', op :: ops' =>
               opt_bind (Equals p op) (fun b => if b then go ps' ops' else Some false)
             | _, _ => Some true
             end) ps ops in
        opt_bind params_equal (fun b => if b then Equals r or_ else Some false)
    | _ => Some false
    end
  | StructType name _ =>
    match o with
    | StructType oname _ => Some (String.eqb name oname)
    | NilStructType => None
    | _ => Some false
    end
  | NilStructType =>
    match o with
    | StructType _ _ | NilStructType => None
    | _ => Some false
    end
  | AnyType => Some true
  end.

Fixpoint TypeFromAnnotation (ta : TypeAnnotation) : Ty :=
  match ta with
  | mkTypeAnnotation _ name params =>
    let first := match params with
                 | p :: _ => Some (TypeFromAnnotation p)
                 | [] => None
                 end in
    let second := match params with
                  | _ :: p :: _ => Some (TypeFromAnnotation p)
                  | _ => None
                  end in
    if String.eqb name "Integer" then IntegerType
    else if String.eqb name "Float" then FloatType
    else if String.eqb name "String" then StringType
    else if String.eqb name "Boolean" then BooleanType
    else if String.eqb name "List" then ListType (default AnyType first)
    else if String.eqb name "Map" then MapType StringType (default AnyType second)
    else if String.eqb name "Option" then OptionType (default AnyType first)
    else if String.eqb name "Result" then
      ResultType (default AnyType first) (default StringType second)
    else if String.eqb name "Mutable" then MutableType (default AnyType first)
    else StructType name ∅
  end.

(** [TypeFromAnnotation] of a possibly nil annotation. *)
Definition TypeFromAnnotation_opt (ta : option TypeAnnotation) : Ty :=
  match ta with
  | None => AnyType
  | Some ta => TypeFromAnnotation ta
  end.

(** ** checker.go *)

(** [tc.env] is a chain of scopes; the checker pushes a scope and restores
    the previous one in strict stack order, so the chain is a list with the
    innermost scope first.  [functions] maps a name to the parameter and
    return types of its [*FunctionType]. *)
Record TypeChecker : Type := mkTypeChecker {
  tc_env : list (gmap string Ty);
  tc_structs : gmap string Ty;
  tc_functions : gmap string (list Ty * Ty);
  tc_errors : list string
}.

Abbreviation TC := (M TypeChecker).

Fixpoint TypeEnvironment_Get (env : list (gmap string Ty)) (name : string) : option Ty :=
  match env with
  | [] => None
  | store :: parent =>
    match store !! name with
    | Some t => Some t
    | None => TypeEnvironment_Get parent name
    end
  end.

Definition TypeEnvironment_Set (env : list (gmap string Ty)) (name : string) (t : Ty)
    : list (gmap string Ty) :=
  match env with
  | [] => [ {[ name := t ]} ]
  | store :: parent => <[ name := t ]> store :: parent
  end.

Definition env_Set (name : string) (t : Ty) : TC unit :=
  modify (fun tc => mkTypeChecker (TypeEnvironment_Set tc.(tc_env) name t)
                      tc.(tc_structs) tc.(tc_functions) tc.(tc_errors)).

Definition env_Get (name : string) : TC (option Ty) :=
  gets (fun tc => TypeEnvironment_Get tc.(tc_env) name).

(** [tc.env = NewEnclosedTypeEnvironment(prevEnv)] and [tc.env = prevEnv]. *)
Definition push_scope : TC unit :=
  modify (fun tc => mkTypeChecker (∅ :: tc.(tc_env))
                      tc.(tc_structs) tc.(tc_functions) tc.(tc_errors)).
Definition pop_scope : TC unit :=
  modify (fun tc => mkTypeChecker (tail tc.(tc_env))
                      tc.(tc_structs) tc.(tc_functions) tc.(tc_errors)).

Definition addError (msg : string) : TC unit :=
  modify (fun tc => mkTypeChecker tc.(tc_env) tc.(tc_structs) tc.(tc_functions)
                      (tc.(tc_errors) ++ [msg])%list).

Definition nil_deref : string := "invalid memory address or nil pointer dereference".

(** Lifting of a computation that panics on [None]. *)
Definition or_panic {St A} (o : option A) : M St A :=
  match o with
  | Some a => ret a
  | None => panic nil_deref
  end.

Definition NewTypeChecker : TypeChecker :=
  let anyFn (r : Ty) := FunctionType [AnyType] r in
  mkTypeChecker
    [ <["float" := anyFn FloatType]>
      (<["int" := anyFn IntegerType]>
      (<["str" := anyFn StringType]>
      (<["type" := anyFn StringType]>
      (<["len" := anyFn IntegerType]>
      (<["range" := FunctionType [IntegerType; IntegerType] (ListType IntegerType)]>
      (<["println" := anyFn NullType]>
      (<["print" := anyFn NullType]> ∅))))))) ]
    ∅ ∅ [].

Definition collectStruct (name : Identifier) (fields : list StructField) : TC unit :=
  let fieldTypes :=
    fold_left (fun (m : gmap string Ty) f =>
                 <[ f.(sf_Name).(id_Value) := TypeFromAnnotation_opt f.(sf_TypeHint) ]> m)
              fields ∅ in
  let st := StructType name.(id_Value) fieldTypes in
  do modify (fun tc => mkTypeChecker tc.(tc_env) (<[ name.(id_Value) := st ]> tc.(tc_structs))
                         tc.(tc_functions) tc.(tc_errors)) then
  env_Set name.(id_Value) st.

Definition collectFunction (stmt : FunctionStatement) : TC unit :=
  let params := map (fun p => TypeFromAnnotation_opt p.(fp_TypeHint)) (fs_Parameters stmt) in
  let returnType := TypeFromAnnotation_opt (fs_ReturnType stmt) in
  let name := (fs_Name stmt).(id_Value) in
  do modify (fun tc => mkTypeChecker tc.(tc_env) tc.(tc_structs)
                         (<[ name := (params, returnType) ]> tc.(tc_functions))
                         tc.(tc_errors)) then
  env_Set name (FunctionType params returnType).

Definition forM_ {St A} (f : A -> M St unit) : list A -> M St unit :=
  fix go (l : list A) : M St unit :=
    match l with
    | [] => ret tt
    | x :: r => do f x then go r
    end.

Definition collectExtend (methods : list FunctionStatement) : TC unit :=
  forM_ collectFunction methods.

(** Helper predicates. *)
Fixpoint isNumeric (t : Ty) : bool :=
  match t with
  | AnyType => true
  | MutableType e => isNumeric e
  | IntegerType | FloatType => true
  | _ => false
  end.

Fixpoint isInteger (t : Ty) : bool :=
  match t with
  | AnyType => true
  | MutableType e => isInteger e
  | IntegerType => true
  | _ => false
  end.

Fixpoint isString (t : Ty) : bool :=
  match t with
  | AnyType => true
  | MutableType e => isString e
  | StringType => true
  | _ => false
  end.

Fixpoint isBooleanCompatible (t : Ty) : bool :=
  match t with
  | AnyType => true
  | MutableType e => isBooleanCompatible e
  | BooleanType => true
  | _ => false
  end.

Definition unwrapMutableType (t : Ty) : Ty :=
  match t with
  | MutableType e => e
  | _ => t
  end.

Definition isAnyType (t : Ty) : bool :=
  match t with AnyType => true | _ => false end.

Definition isComparable (a b : Ty) : bool :=
  if isAnyType a then true
  else if isAnyType b then true
  else
    let a := unwrapMutableType a in
    let b := unwrapMutableType b in
    if isNumeric a && isNumeric b then true
    else if isString a && isString b then true
    else false.

(** [isAssignable]; [None] is a panic inside [Equals]. *)
Fixpoint isAssignable (expected actual : Ty) {struct actual} : option bool :=
  if isAnyType expected then Some true
  else
    match actual with
    | AnyType => Some true
    | MutableType e => isAssignable expected e
    | OptionType ae =>
      match expected with
      | OptionType ee => isAssignable ee ae
      | _ => Equals expected actual
      end
    | ResultType av _ =>
      match expected with
      | ResultType ev _ => isAssignable ev av
      | _ => Equals expected actual
      end
    | _ => Equals expected actual
    end.

Definition Ty_str (t : Ty) : TC string := or_panic (Ty_String t).
Definition assignable (expected actual : Ty) : TC bool := or_panic (isAssignable expected actual).

Definition checkIdentifier (ident : Identifier) : TC Ty :=
  let* t := env_Get ident.(id_Value) in
  match t with
  | Some t => ret t
  | None => do addError ("undefined: " ++ ident.(id_Value)) then ret AnyType
  end.

Definition is_arith_op (op : string) : bool :=
  String.eqb op "+" || String.eqb op "-" || String.eqb op "*" ||
  String.eqb op "/" || String.eqb op "%".

Definition is_compare_op (op : string) : bool :=
  String.eqb op ">" || String.eqb op "<" || String.eqb op ">=" || String.eqb op "<=".

Definition isFloatType (t : Ty) : bool :=
  match t with FloatType => true | _ => false end.

(** The body of [checkInfixExpression] after both operands are checked. *)
Definition checkInfixTypes (op : string) (leftType rightType : Ty) : TC Ty :=
  if is_arith_op op then
    let numericResult :=
      if isFloatType leftType then FloatType
      else if isFloatType rightType then FloatType
      else IntegerType in
    if negb (isNumeric leftType) || negb (isNumeric rightType) then
      if String.eqb op "+" && isString leftType && isString rightType then ret StringType
      else
        let* ls := Ty_str leftType in
        let* rs := Ty_str rightType in
        do addError ("operator " ++ op ++ " not defined for " ++ ls ++ " and " ++ rs) then
        ret numericResult
    else ret numericResult
  else if is_compare_op op then
    if negb (isComparable leftType rightType) then
      let* ls := Ty_str leftType in
      let* rs := Ty_str rightType in
      do addError ("cannot compare " ++ ls ++ " and " ++ rs) then
      ret BooleanType
    else ret BooleanType
  else if String.eqb op "and" || String.eqb op "or" then ret BooleanType
  else if String.eqb op "is" then ret BooleanType
  else ret AnyType.

(** The field loop shared by [checkStructLiteral] and [checkWithExpression],
    given the struct type and the already known check of a field value. *)
Definition checkField (stName : string) (stFields : gmap string Ty)
    (fieldName : string) (checkValue : TC Ty) : TC unit :=
  match stFields !! fieldName with
  | None => addError ("undefined field " ++ fieldName ++ " on " ++ stName)
  | Some expectedType =>
    let* actualType := checkValue in
    let* ok := assignable expectedType actualType in
    if negb ok then
      let* as_ := Ty_str actualType in
      let* es := Ty_str expectedType in
      addError ("cannot assign " ++ as_ ++ " to field " ++ fieldName ++ " of type " ++ es)
    else ret tt
  end.

Section Checking.

Variable host : Host.

(** [checkMapLiteral], [checkStructLiteral] and [checkWithExpression] range
    over a Go map of the syntax tree: the checks of the entries are run in
    the order of that [range]. *)
Fixpoint checkExpression (expr : Expression) : TC Ty :=
  match expr with
  | NilExpression => ret NullType
  | IntegerLiteral _ _ => ret IntegerType
  | FloatLiteral _ _ => ret FloatType
  | StringLiteral _ _ => ret StringType
  | BooleanLiteral _ _ => ret BooleanType
  | IdentifierE i => checkIdentifier i
  | PrefixExpression _ op r =>
    (* checkPrefixExpression *)
    let* rightType := checkExpression r in
    if String.eqb op "-" then
      do (if negb (isNumeric rightType) then
            let* rs := Ty_str rightType in
            addError ("operator - not defined for " ++ rs)
          else ret tt) then
      ret rightType
    else if String.eqb op "not" then ret BooleanType
    else ret AnyType
  | InfixExpression _ l op r =>
    (* checkInfixExpression *)
    let* leftType := checkExpression l in
    let* rightType := checkExpression r in
    checkInfixTypes op leftType rightType
  | AssignmentExpression _ name v =>
    (* checkAssignmentExpression *)
    let* varType := env_Get name.(id_Value) in
    match varType with
    | None => do addError ("undefined: " ++ name.(id_Value)) then ret AnyType
    | Some (MutableType elem) =>
      let* valueType := checkExpression v in
      let* ok := assignable elem valueType in
      do (if negb ok then
            let* vs := Ty_str valueType in
            let* es := Ty_str elem in
            addError ("cannot assign " ++ vs ++ " to Mutable[" ++ es ++ "]")
          else ret tt) then
      ret elem
    | Some _ => do addError (name.(id_Value) ++ " is not mutable") then ret AnyType
    end
  | IfExpression _ c conseq alt =>
    (* checkIfExpression *)
    let* condType := checkExpression c in
    do when (negb (isBooleanCompatible condType))
         (addError "if condition must be a boolean expression") then
    do push_scope then
    let* consType := checkBlockStatement conseq None in
    do pop_scope then
    match alt with
    | Some a =>
      do push_scope then
      let* altType := checkBlockStatement a None in
      do pop_scope then
      let* _ := assignable consType altType in
      ret consType
    | None => ret consType
    end
  | FunctionLiteral _ params _ =>
    (* checkFunctionLiteral *)
    ret (FunctionType (map (fun _ => AnyType) params) AnyType)
  | CallExpression _ f args =>
    (* checkCallExpression *)
    let* fnType := checkExpression f in
    let checkArgs :=
      (fix go (l : list Expression) : TC unit :=
         match l with
         | [] => ret tt
         | a :: rest => let* _ := checkExpression a in go rest
         end) in
    match fnType with
    | AnyType => do checkArgs args then ret AnyType
    | FunctionType fparams fret =>
      do (fix go (l : list Expression) (ps : list Ty) : TC unit :=
            match l with
            | [] => ret tt
            | a :: rest =>
              let* argType := checkExpression a in
              match ps with
              | p :: ps' => let* _ := assignable p argType in go rest ps'
              | [] => go rest []
              end
            end) args fparams then
      ret fret
    | StructType _ _ | NilStructType => ret fnType
    | _ => do checkArgs args then ret AnyType
    end
  | MemberExpression _ obj m =>
    (* checkMemberExpression *)
    let* objType := checkExpression obj in
    match unwrapMutableType objType with
    | StructType _ fields =>
      match fields !! m.(id_Value) with
      | Some fieldType => ret fieldType
      | None => ret AnyType
      end
    | NilStructType => panic nil_deref
    | _ => ret AnyType
    end
  | IndexExpression _ l i =>
    (* checkIndexExpression *)
    let* leftType := checkExpression l in
    let* indexType := checkExpression i in
    match unwrapMutableType leftType with
    | ListType elem =>
      do when (negb (isInteger indexType)) (addError "list index must be an integer") then
      ret elem
    | MapType _ v =>
      do when (negb (isString indexType)) (addError "map key must be a string") then
      ret v
    | StringType =>
      do when (negb (isInteger indexType)) (addError "string index must be an integer") then
      ret StringType
    | _ => ret AnyType
    end
  | ListLiteral _ elems =>
    (* checkListLiteral *)
    match elems with
    | [] => ret (ListType AnyType)
    | e0 :: rest =>
      let* elemType := checkExpression e0 in
      do (fix go (l : list Expression) : TC unit :=
            match l with
            | [] => ret tt
            | e :: l' =>
              let* t := checkExpression e in
              let* ok := assignable elemType t in
              do when (negb ok && negb (isAnyType elemType))
                   (addError "list elements must have the same type") then
              go l'
            end) rest then
      ret (ListType elemType)
    end
  | MapLiteral _ pairs =>
    (* checkMapLiteral: only the first value of the iteration is checked *)
    let checks :=
      (fix go (l : list (Expression * Expression)) : list (string * TC Ty) :=
         match l with
         | [] => []
         | (k, v) :: rest =>
           (default "" (Expression_String host k), checkExpression v) :: go rest
         end) pairs in
    match range_order host "checkMapLiteral" fst checks with
    | [] => ret (MapType StringType AnyType)
    | (_, checkValue) :: _ =>
      let* valueType := checkValue in
      ret (MapType StringType valueType)
    end
  | StructLiteral _ name fields =>
    (* checkStructLiteral *)
    let* structs := gets tc_structs in
    match structs !! name.(id_Value) with
    | Some (StructType stName stFields as st) =>
      let checks :=
        (fix go (l : list (string * Expression)) : list (string * TC unit) :=
           match l with
           | [] => []
           | (fieldName, fieldExpr) :: rest =>
             (fieldName, checkField stName stFields fieldName (checkExpression fieldExpr))
             :: go rest
           end) fields in
      do forM_ snd (range_order host "checkStructLiteral" fst checks) then
      ret st
    | _ => do addError ("undefined struct: " ++ name.(id_Value)) then ret AnyType
    end
  | WithExpression _ obj updates =>
    (* checkWithExpression *)
    let* objType := checkExpression obj in
    match unwrapMutableType objType with
    | StructType stName stFields as st =>
      let checks :=
        (fix go (l : list (string * Expression)) : list (string * TC unit) :=
           match l with
           | [] => []
           | (fieldName, fieldExpr) :: rest =>
             (fieldName, checkField stName stFields fieldName (checkExpression fieldExpr))
             :: go rest
           end) updates in
      do forM_ snd (range_order host "checkWithExpression" fst checks) then
      ret st
    | NilStructType =>
      match updates with
      | [] => ret NilStructType
      | _ => panic nil_deref
      end
    | _ => do addError "with can only be used on structs" then ret AnyType
    end
  | OptionExpression _ isSome v =>
    if isSome then let* elemType := checkExpression v in ret (OptionType elemType)
    else ret (OptionType AnyType)
  | ResultExpression _ isOk v =>
    let* valueType := checkExpression v in
    if isOk then ret (ResultType valueType StringType)
    else ret (ResultType AnyType valueType)
  | MatchExpression _ v cases =>
    (* checkMatchExpression *)
    let* _ := checkExpression v in
    (fix go (l : list MatchCase) (resultType : Ty) : TC Ty :=
       match l with
       | [] => ret resultType
       | mkMatchCase _ binding body :: rest =>
         do push_scope then
         do match binding with
            | Some b => env_Set b.(id_Value) AnyType
            | None => ret tt
            end then
         let* t := checkBlockStatement body None in
         do pop_scope then
         go rest t
       end) cases NullType
  | MutableExpression _ hint v =>
    (* checkMutableExpression *)
    let* elemType := checkExpression v in
    match hint with
    | Some h => ret (MutableType (TypeFromAnnotation h))
    | None => ret (MutableType elemType)
    end
  end
with checkStatement (stmt : Statement) : TC Ty :=
  match stmt with
  | NilStatement => panic nil_deref
  | DefStatement _ name hint v =>
    (* checkDefStatement *)
    let* valueType := checkExpression v in
    match hint with
    | Some h =>
      let expectedType := TypeFromAnnotation h in
      let* ok := assignable expectedType valueType in
      do (if negb ok then
            let* vs := Ty_str valueType in
            let* es := Ty_str expectedType in
            addError ("cannot assign " ++ vs ++ " to variable of type " ++ es)
          else ret tt) then
      do env_Set name.(id_Value) expectedType then
      ret expectedType
    | None =>
      do env_Set name.(id_Value) valueType then
      ret valueType
    end
  | FunctionStmt f => checkFunctionStatement f
  | ReturnStatement _ v =>
    (* checkReturnStatement *)
    checkExpression v
  | ExpressionStatement _ e => checkExpression e
  | WhileStatement _ c body =>
    (* checkWhileStatement *)
    let* condType := checkExpression c in
    do when (negb (isBooleanCompatible condType))
         (addError "while condition must be a boolean expression") then
    do push_scope then
    let* _ := checkBlockStatement body None in
    do pop_scope then
    ret NullType
  | ForStatement _ var it body =>
    (* checkForStatement *)
    let* iterType := checkExpression it in
    match iterType with
    | ListType elem =>
      do push_scope then
      do env_Set var.(id_Value) elem then
      let* _ := checkBlockStatement body None in
      do pop_scope then
      ret NullType
    | _ =>
      let* its := Ty_str iterType in
      do addError ("cannot iterate over " ++ its) then
      ret NullType
    end
  | StructStatement _ name _ =>
    let* structs := gets tc_structs in
    ret (default NilStructType (structs !! name.(id_Value)))
  | ExtendStatement _ typeName methods =>
    (* checkExtendStatement *)
    let* structs := gets tc_structs in
    let thisType := default AnyType (structs !! typeName.(id_Value)) in
    do (fix go (l : list FunctionStatement) : TC unit :=
          match l with
          | [] => ret tt
          | mkFunctionStatement _ mname mparams _ mbody :: rest =>
            do push_scope then
            do env_Set "this" thisType then
            let* functions := gets tc_functions in
            do match functions !! mname.(id_Value) with
               | Some (ptys, rty) =>
                 do forM_ (fun ip : nat * FunctionParameter =>
                             match ptys !! fst ip with
                             | Some t => env_Set (snd ip).(fp_Name).(id_Value) t
                             | None => ret tt
                             end) (imap pair mparams) then
                 let* _ := checkBlockStatement mbody (Some rty) in ret tt
               | None => ret tt
               end then
            do pop_scope then
            go rest
          end) methods then
    ret NullType
  | ImportStatement _ _ => ret NullType
  | BreakStatement _ | ContinueStatement _ => ret NullType
  | BlockStmt _ => ret AnyType
  end
with checkBlockStatement (block : BlockStatement) (expectedReturn : option Ty) : TC Ty :=
  match block with
  | mkBlockStatement _ stmts =>
    (fix go (l : list Statement) (lastType : Ty) : TC Ty :=
       match l with
       | [] => ret lastType
       | stmt :: rest =>
         let* t := checkStatement stmt in
         do match stmt, expectedReturn with
            | ReturnStatement _ v, Some er =>
              let* retType := checkExpression v in
              let* ok := assignable er retType in
              if negb ok then
                let* rs := Ty_str retType in
                let* es := Ty_str er in
                addError ("cannot return " ++ rs ++ " from function expecting " ++ es)
              else ret tt
            | _, _ => ret tt
            end then
         go rest t
       end) stmts NullType
  end
with checkFunctionStatement (stmt : FunctionStatement) : TC Ty :=
  match stmt with
  | mkFunctionStatement _ name params _ body =>
    let* functions := gets tc_functions in
    do push_scope then
    match functions !! name.(id_Value) with
    | None => panic nil_deref
    | Some (ptys, rty) =>
      do forM_ (fun ip : nat * FunctionParameter =>
                  match ptys !! fst ip with
                  | Some t => env_Set (snd ip).(fp_Name).(id_Value) t
                  | None => panic "index out of range"
                  end) (imap pair params) then
      let* _ := checkBlockStatement body (Some rty) in
      do pop_scope then
      ret (FunctionType ptys rty)
    end
  end.

(** [Check]: the first accumulated error, or [None] for a nil error.  A nil
    statement pointer makes the second pass panic, whatever the first pass
    did with it. *)
Definition Check (program : Program) : TC (option string) :=
  (* First pass: collect struct and function definitions *)
  do forM_ (fun stmt =>
              match stmt with
              | StructStatement _ name fields => collectStruct name fields
              | FunctionStmt f => collectFunction f
              | ExtendStatement _ _ methods => collectExtend methods
              | _ => ret tt
              end) program.(Statements) then
  (* Second pass: type check all statements *)
  do forM_ (fun stmt => let* _ := checkStatement stmt in ret tt) program.(Statements) then
  let* errs := gets tc_errors in
  match errs with
  | e :: _ => ret (Some e)
  | [] => ret None
  end.

End Checking.

(** ** value.go: runtime values *)

(** Go pointers to mutable objects are addresses into a store: [env_id]
    for [*Environment], [loc] for [*MutableValue].  Pointers to objects
    that are never updated after construction are the objects themselves. *)
Definition env_id := nat.
Definition loc := nat.

(** The built-in functions registered by [RegisterBuiltins]; a
    [BuiltinFunction] value is its name, the [Fn] field is [builtin_Fn]
    below. *)
Inductive Builtin : Set :=
| Bprint | Bprintln | Brange | Blen | Btype | Bstr | Bint | Bfloat.

Record FunctionRec : Type := mkFunctionRec {
  fn_Name : string;
  fn_Parameters : list FunctionParameter;
  fn_Body : option BlockStatement;
  fn_Env : env_id;
  fn_IsLambda : bool;
  fn_LambdaBody : Expression
}.

Record ErrorRec : Set := mkErrorRec {
  Method : string;
  Input : string;
  Message : string
}.

(** [NilValue] is the nil interface value left in an unset field;
    [NilErrorValue] is a nil [*ErrorValue] stored in a [Value]. *)
Inductive Value : Type :=
| NilValue
| IntegerValue (v : Z)
| FloatValue (v : float)
| StringValue (v : string)
| BooleanValue (v : bool)
| NullValue
| ListValue (Elements : list Value)
| MapValue (Pairs : gmap string Value)
| FunctionValue (f : FunctionRec)
| BuiltinFunction (b : Builtin)
| StructDefinition (Name : string) (Fields : list StructField)
| StructValue (DefName : string) (DefFields : list StructField) (Fields : gmap string Value)
| OptionValue (IsSome : bool) (v : Value)
| ResultValue (IsOk : bool) (v : Value) (Error : option ErrorRec)
| MutableValue (l : loc)
| ErrorValue (e : ErrorRec)
| NilErrorValue
| ReturnValue (v : Value)
| BreakValue
| ContinueValue
| ModuleValue (Name : string) (Exports : env_id).

(** [&ErrorValue{Message: msg}]. *)
Definition errorMessage (msg : string) : Value := ErrorValue (mkErrorRec "" "" msg).

(** [&OptionValue{IsSome: false}]. *)
Definition NoneValue : Value := OptionValue false NilValue.

(** [&ResultValue{IsOk: true, Value: v}]. *)
Definition OkValue (v : Value) : Value := ResultValue true v None.

Definition Builtin_Name (b : Builtin) : string :=
  match b with
  | Bprint => "print" | Bprintln => "println" | Brange => "range" | Blen => "len"
  | Btype => "type" | Bstr => "str" | Bint => "int" | Bfloat => "float"
  end.

(** [Type()]; [None] is the panic of a method call on the nil interface. *)
Definition Value_Type (v : Value) : option string :=
  match v with
  | NilValue => None
  | IntegerValue _ => Some "Integer"
  | FloatValue _ => Some "Float"
  | StringValue _ => Some "String"
  | BooleanValue _ => Some "Boolean"
  | NullValue => Some "Null"
  | ListValue _ => Some "List"
  | MapValue _ => Some "Map"
  | FunctionValue _ => Some "Function"
  | BuiltinFunction _ => Some "Builtin"
  | StructDefinition _ _ => Some "StructDef"
  | StructValue name _ _ => Some name
  | OptionValue _ _ => Some "Option"
  | ResultValue _ _ _ => Some "Result"
  | MutableValue _ => Some "Mutable"
  | ErrorValue _ | NilErrorValue => Some "Error"
  | ReturnValue _ => Some "Return"
  | BreakValue => Some "Break"
  | ContinueValue => Some "Continue"
  | ModuleValue _ _ => Some "Module"
  end.

Definition ErrorValue_String (e : ErrorRec) : string :=
  if negb (String.eqb e.(Method) "") then
    "Error in " ++ e.(Method) ++ String "010" "Input: " ++ e.(Input) ++
    String "010" "Reason: " ++ e.(Message)
  else e.(Message).

(** [Append] creates a new list with the element appended: a fresh slice
    of length [len+1], the old elements copied, the new one stored last. *)
Definition make_slice (n : nat) : list Value := replicate n NilValue.

(** The built-in [copy(dst, src)]: the first [min (len dst) (len src)]
    elements of [dst] are overwritten. *)
Definition copy_slice (dst src : list Value) : list Value :=
  (take (length dst) src ++ drop (length src) dst)%list.

Definition Append (lv : list Value) (v : Value) : list Value :=
  let newElements := make_slice (length lv + 1) in
  let newElements := copy_slice newElements lv in
  <[ length lv := v ]> newElements.

(** [With] creates a new struct field map with updated fields. *)
Definition With (fields updates : gmap string Value) : gmap string Value :=
  updates ∪ fields.

(** ** Environments (the environment source file) and the interpreter state *)

Record Environment : Type := mkEnvironment {
  store : gmap string Value;
  parent : option env_id
}.

(** [ModuleLoader] (module.go) and [Evaluator] (the evaluator source
    file) are Go structs reached through one pointer each; their fields are
    part of the interpreter state, next to the two stores and the text
    written to standard output. *)
Record ModuleLoader : Type := mkModuleLoader {
  basePath : string;
  cache : gmap string Program
}.

Record World : Type := mkWorld {
  envs : gmap env_id Environment;
  next_env : env_id;
  cells : gmap loc Value;
  next_cell : loc;
  structs : gmap string (string * list StructField);
  extensions : gmap string (gmap string FunctionRec);
  modules : gmap string (string * env_id);
  loader : ModuleLoader;
  currentFn : string;
  stdout : list string
}.

Abbreviation EV := (M World).

Definition set_envs (f : gmap env_id Environment -> gmap env_id Environment) (w : World) : World :=
  mkWorld (f w.(envs)) w.(next_env) w.(cells) w.(next_cell) w.(structs) w.(extensions)
          w.(modules) w.(loader) w.(currentFn) w.(stdout).

Definition NewEnvironment : EV env_id :=
  fun w =>
    Done w.(next_env)
      (mkWorld (<[ w.(next_env) := mkEnvironment ∅ None ]> w.(envs)) (S w.(next_env))
               w.(cells) w.(next_cell) w.(structs) w.(extensions) w.(modules) w.(loader)
               w.(currentFn) w.(stdout)).

Definition NewEnclosedEnvironment (parent : env_id) : EV env_id :=
  fun w =>
    Done w.(next_env)
      (mkWorld (<[ w.(next_env) := mkEnvironment ∅ (Some parent) ]> w.(envs)) (S w.(next_env))
               w.(cells) w.(next_cell) w.(structs) w.(extensions) w.(modules) w.(loader)
               w.(currentFn) w.(stdout)).

(** [e.Get(name)]: the chain of parents is walked with fuel. *)
Fixpoint Environment_Get (fuel : nat) (e : env_id) (name : string) : EV (option Value) :=
  match fuel with
  | O => out_of_fuel
  | S n =>
    let* es := gets envs in
    match es !! e with
    | None => panic nil_deref
    | Some env =>
      match env.(store) !! name with
      | Some v => ret (Some v)
      | None =>
        match env.(parent) with
        | Some p => Environment_Get n p name
        | None => ret None
        end
      end
    end
  end.

Definition Environment_Set (e : env_id) (name : string) (val : Value) : EV unit :=
  let* es := gets envs in
  match es !! e with
  | None => panic nil_deref
  | Some env =>
    modify (set_envs (fun es => <[ e := mkEnvironment (<[ name := val ]> env.(store)) env.(parent) ]> es))
  end.

Definition new_cell (v : Value) : EV loc :=
  fun w =>
    Done w.(next_cell)
      (mkWorld w.(envs) w.(next_env) (<[ w.(next_cell) := v ]> w.(cells)) (S w.(next_cell))
               w.(structs) w.(extensions) w.(modules) w.(loader) w.(currentFn) w.(stdout)).

Definition read_cell (l : loc) : EV Value :=
  let* cs := gets cells in or_panic (cs !! l).

Definition write_cell (l : loc) (v : Value) : EV unit :=
  modify (fun w =>
    mkWorld w.(envs) w.(next_env) (<[ l := v ]> w.(cells)) w.(next_cell)
            w.(structs) w.(extensions) w.(modules) w.(loader) w.(currentFn) w.(stdout)).

(** [UnwrapValue]. *)
Definition UnwrapValue (v : Value) : EV Value :=
  match v with
  | MutableValue l => read_cell l
  | _ => ret v
  end.

(** [IsTruthy]. *)
Fixpoint IsTruthy (fuel : nat) (v : Value) : EV bool :=
  match fuel with
  | O => out_of_fuel
  | S n =>
    match v with
    | BooleanValue b => ret b
    | NullValue => ret false
    | IntegerValue z => ret (negb (z =? 0))
    | StringValue s => ret (negb (String.eqb s ""))
    | ListValue els => ret (0 <? length els)%nat
    | OptionValue isSome _ => ret isSome
    | MutableValue l => let* inner := read_cell l in IsTruthy n inner
    | _ => ret true
    end
  end.

Definition mapM {St A B} (f : A -> M St B) : list A -> M St (list B) :=
  fix go (l : list A) : M St (list B) :=
    match l with
    | [] => ret []
    | x :: r => let* y := f x in let* ys := go r in ret (y :: ys)
    end.

(** [sort.Strings] on the keys of a map: the entries in increasing byte
    order of their keys. *)
Fixpoint insert_by_key {V} (kv : string * V) (l : list (string * V)) : list (string * V) :=
  match l with
  | [] => [kv]
  | kv' :: rest =>
    if String.leb (fst kv) (fst kv') then kv :: l else kv' :: insert_by_key kv rest
  end.

Definition sorted_entries {V} (m : gmap string V) : list (string * V) :=
  foldr insert_by_key [] (map_to_list m).

Section Rendering.

Variable host : Host.

(** [String()].  A [Mutable] that reaches itself makes the Go method
    recurse without end; here the fuel runs out. *)
Fixpoint Value_String (fuel : nat) (v : Value) : EV string :=
  match fuel with
  | O => out_of_fuel
  | S n =>
    match v with
    | NilValue => panic nil_deref
    | IntegerValue z => ret (itoa z)
    | FloatValue f => ret (FormatG host f)
    | StringValue s => ret s
    | BooleanValue b => ret (if b then "true" else "false")
    | NullValue => ret "null"
    | ListValue els =>
      let* ss := mapM (Value_String n) els in
      ret ("[" ++ Join ss ", " ++ "]")
    | MapValue pairs =>
      let* ss := mapM (fun kv : string * Value =>
                         let* vs := Value_String n (snd kv) in
                         ret (Quote host (fst kv) ++ ": " ++ vs))
                      (sorted_entries pairs) in
      ret ("{" ++ Join ss ", " ++ "}")
    | FunctionValue f =>
      ret (if negb (String.eqb f.(fn_Name) "") then "<function " ++ f.(fn_Name) ++ ">"
           else "<lambda>")
    | BuiltinFunction b => ret ("<builtin " ++ Builtin_Name b ++ ">")
    | StructDefinition name _ => ret ("<struct " ++ name ++ ">")
    | StructValue name _ fields =>
      let* ss := mapM (fun kv : string * Value =>
                         let* vs := Value_String n (snd kv) in
                         ret (fst kv ++ ": " ++ vs))
                      (sorted_entries fields) in
      ret (name ++ "{" ++ Join ss ", " ++ "}")
    | OptionValue isSome inner =>
      if isSome then let* s := Value_String n inner in ret ("Some(" ++ s ++ ")")
      else ret "None"
    | ResultValue isOk inner err =>
      if isOk then let* s := Value_String n inner in ret ("Ok(" ++ s ++ ")")
      else
        match err with
        | Some e => ret ("Error(" ++ ErrorValue_String e ++ ")")
        | None => panic nil_deref
        end
    | MutableValue l => let* inner := read_cell l in Value_String n inner
    | ErrorValue e => ret (ErrorValue_String e)
    | NilErrorValue => panic nil_deref
    | ReturnValue inner => Value_String n inner
    | BreakValue => ret "break"
    | ContinueValue => ret "continue"
    | ModuleValue name _ => ret ("<module " ++ name ++ ">")
    end
  end.

(** ** errors.go *)

(** [EnrichError] adds context to an error value.  The Go function updates
    the error object in place and returns it; here the updated error is the
    result.  A nil [input] is [NilValue]. *)
Definition EnrichError (fuel : nat) (err : ErrorRec) (method : string) (input : Value)
    : EV ErrorRec :=
  let m := if String.eqb err.(Method) "" then method else err.(Method) in
  let* i :=
    (if String.eqb err.(Input) "" then
       match input with
       | NilValue => ret err.(Input)
       | _ => Value_String fuel input
       end
     else ret err.(Input)) in
  ret (mkErrorRec m i err.(Message)).

Definition FormatError (err : ErrorRec) : string :=
  if negb (String.eqb err.(Method) "") then
    "Error in " ++ err.(Method) ++
    (if negb (String.eqb err.(Input) "") then String "010" "Input: " ++ err.(Input) else "") ++
    String "010" "Reason: " ++ err.(Message)
  else err.(Message).

(** [valuesEqual]. *)
Definition valuesEqual (a b : Value) : EV bool :=
  let* a := UnwrapValue a in
  let* b := UnwrapValue b in
  ret match a, b with
      | IntegerValue x, IntegerValue y => x =? y
      | FloatValue x, FloatValue y => PrimFloat.eqb x y
      | StringValue x, StringValue y => String.eqb x y
      | BooleanValue x, BooleanValue y => Bool.eqb x y
      | NullValue, NullValue => true
      | _, _ => false
      end.

End Rendering.

(** ** int64 arithmetic *)

Definition wrap64 (z : Z) : Z := (z + 2 ^ 63) mod 2 ^ 64 - 2 ^ 63.

Definition int64_add (a b : Z) : Z := wrap64 (a + b).
Definition int64_sub (a b : Z) : Z := wrap64 (a - b).
Definition int64_mul (a b : Z) : Z := wrap64 (a * b).
Definition int64_neg (a : Z) : Z := wrap64 (- a).
(** Go's [/] truncates toward zero and [%] takes the sign of the dividend;
    the one overflowing quotient wraps around. *)
Definition int64_quo (a b : Z) : Z := wrap64 (Z.quot a b).
Definition int64_rem (a b : Z) : Z := wrap64 (Z.rem a b).

(** The conversion [float64(i)]. *)
Definition float64_of_int64 (z : Z) : float :=
  SF2Prim (binary_normalize prec emax z 0 false).

(** ** Strings: [strings.Contains] and [strings.Split] *)

Fixpoint Contains (s substr : string) : bool :=
  if String.prefix substr s then true
  else match s with
       | EmptyString => false
       | String _ rest => Contains rest substr
       end.

(** [strings.Split(s, sep)] for a non-empty separator. *)
Fixpoint split_from (fuel : nat) (s sep cur : string) : list string :=
  match fuel with
  | O => [cur ++ s]
  | S n =>
    match s with
    | EmptyString => [cur]
    | String c rest =>
      if String.prefix sep s then
        cur :: split_from n (String.substring (String.length sep)
                               (String.length s - String.length sep) s) sep ""
      else split_from n rest sep (cur ++ String c EmptyString)
    end
  end.

Definition Split (s sep : string) : list string :=
  split_from (S (String.length s)) s sep "".

(** ** path/filepath on a Unix-like host: [Clean] and [Join] *)

Definition Separator : string := "/".

(** The elements of a cleaned path, innermost last: empty and [.]
    elements are dropped, [..] removes the element before it, is dropped
    at the root and kept at the start of a relative path. *)
Fixpoint clean_elems (rooted : bool) (elems : list string) (out : list string) : list string :=
  match elems with
  | [] => out
  | e :: rest =>
    if String.eqb e "" || String.eqb e "." then clean_elems rooted rest out
    else if String.eqb e ".." then
      match rev out with
      | last :: before =>
        if String.eqb last ".." then clean_elems rooted rest (out ++ [e])%list
        else clean_elems rooted rest (rev before)
      | [] =>
        if rooted then clean_elems rooted rest out
        else clean_elems rooted rest (out ++ [e])%list
      end
    else clean_elems rooted rest (out ++ [e])%list
  end.

Definition Clean (path : string) : string :=
  if String.eqb path "" then "."
  else
    let rooted := String.prefix Separator path in
    let out := clean_elems rooted (Split path Separator) [] in
    if rooted then Separator ++ Join out Separator
    else match out with
         | [] => "."
         | _ => Join out Separator
         end.

(** [filepath.Join]: leading empty elements are ignored, the rest is
    joined with the separator and cleaned. *)
Fixpoint filepath_Join (elem : list string) : string :=
  match elem with
  | [] => ""
  | e :: rest =>
    if String.eqb e "" then filepath_Join rest
    else Clean (Join elem Separator)
  end.

(** ** module.go: path resolution *)

(** [resolvePath] converts a module path to a file path, e.g.
    [utils.math] to [utils/math.moon]. *)
Definition resolvePath (ml : ModuleLoader) (modulePath : string) : string :=
  let parts := Split modulePath "." in
  let relativePath := filepath_Join parts ++ ".moon" in
  filepath_Join [ml.(basePath); relativePath].

(** [ResolveImport]: the module path and the item name of an import. *)
Definition ResolveImport (importPath : list string) : option (string * string) :=
  match importPath with
  | [] => None
  | modulePath :: rest =>
    Some (modulePath, match rest with
                      | [] => ""
                      | _ => List.last importPath ""
                      end)
  end.

(** ** The built-in functions and collection methods *)

Inductive Node : Type :=
| NProgram (p : Program)
| NStmt (s : Statement)
| NExpr (e : Expression).

Definition builtin_names : list Builtin :=
  [Bprint; Bprintln; Brange; Blen; Btype; Bstr; Bint; Bfloat].

Definition RegisterBuiltins (env : env_id) : EV unit :=
  forM_ (fun b => Environment_Set env (Builtin_Name b) (BuiltinFunction b)) builtin_names.

Definition Value_type (v : Value) : EV string := or_panic (Value_Type v).

Definition write_stdout (s : string) : EV unit :=
  modify (fun w =>
    mkWorld w.(envs) w.(next_env) w.(cells) w.(next_cell) w.(structs) w.(extensions)
            w.(modules) w.(loader) w.(currentFn) (w.(stdout) ++ [s])%list).

Definition isError (val : Value) : bool :=
  match val with
  | ErrorValue _ | NilErrorValue => true
  | _ => false
  end.

Section Builtins.

Variable host : Host.
Variable fuel : nat.

Definition render_args (args : list Value) : EV (list string) :=
  mapM (fun arg => let* v := UnwrapValue arg in Value_String host fuel v) args.

Definition builtinPrint (args : list Value) : EV Value :=
  let* parts := render_args args in
  do write_stdout (Join parts " ") then
  ret NullValue.

Definition builtinPrintln (args : list Value) : EV Value :=
  let* parts := render_args args in
  do write_stdout (Join parts " " ++ String "010" "") then
  ret NullValue.

(** The largest capacity of a slice of [Value]: [makeslice] panics when
    the capacity is negative or when its size in bytes exceeds [maxAlloc],
    which is 2^48 on the 64-bit platforms with a 48-bit address space
    (linux/amd64 among them); a [Value] is an interface of two words, 16
    bytes. *)
Definition max_slice_cap : Z := 2 ^ 44.

(** [make([]Value, 0, end-start)] followed by the loop that appends
    [start], ..., [end - 1]. *)
Definition range_elements (start end_ : Z) : EV Value :=
  let cap := wrap64 (end_ - start) in
  if (cap <? 0) || (max_slice_cap <? cap) then panic "makeslice: cap out of range"
  else ret (ListValue (map IntegerValue (seqZ start (end_ - start)))).

Definition builtinRange (args : list Value) : EV Value :=
  match args with
  | [a] =>
    let* endVal := UnwrapValue a in
    match endVal with
    | IntegerValue e => range_elements 0 e
    | _ => ret (errorMessage "range() argument must be an integer")
    end
  | [a; b] =>
    let* startVal := UnwrapValue a in
    match startVal with
    | IntegerValue s =>
      let* endVal := UnwrapValue b in
      match endVal with
      | IntegerValue e => range_elements s e
      | _ => ret (errorMessage "range() end must be an integer")
      end
    | _ => ret (errorMessage "range() start must be an integer")
    end
  | _ => ret (errorMessage "range() requires 1 or 2 arguments")
  end.

Definition builtinLen (args : list Value) : EV Value :=
  match args with
  | [a] =>
    let* arg := UnwrapValue a in
    match arg with
    | StringValue s => ret (IntegerValue (Z.of_nat (String.length s)))
    | ListValue els => ret (IntegerValue (Z.of_nat (length els)))
    | MapValue pairs => ret (IntegerValue (Z.of_nat (size pairs)))
    | _ =>
      let* t := Value_type arg in
      ret (errorMessage ("len() not supported for " ++ t))
    end
  | _ => ret (errorMessage "len() requires exactly 1 argument")
  end.

Definition builtinType (args : list Value) : EV Value :=
  match args with
  | [a] =>
    let* arg := UnwrapValue a in
    let* t := Value_type arg in
    ret (StringValue t)
  | _ => ret (errorMessage "type() requires exactly 1 argument")
  end.

Definition builtinStr (args : list Value) : EV Value :=
  match args with
  | [a] =>
    let* arg := UnwrapValue a in
    let* s := Value_String host fuel arg in
    ret (StringValue s)
  | _ => ret (errorMessage "str() requires exactly 1 argument")
  end.

Definition builtinInt (args : list Value) : EV Value :=
  match args with
  | [a] =>
    let* arg := UnwrapValue a in
    match arg with
    | IntegerValue _ => ret arg
    | FloatValue f => ret (IntegerValue (FloatToInt64 host f))
    | StringValue s =>
      match Sscanf_d host s with
      | Some i => ret (IntegerValue i)
      | None => ret (errorMessage ("cannot convert " ++ Quote host s ++ " to integer"))
      end
    | BooleanValue b => ret (IntegerValue (if b then 1 else 0))
    | _ =>
      let* t := Value_type arg in
      ret (errorMessage ("cannot convert " ++ t ++ " to integer"))
    end
  | _ => ret (errorMessage "int() requires exactly 1 argument")
  end.

Definition builtinFloat (args : list Value) : EV Value :=
  match args with
  | [a] =>
    let* arg := UnwrapValue a in
    match arg with
    | FloatValue _ => ret arg
    | IntegerValue i => ret (FloatValue (float64_of_int64 i))
    | StringValue s =>
      match Sscanf_f host s with
      | Some f => ret (FloatValue f)
      | None => ret (errorMessage ("cannot convert " ++ Quote host s ++ " to float"))
      end
    | _ =>
      let* t := Value_type arg in
      ret (errorMessage ("cannot convert " ++ t ++ " to float"))
    end
  | _ => ret (errorMessage "float() requires exactly 1 argument")
  end.

(** The [Fn] field of a built-in function. *)
Definition builtin_Fn (b : Builtin) (args : list Value) : EV Value :=
  match b with
  | Bprint => builtinPrint args
  | Bprintln => builtinPrintln args
  | Brange => builtinRange args
  | Blen => builtinLen args
  | Btype => builtinType args
  | Bstr => builtinStr args
  | Bint => builtinInt args
  | Bfloat => builtinFloat args
  end.

(** List methods *)

Definition listLength (elems : list Value) : Value :=
  IntegerValue (Z.of_nat (length elems)).

Definition listGet (elems : list Value) (index : Z) : Value :=
  if (index <? 0) || (index >=? Z.of_nat (length elems)) then NoneValue
  else match elems !! Z.to_nat index with
       | Some v => OptionValue true v
       | None => NoneValue
       end.

Definition listAppend (elems : list Value) (val : Value) : Value :=
  ListValue (Append elems val).

Definition listContains (elems : list Value) (val : Value) : EV bool :=
  (fix go (l : list Value) : EV bool :=
     match l with
     | [] => ret false
     | elem :: rest =>
       let* eq := valuesEqual elem val in
       if eq then ret true else go rest
     end) elems.

(** Map methods.  [mapKeys] and [mapValues] list the entries in the order
    of their [range] over the Go map. *)

Definition mapGet (m : gmap string Value) (key : string) : Value :=
  match m !! key with
  | Some val => OptionValue true val
  | None => NoneValue
  end.

Definition mapInsert (m : gmap string Value) (key : string) (val : Value) : Value :=
  MapValue (<[ key := val ]> m).

Definition mapRemove (m : gmap string Value) (key : string) : Value :=
  MapValue (delete key m).

Definition mapKeys (m : gmap string Value) : Value :=
  ListValue (map (fun kv => StringValue (fst kv))
                 (range_order host "mapKeys" fst (sorted_entries m))).

Definition mapValues (m : gmap string Value) : Value :=
  ListValue (map snd (range_order host "mapValues" fst (sorted_entries m))).

Definition mapContains (m : gmap string Value) (key : string) : bool :=
  bool_decide (is_Some (m !! key)).

(** String methods *)

Definition stringLength (s : string) : Value :=
  IntegerValue (Z.of_nat (String.length s)).

Definition stringSplit (s sep : string) : Value :=
  ListValue (map StringValue
               (if String.eqb sep "" then Explode host s else Split s sep)).

Definition stringContains (s substr : string) : bool := Contains s substr.
Definition stringTrim (s : string) : Value := StringValue (TrimSpace host s).
Definition stringUpper (s : string) : Value := StringValue (ToUpper host s).
Definition stringLower (s : string) : Value := StringValue (ToLower host s).

End Builtins.

(** ** module.go: loading *)

Definition set_loader (ml : ModuleLoader) (w : World) : World :=
  mkWorld w.(envs) w.(next_env) w.(cells) w.(next_cell) w.(structs) w.(extensions)
          w.(modules) ml w.(currentFn) w.(stdout).

(** [Load] loads a module by name: the program, or the text of the error. *)
Definition Load (host : Host) (fuel : nat) (modulePath : string) : EV (Program + string) :=
  let* ml := gets loader in
  (* Check cache first *)
  match ml.(cache) !! modulePath with
  | Some program => ret (inl program)
  | None =>
    (* Resolve module path *)
    let filePath := resolvePath ml modulePath in
    (* Read file *)
    match ReadFile host filePath with
    | inr err => ret (inr ("cannot load module " ++ modulePath ++ ": " ++ err))
    | inl content =>
      (* Parse module *)
      match parse_source host fuel content with
      | Done (program, errs) _ =>
        match errs with
        | _ :: _ =>
          ret (inr ("parse errors in module " ++ modulePath ++ ":" ++ String "010" "" ++
                    Join errs (String "010" "")))
        | [] =>
          (* Cache the parsed module *)
          do modify (set_loader (mkModuleLoader ml.(basePath)
                                   (<[ modulePath := program ]> ml.(cache)))) then
          ret (inl program)
        end
      | Panic msg => panic msg
      | OutOfFuel => out_of_fuel
      end
    end
  end.

(** ** The evaluator *)

Definition set_currentFn (name : string) (w : World) : World :=
  mkWorld w.(envs) w.(next_env) w.(cells) w.(next_cell) w.(structs) w.(extensions)
          w.(modules) w.(loader) name w.(stdout).

Definition unwrapReturnValue (val : Value) : Value :=
  match val with
  | ReturnValue v => v
  | _ => val
  end.

Definition evalIntegerInfixExpression (op : string) (left right : Z) : Value :=
  if String.eqb op "+" then IntegerValue (int64_add left right)
  else if String.eqb op "-" then IntegerValue (int64_sub left right)
  else if String.eqb op "*" then IntegerValue (int64_mul left right)
  else if String.eqb op "/" then
    if right =? 0 then errorMessage "division by zero"
    else IntegerValue (int64_quo left right)
  else if String.eqb op "%" then
    if right =? 0 then errorMessage "division by zero"
    else IntegerValue (int64_rem left right)
  else if String.eqb op ">" then BooleanValue (left >? right)
  else if String.eqb op "<" then BooleanValue (left <? right)
  else if String.eqb op ">=" then BooleanValue (left >=? right)
  else if String.eqb op "<=" then BooleanValue (left <=? right)
  else errorMessage ("unknown operator: Integer " ++ op ++ " Integer").

Definition evalFloatInfixExpression (op : string) (left right : float) : Value :=
  if String.eqb op "+" then FloatValue (left + right)%float
  else if String.eqb op "-" then FloatValue (left - right)%float
  else if String.eqb op "*" then FloatValue (left * right)%float
  else if String.eqb op "/" then
    if PrimFloat.eqb right 0%float then errorMessage "division by zero"
    else FloatValue (left / right)%float
  else if String.eqb op ">" then BooleanValue (PrimFloat.ltb right left)
  else if String.eqb op "<" then BooleanValue (PrimFloat.ltb left right)
  else if String.eqb op ">=" then BooleanValue (PrimFloat.leb right left)
  else if String.eqb op "<=" then BooleanValue (PrimFloat.leb left right)
  else errorMessage ("unknown operator: Float " ++ op ++ " Float").

Definition evalStringInfixExpression (op : string) (left right : string) : Value :=
  if String.eqb op "+" then StringValue (left ++ right)
  else if String.eqb op ">" then BooleanValue (String.ltb right left)
  else if String.eqb op "<" then BooleanValue (String.ltb left right)
  else if String.eqb op ">=" then BooleanValue (String.leb right left)
  else if String.eqb op "<=" then BooleanValue (String.leb left right)
  else errorMessage ("unknown operator: String " ++ op ++ " String").

Definition evalMinusPrefixExpression (right : Value) : EV Value :=
  match right with
  | IntegerValue v => ret (IntegerValue (int64_neg v))
  | FloatValue v => ret (FloatValue (- v)%float)
  | _ =>
    let* t := Value_type right in
    ret (errorMessage ("unknown operator: -" ++ t))
  end.

Section Evaluation.

Variable host : Host.
Variable fuel : nat.

(** [e.Eval] at one unit of fuel less. *)
Variable Eval : Node -> env_id -> EV Value.

Definition evalNotPrefixExpression (right : Value) : EV Value :=
  let* t := IsTruthy fuel right in ret (BooleanValue (negb t)).

Definition evalExpressions (exprs : list Expression) (env : env_id) : EV (list Value) :=
  mapM (fun expr => Eval (NExpr expr) env) exprs.

(** [evalProgram]: a return value ends the program with its inner value,
    an error value ends it unchanged. *)
Definition evalProgram (program : Program) (env : env_id) : EV Value :=
  (fix go (stmts : list Statement) (result : Value) : EV Value :=
     match stmts with
     | [] => ret result
     | stmt :: rest =>
       let* result := Eval (NStmt stmt) env in
       match result with
       | ReturnValue v => ret v
       | ErrorValue _ | NilErrorValue => ret result
       | _ => go rest result
       end
     end) program.(Statements) NullValue.

Definition evalDefStatement (name : Identifier) (value : Expression) (env : env_id) : EV Value :=
  let* val := Eval (NExpr value) env in
  (* Note: ErrorValue is a valid value to assign, so don't propagate it as an error *)
  do Environment_Set env name.(id_Value) val then
  ret val.

Definition evalReturnStatement (value : Expression) (env : env_id) : EV Value :=
  match value with
  | NilExpression => ret (ReturnValue NullValue)
  | _ =>
    let* val := Eval (NExpr value) env in
    if isError val then ret val else ret (ReturnValue val)
  end.

Definition evalBlockStatement (block : BlockStatement) (env : env_id) : EV Value :=
  (fix go (stmts : list Statement) (result : Value) : EV Value :=
     match stmts with
     | [] => ret result
     | stmt :: rest =>
       let* result := Eval (NStmt stmt) env in
       match result with
       | ReturnValue _ | BreakValue | ContinueValue => ret result
       | _ => go rest result
       end
     end) (block_Statements block) NullValue.

Definition evalFunctionStatement (stmt : FunctionStatement) (env : env_id) : EV Value :=
  let fn := FunctionValue (mkFunctionRec (fs_Name stmt).(id_Value) (fs_Parameters stmt)
                             (Some (fs_Body stmt)) env false NilExpression) in
  do Environment_Set env (fs_Name stmt).(id_Value) fn then
  ret fn.

(** One round of a loop body's result, shared by [while] and [for]. *)
Definition loop_signal (result : Value) : loop_ctl unit Value :=
  match result with
  | BreakValue => LoopReturn NullValue
  | ContinueValue => LoopNext tt
  | ReturnValue _ | ErrorValue _ | NilErrorValue => LoopReturn result
  | _ => LoopNext tt
  end.

Definition evalWhileStatement (condition : Expression) (body : BlockStatement) (env : env_id)
    : EV Value :=
  let* r := loop fuel (fun _ => true)
              (fun _ : unit =>
                 let* c := Eval (NExpr condition) env in
                 if isError c then ret (LoopReturn c) else
                 let* t := IsTruthy fuel c in
                 if negb t then ret (LoopBreak tt) else
                 let* bodyEnv := NewEnclosedEnvironment env in
                 let* result := Eval (NStmt (BlockStmt body)) bodyEnv in
                 ret (loop_signal result))
              tt in
  match r with
  | inl _ => ret NullValue
  | inr v => ret v
  end.

Definition evalForStatement (var : Identifier) (iterable : Expression) (body : BlockStatement)
    (env : env_id) : EV Value :=
  let* it := Eval (NExpr iterable) env in
  if isError it then ret it else
  let* unwrapped := UnwrapValue it in
  match unwrapped with
  | ListValue elements =>
    (fix go (l : list Value) : EV Value :=
       match l with
       | [] => ret NullValue
       | elem :: rest =>
         let* loopEnv := NewEnclosedEnvironment env in
         do Environment_Set loopEnv var.(id_Value) elem then
         let* result := Eval (NStmt (BlockStmt body)) loopEnv in
         match loop_signal result with
         | LoopReturn v => ret v
         | _ => go rest
         end
       end) elements
  | _ =>
    let* t := Value_type it in
    ret (errorMessage ("cannot iterate over " ++ t))
  end.

Definition evalStructStatement (name : Identifier) (fields : list StructField) (env : env_id)
    : EV Value :=
  let def := StructDefinition name.(id_Value) fields in
  do modify (fun w =>
       mkWorld w.(envs) w.(next_env) w.(cells) w.(next_cell)
               (<[ name.(id_Value) := (name.(id_Value), fields) ]> w.(structs))
               w.(extensions) w.(modules) w.(loader) w.(currentFn) w.(stdout)) then
  do Environment_Set env name.(id_Value) def then
  ret def.

Definition evalExtendStatement (typeName : Identifier) (methods : list FunctionStatement)
    (env : env_id) : EV Value :=
  let register (m : gmap string FunctionRec) (method : FunctionStatement) :=
    <[ (fs_Name method).(id_Value) :=
         mkFunctionRec (fs_Name method).(id_Value) (fs_Parameters method)
                       (Some (fs_Body method)) env false NilExpression ]> m in
  do modify (fun w =>
       let existing := default ∅ (w.(extensions) !! typeName.(id_Value)) in
       mkWorld w.(envs) w.(next_env) w.(cells) w.(next_cell) w.(structs)
               (<[ typeName.(id_Value) := fold_left register methods existing ]> w.(extensions))
               w.(modules) w.(loader) w.(currentFn) w.(stdout)) then
  ret NullValue.

Definition evalImportStatement (path : list string) (env : env_id) : EV Value :=
  match path with
  | [] => panic "index out of range"
  | moduleName :: _ =>
    let* mods := gets modules in
    match mods !! moduleName with
    | Some (name, exports) =>
      do Environment_Set env moduleName (ModuleValue name exports) then
      ret (ModuleValue name exports)
    | None =>
      let* loaded := Load host fuel moduleName in
      match loaded with
      | inr err => ret (errorMessage err)
      | inl program =>
        let* modEnv := NewEnvironment in
        do RegisterBuiltins modEnv then
        let* result := Eval (NProgram program) modEnv in
        if isError result then ret result else
        do modify (fun w =>
             mkWorld w.(envs) w.(next_env) w.(cells) w.(next_cell) w.(structs) w.(extensions)
                     (<[ moduleName := (moduleName, modEnv) ]> w.(modules))
                     w.(loader) w.(currentFn) w.(stdout)) then
        do Environment_Set env moduleName (ModuleValue moduleName modEnv) then
        ret (ModuleValue moduleName modEnv)
      end
    end
  end.

Definition evalIdentifier (node : Identifier) (env : env_id) : EV Value :=
  let* val := Environment_Get fuel env node.(id_Value) in
  match val with
  | Some v => ret v
  | None => ret (errorMessage ("undefined: " ++ node.(id_Value)))
  end.

Definition evalPrefixExpression (operator : string) (right : Expression) (env : env_id)
    : EV Value :=
  let* right := Eval (NExpr right) env in
  if isError right then ret right else
  let* right := UnwrapValue right in
  if String.eqb operator "-" then evalMinusPrefixExpression right
  else if String.eqb operator "not" then evalNotPrefixExpression right
  else
    let* t := Value_type right in
    ret (errorMessage ("unknown operator: " ++ operator ++ t)).

(** The part of [evalInfixExpression] after both operands are unwrapped. *)
Definition evalInfixValues (operator : string) (left right : Value) : EV Value :=
  if String.eqb operator "and" then
    let* l := IsTruthy fuel left in
    if l then let* r := IsTruthy fuel right in ret (BooleanValue r)
    else ret (BooleanValue false)
  else if String.eqb operator "or" then
    let* l := IsTruthy fuel left in
    if l then ret (BooleanValue true)
    else let* r := IsTruthy fuel right in ret (BooleanValue r)
  else if String.eqb operator "is" then
    let* eq := valuesEqual left right in ret (BooleanValue eq)
  else
    match left, right with
    | IntegerValue l, IntegerValue r => ret (evalIntegerInfixExpression operator l r)
    | FloatValue l, FloatValue r => ret (evalFloatInfixExpression operator l r)
    | IntegerValue l, FloatValue r =>
      ret (evalFloatInfixExpression operator (float64_of_int64 l) r)
    | FloatValue l, IntegerValue r =>
      ret (evalFloatInfixExpression operator l (float64_of_int64 r))
    | StringValue l, StringValue r => ret (evalStringInfixExpression operator l r)
    | _, _ =>
      let* lt := Value_type left in
      let* rt := Value_type right in
      ret (errorMessage ("type mismatch: " ++ lt ++ " " ++ operator ++ " " ++ rt))
    end.

Definition evalInfixExpression (left : Expression) (operator : string) (right : Expression)
    (env : env_id) : EV Value :=
  let* left := Eval (NExpr left) env in
  if isError left then ret left else
  let* right := Eval (NExpr right) env in
  if isError right then ret right else
  let* left := UnwrapValue left in
  let* right := UnwrapValue right in
  evalInfixValues operator left right.

Definition evalAssignmentExpression (name : Identifier) (value : Expression) (env : env_id)
    : EV Value :=
  let* val := Eval (NExpr value) env in
  if isError val then ret val else
  let* existing := Environment_Get fuel env name.(id_Value) in
  match existing with
  | None => ret (errorMessage ("undefined: " ++ name.(id_Value)))
  | Some (MutableValue l) =>
    let* v := UnwrapValue val in
    do write_cell l v then
    ret v
  | Some _ => ret (errorMessage (name.(id_Value) ++ " is not mutable"))
  end.

Definition evalIfExpression (condition : Expression) (consequence : BlockStatement)
    (alternative : option BlockStatement) (env : env_id) : EV Value :=
  let* c := Eval (NExpr condition) env in
  if isError c then ret c else
  let* t := IsTruthy fuel c in
  if t then
    let* e := NewEnclosedEnvironment env in
    Eval (NStmt (BlockStmt consequence)) e
  else
    match alternative with
    | Some alt =>
      let* e := NewEnclosedEnvironment env in
      Eval (NStmt (BlockStmt alt)) e
    | None => ret NullValue
    end.

Definition evalFunctionLiteral (parameters : list Identifier) (body : Expression) (env : env_id)
    : EV Value :=
  let params := map (fun p => mkFunctionParameter p None) parameters in
  ret (FunctionValue (mkFunctionRec "" params None env true body)).

(** Positional binding of parameters: extra arguments are ignored, missing
    ones stay unbound. *)
Definition bindParameters (env : env_id) (params : list FunctionParameter) (args : list Value)
    : EV unit :=
  forM_ (fun ip : nat * FunctionParameter =>
           match args !! fst ip with
           | Some a => Environment_Set env (snd ip).(fp_Name).(id_Value) a
           | None => ret tt
           end) (imap pair params).

Definition extendFunctionEnv (fn : FunctionRec) (args : list Value) : EV env_id :=
  let* env := NewEnclosedEnvironment fn.(fn_Env) in
  do bindParameters env fn.(fn_Parameters) args then
  ret env.

Definition applyFunction (fn : Value) (args : list Value) (callerEnv : env_id) : EV Value :=
  match fn with
  | FunctionValue function =>
    let* oldFn := gets currentFn in
    do modify (set_currentFn function.(fn_Name)) then
    let* extendedEnv := extendFunctionEnv function args in
    let* evaluated :=
      (if function.(fn_IsLambda) && negb (is_NilExpression function.(fn_LambdaBody)) then
         Eval (NExpr function.(fn_LambdaBody)) extendedEnv
       else
         match function.(fn_Body) with
         | Some body => Eval (NStmt (BlockStmt body)) extendedEnv
         | None => panic nil_deref
         end) in
    do modify (set_currentFn oldFn) then
    ret (unwrapReturnValue evaluated)
  | BuiltinFunction b => builtin_Fn host fuel b args
  | StructDefinition _ _ =>
    (* Struct instantiation like User { ... } is handled elsewhere *)
    let* t := Value_type fn in
    ret (errorMessage (t ++ " is not callable"))
  | _ =>
    let* t := Value_type fn in
    ret (errorMessage ("not a function: " ++ t))
  end.

Definition listMap (elems : list Value) (fn : FunctionRec) (env : env_id) : EV Value :=
  let* newElements := mapM (fun elem => applyFunction (FunctionValue fn) [elem] env) elems in
  ret (ListValue newElements).

Definition listFilter (elems : list Value) (fn : FunctionRec) (env : env_id) : EV Value :=
  let* newElements :=
    (fix go (l : list Value) : EV (list Value) :=
       match l with
       | [] => ret []
       | elem :: rest =>
         let* result := applyFunction (FunctionValue fn) [elem] env in
         let* t := IsTruthy fuel result in
         let* kept := go rest in
         ret (if t then elem :: kept else kept)
       end) elems in
  ret (ListValue newElements).

Definition listReduce (elems : list Value) (fn : FunctionRec) (initial : Value) (env : env_id)
    : EV Value :=
  (fix go (l : list Value) (acc : Value) : EV Value :=
     match l with
     | [] => ret acc
     | elem :: rest =>
       let* acc := applyFunction (FunctionValue fn) [acc; elem] env in
       go rest acc
     end) elems initial.

Definition listFind (elems : list Value) (fn : FunctionRec) (env : env_id) : EV Value :=
  (fix go (l : list Value) : EV Value :=
     match l with
     | [] => ret NoneValue
     | elem :: rest =>
       let* result := applyFunction (FunctionValue fn) [elem] env in
       let* t := IsTruthy fuel result in
       if t then ret (OptionValue true elem) else go rest
     end) elems.

(** The method tables.  [None] is the nil result "no such built-in method". *)

Definition evalListMethod (elems : list Value) (method : string) (args : list Value)
    (env : env_id) : EV (option Value) :=
  let one_function (name : string) (k : FunctionRec -> EV Value) : EV (option Value) :=
    match args with
    | [FunctionValue fn] => let* r := k fn in ret (Some r)
    | [_] => ret (Some (errorMessage (name ++ "() argument must be a function")))
    | _ => ret (Some (errorMessage (name ++ "() requires 1 argument")))
    end in
  if String.eqb method "length" then ret (Some (listLength elems))
  else if String.eqb method "get" then
    match args with
    | [a] =>
      let* idx := UnwrapValue a in
      match idx with
      | IntegerValue i => ret (Some (listGet elems i))
      | _ => ret (Some (errorMessage "get() argument must be an integer"))
      end
    | _ => ret (Some (errorMessage "get() requires 1 argument"))
    end
  else if String.eqb method "append" then
    match args with
    | [a] => ret (Some (listAppend elems a))
    | _ => ret (Some (errorMessage "append() requires 1 argument"))
    end
  else if String.eqb method "map" then one_function "map" (fun fn => listMap elems fn env)
  else if String.eqb method "filter" then
    one_function "filter" (fun fn => listFilter elems fn env)
  else if String.eqb method "reduce" then
    match args with
    | [FunctionValue fn; initial] =>
      let* r := listReduce elems fn initial env in ret (Some r)
    | [_; _] => ret (Some (errorMessage "reduce() first argument must be a function"))
    | _ => ret (Some (errorMessage "reduce() requires 2 arguments"))
    end
  else if String.eqb method "find" then one_function "find" (fun fn => listFind elems fn env)
  else if String.eqb method "contains" then
    match args with
    | [a] => let* b := listContains elems a in ret (Some (BooleanValue b))
    | _ => ret (Some (errorMessage "contains() requires 1 argument"))
    end
  else ret None.

Definition evalMapMethod (m : gmap string Value) (method : string) (args : list Value)
    : EV (option Value) :=
  if String.eqb method "get" then
    match args with
    | [a] =>
      let* key := UnwrapValue a in
      match key with
      | StringValue k => ret (Some (mapGet m k))
      | _ => ret (Some (errorMessage "get() argument must be a string"))
      end
    | _ => ret (Some (errorMessage "get() requires 1 argument"))
    end
  else if String.eqb method "insert" then
    match args with
    | [a; v] =>
      let* key := UnwrapValue a in
      match key with
      | StringValue k => ret (Some (mapInsert m k v))
      | _ => ret (Some (errorMessage "insert() first argument must be a string"))
      end
    | _ => ret (Some (errorMessage "insert() requires 2 arguments"))
    end
  else if String.eqb method "remove" then
    match args with
    | [a] =>
      let* key := UnwrapValue a in
      match key with
      | StringValue k => ret (Some (mapRemove m k))
      | _ => ret (Some (errorMessage "remove() argument must be a string"))
      end
    | _ => ret (Some (errorMessage "remove() requires 1 argument"))
    end
  else if String.eqb method "keys" then ret (Some (mapKeys host m))
  else if String.eqb method "values" then ret (Some (mapValues host m))
  else if String.eqb method "contains" then
    match args with
    | [a] =>
      let* key := UnwrapValue a in
      match key with
      | StringValue k => ret (Some (BooleanValue (mapContains m k)))
      | _ => ret (Some (errorMessage "contains() argument must be a string"))
      end
    | _ => ret (Some (errorMessage "contains() requires 1 argument"))
    end
  else ret None.

Definition evalStringMethod (s : string) (method : string) (args : list Value)
    : EV (option Value) :=
  if String.eqb method "length" then ret (Some (stringLength s))
  else if String.eqb method "split" then
    match args with
    | [a] =>
      let* sep := UnwrapValue a in
      match sep with
      | StringValue sp => ret (Some (stringSplit host s sp))
      | _ => ret (Some (errorMessage "split() argument must be a string"))
      end
    | _ => ret (Some (errorMessage "split() requires 1 argument"))
    end
  else if String.eqb method "contains" then
    match args with
    | [a] =>
      let* substr := UnwrapValue a in
      match substr with
      | StringValue sub => ret (Some (BooleanValue (stringContains s sub)))
      | _ => ret (Some (errorMessage "contains() argument must be a string"))
      end
    | _ => ret (Some (errorMessage "contains() requires 1 argument"))
    end
  else if String.eqb method "trim" then ret (Some (stringTrim host s))
  else if String.eqb method "upper" then ret (Some (stringUpper host s))
  else if String.eqb method "lower" then ret (Some (stringLower host s))
  else ret None.

(** [r.Error] as a value. *)
Definition Result_Error (err : option ErrorRec) : Value :=
  match err with
  | Some e => ErrorValue e
  | None => NilErrorValue
  end.

Definition evalResultMethod (IsOk : bool) (value : Value) (err : option ErrorRec)
    (method : string) (args : list Value) (env : env_id) : EV (option Value) :=
  let r := ResultValue IsOk value err in
  if String.eqb method "then" then
    match args with
    | [a] =>
      if negb IsOk then ret (Some r) (* Short-circuit on error *)
      else
        match a with
        | FunctionValue _ =>
          let* result := applyFunction a [value] env in
          (* If the function returns a Result, return it; otherwise wrap in Ok *)
          match result with
          | ResultValue _ _ _ => ret (Some result)
          | _ => ret (Some (OkValue result))
          end
        | _ => ret (Some (errorMessage "then() argument must be a function"))
        end
    | _ => ret (Some (errorMessage "then() requires 1 argument"))
    end
  else if String.eqb method "map" then
    match args with
    | [a] =>
      if negb IsOk then ret (Some r) (* Short-circuit on error *)
      else
        match a with
        | FunctionValue _ =>
          let* result := applyFunction a [value] env in
          ret (Some (OkValue result))
        | _ => ret (Some (errorMessage "map() argument must be a function"))
        end
    | _ => ret (Some (errorMessage "map() requires 1 argument"))
    end
  else if String.eqb method "unwrap" then
    if negb IsOk then ret (Some (Result_Error err)) else ret (Some value)
  else if String.eqb method "unwrapOr" then
    match args with
    | [a] => if negb IsOk then ret (Some a) else ret (Some value)
    | _ => ret (Some (errorMessage "unwrapOr() requires 1 argument"))
    end
  else ret None.

Definition evalOptionMethod (IsSome : bool) (value : Value) (method : string)
    (args : list Value) (env : env_id) : EV (option Value) :=
  if String.eqb method "unwrap" then
    if negb IsSome then ret (Some (errorMessage "called unwrap on None"))
    else ret (Some value)
  else if String.eqb method "unwrapOr" then
    match args with
    | [a] => if negb IsSome then ret (Some a) else ret (Some value)
    | _ => ret (Some (errorMessage "unwrapOr() requires 1 argument"))
    end
  else if String.eqb method "map" then
    match args with
    | [a] =>
      if negb IsSome then ret (Some (OptionValue IsSome value)) (* Return None *)
      else
        match a with
        | FunctionValue _ =>
          let* result := applyFunction a [value] env in
          ret (Some (OptionValue true result))
        | _ => ret (Some (errorMessage "map() argument must be a function"))
        end
    | _ => ret (Some (errorMessage "map() requires 1 argument"))
    end
  else if String.eqb method "isSome" then ret (Some (BooleanValue IsSome))
  else if String.eqb method "isNone" then ret (Some (BooleanValue (negb IsSome)))
  else ret None.

Definition evalBuiltinMethod (obj : Value) (method : string) (args : list Value)
    (env : env_id) : EV (option Value) :=
  let* obj := UnwrapValue obj in
  match obj with
  | ListValue elems => evalListMethod elems method args env
  | MapValue pairs => evalMapMethod pairs method args
  | StringValue s => evalStringMethod s method args
  | ResultValue isOk v err => evalResultMethod isOk v err method args env
  | OptionValue isSome v => evalOptionMethod isSome v method args env
  | ModuleValue _ exports => Environment_Get fuel exports method
  | _ => ret None
  end.

Definition evalMethodCall (object : Expression) (member : Identifier) (args : list Expression)
    (env : env_id) : EV Value :=
  let* obj := Eval (NExpr object) env in
  let methodName := member.(id_Value) in
  let* argValues := evalExpressions args env in
  (* Check for built-in methods *)
  let* result := evalBuiltinMethod obj methodName argValues env in
  match result with
  | Some r => ret r
  | None =>
    (* Check for extension methods *)
    let* typeName := Value_type obj in
    let* exts := gets extensions in
    match exts !! typeName ≫= (fun extMethods => extMethods !! methodName) with
    | Some method =>
      (* Create new environment with 'this' bound to the object *)
      let* extEnv := NewEnclosedEnvironment method.(fn_Env) in
      do Environment_Set extEnv "this" obj then
      (* Bind parameters *)
      do bindParameters extEnv method.(fn_Parameters) argValues then
      (* Evaluate the method body directly *)
      let* result :=
        match method.(fn_Body) with
        | Some body => Eval (NStmt (BlockStmt body)) extEnv
        | None => panic nil_deref
        end in
      ret (unwrapReturnValue result)
    | None => ret (errorMessage ("undefined method " ++ methodName ++ " on " ++ typeName))
    end
  end.

Definition evalCallExpression (function : Expression) (arguments : list Expression)
    (env : env_id) : EV Value :=
  match function with
  | MemberExpression _ object member =>
    (* Check if it's a method call *)
    evalMethodCall object member arguments env
  | _ =>
    let* fn := Eval (NExpr function) env in
    let* args := evalExpressions arguments env in
    applyFunction fn args env
  end.

Definition evalMemberExpression (object : Expression) (member : Identifier) (env : env_id)
    : EV Value :=
  let* obj := Eval (NExpr object) env in
  if isError obj then ret obj else
  let* unwrapped := UnwrapValue obj in
  match unwrapped with
  | StructValue name _ fields =>
    (* Handle struct field access *)
    match fields !! member.(id_Value) with
    | Some val => ret val
    | None => ret (errorMessage ("undefined field " ++ member.(id_Value) ++ " on " ++ name))
    end
  | _ =>
    match obj with
    | ModuleValue name exports =>
      (* Handle module access *)
      let* val := Environment_Get fuel exports member.(id_Value) in
      match val with
      | Some v => ret v
      | None =>
        ret (errorMessage ("undefined export " ++ member.(id_Value) ++ " in module " ++ name))
      end
    | _ =>
      let* t := Value_type obj in
      ret (errorMessage ("cannot access member of " ++ t))
    end
  end.

(** The part of [evalIndexExpression] after both operands are unwrapped. *)
Definition evalIndexValues (left index : Value) : EV Value :=
  match left with
  | ListValue elements =>
    match index with
    | IntegerValue idx =>
      if (idx <? 0) || (idx >=? Z.of_nat (length elements)) then
        ret (errorMessage "index out of bounds")
      else or_panic (elements !! Z.to_nat idx)
    | _ => ret (errorMessage "list index must be an integer")
    end
  | MapValue pairs =>
    match index with
    | StringValue key =>
      match pairs !! key with
      | Some val => ret val
      | None => ret NoneValue
      end
    | _ => ret (errorMessage "map key must be a string")
    end
  | StringValue s =>
    match index with
    | IntegerValue idx =>
      if (idx <? 0) || (idx >=? Z.of_nat (String.length s)) then
        ret (errorMessage "index out of bounds")
      else ret (StringValue (string_of_byte (byte_at s (Z.to_nat idx))))
    | _ => ret (errorMessage "string index must be an integer")
    end
  | _ =>
    let* t := Value_type left in
    ret (errorMessage ("cannot index " ++ t))
  end.

Definition evalIndexExpression (left index : Expression) (env : env_id) : EV Value :=
  let* left := Eval (NExpr left) env in
  if isError left then ret left else
  let* index := Eval (NExpr index) env in
  if isError index then ret index else
  let* left := UnwrapValue left in
  let* index := UnwrapValue index in
  evalIndexValues left index.

Definition evalListLiteral (elements : list Expression) (env : env_id) : EV Value :=
  let* elements := evalExpressions elements env in
  match elements with
  | [e] => if isError e then ret e else ret (ListValue elements)
  | _ => ret (ListValue elements)
  end.

(** [evalMapLiteral], [evalStructLiteral] and [evalWithExpression] range
    over a Go map of the syntax tree: the entries are evaluated in the
    order of that [range]. *)
Definition evalMapLiteral (pairs : list (Expression * Expression)) (env : env_id) : EV Value :=
  (fix go (l : list (Expression * Expression)) (acc : gmap string Value) : EV Value :=
     match l with
     | [] => ret (MapValue acc)
     | (keyNode, valueNode) :: rest =>
       let* key := Eval (NExpr keyNode) env in
       if isError key then ret key else
       let* k := UnwrapValue key in
       match k with
       | StringValue keyStr =>
         let* value := Eval (NExpr valueNode) env in
         if isError value then ret value else
         go rest (<[ keyStr := value ]> acc)
       | _ => ret (errorMessage "map key must be a string")
       end
     end)
    (range_order host "evalMapLiteral"
       (fun kv => default "" (Expression_String host (fst kv))) pairs) ∅.

(** The named values of a struct literal or update, evaluated by the
    function [site]: the field map, or the error value that ended the
    evaluation. *)
Definition evalFields (site : string) (fields : list (string * Expression)) (env : env_id)
    : EV (gmap string Value + Value) :=
  (fix go (l : list (string * Expression)) (acc : gmap string Value)
       : EV (gmap string Value + Value) :=
     match l with
     | [] => ret (inl acc)
     | (name, valueNode) :: rest =>
       let* value := Eval (NExpr valueNode) env in
       if isError value then ret (inr value) else
       go rest (<[ name := value ]> acc)
     end) (range_order host site fst fields) ∅.

Definition evalStructLiteral (structName : Identifier) (fields : list (string * Expression))
    (env : env_id) : EV Value :=
  let* defs := gets structs in
  match defs !! structName.(id_Value) with
  | None => ret (errorMessage ("undefined struct: " ++ structName.(id_Value)))
  | Some (defName, defFields) =>
    let* r := evalFields "evalStructLiteral" fields env in
    match r with
    | inl fs => ret (StructValue defName defFields fs)
    | inr err => ret err
    end
  end.

Definition evalWithExpression (object : Expression) (updates : list (string * Expression))
    (env : env_id) : EV Value :=
  let* obj := Eval (NExpr object) env in
  if isError obj then ret obj else
  let* unwrapped := UnwrapValue obj in
  match unwrapped with
  | StructValue defName defFields fields =>
    let* r := evalFields "evalWithExpression" updates env in
    match r with
    | inl us => ret (StructValue defName defFields (With fields us))
    | inr err => ret err
    end
  | _ =>
    let* t := Value_type obj in
    ret (errorMessage ("with can only be used on structs, got " ++ t))
  end.

Definition evalOptionExpression (isSome : bool) (value : Expression) (env : env_id) : EV Value :=
  if negb isSome then ret NoneValue
  else
    let* v := Eval (NExpr value) env in
    if isError v then ret v else ret (OptionValue true v).

Definition evalResultExpression (isOk : bool) (value : Expression) (env : env_id) : EV Value :=
  let* v := Eval (NExpr value) env in
  if isError v then ret v else
  if isOk then ret (OkValue v)
  else
    let* fn := gets currentFn in
    match v with
    | StringValue s => ret (ResultValue false NilValue (Some (mkErrorRec fn "" s)))
    | _ =>
      let* s := Value_String host fuel v in
      ret (ResultValue false NilValue (Some (mkErrorRec fn "" s)))
    end.

(** [matchPattern]: the bindings of a matching case. *)
Definition matchPattern (value : Value) (matchCase : MatchCase)
    : option (list (string * Value)) :=
  match mc_Pattern matchCase with
  | OptionExpression _ patIsSome _ =>
    match value with
    | OptionValue isSome inner =>
      if negb (Bool.eqb patIsSome isSome) then None
      else
        match mc_BindingVar matchCase with
        | Some b => if patIsSome then Some [(b.(id_Value), inner)] else Some []
        | None => Some []
        end
    | _ => None
    end
  | ResultExpression _ patIsOk _ =>
    match value with
    | ResultValue isOk inner err =>
      if negb (Bool.eqb patIsOk isOk) then None
      else
        match mc_BindingVar matchCase with
        | Some b =>
          Some [(b.(id_Value), if isOk then inner else Result_Error err)]
        | None => Some []
        end
    | _ => None
    end
  | IdentifierE pat =>
    (* Wildcard pattern - matches anything *)
    Some [(pat.(id_Value), value)]
  | _ => None
  end.

Definition evalMatchExpression (value : Expression) (cases : list MatchCase) (env : env_id)
    : EV Value :=
  let* v := Eval (NExpr value) env in
  if isError v then ret v else
  (fix go (l : list MatchCase) : EV Value :=
     match l with
     | [] => ret NullValue
     | matchCase :: rest =>
       match matchPattern v matchCase with
       | Some bindings =>
         let* caseEnv := NewEnclosedEnvironment env in
         do forM_ (fun nv : string * Value => Environment_Set caseEnv (fst nv) (snd nv))
              bindings then
         Eval (NStmt (BlockStmt (mc_Body matchCase))) caseEnv
       | None => go rest
       end
     end) cases.

Definition evalMutableExpression (value : Expression) (env : env_id) : EV Value :=
  let* v := Eval (NExpr value) env in
  if isError v then ret v else
  let* inner := UnwrapValue v in
  let* l := new_cell inner in
  ret (MutableValue l).

(** The dispatch of [Eval] on the node type. *)
Definition EvalF (node : Node) (env : env_id) : EV Value :=
  match node with
  (* Statements *)
  | NProgram program => evalProgram program env
  | NStmt stmt =>
    match stmt with
    | NilStatement => panic nil_deref
    | DefStatement _ name _ value => evalDefStatement name value env
    | ReturnStatement _ value => evalReturnStatement value env
    | ExpressionStatement _ e => Eval (NExpr e) env
    | BlockStmt block => evalBlockStatement block env
    | FunctionStmt f => evalFunctionStatement f env
    | WhileStatement _ c body => evalWhileStatement c body env
    | ForStatement _ var it body => evalForStatement var it body env
    | BreakStatement _ => ret BreakValue
    | ContinueStatement _ => ret ContinueValue
    | StructStatement _ name fields => evalStructStatement name fields env
    | ExtendStatement _ typeName methods => evalExtendStatement typeName methods env
    | ImportStatement _ path => evalImportStatement path env
    end
  (* Expressions *)
  | NExpr expr =>
    match expr with
    | NilExpression => ret NullValue
    | IntegerLiteral _ v => ret (IntegerValue v)
    | FloatLiteral _ v => ret (FloatValue v)
    | StringLiteral _ v => ret (StringValue v)
    | BooleanLiteral _ v => ret (BooleanValue v)
    | IdentifierE i => evalIdentifier i env
    | PrefixExpression _ op r => evalPrefixExpression op r env
    | InfixExpression _ l op r => evalInfixExpression l op r env
    | AssignmentExpression _ name v => evalAssignmentExpression name v env
    | IfExpression _ c conseq alt => evalIfExpression c conseq alt env
    | FunctionLiteral _ params body => evalFunctionLiteral params body env
    | CallExpression _ f args => evalCallExpression f args env
    | MemberExpression _ obj m => evalMemberExpression obj m env
    | IndexExpression _ l i => evalIndexExpression l i env
    | ListLiteral _ elems => evalListLiteral elems env
    | MapLiteral _ pairs => evalMapLiteral pairs env
    | StructLiteral _ name fields => evalStructLiteral name fields env
    | WithExpression _ obj updates => evalWithExpression obj updates env
    | OptionExpression _ isSome v => evalOptionExpression isSome v env
    | ResultExpression _ isOk v => evalResultExpression isOk v env
    | MatchExpression _ v cases => evalMatchExpression v cases env
    | MutableExpression _ _ v => evalMutableExpression v env
    end
  end.

End Evaluation.

(** [Eval]: every nested call of the Go method costs one unit of fuel. *)
Fixpoint Eval (host : Host) (fuel : nat) : Node -> env_id -> EV Value :=
  match fuel with
  | O => fun _ _ => out_of_fuel
  | S n => EvalF host n (Eval host n)
  end.

(** [NewEvaluator] with the loader's base path, and the empty stores. *)
Definition NewEvaluator (cwd : string) : World :=
  mkWorld ∅ 0%nat ∅ 0%nat ∅ ∅ ∅ (mkModuleLoader cwd ∅) "" [].

Definition SetBasePath (path : string) : EV unit :=
  modify (fun w => set_loader (mkModuleLoader path w.(loader).(cache)) w).

(** [Run] executes source code: parse, type check, evaluate. *)
Definition Run (host : Host) (fuel : nat) (cwd : string) (source : string)
    : outcome World Value :=
  match parse_source host fuel source with
  | Done (program, errs) _ =>
    match errs with
    | _ :: _ => Done (errorMessage "Parse errors occurred") (NewEvaluator cwd)
    | [] =>
      match Check host program NewTypeChecker with
      | Done (Some err) _ => Done (errorMessage err) (NewEvaluator cwd)
      | Done None _ =>
        (let* env := NewEnvironment in
         do RegisterBuiltins env then
         Eval host fuel (NProgram program) env) (NewEvaluator cwd)
      | Panic msg => Panic msg
      | OutOfFuel => OutOfFuel
      end
    end
  | Panic msg => Panic msg
  | OutOfFuel => OutOfFuel
  end.

(** ** Hosts for running examples

    A file system given as a list of files, a quoting function that only
    adds the quotes, and stand-ins for the conversions, which the examples
    below do not reach.  These hosts range over a map of the syntax tree in
    the order in which its entries were written, and over a map value in
    the order of its keys. *)

Fixpoint lookup_file (files : list (string * string)) (path : string) : option string :=
  match files with
  | [] => None
  | (name, content) :: rest =>
    if String.eqb name path then Some content else lookup_file rest path
  end.

Definition files_host (files : list (string * string)) : Host :=
  mkHost (fun _ => None) (fun _ => "") (fun s => dquote ++ s ++ dquote) (fun _ => 0)
         (fun _ => None) (fun _ => None) (fun s => s) (fun s => s) (fun s => s)
         (fun s => [s])
         (fun path => match lookup_file files path with
                      | Some content => inl content
                      | None => inr ("open " ++ path ++ ": no such file or directory")
                      end)
         (fun _ _ => []).

Definition plain_host : Host := files_host [].

(** A host that ranges over every map from the last entry to the first. *)
Definition last_first_host : Host :=
  mkHost (ParseFloat plain_host) (FormatG plain_host) (Quote plain_host)
         (FloatToInt64 plain_host) (Sscanf_d plain_host) (Sscanf_f plain_host)
         (TrimSpace plain_host) (ToUpper plain_host) (ToLower plain_host)
         (Explode plain_host) (ReadFile plain_host)
         (fun _ keys => rev (seq 0 (length keys))).

(** * Definitions used by the statements

    Number ranges, example programs and values, and the predicates on
    paths and blocks that the properties below are stated with. *)

(** The range of int64. *)
Definition int64_min : Z := - 2 ^ 63.
Definition int64_max : Z := 2 ^ 63 - 1.
Definition in_int64 (z : Z) : Prop := int64_min <= z <= int64_max.

(** The binary operators of [parseInfixExpression] with their tokens. *)
Definition binary_operators : list (string * TokenType) :=
  [("+", PLUS); ("-", MINUS); ("*", MULTIPLY); ("/", DIVIDE); ("%", MODULO);
   (">", GT); ("<", LT); (">=", GTE); ("<=", LTE); ("and", AND); ("or", OR); ("is", IS)].

(** The rendering of the program parsed from [src], if it parses without
    errors. *)
Definition parsed_rendering (host : Host) (fuel : nat) (src : string) : option string :=
  match parse_source host fuel src with
  | Done (prog, []) _ => Program_String host prog
  | _ => None
  end.

(** The order of the operators as the language description states it, from
    the loosest to the tightest: assignment, or, and, is, comparison, sum,
    product, prefix, call and member, index.  The prefix operators [not]
    and unary [-] stand eighth; they have no entry of their own in a table
    of infix tokens. *)
Definition stated_order : list (list TokenType) :=
  [[ASSIGN_MUT]; [OR]; [AND]; [IS]; [GT; LT; GTE; LTE]; [PLUS; MINUS];
   [MULTIPLY; DIVIDE; MODULO]; []; [DOT; LPAREN]; [LBRACKET]].

Definition stated_prefix_level : nat := 8.

Fixpoint level_in (levels : list (list TokenType)) (n : nat) (t : TokenType) : option nat :=
  match levels with
  | [] => None
  | class :: rest =>
    if existsb (TokenType_eqb t) class then Some n else level_in rest (S n) t
  end.

(** The place of a token in the stated order, counted from 1. *)
Definition stated_level (t : TokenType) : option nat := level_in stated_order 1 t.

(** The rendering of the tree that [1 op1 2 op2 3] must have by the stated
    order: the operator that stands later is grouped first, operators of
    one level group to the left. *)
Definition stated_grouping (op1 op2 : string * TokenType) : string :=
  if (default 0%nat (stated_level (snd op1)) <? default 0%nat (stated_level (snd op2)))%nat
  then "(1 " ++ fst op1 ++ " (2 " ++ fst op2 ++ " 3))"
  else "((1 " ++ fst op1 ++ " 2) " ++ fst op2 ++ " 3)".

(** [1 op1 2 op2 3] parses to the grouping of the stated order. *)
Definition groups_as_stated (host : Host) (fuel : nat) (op1 op2 : string * TokenType) : bool :=
  match parsed_rendering host fuel ("1 " ++ fst op1 ++ " 2 " ++ fst op2 ++ " 3") with
  | Some s => String.eqb s (stated_grouping op1 op2)
  | None => false
  end.

(** The renderings of [src] with every binary operator in place of the
    mark [@]. *)
Fixpoint fill (op : string) (src : string) : string :=
  match src with
  | EmptyString => EmptyString
  | String c rest => if Ascii.eqb c "@" then op ++ fill op rest else String c (fill op rest)
  end.

Definition renders_as (host : Host) (fuel : nat) (src out : string) : bool :=
  forallb (fun op : string * TokenType =>
             match parsed_rendering host fuel (fill (fst op) src) with
             | Some s => String.eqb s (fill (fst op) out)
             | None => false
             end) binary_operators.

(** The value of [r.then(f)] for an [Ok] receiver, given the result [y]
    of [f]: a Result is returned as it is, anything else is wrapped. *)
Definition flatten_result (y : Value) : Value :=
  match y with
  | ResultValue _ _ _ => y
  | _ => OkValue y
  end.

(** The lambda [{ x -> x }], closed over environment 0. *)
Definition identity_lambda : FunctionRec :=
  mkFunctionRec "" [mkFunctionParameter (mkIdentifier (mkToken IDENT "x" 1 3) "x") None]
    None 0%nat true (IdentifierE (mkIdentifier (mkToken IDENT "x" 1 8) "x")).

(** A state with one, empty, environment. *)
Definition one_env_world : World :=
  mkWorld {[ 0%nat := mkEnvironment ∅ None ]} 1%nat ∅ 0%nat ∅ ∅ ∅ (mkModuleLoader "/" ∅) "" [].

(** The values at which [evalBlockStatement] stops. *)
Definition block_stop (v : Value) : bool :=
  match v with
  | ReturnValue _ | BreakValue | ContinueValue => true
  | _ => false
  end.

(** The statements [pre] are evaluated one after the other from state [w]
    to state [w1], none of them stopping the block. *)
Fixpoint runs_through (Ev : Node -> env_id -> EV Value) (pre : list Statement)
    (env : env_id) (w w1 : World) : Prop :=
  match pre with
  | [] => w = w1
  | s :: rest =>
    exists (v : Value) (w' : World),
      Ev (NStmt s) env w = Done v w' /\ block_stop v = false /\ runs_through Ev rest env w' w1
  end.

(** The statements of [def x = 1], [return 2], [3], [zzz] and [5]. *)
Definition stmt_def_x : Statement :=
  DefStatement Token_zero (mkIdentifier Token_zero "x") None (IntegerLiteral Token_zero 1).
Definition stmt_return_2 : Statement := ReturnStatement Token_zero (IntegerLiteral Token_zero 2).
Definition stmt_3 : Statement := ExpressionStatement Token_zero (IntegerLiteral Token_zero 3).
Definition stmt_zzz : Statement :=
  ExpressionStatement Token_zero (IdentifierE (mkIdentifier Token_zero "zzz")).
Definition stmt_5 : Statement := ExpressionStatement Token_zero (IntegerLiteral Token_zero 5).

(** The expressions [Error(1)] and [{ x -> x }]. *)
Definition expr_error_1 : Expression :=
  ResultExpression Token_zero false (IntegerLiteral Token_zero 1).
Definition expr_identity_lambda : Expression :=
  FunctionLiteral Token_zero [mkIdentifier Token_zero "x"]
    (IdentifierE (mkIdentifier Token_zero "x")).

(** The value of [Error(1)]. *)
Definition error_1 : Value := ResultValue false NilValue (Some (mkErrorRec "" "" "1")).

(** A program with an extension method on a struct, called on an [Ok]
    that wraps the struct. *)
Definition ok_receiver_program : string :=
  "struct User { age: Integer }" ++ String "010"
  ("extend User { fun validate() { return Ok(this) } }" ++ String "010"
   "Ok(User { age: 1 }).validate()").

(** An extension method of [Result], called on an [Error]. *)
Definition error_receiver_program : string :=
  "extend Result { fun foo() { return 42 } }" ++ String "010"
  "Error(1).foo()".

(** The extension method of [User] called on a [User]. *)
Definition direct_receiver_program : string :=
  "struct User { age: Integer }" ++ String "010"
  ("extend User { fun validate() { return Ok(this) } }" ++ String "010"
   "User { age: 1 }.validate()").

(** A struct with an extension method that returns an error, called on a
    value of the struct. *)
Definition validate_program : string :=
  "struct User { id: Integer, name: String, age: Integer }" ++ String "010"
  ("extend User {" ++ String "010"
  ("    fun validate() {" ++ String "010"
  ("        if this.age < 18 { return Error(" ++ dquote ++ "Must be 18+" ++ dquote ++ ") }"
   ++ String "010"
  ("        return Ok(this)" ++ String "010"
  ("    }" ++ String "010"
  ("}" ++ String "010"
  ("def bob = User { id: 1, name: " ++ dquote ++ "Bob" ++ dquote ++ ", age: 16 }"
   ++ String "010"
   "bob.validate()"))))))).

(** The struct value bound to [bob]. *)
Definition bob : Value :=
  StructValue "User"
    [mkStructField (mkIdentifier (mkToken IDENT "id" 1 15) "id")
       (Some (mkTypeAnnotation (mkToken IDENT "Integer" 1 19) "Integer" []));
     mkStructField (mkIdentifier (mkToken IDENT "name" 1 28) "name")
       (Some (mkTypeAnnotation (mkToken IDENT "String" 1 34) "String" []));
     mkStructField (mkIdentifier (mkToken IDENT "age" 1 42) "age")
       (Some (mkTypeAnnotation (mkToken IDENT "Integer" 1 47) "Integer" []))]
    (<["id" := IntegerValue 1]> (<["name" := StringValue "Bob"]>
       (<["age" := IntegerValue 16]> ∅))).

(** A function declared to return a Mutable, and a call of it. *)
Definition mutable_return_program : string :=
  "fun counter() -> Mutable[Integer] {" ++ String "010"
  ("    if true { return Mutable[Integer](0) }" ++ String "010"
  ("}" ++ String "010"
   "counter()")).

(** The character [c] does not occur in [s]. *)
Fixpoint no_char (c : ascii) (s : string) : bool :=
  match s with
  | EmptyString => true
  | String x rest => negb (Ascii.eqb x c) && no_char c rest
  end.

(** The separator made of the one character [c]. *)
Definition sep_of (c : ascii) : string := String c EmptyString.

(** A plain path element has no separator in it and is neither [.] nor
    [..]; a path segment is a plain element that is not empty. *)
Definition plain_elem (s : string) : bool :=
  no_char "/" s && negb (String.eqb s ".") && negb (String.eqb s "..").

Definition path_segment (s : string) : bool :=
  plain_elem s && negb (String.eqb s "").

(** A segment of a dotted module path: not empty, without dot or
    separator. *)
Definition module_segment (s : string) : bool :=
  no_char "." s && no_char "/" s && negb (String.eqb s "").

(** The list with [x] appended to its last element. *)
Fixpoint append_last (segs : list string) (x : string) : list string :=
  match segs with
  | [] => []
  | [s] => [s ++ x]
  | s :: rest => s :: append_last rest x
  end.

(** The elements that [Clean] keeps among plain ones. *)
Definition nonempty (s : string) : bool := negb (String.eqb s "").

(** ** Further functions and vocabulary

    [Update] of the environment source file, and the predicates and
    examples that the further properties are stated with. *)

(** [e.Update(name, val)] updates an existing variable in the nearest scope
    that has it; the chain of parents is walked with fuel. *)
Fixpoint Environment_Update (fuel : nat) (e : env_id) (name : string) (val : Value) : EV bool :=
  match fuel with
  | O => out_of_fuel
  | S n =>
    let* es := gets envs in
    match es !! e with
    | None => panic nil_deref
    | Some env =>
      match env.(store) !! name with
      | Some _ =>
        do modify (set_envs (fun es =>
             <[ e := mkEnvironment (<[ name := val ]> env.(store)) env.(parent) ]> es)) then
        ret true
      | None =>
        match env.(parent) with
        | Some p => Environment_Update n p name val
        | None => ret false
        end
      end
    end
  end.

(** Environments are allocated in order and a parent exists before its
    child: every environment has an address below the next free one, and
    the address of its parent is below its own. *)
Definition parents_older (w : World) : Prop :=
  forall (e : env_id) (env : Environment),
    w.(envs) !! e = Some env ->
    (e < w.(next_env))%nat /\ forall p, env.(parent) = Some p -> (p < e)%nat.

(** The values at which [evalProgram] stops. *)
Definition program_stop (v : Value) : bool :=
  match v with
  | ReturnValue _ | ErrorValue _ | NilErrorValue => true
  | _ => false
  end.

(** The statements [pre] are evaluated one after the other from state [w]
    to state [w1], none of them stopping the program. *)
Fixpoint program_runs_through (Ev : Node -> env_id -> EV Value) (pre : list Statement)
    (env : env_id) (w w1 : World) : Prop :=
  match pre with
  | [] => w = w1
  | s :: rest =>
    exists (v : Value) (w' : World),
      Ev (NStmt s) env w = Done v w' /\ program_stop v = false
      /\ program_runs_through Ev rest env w' w1
  end.

(** One round of a [for] loop: a new scope enclosed in [env], the loop
    variable bound to the element, the body evaluated there. *)
Definition for_round (Ev : Node -> env_id -> EV Value) (var : string) (body : BlockStatement)
    (env : env_id) (elem : Value) : EV Value :=
  let* loopEnv := NewEnclosedEnvironment env in
  do Environment_Set loopEnv var elem then
  Ev (NStmt (BlockStmt body)) loopEnv.

(** The rounds for the elements [pre] run from state [w] to state [w1],
    and each ends with a value that lets the loop go on. *)
Fixpoint rounds_go_on (Ev : Node -> env_id -> EV Value) (var : string) (body : BlockStatement)
    (env : env_id) (pre : list Value) (w w1 : World) : Prop :=
  match pre with
  | [] => w = w1
  | elem :: rest =>
    exists (v : Value) (w' : World),
      for_round Ev var body env elem w = Done v w'
      /\ loop_signal v = LoopNext tt
      /\ rounds_go_on Ev var body env rest w' w1
  end.

(** The rounds of a [for] loop over the elements of a list. *)
Definition for_rounds (Ev : Node -> env_id -> EV Value) (var : string) (body : BlockStatement)
    (env : env_id) : list Value -> EV Value :=
  fix go (l : list Value) : EV Value :=
    match l with
    | [] => ret NullValue
    | elem :: rest =>
      let* result := for_round Ev var body env elem in
      match loop_signal result with
      | LoopReturn v => ret v
      | _ => go rest
      end
    end.


(** The list literal [[1, 2]] and the block [{ break }]. *)
Definition expr_list_1_2 : Expression :=
  ListLiteral Token_zero [IntegerLiteral Token_zero 1; IntegerLiteral Token_zero 2].
Definition block_break : BlockStatement :=
  mkBlockStatement Token_zero [BreakStatement Token_zero].

(** A state with one environment that binds [c] to a Mutable holding 0 and
    [k] to the integer 0. *)
Definition counter_world : World :=
  mkWorld {[ 0%nat := mkEnvironment (<[ "c" := MutableValue 0%nat ]>
                                       {[ "k" := IntegerValue 0 ]}) None ]}
          1%nat {[ 0%nat := IntegerValue 0 ]} 1%nat ∅ ∅ ∅ (mkModuleLoader "/" ∅) "" [].

(** The lexer looks at the byte at [pos], or at [NUL] past the end of the
    input, and [readPos] is the position after it. *)
Definition lexer_synced (l : Lexer) : Prop :=
  l.(readPos) = S l.(pos)
  /\ l.(ch) = if (l.(pos) <? String.length l.(input))%nat then byte_at l.(input) l.(pos)
             else NUL.

(** A step of the lexer from [l] to [l']: the same input, the position
    moved forward, and [l'] again in step with the input. *)
Definition lexer_advance (l l' : Lexer) : Prop :=
  lexer_synced l' /\ l'.(input) = l.(input) /\ (l.(pos) <= l'.(pos))%nat.

(** What one call of [NextToken] does to the lexer: it ends with a token,
    the lexer has moved forward, and only at the end of the input (a [NUL]
    byte) the token is [EOF]. *)
Definition token_step (l : Lexer) (o : outcome Lexer Token) : Prop :=
  exists (tok : Token) (l' : Lexer),
    o = Done tok l' /\ lexer_advance l l' /\ (l.(pos) < l'.(pos))%nat
    /\ (tok.(tok_Type) <> EOF -> l.(ch) <> NUL).

(** A type that holds no nil struct pointer. *)
Fixpoint no_nil_struct (t : Ty) : bool :=
  match t with
  | ListType e | OptionType e | MutableType e => no_nil_struct e
  | MapType k v | ResultType k v => no_nil_struct k && no_nil_struct v
  | FunctionType ps r => forallb no_nil_struct ps && no_nil_struct r
  | NilStructType => false
  | _ => true
  end.

(** The type under the [Mutable] wrappers of a type. *)
Fixpoint mutable_core (t : Ty) : Ty :=
  match t with
  | MutableType e => mutable_core e
  | _ => t
  end.

(** Every environment has an address below the next free one. *)
Definition envs_fresh (w : World) : Prop :=
  forall e : env_id, is_Some (w.(envs) !! e) -> (e < w.(next_env))%nat.

(** What a run of the evaluator from [w] to [w'] may do to the state: the
    output, the environments, the cells, the struct table and the module
    table only grow, an environment keeps its parent, and the name of the
    current function and the base path of the loader are as they were. *)
Record world_kept (w w' : World) : Prop := mkWorldKept {
  kept_stdout : exists more : list string, w'.(stdout) = (w.(stdout) ++ more)%list;
  kept_next_env : (w.(next_env) <= w'.(next_env))%nat;
  kept_next_cell : (w.(next_cell) <= w'.(next_cell))%nat;
  kept_currentFn : w'.(currentFn) = w.(currentFn);
  kept_basePath : w'.(loader).(basePath) = w.(loader).(basePath);
  kept_envs : forall (e : env_id) (env : Environment),
      w.(envs) !! e = Some env ->
      exists env' : Environment, w'.(envs) !! e = Some env' /\ env'.(parent) = env.(parent);
  kept_cells : forall l : loc, is_Some (w.(cells) !! l) -> is_Some (w'.(cells) !! l);
  kept_structs : forall k : string, is_Some (w.(structs) !! k) -> is_Some (w'.(structs) !! k);
  kept_modules : forall k : string, is_Some (w.(modules) !! k) -> is_Some (w'.(modules) !! k)
}.

Definition world_grows (w w' : World) : Prop :=
  envs_fresh w -> envs_fresh w' /\ world_kept w w'.

(** A computation all of whose runs only let the state grow. *)
Definition grows {A} (m : EV A) : Prop :=
  forall (w : World) (a : A) (w' : World), m w = Done a w' -> world_grows w w'.

(** A computation that reads the state and leaves it as it is. *)
Definition reads_only {A} (m : EV A) : Prop :=
  forall (w : World) (a : A) (w' : World), m w = Done a w' -> w' = w.

(** What a run of the checker from [tc] to [tc'] keeps: the scopes outside
    the innermost one, the struct table and the function table are as they
    were, no scope has been left, and the errors reported before are the
    first errors reported after. *)
Record tc_kept (tc tc' : TypeChecker) : Prop := mkTcKept {
  kept_outer : tail tc'.(tc_env) = tail tc.(tc_env);
  kept_depth : (length tc.(tc_env) <= length tc'.(tc_env))%nat;
  kept_tc_structs : tc'.(tc_structs) = tc.(tc_structs);
  kept_tc_functions : tc'.(tc_functions) = tc.(tc_functions);
  kept_tc_errors : exists more : list string, tc'.(tc_errors) = (tc.(tc_errors) ++ more)%list
}.

(** A check that may declare names in the innermost scope. *)
Definition scoped {A} (m : TC A) : Prop :=
  forall (tc : TypeChecker) (a : A) (tc' : TypeChecker), m tc = Done a tc' -> tc_kept tc tc'.

(** A check that declares nothing. *)
Definition keeps {A} (m : TC A) : Prop :=
  forall (tc : TypeChecker) (a : A) (tc' : TypeChecker),
    m tc = Done a tc' -> tc_kept tc tc' /\ tc'.(tc_env) = tc.(tc_env).

(** A check that starts inside a scope pushed on [outer] and leaves it. *)
Definition pops {A} (outer : list (gmap string Ty)) (m : TC A) : Prop :=
  forall (tc : TypeChecker) (a : A) (tc' : TypeChecker),
    tail tc.(tc_env) = outer -> tc.(tc_env) <> [] ->
    m tc = Done a tc' ->
    tc'.(tc_env) = outer
    /\ tc'.(tc_structs) = tc.(tc_structs)
    /\ tc'.(tc_functions) = tc.(tc_functions)
    /\ exists more : list string, tc'.(tc_errors) = (tc.(tc_errors) ++ more)%list.

(** A state with one empty environment and the struct [P] of no fields. *)
Definition point_world : World :=
  mkWorld {[ 0%nat := mkEnvironment ∅ None ]} 1%nat ∅ 0%nat {[ "P" := ("P", []) ]} ∅ ∅
          (mkModuleLoader "/" ∅) "" [].

(** The values among which [valuesEqual] can find two equal: integers,
    floats, strings, booleans and null. *)
Definition comparable (v : Value) : bool :=
  match v with
  | IntegerValue _ | FloatValue _ | StringValue _ | BooleanValue _ | NullValue => true
  | _ => false
  end.

(** * Properties *)

(** ** The lexer and host functions on examples *)

Example lex_def : token_types "def x = 5" =
  Some [(DEF, "def"); (IDENT, "x"); (ASSIGN, "="); (INTEGER, "5"); (EOF, "")].
Proof. reflexivity. Qed.

Example lex_arrow : token_types "a -> b // c" =
  Some [(IDENT, "a"); (ARROW, "->"); (IDENT, "b"); (EOF, "")].
Proof. reflexivity. Qed.

Example lex_assign_mut : token_types "a == b" =
  Some [(IDENT, "a"); (ASSIGN_MUT, "=="); (IDENT, "b"); (EOF, "")].
Proof. reflexivity. Qed.

Example Clean_examples :
  map Clean ["a//b/./c/.."; "/../a"; "../../a/.."; ""; "/"; "a/../.."] =
  ["a/b"; "/a"; "../.."; "."; "/"; ".."].
Proof. reflexivity. Qed.

Example Split_example : Split "utils.math" "." = ["utils"; "math"].
Proof. reflexivity. Qed.

(** ** Lists are persistent: [Append] *)

Lemma copy_slice_make (lv : list Value) (n : nat) :
  copy_slice (make_slice (length lv + n)) lv = (lv ++ make_slice n)%list.
Proof.
  unfold copy_slice, make_slice.
  rewrite length_replicate, take_ge by lia.
  f_equal. rewrite drop_replicate. f_equal. lia.
Qed.

Lemma Append_app (lv : list Value) (v : Value) : Append lv v = (lv ++ [v])%list.
Proof.
  unfold Append. rewrite copy_slice_make. simpl.
  rewrite insert_app_r_alt by lia.
  by rewrite Nat.sub_diag.
Qed.

(** C6. For every list [L] and value [v], [L.append(v)] returns a new list
    whose length is [len(L)+1] and whose last element is [v]; the method
    call leaves the whole interpreter state, and with it every binding that
    holds [L], unchanged, and the elements of [L] are the first [len(L)]
    elements of the result in their order. *)
Theorem C6_append_persistent
    (host : Host) (fuel : nat) (Ev : Node -> env_id -> EV Value)
    (L : list Value) (v : Value) (env : env_id) (w : World) :
  evalListMethod host fuel Ev L "append" [v] env w = Done (Some (ListValue (Append L v))) w
  /\ length (Append L v) = (length L + 1)%nat
  /\ last (Append L v) = Some v
  /\ take (length L) (Append L v) = L
  /\ evalBuiltinMethod host fuel Ev (ListValue L) "append" [v] env w
     = Done (Some (ListValue (L ++ [v])%list)) w.
Proof.
  rewrite !Append_app. repeat split.
  - unfold evalListMethod; simpl. unfold ret, listAppend. by rewrite Append_app.
  - rewrite length_app; simpl; lia.
  - by rewrite last_snoc.
  - by rewrite take_app_length.
  - unfold evalBuiltinMethod, bind, UnwrapValue, ret, evalListMethod; simpl.
    unfold ret, listAppend. by rewrite Append_app.
Qed.

(** ** Integer division *)

Lemma wrap64_id (z : Z) : in_int64 z -> wrap64 z = z.
Proof.
  unfold in_int64, int64_min, int64_max, wrap64. intros H.
  rewrite Z.mod_small; lia.
Qed.

Lemma quot_abs_le (a b : Z) : b <> 0 -> Z.abs (Z.quot a b) <= Z.abs a.
Proof.
  intros Hb.
  rewrite <- (Z.quot_abs a b) by exact Hb.
  assert (1 <= Z.abs b) by lia.
  assert (0 <= Z.abs a) by lia.
  apply Z.quot_le_upper_bound; [lia | ].
  generalize dependent (Z.abs a). generalize dependent (Z.abs b). intros; nia.
Qed.

Lemma int64_quo_exact (a b : Z) :
  in_int64 a -> b <> 0 -> ~ (a = int64_min /\ b = -1) -> int64_quo a b = Z.quot a b.
Proof.
  intros Ha Hb Hov. unfold int64_quo. apply wrap64_id.
  pose proof (quot_abs_le a b Hb) as Hq.
  unfold in_int64, int64_min, int64_max in *.
  destruct (Z.eq_dec a (- 2 ^ 63)) as [-> | Hne]; [ | lia ].
  assert (b <> -1) by tauto.
  destruct (Z.eq_dec b 1) as [-> | Hb1].
  { rewrite Z.quot_1_r. lia. }
  assert (Z.abs (Z.quot (- 2 ^ 63) b) < 2 ^ 63); [ | lia ].
  rewrite <- Z.quot_abs by exact Hb.
  apply Z.quot_lt_upper_bound; [lia | lia | ].
  change (Z.abs (- 2 ^ 63)) with (2 ^ 63).
  assert (2 <= Z.abs b) by lia.
  generalize dependent (Z.abs b). intros; nia.
Qed.

Lemma int64_rem_exact (a b : Z) : in_int64 a -> b <> 0 -> int64_rem a b = Z.rem a b.
Proof.
  intros Ha Hb. unfold int64_rem. apply wrap64_id.
  pose proof (Z.rem_bound_abs a b Hb).
  assert (Z.abs (Z.rem a b) <= Z.abs a).
  { destruct (Z.lt_ge_cases (Z.abs a) (Z.abs b)) as [Hlt | Hge].
    - rewrite <- Z.rem_abs by exact Hb. rewrite Z.rem_small; lia.
    - lia. }
  unfold in_int64, int64_min, int64_max in *.
  destruct (Z.le_ge_cases 0 a) as [Hpos | Hneg].
  - pose proof (Z.rem_nonneg a b Hb Hpos). lia.
  - pose proof (Z.rem_nonpos a b Hb Hneg). lia.
Qed.

(** C7, as the code has it. For all int64 values [a] and [b], evaluating
    [a / b] or [a % b] yields an error value exactly when [b = 0] (the
    message is "division by zero"), so the division itself is never reached
    with a zero divisor.  For a nonzero [b], [a % b] is the remainder, with
    the sign of [a], and [a / b] is the quotient truncated toward zero, with
    one exception: for [a = -2^63] and [b = -1] the quotient [2^63] is no
    int64, and the result is [-2^63].  The same holds for the infix
    expression on two integer literals. *)
Theorem C7_integer_division (a b : Z) :
  in_int64 a ->
  (isError (evalIntegerInfixExpression "/" a b) = true <-> b = 0)
  /\ (isError (evalIntegerInfixExpression "%" a b) = true <-> b = 0)
  /\ (b = 0 ->
      evalIntegerInfixExpression "/" a b = errorMessage "division by zero"
      /\ evalIntegerInfixExpression "%" a b = errorMessage "division by zero")
  /\ (b <> 0 -> evalIntegerInfixExpression "%" a b = IntegerValue (Z.rem a b))
  /\ (b <> 0 -> ~ (a = int64_min /\ b = -1) ->
      evalIntegerInfixExpression "/" a b = IntegerValue (Z.quot a b))
  /\ (a = int64_min -> b = -1 ->
      evalIntegerInfixExpression "/" a b = IntegerValue int64_min)
  /\ (forall (host : Host) (fuel : nat) (tok t1 t2 : Token) (op : string)
             (env : env_id) (w : World),
        op = "/" \/ op = "%" ->
        Eval host (S (S fuel))
          (NExpr (InfixExpression tok (IntegerLiteral t1 a) op (IntegerLiteral t2 b))) env w
        = Done (evalIntegerInfixExpression op a b) w).
Proof.
  intros Ha.
  assert (Hdiv : evalIntegerInfixExpression "/" a b
                 = if b =? 0 then errorMessage "division by zero"
                   else IntegerValue (int64_quo a b)) by reflexivity.
  assert (Hmod : evalIntegerInfixExpression "%" a b
                 = if b =? 0 then errorMessage "division by zero"
                   else IntegerValue (int64_rem a b)) by reflexivity.
  assert (Heval : forall (host : Host) (fuel : nat) (tok t1 t2 : Token) (op : string)
                          (env : env_id) (w : World),
             op = "/" \/ op = "%" ->
             Eval host (S (S fuel))
               (NExpr (InfixExpression tok (IntegerLiteral t1 a) op (IntegerLiteral t2 b)))
               env w
             = Done (evalIntegerInfixExpression op a b) w).
  { intros host fuel tok t1 t2 op env w [-> | ->]; reflexivity. }
  rewrite Hdiv, Hmod.
  destruct (Z.eqb_spec b 0) as [Hb | Hb].
  - repeat match goal with |- _ /\ _ => split end; try exact Heval; try tauto;
      try congruence; try lia.
  - repeat match goal with |- _ /\ _ => split end; try exact Heval; try tauto;
      try congruence; try discriminate.
    + cbn [isError]. split; [discriminate | contradiction].
    + cbn [isError]. split; [discriminate | contradiction].
    + intros _. by rewrite int64_rem_exact.
    + intros _ Hov. by rewrite int64_quo_exact.
    + intros -> ->. reflexivity.
Qed.

Lemma C7_integer_division_witness :
  evalIntegerInfixExpression "/" (-7) 2 = IntegerValue (-3)
  /\ evalIntegerInfixExpression "%" (-7) 2 = IntegerValue (-1)
  /\ evalIntegerInfixExpression "/" 7 0 = errorMessage "division by zero".
Proof.
  assert (Hin : forall z, -7 <= z <= 7 -> in_int64 z)
    by (intros z Hz; unfold in_int64, int64_min, int64_max; lia).
  destruct (C7_integer_division (-7) 2 (Hin (-7) ltac:(lia))) as (_ & _ & _ & Hrem & Hquo & _).
  destruct (C7_integer_division 7 0 (Hin 7 ltac:(lia))) as (_ & _ & Hzero & _).
  split; [ | split].
  - apply Hquo; [lia | ]. intros [H _]. discriminate H.
  - apply Hrem. lia.
  - by destruct (Hzero eq_refl).
Defined.

(** C7 as stated fails at one pair of operands: the integer quotient of
    [-2^63] by [-1] is [2^63], while the code yields [-2^63]; the operands
    are reached by the program [(0 - 9223372036854775807 - 1) / (0 - 1)]. *)
Lemma C7_counterexample :
  in_int64 int64_min /\ in_int64 (-1)
  /\ Z.quot int64_min (-1) = 2 ^ 63
  /\ evalIntegerInfixExpression "/" int64_min (-1) = IntegerValue (- 2 ^ 63)
  /\ IntegerValue (- 2 ^ 63) <> IntegerValue (Z.quot int64_min (-1))
  /\ exists w : World,
       Run plain_host 20 "/" "(0 - 9223372036854775807 - 1) / (0 - 1)"
       = Done (IntegerValue (- 2 ^ 63)) w.
Proof.
  split; [unfold in_int64, int64_min, int64_max; lia | ].
  split; [unfold in_int64, int64_min, int64_max; lia | ].
  split; [reflexivity | ]. split; [reflexivity | ].
  split; [discriminate | ].
  eexists. vm_compute; reflexivity.
Qed.

(** ** Absent keys and indices out of range *)

Lemma listGet_out_of_range (L : list Value) (i : Z) :
  i < 0 \/ Z.of_nat (length L) <= i -> listGet L i = NoneValue.
Proof.
  intros H. unfold listGet.
  destruct (Z.ltb_spec i 0); [reflexivity | ].
  destruct (Z.geb_spec i (Z.of_nat (length L))); [reflexivity | lia].
Qed.

Lemma listGet_in_range (L : list Value) (i : nat) (v : Value) :
  L !! i = Some v -> listGet L (Z.of_nat i) = OptionValue true v.
Proof.
  intros H. unfold listGet. pose proof (lookup_lt_Some _ _ _ H).
  destruct (Z.ltb_spec (Z.of_nat i) 0); [lia | ].
  destruct (Z.geb_spec (Z.of_nat i) (Z.of_nat (length L))); [lia | ].
  simpl. by rewrite Nat2Z.id, H.
Qed.

(** C10. A lookup of an absent key or of an index out of range through
    [get] is an empty Option and not an error: for a map [m] without the
    key [k], both the index expression [m[k]] and the call [m.get(k)] give
    [None]; for a list [L] and an integer [i] outside [0, len(L)),
    [L.get(i)] gives [None], whereas the index expression [L[i]] gives the
    error value with the message "index out of bounds". *)
Theorem C10_absent_lookup
    (host : Host) (fuel : nat) (Ev : Node -> env_id -> EV Value)
    (m : gmap string Value) (k : string) (L : list Value) (i : Z)
    (env : env_id) (w : World) :
  m !! k = None ->
  i < 0 \/ Z.of_nat (length L) <= i ->
  isError NoneValue = false
  /\ evalIndexValues (MapValue m) (StringValue k) w = Done NoneValue w
  /\ evalBuiltinMethod host fuel Ev (MapValue m) "get" [StringValue k] env w
     = Done (Some NoneValue) w
  /\ evalBuiltinMethod host fuel Ev (ListValue L) "get" [IntegerValue i] env w
     = Done (Some NoneValue) w
  /\ evalIndexValues (ListValue L) (IntegerValue i) w
     = Done (errorMessage "index out of bounds") w
  /\ (forall (le ie : Expression) (w1 w2 : World),
        Ev (NExpr le) env w = Done (MapValue m) w1 ->
        Ev (NExpr ie) env w1 = Done (StringValue k) w2 ->
        evalIndexExpression Ev le ie env w = Done NoneValue w2)
  /\ (forall (le ie : Expression) (w1 w2 : World),
        Ev (NExpr le) env w = Done (ListValue L) w1 ->
        Ev (NExpr ie) env w1 = Done (IntegerValue i) w2 ->
        evalIndexExpression Ev le ie env w
        = Done (errorMessage "index out of bounds") w2)
  /\ (forall (oe ke : Expression) (t : Token) (w1 w2 : World),
        Ev (NExpr oe) env w = Done (MapValue m) w1 ->
        Ev (NExpr ke) env w1 = Done (StringValue k) w2 ->
        evalMethodCall host fuel Ev oe (mkIdentifier t "get") [ke] env w
        = Done NoneValue w2)
  /\ (forall (oe ie : Expression) (t : Token) (w1 w2 : World),
        Ev (NExpr oe) env w = Done (ListValue L) w1 ->
        Ev (NExpr ie) env w1 = Done (IntegerValue i) w2 ->
        evalMethodCall host fuel Ev oe (mkIdentifier t "get") [ie] env w
        = Done NoneValue w2).
Proof.
  intros Hk Hi.
  assert (Hidx : forall w', evalIndexValues (ListValue L) (IntegerValue i) w'
                            = Done (errorMessage "index out of bounds") w').
  { intros w'. unfold evalIndexValues.
    destruct (Z.ltb_spec i 0); [reflexivity | ].
    destruct (Z.geb_spec i (Z.of_nat (length L))); [reflexivity | lia]. }
  assert (Hmap : forall w', evalIndexValues (MapValue m) (StringValue k) w' = Done NoneValue w').
  { intros w'. unfold evalIndexValues. by rewrite Hk. }
  repeat split.
  - apply Hmap.
  - unfold evalBuiltinMethod, evalMapMethod, bind, ret, UnwrapValue, mapGet; simpl.
    by rewrite Hk.
  - unfold evalBuiltinMethod, evalListMethod, bind, ret, UnwrapValue; simpl.
    by rewrite listGet_out_of_range.
  - apply Hidx.
  - intros le ie w1 w2 Hl Hie.
    unfold evalIndexExpression, bind. rewrite Hl; simpl. rewrite Hie; simpl. apply Hmap.
  - intros le ie w1 w2 Hl Hie.
    unfold evalIndexExpression, bind. rewrite Hl; simpl. rewrite Hie; simpl. apply Hidx.
  - intros oe ke t w1 w2 Ho Hke.
    unfold evalMethodCall, evalExpressions, bind. rewrite Ho; simpl.
    unfold bind. rewrite Hke; simpl.
    unfold evalMapMethod, bind, ret, UnwrapValue, mapGet; simpl. by rewrite Hk.
  - intros oe ie t w1 w2 Ho Hie.
    unfold evalMethodCall, evalExpressions, bind. rewrite Ho; simpl.
    unfold bind. rewrite Hie; simpl.
    unfold evalListMethod, bind, ret, UnwrapValue; simpl.
    by rewrite listGet_out_of_range.
Qed.

Lemma C10_absent_lookup_witness :
  isError NoneValue = false
  /\ evalIndexValues (MapValue ∅) (StringValue "a") (NewEvaluator "/") = Done NoneValue (NewEvaluator "/")
  /\ evalBuiltinMethod plain_host 1 (Eval plain_host 1) (MapValue ∅) "get" [StringValue "a"]
       0%nat (NewEvaluator "/") = Done (Some NoneValue) (NewEvaluator "/")
  /\ evalBuiltinMethod plain_host 1 (Eval plain_host 1) (ListValue [IntegerValue 7]) "get"
       [IntegerValue 5] 0%nat (NewEvaluator "/") = Done (Some NoneValue) (NewEvaluator "/")
  /\ evalIndexValues (ListValue [IntegerValue 7]) (IntegerValue 5) (NewEvaluator "/")
     = Done (errorMessage "index out of bounds") (NewEvaluator "/").
Proof.
  pose proof (C10_absent_lookup plain_host 1 (Eval plain_host 1) ∅ "a" [IntegerValue 7] 5
                0%nat (NewEvaluator "/")) as H.
  destruct H as (H1 & H2 & H3 & H4 & H5 & _).
  - apply lookup_empty.
  - right; simpl; lia.
  - repeat split; assumption.
Defined.

(** ** Operator precedence *)

(** C8. The table of the parser gives every token the level of its place
    in the stated order (assignment, or, and, is, comparison, sum, product,
    prefix, call and member, index) and no level to any other token, and
    the parser follows it: for every two binary operators the parse of
    [1 op1 2 op2 3] groups by the stated order, to the left on one level;
    the prefix operators bind tighter than every binary operator, member
    access, call and index tighter than the prefix operators and than every
    binary operator, and assignment looser than every binary operator.
    Parsing ["1 + 2 * 3"] yields the tree [(1 + (2 * 3))]. *)
Theorem C8_operator_precedence (host : Host) (n : nat) :
  (forall t : TokenType,
     precedences t = option_map (fun level => LOWEST + Z.of_nat level) (stated_level t))
  /\ PREFIX_PREC = LOWEST + Z.of_nat stated_prefix_level
  /\ (exists p : Parser,
        parse_source host (4 + n) "1 + 2 * 3" =
        Done (mkProgram
                [ExpressionStatement (mkToken INTEGER "1" 1 1)
                   (InfixExpression (mkToken PLUS "+" 1 3)
                      (IntegerLiteral (mkToken INTEGER "1" 1 1) 1) "+"
                      (InfixExpression (mkToken MULTIPLY "*" 1 7)
                         (IntegerLiteral (mkToken INTEGER "2" 1 5) 2) "*"
                         (IntegerLiteral (mkToken INTEGER "3" 1 9) 3)))], []) p)
  /\ parsed_rendering host (4 + n) "1 + 2 * 3" = Some "(1 + (2 * 3))"
  /\ parsed_rendering host (4 + n) "1 + 2 * 3" <> Some "((1 + 2) * 3)"
  /\ Forall (fun op1 => Forall (fun op2 => groups_as_stated host (4 + n) op1 op2 = true)
                          binary_operators) binary_operators
  /\ Forall (fun case : string * string =>
               renders_as host (6 + n) (fst case) (snd case) = true)
       [("-1 @ 2", "((-1) @ 2)"); ("not 1 @ 2", "((not1) @ 2)");
        ("1 @ a.b", "(1 @ a.b)"); ("1 @ f(2)", "(1 @ f(2))"); ("1 @ a[2]", "(1 @ (a[2]))");
        ("a.b @ 1", "(a.b @ 1)"); ("f(2) @ 1", "(f(2) @ 1)"); ("a[2] @ 1", "((a[2]) @ 1)");
        ("x == 1 @ 2", "x == (1 @ 2)")]
  /\ map (parsed_rendering host (6 + n))
       ["-a.b"; "-f(1)"; "-a[1]"; "not a.b"; "a.b[1]"; "a.b(1)"; "f(1)[2]"]
     = map Some
       ["(-a.b)"; "(-f(1))"; "(-(a[1]))"; "(nota.b)"; "(a.b[1])"; "a.b(1)"; "(f(1)[2])"].
Proof.
  split; [intros t; destruct t; reflexivity | ].
  split; [reflexivity | ].
  split; [eexists; vm_compute; reflexivity | ].
  split; [vm_compute; reflexivity | ].
  split; [vm_compute; discriminate | ].
  split.
  { repeat (constructor; [ repeat (constructor; [vm_compute; reflexivity | ]); constructor | ]).
    constructor. }
  split; [ | vm_compute; reflexivity ].
  repeat (constructor; [vm_compute; reflexivity | ]). constructor.
Qed.

(** ** Result chaining *)

(** C5, as the code has it. For every Result [r]: [r.then(a)] and
    [r.map(a)] return [r] itself when [r] is an Error, whatever the
    argument [a], in the same state.  When [r] is [Ok(x)] and the argument
    is a function value [f] (a function of the language or a lambda), they
    apply [f] to [x]: [then] yields the result [y] unchanged if it is a
    Result and [Ok(y)] otherwise, [map] yields [Ok(y)], and a call of [f]
    that does not return makes them not return.  When [r] is [Ok(x)] and
    the argument is no function value, a built-in function included, they
    yield the error "argument must be a function".  [r.unwrap()] returns
    the inner value on Ok and the stored error value on Error;
    [r.unwrapOr(d)] returns [d] on Error and the inner value on Ok. *)
Theorem C5_result_methods
    (host : Host) (fuel : nat) (Ev : Node -> env_id -> EV Value)
    (x xe d a : Value) (oe : option ErrorRec) (args : list Value) (env : env_id)
    (w : World) :
  evalResultMethod host fuel Ev false xe oe "then" [a] env w
  = Done (Some (ResultValue false xe oe)) w
  /\ evalResultMethod host fuel Ev false xe oe "map" [a] env w
     = Done (Some (ResultValue false xe oe)) w
  /\ (forall f : FunctionRec,
        evalResultMethod host fuel Ev true x oe "then" [FunctionValue f] env w
        = (let* y := applyFunction host fuel Ev (FunctionValue f) [x] env in
           ret (Some (flatten_result y))) w
        /\ evalResultMethod host fuel Ev true x oe "map" [FunctionValue f] env w
           = (let* y := applyFunction host fuel Ev (FunctionValue f) [x] env in
              ret (Some (OkValue y))) w)
  /\ (forall (f : FunctionRec) (y : Value) (w' : World),
        applyFunction host fuel Ev (FunctionValue f) [x] env w = Done y w' ->
        evalResultMethod host fuel Ev true x oe "then" [FunctionValue f] env w
        = Done (Some (flatten_result y)) w'
        /\ evalResultMethod host fuel Ev true x oe "map" [FunctionValue f] env w
           = Done (Some (OkValue y)) w')
  /\ ((forall f : FunctionRec, a <> FunctionValue f) ->
      evalResultMethod host fuel Ev true x oe "then" [a] env w
      = Done (Some (errorMessage "then() argument must be a function")) w
      /\ evalResultMethod host fuel Ev true x oe "map" [a] env w
         = Done (Some (errorMessage "map() argument must be a function")) w)
  /\ evalResultMethod host fuel Ev true x oe "unwrap" args env w = Done (Some x) w
  /\ evalResultMethod host fuel Ev false xe oe "unwrap" args env w
     = Done (Some (Result_Error oe)) w
  /\ evalResultMethod host fuel Ev false xe oe "unwrapOr" [d] env w = Done (Some d) w
  /\ evalResultMethod host fuel Ev true x oe "unwrapOr" [d] env w = Done (Some x) w
  /\ (forall (isOk : bool) (v : Value) (method : string),
        evalBuiltinMethod host fuel Ev (ResultValue isOk v oe) method args env w
        = evalResultMethod host fuel Ev isOk v oe method args env w).
Proof.
  repeat match goal with |- _ /\ _ => split end; try reflexivity.
  - intros f. split; unfold evalResultMethod; cbn [String.eqb Ascii.eqb Bool.eqb negb];
      unfold bind; destruct (applyFunction host fuel Ev (FunctionValue f) [x] env w) as [y w' | | ];
      try reflexivity.
    by destruct y.
  - intros f y w' Happ. unfold evalResultMethod. cbn [String.eqb Ascii.eqb Bool.eqb negb].
    unfold bind. rewrite Happ. split; [by destruct y | reflexivity].
  - intros Hnf. destruct a; try (split; reflexivity). exfalso. by eapply Hnf.
Qed.

Lemma C5_result_methods_witness :
  exists w' : World,
    applyFunction plain_host 3 (Eval plain_host 3) (FunctionValue identity_lambda)
      [IntegerValue 1] 0%nat one_env_world = Done (IntegerValue 1) w'
    /\ evalResultMethod plain_host 3 (Eval plain_host 3) true (IntegerValue 1) None "then"
         [FunctionValue identity_lambda] 0%nat one_env_world
       = Done (Some (OkValue (IntegerValue 1))) w'
    /\ evalResultMethod plain_host 3 (Eval plain_host 3) true (IntegerValue 1) None "map"
         [FunctionValue identity_lambda] 0%nat one_env_world
       = Done (Some (OkValue (IntegerValue 1))) w'.
Proof.
  eexists.
  assert (Happ : applyFunction plain_host 3 (Eval plain_host 3) (FunctionValue identity_lambda)
                   [IntegerValue 1] 0%nat one_env_world = Done (IntegerValue 1) _)
    by (vm_compute; reflexivity).
  destruct (C5_result_methods plain_host 3 (Eval plain_host 3)
              (IntegerValue 1) NullValue NullValue NullValue None [] 0%nat one_env_world)
    as (_ & _ & _ & Hfun & _).
  destruct (Hfun identity_lambda _ _ Happ) as [Hthen Hmap].
  split; [exact Happ | split; [exact Hthen | exact Hmap]].
Defined.

(** C5 as stated fails for a function that is a built-in: [str] is a
    function, [str(1)] is the string "1", yet [Ok(1).map(str)] is not
    [Ok("1")] and [Ok(1).then(str)] is not [Ok("1")]: both are the error
    "argument must be a function". *)
Lemma C5_counterexample :
  exists w0 w1 w2 w3 : World,
    Run plain_host 20 "/" "str" = Done (BuiltinFunction Bstr) w0
    /\ Run plain_host 20 "/" "str(1)" = Done (StringValue "1") w1
    /\ Run plain_host 20 "/" "Ok(1).map(str)"
       = Done (errorMessage "map() argument must be a function") w2
    /\ Run plain_host 20 "/" "Ok(1).then(str)"
       = Done (errorMessage "then() argument must be a function") w3
    /\ errorMessage "map() argument must be a function" <> OkValue (StringValue "1").
Proof.
  eexists _, _, _, _.
  repeat match goal with |- _ /\ _ => split end; try (vm_compute; reflexivity).
  discriminate.
Qed.

(** ** Blocks and control-flow signals *)

Lemma evalBlockStatement_cons (Ev : Node -> env_id -> EV Value) (tok : Token)
    (s : Statement) (rest : list Statement) (env : env_id) (w w1 : World) (v : Value) :
  Ev (NStmt s) env w = Done v w1 ->
  evalBlockStatement Ev (mkBlockStatement tok (s :: rest)) env w =
  if block_stop v then Done v w1
  else match rest with
       | [] => Done v w1
       | _ => evalBlockStatement Ev (mkBlockStatement tok rest) env w1
       end.
Proof.
  intros Hs. unfold evalBlockStatement; simpl. unfold bind at 1. rewrite Hs.
  destruct rest as [ | s' rest'].
  - destruct v; reflexivity.
  - destruct v; try reflexivity; simpl; unfold bind at 1 3;
      destruct (Ev (NStmt s') env w1); reflexivity.
Qed.

Lemma evalBlockStatement_prefix (Ev : Node -> env_id -> EV Value) (tok : Token)
    (pre : list Statement) (s : Statement) (post : list Statement)
    (env : env_id) (w w1 : World) :
  runs_through Ev pre env w w1 ->
  evalBlockStatement Ev (mkBlockStatement tok (pre ++ s :: post)) env w =
  evalBlockStatement Ev (mkBlockStatement tok (s :: post)) env w1.
Proof.
  revert w. induction pre as [ | p pre IH]; intros w Hrun; simpl in Hrun.
  - by subst.
  - destruct Hrun as (v & w' & Hp & Hstop & Hrest).
    change ((p :: pre) ++ s :: post)%list with (p :: (pre ++ s :: post))%list.
    rewrite (evalBlockStatement_cons Ev tok p _ env w w' v Hp), Hstop.
    rewrite <- (IH w' Hrest).
    by destruct pre.
Qed.

(** C4, as the code has it. For every block and every position in its
    statement list: if the statements before it ran through and the
    statement at the position yields a Return, Break or Continue value,
    then the remaining statements are not evaluated and that value is the
    block's result, unchanged, in the state the statement left.  An Error
    value does not stop a block: the block goes on with the next statement,
    and the error is the block's result only when it comes last. *)
Theorem C4_block_short_circuit
    (Ev : Node -> env_id -> EV Value) (tok : Token)
    (pre : list Statement) (s : Statement) (post : list Statement)
    (env : env_id) (w w1 w2 : World) (v : Value) :
  runs_through Ev pre env w w1 ->
  Ev (NStmt s) env w1 = Done v w2 ->
  (block_stop v = true ->
   evalBlockStatement Ev (mkBlockStatement tok (pre ++ s :: post)) env w = Done v w2)
  /\ (isError v = true ->
      evalBlockStatement Ev (mkBlockStatement tok (pre ++ [s])) env w = Done v w2
      /\ forall (p : Statement),
           evalBlockStatement Ev (mkBlockStatement tok (pre ++ s :: p :: post)) env w
           = evalBlockStatement Ev (mkBlockStatement tok (p :: post)) env w2).
Proof.
  intros Hrun Hs. split.
  - intros Hstop.
    rewrite (evalBlockStatement_prefix Ev tok pre s post env w w1 Hrun).
    by rewrite (evalBlockStatement_cons Ev tok s post env w1 w2 v Hs), Hstop.
  - intros Herr.
    assert (Hstop : block_stop v = false) by (destruct v; try discriminate; reflexivity).
    split.
    + rewrite (evalBlockStatement_prefix Ev tok pre s [] env w w1 Hrun).
      by rewrite (evalBlockStatement_cons Ev tok s [] env w1 w2 v Hs), Hstop.
    + intros p.
      rewrite (evalBlockStatement_prefix Ev tok pre s (p :: post) env w w1 Hrun).
      by rewrite (evalBlockStatement_cons Ev tok s (p :: post) env w1 w2 v Hs), Hstop.
Qed.

Lemma C4_block_short_circuit_witness :
  exists w2 : World,
    evalBlockStatement (Eval plain_host 3)
      (mkBlockStatement Token_zero ([stmt_def_x] ++ stmt_return_2 :: [stmt_3])) 0%nat one_env_world
    = Done (ReturnValue (IntegerValue 2)) w2.
Proof.
  eexists.
  refine (proj1 (C4_block_short_circuit (Eval plain_host 3) Token_zero [stmt_def_x]
                   stmt_return_2 [stmt_3] 0%nat one_env_world _ _
                   (ReturnValue (IntegerValue 2)) _ _) _).
  - simpl. eexists _, _. split; [vm_compute; reflexivity | split; reflexivity].
  - vm_compute; reflexivity.
  - reflexivity.
Defined.

(** C4 as stated fails for Error values: in the block [{ zzz; 5 }] the
    first statement yields the error "undefined: zzz", yet the second
    statement is evaluated and its value 5 is the block's result. *)
Lemma C4_counterexample :
  exists w1 w2 : World,
    Eval plain_host 3 (NStmt stmt_zzz) 0%nat one_env_world
    = Done (errorMessage "undefined: zzz") w1
    /\ isError (errorMessage "undefined: zzz") = true
    /\ evalBlockStatement (Eval plain_host 3)
         (mkBlockStatement Token_zero [stmt_zzz; stmt_5]) 0%nat one_env_world
       = Done (IntegerValue 5) w2
    /\ IntegerValue 5 <> errorMessage "undefined: zzz".
Proof.
  eexists _, _. repeat split; try (vm_compute; reflexivity). discriminate.
Qed.

(** ** Method calls on a Result receiver *)

(** C2, as the code has it. For every method call whose receiver
    evaluates to a Result, the arguments are evaluated and the built-in
    methods of Result come first.  On an Error: [unwrap] returns the stored
    error value, whatever the arguments, and with one argument [then] and
    [map] return that same Result, without applying the argument, and
    [unwrapOr(d)] returns [d].  For every other method name nothing
    short-circuits and nothing is unwrapped, whether the Result is an Error
    or an Ok: the method is looked up among the extension methods of the
    type name "Result"; when there is one its body is run in a new
    environment with [this] bound to the Result itself, and when there is
    none the call is the error "undefined method ... on Result". *)
Theorem C2_result_receiver
    (host : Host) (fuel : nat) (Ev : Node -> env_id -> EV Value)
    (obj : Expression) (t : Token) (name : string) (args : list Expression) (env : env_id)
    (w w1 w2 : World) (isOk : bool) (x : Value) (oe : option ErrorRec)
    (argValues : list Value) :
  Ev (NExpr obj) env w = Done (ResultValue isOk x oe) w1 ->
  evalExpressions Ev args env w1 = Done argValues w2 ->
  (isOk = false ->
   evalMethodCall host fuel Ev obj (mkIdentifier t "unwrap") args env w
   = Done (Result_Error oe) w2
   /\ forall a : Value,
        argValues = [a] ->
        evalMethodCall host fuel Ev obj (mkIdentifier t "then") args env w
        = Done (ResultValue false x oe) w2
        /\ evalMethodCall host fuel Ev obj (mkIdentifier t "map") args env w
           = Done (ResultValue false x oe) w2
        /\ evalMethodCall host fuel Ev obj (mkIdentifier t "unwrapOr") args env w
           = Done a w2)
  /\ (name <> "then" -> name <> "map" -> name <> "unwrap" -> name <> "unwrapOr" ->
      evalMethodCall host fuel Ev obj (mkIdentifier t name) args env w
      = match w2.(extensions) !! "Result" ≫= (fun extMethods => extMethods !! name) with
        | Some method =>
          (let* extEnv := NewEnclosedEnvironment method.(fn_Env) in
           do Environment_Set extEnv "this" (ResultValue isOk x oe) then
           do bindParameters extEnv method.(fn_Parameters) argValues then
           let* result :=
             match method.(fn_Body) with
             | Some body => Ev (NStmt (BlockStmt body)) extEnv
             | None => panic nil_deref
             end in
           ret (unwrapReturnValue result)) w2
        | None => Done (errorMessage ("undefined method " ++ name ++ " on Result")) w2
        end).
Proof.
  intros Hobj Hargs. split.
  - intros ->. split.
    + unfold evalMethodCall, bind. by rewrite Hobj, Hargs.
    + intros a ->. unfold evalMethodCall, bind. rewrite Hobj, Hargs.
      repeat split; reflexivity.
  - intros Hthen Hmap Hunwrap HunwrapOr.
    unfold evalMethodCall. cbn [id_Value]. unfold bind at 1. rewrite Hobj.
    unfold bind at 1. rewrite Hargs.
    unfold bind at 1, evalBuiltinMethod. cbn [UnwrapValue]. unfold bind at 1, ret at 1.
    unfold evalResultMethod.
    destruct (String.eqb_spec name "then"); [contradiction | ].
    destruct (String.eqb_spec name "map"); [contradiction | ].
    destruct (String.eqb_spec name "unwrap"); [contradiction | ].
    destruct (String.eqb_spec name "unwrapOr"); [contradiction | ].
    unfold ret at 1. unfold bind at 1, Value_type. cbn [Value_Type or_panic].
    unfold ret at 1. unfold bind at 1, gets at 1.
    by destruct (extensions w2 !! "Result" ≫= _).
Qed.

Lemma C2_result_receiver_witness :
  evalMethodCall plain_host 3 (Eval plain_host 3) expr_error_1 (mkIdentifier Token_zero "then")
    [expr_identity_lambda] 0%nat one_env_world = Done error_1 one_env_world
  /\ evalMethodCall plain_host 3 (Eval plain_host 3) expr_error_1 (mkIdentifier Token_zero "foo")
       [] 0%nat one_env_world
     = Done (errorMessage "undefined method foo on Result") one_env_world.
Proof.
  destruct (C2_result_receiver plain_host 3 (Eval plain_host 3) expr_error_1 Token_zero
              "foo" [expr_identity_lambda] 0%nat one_env_world one_env_world one_env_world
              false NilValue (Some (mkErrorRec "" "" "1"))
              [FunctionValue (mkFunctionRec ""
                 [mkFunctionParameter (mkIdentifier Token_zero "x") None] None 0%nat true
                 (IdentifierE (mkIdentifier Token_zero "x")))]) as (Herr & _).
  - vm_compute; reflexivity.
  - vm_compute; reflexivity.
  - destruct (Herr eq_refl) as (_ & Hone). destruct (Hone _ eq_refl) as (Hthen & _).
    split; [exact Hthen | ].
    destruct (C2_result_receiver plain_host 3 (Eval plain_host 3) expr_error_1 Token_zero
                "foo" [] 0%nat one_env_world one_env_world one_env_world
                false NilValue (Some (mkErrorRec "" "" "1")) []) as (_ & Hother).
    + vm_compute; reflexivity.
    + vm_compute; reflexivity.
    + exact (Hother ltac:(discriminate) ltac:(discriminate) ltac:(discriminate)
                    ltac:(discriminate)).
Defined.

(** C2 as stated fails in both halves.  With [foo] an extension method of
    [Result], the call [Error(1).foo()] does not return the Error: [foo] is
    invoked and the call yields its value 42.  An [Ok] receiver is not
    unwrapped before the lookup of extension methods: with [validate] an
    extension method of [User], [User { age: 1 }.validate()] yields an Ok
    value, while [Ok(User { age: 1 }).validate()] is the error "undefined
    method validate on Result". *)
Lemma C2_counterexample :
  (exists w1 w : World,
     Eval plain_host 3 (NExpr expr_error_1) 0%nat one_env_world = Done error_1 w1
     /\ Run plain_host 20 "/" error_receiver_program = Done (IntegerValue 42) w
     /\ IntegerValue 42 <> error_1)
  /\ (exists (v : Value) (w w' : World),
        Run plain_host 20 "/" direct_receiver_program = Done (OkValue v) w
        /\ Run plain_host 20 "/" ok_receiver_program
           = Done (errorMessage "undefined method validate on Result") w').
Proof.
  split.
  - eexists _, _. split; [vm_compute; reflexivity | ].
    split; [vm_compute; reflexivity | discriminate].
  - eexists _, _, _. split; vm_compute; reflexivity.
Qed.

(** ** Error enrichment *)

Lemma EnrichError_guard (host : Host) (fuel : nat) (err : ErrorRec) (method : string)
    (input : Value) (w : World) :
  err.(Method) <> "" -> err.(Input) <> "" ->
  EnrichError host fuel err method input w = Done err w.
Proof.
  intros Hm Hi. unfold EnrichError.
  destruct (String.eqb_spec err.(Method) ""); [contradiction | ].
  destruct (String.eqb_spec err.(Input) ""); [contradiction | ].
  unfold bind, ret. by destruct err.
Qed.

(** Each field that is already set survives [EnrichError], and so does the
    message. *)
Lemma EnrichError_keeps (host : Host) (fuel : nat) (err : ErrorRec) (method : string)
    (input : Value) (w : World) (err' : ErrorRec) (w' : World) :
  EnrichError host fuel err method input w = Done err' w' ->
  (err.(Method) <> "" -> err'.(Method) = err.(Method))
  /\ (err.(Input) <> "" -> err'.(Input) = err.(Input))
  /\ err'.(Message) = err.(Message).
Proof.
  unfold EnrichError, bind. intros Hrun.
  destruct (String.eqb_spec err.(Input) "") as [Hi | Hi].
  - match type of Hrun with
    | match ?m w with _ => _ end = _ => destruct (m w) as [i w1 | msg | ]; try discriminate
    end.
    unfold ret in Hrun. injection Hrun as <- <-. simpl.
    split; [ | split; [congruence | reflexivity] ].
    intros Hm. by destruct (String.eqb_spec err.(Method) "").
  - unfold ret in Hrun. injection Hrun as <- <-. simpl.
    split; [ | split; reflexivity ].
    intros Hm. by destruct (String.eqb_spec err.(Method) "").
Qed.

(** C1 on the code. The method call [bob.validate()], whose extension
    method returns [Error("Must be 18+")], evaluates to the non-ok Result
    itself, with empty method and input fields, and not to the error value
    with method [validate] and input [User{age: 16, id: 1, name: Bob}] that
    the claim describes.  [EnrichError] itself would fill both fields of a
    fresh error and keeps fields that are already set; the evaluator does
    not call it. *)
Theorem C1_method_error_not_enriched :
  (exists w : World,
     Run plain_host 30 "/" validate_program
     = Done (ResultValue false NilValue (Some (mkErrorRec "" "" "Must be 18+"))) w
     /\ Environment_Get 2 0%nat "bob" w = Done (Some bob) w
     /\ Value_String plain_host 3 bob w = Done "User{age: 16, id: 1, name: Bob}" w
     /\ EnrichError plain_host 3 (mkErrorRec "" "" "Must be 18+") "validate" bob w
        = Done (mkErrorRec "validate" "User{age: 16, id: 1, name: Bob}" "Must be 18+") w)
  /\ ResultValue false NilValue (Some (mkErrorRec "" "" "Must be 18+"))
     <> ErrorValue (mkErrorRec "validate" "User{age: 16, id: 1, name: Bob}" "Must be 18+")
  /\ (forall (host : Host) (fuel : nat) (err : ErrorRec) (method : string) (input : Value)
             (w : World),
        err.(Method) <> "" -> err.(Input) <> "" ->
        EnrichError host fuel err method input w = Done err w)
  /\ (forall (host : Host) (fuel : nat) (err : ErrorRec) (method : string) (input : Value)
             (w : World) (err' : ErrorRec) (w' : World),
        EnrichError host fuel err method input w = Done err' w' ->
        (err.(Method) <> "" -> err'.(Method) = err.(Method))
        /\ (err.(Input) <> "" -> err'.(Input) = err.(Input))
        /\ err'.(Message) = err.(Message)).
Proof.
  split; [ | split; [discriminate | split; [exact EnrichError_guard | exact EnrichError_keeps] ] ].
  eexists. split; [vm_compute; reflexivity | ].
  split; [vm_compute; reflexivity | ].
  split; vm_compute; reflexivity.
Qed.

(** ** Functions declared to return a Mutable *)

(** C3 on the code. The program declares [counter] with the return-type
    annotation [Mutable[Integer]] and returns a fresh Mutable from it; it
    parses without errors, [Check] reports no error, and running it yields
    the Mutable value. *)
Theorem C3_mutable_return_accepted :
  exists (prog : Program) (p : Parser) (tc : TypeChecker) (w : World) (l : loc),
    parse_source plain_host 20 mutable_return_program = Done (prog, []) p
    /\ (exists tok name params body,
          prog.(Statements) !! 0%nat =
          Some (FunctionStmt (mkFunctionStatement tok name params
                  (Some (mkTypeAnnotation (mkToken MUTABLE "Mutable" 1 18) "Mutable"
                           [mkTypeAnnotation (mkToken IDENT "Integer" 1 26) "Integer" []]))
                  body)))
    /\ (forall host : Host, Check host prog NewTypeChecker = Done None tc)
    /\ Run plain_host 20 "/" mutable_return_program = Done (MutableValue l) w
    /\ w.(cells) !! l = Some (IntegerValue 0).
Proof.
  eexists _, _, _, _, _.
  split; [vm_compute; reflexivity | ].
  split; [eexists _, _, _, _; vm_compute; reflexivity | ].
  split; [intros host; vm_compute; reflexivity | ].
  split; vm_compute; reflexivity.
Qed.

(** ** Import paths

    Facts about [Split], [Clean] and [filepath_Join] on paths made of plain
    segments, then [resolvePath] and the import statement. *)

Lemma append_cons (x : ascii) (a b : string) : String x a ++ b = String x (a ++ b).
Proof. reflexivity. Qed.

Lemma append_nil_l (a : string) : "" ++ a = a.
Proof. reflexivity. Qed.

Lemma append_assoc (a b c : string) : (a ++ b) ++ c = a ++ b ++ c.
Proof.
  induction a as [ | x a IH]; [reflexivity | ].
  by rewrite !append_cons, IH.
Qed.

Lemma append_nil_r (a : string) : a ++ "" = a.
Proof.
  induction a as [ | x a IH]; [reflexivity | ].
  by rewrite append_cons, IH.
Qed.

Lemma length_append (a b : string) :
  String.length (a ++ b) = (String.length a + String.length b)%nat.
Proof.
  induction a as [ | x a IH]; [reflexivity | ].
  rewrite append_cons. simpl. by rewrite IH.
Qed.

Lemma substring_all (s : string) : String.substring 0 (String.length s) s = s.
Proof. induction s as [ | x s IH]; simpl; [reflexivity | by rewrite IH]. Qed.

Lemma prefix_sep_cons (c x : ascii) (s : string) :
  String.prefix (sep_of c) (String x s) = Ascii.eqb x c.
Proof.
  unfold sep_of; simpl. destruct (ascii_dec c x) as [-> | Hne].
  - rewrite Ascii.eqb_refl. by destruct s.
  - symmetry. apply Ascii.eqb_neq. congruence.
Qed.

(** A string without the separator is one piece, whatever the fuel. *)
Lemma split_from_no_sep (c : ascii) (n : nat) (s cur : string) :
  no_char c s = true -> split_from n s (sep_of c) cur = [cur ++ s].
Proof.
  revert s cur. induction n as [ | n IH]; intros s cur Hs; [reflexivity | ].
  destruct s as [ | x s]; [simpl; by rewrite append_nil_r | ].
  simpl in Hs. apply andb_prop in Hs as [Hx Hs].
  apply negb_true_iff in Hx.
  cbn [split_from]. rewrite prefix_sep_cons, Hx.
  rewrite IH by exact Hs. by rewrite append_assoc.
Qed.

(** Splitting at the first separator. *)
Lemma split_from_sep (c : ascii) (n : nat) (s rest cur : string) :
  no_char c s = true -> (String.length s < n)%nat ->
  split_from n (s ++ String c rest) (sep_of c) cur =
  (cur ++ s) :: split_from (n - String.length s - 1) rest (sep_of c) "".
Proof.
  revert s cur. induction n as [ | n IH]; intros s cur Hs Hn; [lia | ].
  destruct s as [ | x s].
  - rewrite append_nil_l, append_nil_r. cbn [split_from].
    rewrite prefix_sep_cons, Ascii.eqb_refl.
    change (String.substring _ _ (String c rest)) with
      (String.substring 0 (String.length rest - 0) rest).
    rewrite Nat.sub_0_r, substring_all. simpl String.length.
    by replace (S n - 0 - 1)%nat with n by lia.
  - simpl in Hs. apply andb_prop in Hs as [Hx Hs].
    apply negb_true_iff in Hx. simpl in Hn.
    rewrite append_cons. cbn [split_from]. rewrite prefix_sep_cons, Hx.
    rewrite IH by (try exact Hs; lia).
    rewrite append_assoc. simpl String.length.
    by replace (S n - S (String.length s) - 1)%nat with (n - String.length s - 1)%nat by lia.
Qed.

Lemma Join_cons_cons (x y : string) (rest : list string) (sep : string) :
  Join (x :: y :: rest) sep = x ++ sep ++ Join (y :: rest) sep.
Proof. reflexivity. Qed.

(** Splitting a joined list gives the list back. *)
Lemma split_from_Join (c : ascii) (segs : list string) (s0 : string) (n : nat) (cur : string) :
  Forall (fun s => no_char c s = true) (s0 :: segs) ->
  (String.length (Join (s0 :: segs) (sep_of c)) < n)%nat ->
  split_from n (Join (s0 :: segs) (sep_of c)) (sep_of c) cur = (cur ++ s0) :: segs.
Proof.
  revert s0 n cur. induction segs as [ | s1 segs IH]; intros s0 n cur Hall Hn.
  - simpl. apply split_from_no_sep. by inversion Hall.
  - rewrite Join_cons_cons in *.
    change (sep_of c ++ Join (s1 :: segs) (sep_of c))
      with (String c (Join (s1 :: segs) (sep_of c))) in *.
    inversion Hall as [ | ? ? H0 Hrest]; subst.
    specialize (IH s1 (n - String.length s0 - 1)%nat "" Hrest).
    remember (Join (s1 :: segs) (sep_of c)) as joined eqn:Hj.
    rewrite length_append in Hn. simpl String.length in Hn.
    rewrite split_from_sep by (try exact H0; lia).
    f_equal. apply IH. lia.
Qed.

Lemma Split_Join (c : ascii) (segs : list string) (s0 : string) :
  Forall (fun s => no_char c s = true) (s0 :: segs) ->
  Split (Join (s0 :: segs) (sep_of c)) (sep_of c) = s0 :: segs.
Proof.
  intros Hall. unfold Split. rewrite split_from_Join; [reflexivity | exact Hall | lia].
Qed.

Lemma no_char_append (c : ascii) (a b : string) :
  no_char c (a ++ b) = no_char c a && no_char c b.
Proof.
  induction a as [ | x a IH]; [reflexivity | ].
  rewrite append_cons. simpl. by rewrite IH, andb_assoc.
Qed.

Lemma path_segment_plain (s : string) : path_segment s = true -> plain_elem s = true.
Proof. unfold path_segment. by intros [? _]%andb_prop. Qed.

Lemma module_segment_path (s : string) : module_segment s = true -> path_segment s = true.
Proof.
  unfold module_segment, path_segment, plain_elem.
  intros [[Hdot Hsep]%andb_prop Hne]%andb_prop.
  rewrite Hsep, Hne.
  destruct s as [ | x s]; [done | ].
  simpl in Hdot. apply andb_prop in Hdot as [Hx _]. apply negb_true_iff in Hx.
  cbn [String.eqb]. by rewrite Hx.
Qed.

Lemma module_segment_ext (s : string) :
  module_segment s = true -> path_segment (s ++ ".moon") = true.
Proof.
  unfold module_segment, path_segment, plain_elem.
  intros [[Hdot Hsep]%andb_prop Hne]%andb_prop.
  rewrite no_char_append, Hsep.
  destruct s as [ | x s]; [done | ].
  simpl in Hdot. apply andb_prop in Hdot as [Hx _]. apply negb_true_iff in Hx.
  rewrite append_cons. cbn [String.eqb]. by rewrite Hx.
Qed.

Lemma Join_append_last (s0 : string) (segs : list string) (sep x : string) :
  Join (append_last (s0 :: segs) x) sep = Join (s0 :: segs) sep ++ x.
Proof.
  revert s0. induction segs as [ | s1 segs IH]; intros s0; [reflexivity | ].
  change (append_last (s0 :: s1 :: segs) x) with (s0 :: append_last (s1 :: segs) x).
  destruct (append_last (s1 :: segs) x) as [ | y l] eqn:Heq.
  - by destruct segs.
  - rewrite !Join_cons_cons, <- Heq, IH. by rewrite !append_assoc.
Qed.

Lemma append_last_app (bs : list string) (s0 : string) (segs : list string) (x : string) :
  append_last (bs ++ s0 :: segs) x = (bs ++ append_last (s0 :: segs) x)%list.
Proof.
  induction bs as [ | b bs IH]; [reflexivity | ].
  change (append_last ((b :: bs) ++ s0 :: segs) x)
    with (append_last (b :: (bs ++ s0 :: segs)) x).
  destruct (bs ++ s0 :: segs)%list as [ | y l] eqn:Heq.
  - by destruct bs.
  - change (append_last (b :: y :: l) x) with (b :: append_last (y :: l) x).
    by rewrite IH.
Qed.

Lemma Forall_append_last (s0 : string) (segs : list string) :
  Forall (fun s => module_segment s = true) (s0 :: segs) ->
  Forall (fun s => path_segment s = true) (append_last (s0 :: segs) ".moon").
Proof.
  revert s0. induction segs as [ | s1 segs IH]; intros s0 Hall.
  - inversion Hall; subst. constructor; [by apply module_segment_ext | constructor].
  - inversion Hall; subst.
    change (append_last (s0 :: s1 :: segs) ".moon")
      with (s0 :: append_last (s1 :: segs) ".moon").
    constructor; [by apply module_segment_path | by apply IH].
Qed.

Lemma Join_app (a : string) (l1 : list string) (b : string) (l2 : list string) (sep : string) :
  Join (a :: l1 ++ b :: l2) sep = Join (a :: l1) sep ++ sep ++ Join (b :: l2) sep.
Proof.
  revert a. induction l1 as [ | y l1 IH]; intros a; [reflexivity | ].
  change (a :: (y :: l1) ++ b :: l2)%list with (a :: y :: (l1 ++ b :: l2))%list.
  rewrite !Join_cons_cons, IH. by rewrite !append_assoc.
Qed.

(** On plain elements [Clean] only drops the empty ones. *)
Lemma clean_elems_plain (rooted : bool) (elems out : list string) :
  Forall (fun s => plain_elem s = true) elems ->
  clean_elems rooted elems out = (out ++ filter (fun s => nonempty s = true) elems)%list.
Proof.
  revert out. induction elems as [ | e elems IH]; intros out Hall.
  - simpl. by rewrite app_nil_r.
  - inversion Hall as [ | ? ? He Hrest]; subst.
    unfold plain_elem in He.
    apply andb_prop in He as [[_ Hdot%negb_true_iff]%andb_prop Hdots%negb_true_iff].
    cbn [clean_elems]. rewrite Hdot, Hdots, orb_false_r.
    destruct (String.eqb e "") eqn:Hempty; simpl.
    + rewrite IH by done. rewrite filter_cons_False; [done | ].
      unfold nonempty. by rewrite Hempty.
    + rewrite IH by done. rewrite filter_cons_True, <- app_assoc; [done | ].
      unfold nonempty. by rewrite Hempty.
Qed.

Lemma filter_nonempty_segments (elems : list string) :
  Forall (fun s => path_segment s = true) elems ->
  filter (fun s => nonempty s = true) elems = elems.
Proof.
  induction 1 as [ | e elems He _ IH]; [reflexivity | ].
  unfold path_segment in He. apply andb_prop in He as [_ He].
  by rewrite filter_cons_True, IH.
Qed.

Lemma plain_elem_no_sep (elems : list string) :
  Forall (fun s => plain_elem s = true) elems ->
  Forall (fun s => no_char "/" s = true) elems.
Proof.
  intros Hall. eapply Forall_impl; [exact Hall | ].
  intros s. unfold plain_elem.
  by intros [[? _]%andb_prop _]%andb_prop.
Qed.

(** [Clean] of a rooted path made of plain elements. *)
Lemma Clean_rooted (e : string) (elems : list string) :
  Forall (fun s => plain_elem s = true) (e :: elems) ->
  Clean (Join ("" :: e :: elems) Separator)
  = Separator ++ Join (filter (fun s => nonempty s = true) (e :: elems)) Separator.
Proof.
  intros Hall. unfold Clean. change Separator with (sep_of "/").
  assert (String.prefix (sep_of "/") (Join ("" :: e :: elems) (sep_of "/")) = true) as ->
    by apply (prefix_sep_cons "/" "/").
  assert (String.eqb (Join ("" :: e :: elems) (sep_of "/")) "" = false) as ->
    by reflexivity.
  rewrite Split_Join by (constructor; [done | by apply plain_elem_no_sep]).
  rewrite clean_elems_plain by (constructor; [done | exact Hall]).
  by rewrite filter_cons_False.
Qed.

(** [Clean] of a relative path made of path segments is the path. *)
Lemma Clean_relative (s0 : string) (segs : list string) :
  Forall (fun s => path_segment s = true) (s0 :: segs) ->
  Clean (Join (s0 :: segs) Separator) = Join (s0 :: segs) Separator.
Proof.
  intros Hall. unfold Clean. change Separator with (sep_of "/").
  assert (Forall (fun s => plain_elem s = true) (s0 :: segs)) as Hplain.
  { eapply Forall_impl; [exact Hall | apply path_segment_plain]. }
  rewrite Split_Join by (by apply plain_elem_no_sep).
  rewrite clean_elems_plain by exact Hplain.
  rewrite filter_nonempty_segments by exact Hall.
  inversion Hall as [ | ? ? H0 _]; subst.
  unfold path_segment, plain_elem in H0.
  apply andb_prop in H0 as [[[Hsep _]%andb_prop _]%andb_prop Hne].
  destruct s0 as [ | x s0]; [done | ].
  simpl in Hsep. apply andb_prop in Hsep as [Hx%negb_true_iff _].
  assert (exists rest, Join (String x s0 :: segs) (sep_of "/") = String x rest) as [rest Hj].
  { destruct segs; [by eexists | rewrite Join_cons_cons, append_cons; by eexists]. }
  assert (String.prefix (sep_of "/") (Join (String x s0 :: segs) (sep_of "/")) = false) as ->
    by (by rewrite Hj, prefix_sep_cons).
  assert (String.eqb (Join (String x s0 :: segs) (sep_of "/")) "" = false) as ->
    by (by rewrite Hj).
  reflexivity.
Qed.

Lemma filepath_Join_segments (s0 : string) (segs : list string) :
  Forall (fun s => path_segment s = true) (s0 :: segs) ->
  filepath_Join (s0 :: segs) = Join (s0 :: segs) Separator.
Proof.
  intros Hall. cbn [filepath_Join].
  inversion Hall as [ | ? ? H0 _]; subst.
  unfold path_segment in H0. apply andb_prop in H0 as [_ Hne%negb_true_iff].
  rewrite Hne. by apply Clean_relative.
Qed.

(** [filepath.Join] of a clean absolute directory and a relative path. *)
Lemma filepath_Join_base (bs : list string) (s0 : string) (segs : list string) :
  Forall (fun s => path_segment s = true) bs ->
  Forall (fun s => path_segment s = true) (s0 :: segs) ->
  filepath_Join [Separator ++ Join bs Separator; Join (s0 :: segs) Separator]
  = Separator ++ Join (bs ++ s0 :: segs) Separator.
Proof.
  intros Hbs Hsegs.
  assert (forall l, Forall (fun s => path_segment s = true) l ->
                    Forall (fun s => plain_elem s = true) l) as Hplain.
  { intros l Hl. eapply Forall_impl; [exact Hl | apply path_segment_plain]. }
  change (filepath_Join [Separator ++ Join bs Separator; Join (s0 :: segs) Separator])
    with (Clean (Join [Separator ++ Join bs Separator; Join (s0 :: segs) Separator] Separator)).
  destruct bs as [ | b bs].
  - change (Join [Separator ++ Join [] Separator; Join (s0 :: segs) Separator] Separator)
      with (Join ("" :: "" :: s0 :: segs) Separator).
    rewrite Clean_rooted by (constructor; [done | by apply Hplain]).
    rewrite filter_cons_False by done.
    by rewrite filter_nonempty_segments.
  - assert (Join [Separator ++ Join (b :: bs) Separator; Join (s0 :: segs) Separator] Separator
            = Join ("" :: (b :: bs) ++ s0 :: segs) Separator) as ->.
    { change ("" :: (b :: bs) ++ s0 :: segs)%list with ("" :: b :: bs ++ s0 :: segs)%list.
      rewrite (Join_cons_cons "" b), Join_app, append_nil_l.
      rewrite (Join_cons_cons _ (Join (s0 :: segs) Separator)).
      change (Join [Join (s0 :: segs) Separator] Separator) with (Join (s0 :: segs) Separator).
      by rewrite !append_assoc. }
    assert (Forall (fun s => path_segment s = true) ((b :: bs) ++ s0 :: segs)) as Hall
      by (by apply Forall_app).
    change ((b :: bs) ++ s0 :: segs)%list with (b :: bs ++ s0 :: segs)%list in *.
    rewrite Clean_rooted by (by apply Hplain).
    by rewrite filter_nonempty_segments.
Qed.

Lemma module_segments_no_dot (segs : list string) :
  Forall (fun s => module_segment s = true) segs ->
  Forall (fun s => no_char "." s = true) segs.
Proof.
  intros Hall. eapply Forall_impl; [exact Hall | ].
  intros s. unfold module_segment. by intros [[? _]%andb_prop _]%andb_prop.
Qed.

(** [resolvePath] on a dotted module path, for a loader whose base path
    is a clean absolute directory: the segments are joined with the
    separator below the base directory, with the extension [.moon]. *)
Lemma resolvePath_dotted (ml : ModuleLoader) (bs : list string) (s0 : string)
    (segs : list string) :
  ml.(basePath) = Separator ++ Join bs Separator ->
  Forall (fun s => path_segment s = true) bs ->
  Forall (fun s => module_segment s = true) (s0 :: segs) ->
  resolvePath ml (Join (s0 :: segs) ".")
  = Separator ++ Join (bs ++ s0 :: segs) Separator ++ ".moon".
Proof.
  intros Hbase Hbs Hsegs. unfold resolvePath. rewrite Hbase.
  change "." with (sep_of ".").
  rewrite Split_Join by (by apply module_segments_no_dot).
  rewrite (filepath_Join_segments s0 segs)
    by (eapply Forall_impl; [exact Hsegs | apply module_segment_path]).
  rewrite <- Join_append_last.
  pose proof (Forall_append_last s0 segs Hsegs) as Hext.
  assert (exists y l, append_last (s0 :: segs) ".moon" = y :: l) as (y & l & Heq).
  { destruct segs; by eexists _, _. }
  rewrite Heq in *. rewrite filepath_Join_base by done.
  rewrite <- Heq, <- append_last_app.
  destruct bs as [ | b bs]; cbn [app]; by rewrite Join_append_last.
Qed.

(** C9, amended. For an import statement with the dotted path
    [s0.rest], in a world whose loader has a clean absolute base
    directory and where the module [s0] is neither loaded nor cached:
    [resolvePath] applied to the whole dotted path would join all segments
    with the separator below the base directory and append [.moon]; the
    import statement however passes the first segment alone to the loader,
    so the file that is read is [s0.moon] in the base directory.  If that
    file cannot be read the statement is the error "cannot load module",
    if it can be read and parsed its program is what [Load] returns and
    caches under [s0], and the segments after the first play no part. *)
Theorem C9_import_first_segment (host : Host) (fuel : nat) (Ev : Node -> env_id -> EV Value)
    (bs : list string) (s0 : string) (rest : list string) (env : env_id) (w : World) :
  w.(loader).(basePath) = Separator ++ Join bs Separator ->
  Forall (fun s => path_segment s = true) bs ->
  Forall (fun s => module_segment s = true) (s0 :: rest) ->
  w.(modules) !! s0 = None ->
  w.(loader).(cache) !! s0 = None ->
  resolvePath w.(loader) (Join (s0 :: rest) ".")
  = Separator ++ Join (bs ++ s0 :: rest) Separator ++ ".moon"
  /\ resolvePath w.(loader) s0 = Separator ++ Join (bs ++ [s0]) Separator ++ ".moon"
  /\ (forall err : string,
        ReadFile host (Separator ++ Join (bs ++ [s0]) Separator ++ ".moon") = inr err ->
        evalImportStatement host fuel Ev (s0 :: rest) env w
        = Done (errorMessage ("cannot load module " ++ s0 ++ ": " ++ err)) w)
  /\ (forall (content : string) (program : Program) (p : Parser),
        ReadFile host (Separator ++ Join (bs ++ [s0]) Separator ++ ".moon") = inl content ->
        parse_source host fuel content = Done (program, []) p ->
        Load host fuel s0 w
        = Done (inl program)
               (set_loader (mkModuleLoader w.(loader).(basePath)
                              (<[ s0 := program ]> w.(loader).(cache))) w))
  /\ evalImportStatement host fuel Ev (s0 :: rest) env w
     = evalImportStatement host fuel Ev [s0] env w.
Proof.
  intros Hbase Hbs Hsegs Hmod Hcache.
  assert (resolvePath w.(loader) s0 = Separator ++ Join (bs ++ [s0]) Separator ++ ".moon")
    as Hfile.
  { apply (resolvePath_dotted w.(loader) bs s0 [] Hbase Hbs).
    inversion Hsegs; subst. by constructor. }
  split; [by apply resolvePath_dotted | ].
  split; [exact Hfile | ].
  split; [ | split; [ | reflexivity] ].
  - intros err Hread.
    unfold evalImportStatement, bind, gets, Load. rewrite Hmod.
    unfold bind, gets. rewrite Hcache, Hfile, Hread. reflexivity.
  - intros content program p Hread Hparse.
    unfold Load, bind, gets. rewrite Hcache, Hfile, Hread, Hparse. reflexivity.
Qed.

Lemma C9_import_first_segment_witness :
  resolvePath (NewEvaluator "/work").(loader) "a.b.c" = "/work/a/b/c.moon"
  /\ resolvePath (NewEvaluator "/work").(loader) "a" = "/work/a.moon"
  /\ evalImportStatement (files_host [("/work/a/b/c.moon", "def x = 1")]) 20
       (Eval (files_host [("/work/a/b/c.moon", "def x = 1")]) 20) ["a"; "b"; "c"] 0%nat
       (NewEvaluator "/work")
     = Done (errorMessage
               "cannot load module a: open /work/a.moon: no such file or directory")
            (NewEvaluator "/work").
Proof.
  destruct (C9_import_first_segment (files_host [("/work/a/b/c.moon", "def x = 1")]) 20
              (Eval (files_host [("/work/a/b/c.moon", "def x = 1")]) 20)
              ["work"] "a" ["b"; "c"] 0%nat (NewEvaluator "/work"))
    as (Hall & Hfirst & Herr & _).
  - reflexivity.
  - repeat constructor.
  - repeat constructor.
  - reflexivity.
  - reflexivity.
  - split; [exact Hall | ]. split; [exact Hfirst | ].
    apply (Herr "open /work/a.moon: no such file or directory"). reflexivity.
Defined.

(** C9 as stated fails. With the module file at [/work/a/b/c.moon], the
    statement [import a.b.c] run in [/work] does not find it: the loader
    looks for [/work/a.moon].  With a file [/work/a.moon] instead, the same
    statement loads that file as the module [a]. *)
Lemma C9_counterexample :
  (exists w : World,
     Run (files_host [("/work/a/b/c.moon", "def x = 1")]) 20 "/work" "import a.b.c"
     = Done (errorMessage
               "cannot load module a: open /work/a.moon: no such file or directory") w)
  /\ (exists (w : World) (e : env_id),
        Run (files_host [("/work/a.moon", "def x = 1")]) 20 "/work" "import a.b.c"
        = Done (ModuleValue "a" e) w
        /\ w.(modules) !! "a" = Some ("a", e)
        /\ Environment_Get 2 e "x" w = Done (Some (IntegerValue 1)) w)
  /\ resolvePath (mkModuleLoader "/work" ∅) "a.b.c" = "/work/a/b/c.moon"
  /\ "/work/a/b/c.moon" <> "/work/a.moon".
Proof.
  split; [eexists; vm_compute; reflexivity | ].
  split; [ | split; [vm_compute; reflexivity | discriminate] ].
  eexists _, _. split; [vm_compute; reflexivity | ].
  split; vm_compute; reflexivity.
Qed.

(** * Further properties of the code *)

(** ** The order of a range over a map *)

Lemma permute_from_Permutation {A} (n : nat) (choices : list nat) (l : list A) :
  length l = n -> permute_from n choices l ≡ₚ l.
Proof.
  revert choices l. induction n as [ | n IH]; intros choices l Hlen.
  - by destruct l.
  - cbn [permute_from].
    assert (Hi : (Nat.modulo (hd 0%nat choices) (length l) < length l)%nat)
      by (apply Nat.mod_upper_bound; lia).
    destruct (lookup_lt_is_Some_2 l _ Hi) as [x Hx]. rewrite Hx.
    rewrite IH.
    + symmetry. by apply delete_Permutation.
    + rewrite length_delete; [lia | by eexists].
Qed.

(** Whatever the host chooses, the entries are ranged over once each. *)
Lemma permute_Permutation {A} (choices : list nat) (l : list A) : permute choices l ≡ₚ l.
Proof. by apply permute_from_Permutation. Qed.

Lemma range_order_Permutation {A} (host : Host) (site : string) (key : A -> string)
    (entries : list A) :
  range_order host site key entries ≡ₚ entries.
Proof. apply permute_Permutation. Qed.

(** Every order of the entries is the result of some choices. *)
Lemma permute_reaches {A} (l l' : list A) :
  l' ≡ₚ l -> exists choices : list nat, permute choices l = l'.
Proof.
  revert l. induction l' as [ | x l' IH]; intros l Hperm.
  - apply Permutation_nil_l in Hperm. subst l. by exists [].
  - assert (Hin : x ∈ l).
    { rewrite <- Hperm. apply elem_of_cons. by left. }
    apply list_elem_of_lookup in Hin as [i Hi].
    pose proof (lookup_lt_Some _ _ _ Hi) as Hlt.
    assert (Hrest : l' ≡ₚ delete i l).
    { apply (Permutation_cons_inv (a := x)). rewrite Hperm. by apply delete_Permutation. }
    destruct (IH _ Hrest) as [choices Hchoices].
    exists (i :: choices). unfold permute in *.
    destruct l as [ | y l]; [cbn in Hlt; lia | ].
    cbn [length permute_from hd tl]. rewrite Nat.mod_small by exact Hlt.
    change (length (y :: l)) with (S (length l)) in Hlt.
    rewrite Hi. f_equal. rewrite <- Hchoices.
    rewrite length_delete by (by eexists). cbn [length].
    by replace (S (length l) - 1)%nat with (length l) by lia.
Qed.

(** ** Environments *)

Lemma Environment_Get_state (n : nat) (e : env_id) (name : string) (w w' : World)
    (r : option Value) :
  Environment_Get n e name w = Done r w' -> w' = w.
Proof.
  revert e. induction n as [ | n IH]; intros e; [discriminate | ].
  cbn [Environment_Get]. unfold bind, gets.
  destruct (envs w !! e) as [env | ]; [ | discriminate].
  destruct (store env !! name); [unfold ret; congruence | ].
  destruct (parent env); [apply IH | unfold ret; congruence].
Qed.

(** A lookup sees only the stores and parents on its chain: two states
    whose environments agree below a bound give the same answer from an
    environment below the bound, when parents are older. *)
Lemma Environment_Get_agree (n : nat) (e : env_id) (name : string) (w w' : World)
    (bound : nat) :
  (forall e' : env_id, (e' < bound)%nat -> w'.(envs) !! e' = w.(envs) !! e') ->
  (forall (e' : env_id) env, (e' < bound)%nat -> w.(envs) !! e' = Some env ->
                  forall p, env.(parent) = Some p -> (p < bound)%nat) ->
  (e < bound)%nat ->
  forall r, Environment_Get n e name w = Done r w ->
            Environment_Get n e name w' = Done r w'.
Proof.
  intros Hagree Hpar. revert e. induction n as [ | n IH]; intros e He r; [discriminate | ].
  cbn [Environment_Get]. unfold bind, gets. rewrite (Hagree e He).
  destruct (envs w !! e) as [env | ] eqn:Hlook; [ | discriminate].
  destruct (store env !! name); [unfold ret; congruence | ].
  destruct (parent env) as [p | ] eqn:Hp; [ | unfold ret; congruence].
  apply IH. exact (Hpar e env He Hlook p Hp).
Qed.

(** A binding of [name] does not change the lookup of another name. *)
Lemma Environment_Get_other (n : nat) (e0 : env_id) (name name' : string) (v : Value)
    (env0 : Environment) (w : World) :
  w.(envs) !! e0 = Some env0 ->
  name' <> name ->
  forall e r,
    Environment_Get n e name' w = Done r w ->
    Environment_Get n e name'
      (set_envs (fun es => <[ e0 := mkEnvironment (<[ name := v ]> env0.(store))
                                      env0.(parent) ]> es) w)
    = Done r (set_envs (fun es => <[ e0 := mkEnvironment (<[ name := v ]> env0.(store))
                                            env0.(parent) ]> es) w).
Proof.
  intros H0 Hne. induction n as [ | n IH]; intros e r; [discriminate | ].
  cbn [Environment_Get]. unfold bind, gets. cbn [set_envs envs].
  destruct (decide (e = e0)) as [-> | Hee].
  - rewrite lookup_insert_eq, H0. cbn [store parent].
    rewrite lookup_insert_ne by congruence.
    destruct (store env0 !! name'); [unfold ret; congruence | ].
    destruct (parent env0); [apply IH | unfold ret; congruence].
  - rewrite lookup_insert_ne by congruence.
    destruct (envs w !! e) as [env | ]; [ | discriminate].
    destruct (store env !! name'); [unfold ret; congruence | ].
    destruct (parent env); [apply IH | unfold ret; congruence].
Qed.

(** Set then Get. After [e.Set(name, v)] the lookup of [name] from [e]
    yields [v], whatever the parents hold, and the lookup of any other name,
    from any environment, is what it was. *)
Theorem Environment_Set_then_Get (e : env_id) (name : string) (v : Value)
    (env : Environment) (w : World) :
  w.(envs) !! e = Some env ->
  exists w' : World,
    Environment_Set e name v w = Done tt w'
    /\ (forall n, Environment_Get (S n) e name w' = Done (Some v) w')
    /\ (forall n e' name' r,
          name' <> name ->
          Environment_Get n e' name' w = Done r w ->
          Environment_Get n e' name' w' = Done r w').
Proof.
  intros He. eexists. split; [ | split].
  - unfold Environment_Set, bind, gets. rewrite He. reflexivity.
  - intros n. cbn [Environment_Get]. unfold bind, gets. cbn [set_envs envs].
    rewrite lookup_insert_eq. cbn [store]. by rewrite lookup_insert_eq.
  - intros n e' name' r Hne Hget.
    exact (Environment_Get_other n e name name' v env w He Hne e' r Hget).
Qed.

Lemma Environment_Set_then_Get_witness :
  exists w' : World,
    Environment_Set 0%nat "x" (IntegerValue 1) one_env_world = Done tt w'
    /\ Environment_Get 1 0%nat "x" w' = Done (Some (IntegerValue 1)) w'.
Proof.
  destruct (Environment_Set_then_Get 0%nat "x" (IntegerValue 1) (mkEnvironment ∅ None)
              one_env_world) as (w' & Hset & Hget & _).
  - reflexivity.
  - exists w'. split; [exact Hset | exact (Hget 0%nat)].
Defined.

Lemma parents_older_one_env_world : parents_older one_env_world.
Proof.
  intros e env Hlook. cbn in Hlook.
  apply lookup_singleton_Some in Hlook as [<- <-].
  split; [cbn; lia | discriminate].
Qed.

(** Scopes. In a state where parents are older than their children, a new
    environment enclosed in [p] first sees exactly what [p] sees; a binding
    made in it shadows the outer one inside, and every lookup from an
    environment that existed before is what it was.  Parents are still older
    afterwards. *)
Theorem enclosed_environment_shadows (p : env_id) (penv : Environment) (name : string)
    (v : Value) (w : World) :
  parents_older w ->
  w.(envs) !! p = Some penv ->
  exists (c : env_id) (w1 w2 : World),
    NewEnclosedEnvironment p w = Done c w1
    /\ Environment_Set c name v w1 = Done tt w2
    /\ (forall n name' r,
          Environment_Get n p name' w = Done r w ->
          Environment_Get (S n) c name' w1 = Done r w1)
    /\ (forall n, Environment_Get (S n) c name w2 = Done (Some v) w2)
    /\ (forall n (e : env_id) name' r,
          (e < w.(next_env))%nat ->
          Environment_Get n e name' w = Done r w ->
          Environment_Get n e name' w2 = Done r w2)
    /\ parents_older w2.
Proof.
  intros Hwf Hp.
  assert (Hpc : (p < w.(next_env))%nat) by (by destruct (Hwf p penv Hp)).
  assert (Hpar : forall (e' : env_id) env, (e' < w.(next_env))%nat ->
                   w.(envs) !! e' = Some env ->
                   forall q, env.(parent) = Some q -> (q < w.(next_env))%nat).
  { intros e' env He' Hlook q Hq. destruct (Hwf e' env Hlook) as [_ Hlt].
    specialize (Hlt q Hq). lia. }
  eexists _, _, _. split; [reflexivity | ].
  split; [unfold Environment_Set, bind, gets; cbn [envs];
          rewrite lookup_insert_eq; reflexivity | ].
  split; [ | split; [ | split] ].
  - intros n name' r Hget. cbn [Environment_Get]. unfold bind, gets. cbn [envs].
    rewrite lookup_insert_eq. cbn [store parent]. rewrite lookup_empty.
    apply (Environment_Get_agree n p name' w _ w.(next_env)); try done.
    intros e' He'. cbn [envs]. apply lookup_insert_ne. lia.
  - intros n. cbn [Environment_Get]. unfold bind, gets. cbn [set_envs envs].
    rewrite lookup_insert_eq. cbn [store]. by rewrite lookup_insert_eq.
  - intros n e name' r He Hget.
    apply (Environment_Get_agree n e name' w _ w.(next_env)); try done.
    intros e' He'. cbn [set_envs envs]. rewrite !lookup_insert_ne by lia. reflexivity.
  - intros e env. cbn [set_envs envs next_env]. rewrite insert_insert_eq.
    intros [[<- <-] | [Hne Hlook]]%lookup_insert_Some.
    + split; [lia | ]. cbn [parent]. intros q [= <-]. exact Hpc.
    + destruct (Hwf e env Hlook) as [Hlt Hq]. split; [lia | exact Hq].
Qed.

Lemma enclosed_environment_shadows_witness :
  exists (c : env_id) (w1 w2 : World),
    NewEnclosedEnvironment 0%nat one_env_world = Done c w1
    /\ Environment_Set c "x" (IntegerValue 1) w1 = Done tt w2
    /\ Environment_Get 1 c "x" w2 = Done (Some (IntegerValue 1)) w2.
Proof.
  destruct (enclosed_environment_shadows 0%nat (mkEnvironment ∅ None) "x" (IntegerValue 1)
              one_env_world parents_older_one_env_world)
    as (c & w1 & w2 & Hnew & Hset & _ & Hget & _).
  - reflexivity.
  - exists c, w1, w2. split; [exact Hnew | split; [exact Hset | exact (Hget 0%nat)]].
Defined.

(** Update. [e.Update(name, v)] succeeds exactly when [e.Get(name)] finds
    the name: then the next lookup yields [v]; otherwise nothing changes. *)
Theorem Environment_Update_Get (n : nat) (e : env_id) (name : string) (v : Value)
    (w : World) (r : option Value) :
  Environment_Get n e name w = Done r w ->
  exists w' : World,
    Environment_Update n e name v w = Done (bool_decide (is_Some r)) w'
    /\ (r = None -> w' = w)
    /\ (is_Some r -> Environment_Get n e name w' = Done (Some v) w').
Proof.
  revert e. induction n as [ | n IH]; intros e; [discriminate | ].
  cbn [Environment_Get Environment_Update]. unfold bind, gets.
  destruct (envs w !! e) as [env | ] eqn:He; [ | discriminate].
  destruct (store env !! name) as [old | ] eqn:Hold.
  - intros [= <-]. eexists. split; [reflexivity | ]. split; [discriminate | ].
    intros _. unfold modify; cbn [set_envs envs].
    rewrite lookup_insert_eq. cbn [store]. by rewrite lookup_insert_eq.
  - destruct (parent env) as [p | ] eqn:Hp.
    + intros Hget. destruct (IH p Hget) as (w' & Hup & Hnone & Hsome).
      exists w'. split; [exact Hup | ]. split; [exact Hnone | ].
      intros Hr. specialize (Hsome Hr).
      (* the environment [e] itself is untouched by the update further up *)
      assert (Hsame : envs w' !! e = Some env).
      { clear Hsome Hnone IH Hget Hr.
        revert p Hp Hup. generalize (bool_decide (is_Some r)). clear r.
        intros b p _. revert p b.
        induction n as [ | n IHn]; intros q b; [discriminate | ].
        cbn [Environment_Update]. unfold bind, gets.
        destruct (envs w !! q) as [envq | ] eqn:Hq; [ | discriminate].
        destruct (store envq !! name) eqn:Hqn.
        - intros [= _ <-]. cbn [set_envs envs].
          rewrite lookup_insert_ne; [exact He | ]. intros ->. congruence.
        - destruct (parent envq); [apply IHn | ]. intros [= _ <-]. exact He. }
      rewrite Hsame, Hold, Hp. exact Hsome.
    + intros [= <-]. exists w. split; [reflexivity | ]. split; [reflexivity | ].
      intros [? ?]. discriminate.
Qed.

Lemma Environment_Update_Get_witness :
  exists w' : World,
    Environment_Update 1 0%nat "k" (IntegerValue 1) counter_world = Done true w'
    /\ Environment_Get 1 0%nat "k" w' = Done (Some (IntegerValue 1)) w'.
Proof.
  destruct (Environment_Update_Get 1 0%nat "k" (IntegerValue 1) counter_world
              (Some (IntegerValue 0)))
    as (w' & Hup & _ & Hsome).
  - reflexivity.
  - exists w'. split; [exact Hup | apply Hsome; by eexists].
Defined.

(** ** Lists *)

(** Append then get. The element appended to a list is found by [get] at
    the old length, and [get] at every index below it finds what it found
    in the receiver. *)
Theorem listAppend_then_listGet (L : list Value) (v : Value) :
  exists L' : list Value,
    listAppend L v = ListValue L'
    /\ listGet L' (Z.of_nat (length L)) = OptionValue true v
    /\ listGet L' (Z.of_nat (length L) + 1) = NoneValue
    /\ (forall i : Z, 0 <= i < Z.of_nat (length L) -> listGet L' i = listGet L i)
    /\ (forall (i : nat) (x : Value), L !! i = Some x ->
                                      listGet L' (Z.of_nat i) = OptionValue true x).
Proof.
  exists (L ++ [v])%list. unfold listAppend. rewrite Append_app.
  split; [reflexivity | ].
  assert (Hlen : length (L ++ [v])%list = S (length L))
    by (rewrite length_app; simpl; lia).
  assert (Hold : forall (i : nat) (x : Value),
             L !! i = Some x -> listGet (L ++ [v])%list (Z.of_nat i) = OptionValue true x).
  { intros i x Hx. apply listGet_in_range.
    rewrite lookup_app_l; [exact Hx | by apply lookup_lt_Some in Hx]. }
  split; [ | split; [ | split; [ | exact Hold] ] ].
  - apply listGet_in_range. by rewrite lookup_app_r, Nat.sub_diag by lia.
  - apply listGet_out_of_range. rewrite Hlen. lia.
  - intros i Hi. destruct (lookup_lt_is_Some_2 L (Z.to_nat i)) as [x Hx]; [lia | ].
    rewrite <- (Z2Nat.id i) by lia.
    by rewrite (Hold _ _ Hx), (listGet_in_range _ _ _ Hx).
Qed.

(** ** Maps *)

(** Insert, remove, get and contains on maps: a key reads back what was
    inserted, is absent after remove, and the other keys are not touched. *)
Theorem map_insert_remove_get (m : gmap string Value) (k : string) (v : Value) :
  (exists m' : gmap string Value,
     mapInsert m k v = MapValue m'
     /\ mapGet m' k = OptionValue true v
     /\ mapContains m' k = true
     /\ (forall k', k' <> k -> mapGet m' k' = mapGet m k'
                               /\ mapContains m' k' = mapContains m k'))
  /\ (exists m' : gmap string Value,
        mapRemove m k = MapValue m'
        /\ mapGet m' k = NoneValue
        /\ mapContains m' k = false
        /\ (forall k', k' <> k -> mapGet m' k' = mapGet m k'
                                  /\ mapContains m' k' = mapContains m k')).
Proof.
  split.
  - exists (<[k := v]> m). unfold mapInsert, mapGet, mapContains.
    split; [reflexivity | ]. rewrite lookup_insert_eq.
    split; [reflexivity | ]. split; [by apply bool_decide_eq_true | ].
    intros k' Hne. by rewrite lookup_insert_ne by congruence.
  - exists (delete k m). unfold mapRemove, mapGet, mapContains.
    split; [reflexivity | ]. rewrite lookup_delete_eq.
    split; [reflexivity | ].
    split; [apply bool_decide_eq_false; by intros [? ?] | ].
    intros k' Hne. by rewrite lookup_delete_ne by congruence.
Qed.

Lemma insert_by_key_Permutation {V} (kv : string * V) (l : list (string * V)) :
  insert_by_key kv l ≡ₚ kv :: l.
Proof.
  induction l as [ | kv' l IH]; [reflexivity | ].
  cbn [insert_by_key]. destruct (String.leb (fst kv) (fst kv')); [reflexivity | ].
  rewrite IH. apply Permutation_swap.
Qed.

Lemma sorted_entries_Permutation {V} (m : gmap string V) :
  sorted_entries m ≡ₚ map_to_list m.
Proof.
  unfold sorted_entries. induction (map_to_list m) as [ | kv l IH]; [reflexivity | ].
  cbn [foldr]. by rewrite insert_by_key_Permutation, IH.
Qed.

Lemma map_fmap {A B} (f : A -> B) (l : list A) : map f l = f <$> l.
Proof. induction l as [ | x l IH]; [reflexivity | ]. simpl. by rewrite IH. Qed.

(** Keys and values. [keys] lists every key of the map once and nothing
    else, [values] has one entry per key; both whatever the order of
    iteration. *)
Theorem mapKeys_mapValues (host : Host) (m : gmap string Value) :
  exists ks vs : list Value,
    mapKeys host m = ListValue ks
    /\ mapValues host m = ListValue vs
    /\ length ks = size m
    /\ length vs = size m
    /\ NoDup ks
    /\ (forall x : Value, x ∈ ks <-> exists k : string, x = StringValue k /\ mapContains m k = true)
    /\ (forall x : Value, x ∈ vs <-> exists k : string, m !! k = Some x).
Proof.
  eexists _, _. split; [reflexivity | ]. split; [reflexivity | ].
  assert (Hkeys : range_order host "mapKeys" fst (sorted_entries m) ≡ₚ map_to_list m)
    by (by rewrite range_order_Permutation, sorted_entries_Permutation).
  assert (Hvals : range_order host "mapValues" fst (sorted_entries m) ≡ₚ map_to_list m)
    by (by rewrite range_order_Permutation, sorted_entries_Permutation).
  rewrite !map_fmap.
  split; [by rewrite length_fmap, Hkeys, length_map_to_list | ].
  split; [by rewrite length_fmap, Hvals, length_map_to_list | ].
  split; [ | split].
  - replace ((fun kv : string * Value => StringValue (fst kv))
               <$> range_order host "mapKeys" fst (sorted_entries m))
      with (StringValue <$> (range_order host "mapKeys" fst (sorted_entries m)).*1)
      by (by rewrite <- list_fmap_compose).
    apply NoDup_fmap_2; [by intros ? ? [= ->] | ].
    rewrite Hkeys. apply NoDup_fst_map_to_list.
  - intros x. unfold mapContains. split.
    + intros [[k y] [-> Hin]]%list_elem_of_fmap.
      rewrite Hkeys in Hin. apply elem_of_map_to_list in Hin.
      exists k. split; [reflexivity | ]. apply bool_decide_eq_true. by eexists.
    + intros (k & -> & [y Hy]%bool_decide_eq_true).
      apply list_elem_of_fmap. exists (k, y). split; [reflexivity | ].
      rewrite Hkeys. by apply elem_of_map_to_list.
  - intros x. split.
    + intros [[k y] [-> Hin]]%list_elem_of_fmap.
      rewrite Hvals in Hin. apply elem_of_map_to_list in Hin. by exists k.
    + intros [k Hk]. apply list_elem_of_fmap. exists (k, x). split; [reflexivity | ].
      rewrite Hvals. by apply elem_of_map_to_list.
Qed.

(** ** range *)

Lemma wrap64_range (z : Z) : in_int64 (wrap64 z).
Proof.
  unfold in_int64, int64_min, int64_max, wrap64.
  pose proof (Z.mod_pos_bound (z + 2 ^ 63) (2 ^ 64) ltac:(lia)). lia.
Qed.

(** range. For int64 bounds [s <= e] that are at most [max_slice_cap]
    apart, [range(s, e)] is the list [s, s+1, ..., e-1], memory permitting.
    The call panics when it allocates the list, instead of giving a list or
    an error value, for bounds further apart than [max_slice_cap] and for
    [e < s] (here for bounds whose difference is an int64).  [range(e)] is
    [range(0, e)]. *)
Theorem builtinRange_elements (s e : Z) (w : World) :
  in_int64 s -> in_int64 e ->
  (s <= e -> e - s <= max_slice_cap ->
   exists L : list Value,
     builtinRange [IntegerValue s; IntegerValue e] w = Done (ListValue L) w
     /\ Z.of_nat (length L) = e - s
     /\ forall i : nat, (Z.of_nat i < e - s) ->
                        L !! i = Some (IntegerValue (s + Z.of_nat i)))
  /\ (max_slice_cap < e - s -> e - s < 2 ^ 63 ->
      builtinRange [IntegerValue s; IntegerValue e] w = Panic "makeslice: cap out of range")
  /\ (e < s -> s - e <= 2 ^ 63 ->
      builtinRange [IntegerValue s; IntegerValue e] w = Panic "makeslice: cap out of range")
  /\ builtinRange [IntegerValue e] w = builtinRange [IntegerValue 0; IntegerValue e] w.
Proof.
  intros Hs He. unfold in_int64, int64_min, int64_max in *.
  split; [ | split; [ | split; [ | reflexivity] ] ].
  - intros Hle Hcap. unfold max_slice_cap in Hcap.
    cbn [builtinRange UnwrapValue]. unfold bind, ret, range_elements. cbv zeta.
    rewrite (wrap64_id (e - s)) by (unfold in_int64, int64_min, int64_max; lia).
    destruct (e - s <? 0) eqn:Hneg; [lia | ].
    destruct (max_slice_cap <? e - s) eqn:Hbig; [unfold max_slice_cap in Hbig; lia | ].
    eexists. split; [reflexivity | ].
    split; [rewrite length_map, length_seqZ; lia | ].
    intros i Hi. rewrite list_lookup_fmap.
    rewrite (proj2 (lookup_seqZ s (e - s) i (s + Z.of_nat i))); [reflexivity | lia].
  - intros Hcap Hlt. cbn [builtinRange UnwrapValue]. unfold bind, ret, range_elements.
    cbv zeta.
    rewrite (wrap64_id (e - s))
      by (unfold max_slice_cap in Hcap; unfold in_int64, int64_min, int64_max; lia).
    destruct (max_slice_cap <? e - s) eqn:Hbig; [by rewrite orb_true_r | lia].
  - intros Hlt Hdiff. cbn [builtinRange UnwrapValue]. unfold bind, ret, range_elements.
    cbv zeta.
    rewrite (wrap64_id (e - s)) by (unfold in_int64, int64_min, int64_max; lia).
    destruct (e - s <? 0) eqn:Hneg; [reflexivity | lia].
Qed.

Lemma builtinRange_elements_witness :
  exists L : list Value,
    builtinRange [IntegerValue 2; IntegerValue 5] one_env_world
    = Done (ListValue L) one_env_world
    /\ Z.of_nat (length L) = 5 - 2
    /\ builtinRange [IntegerValue 5; IntegerValue 2] one_env_world
       = Panic "makeslice: cap out of range".
Proof.
  destruct (builtinRange_elements 2 5 one_env_world) as (Hup & _ & _).
  - unfold in_int64, int64_min, int64_max. lia.
  - unfold in_int64, int64_min, int64_max. lia.
  - destruct (builtinRange_elements 5 2 one_env_world) as (_ & _ & Hdown & _).
    + unfold in_int64, int64_min, int64_max. lia.
    + unfold in_int64, int64_min, int64_max. lia.
    + destruct Hup as (L & Hrun & Hlen & _); [lia | unfold max_slice_cap; lia | ].
      exists L. split; [exact Hrun | split; [exact Hlen | apply Hdown; lia]].
Defined.

(** ** Programs *)

Lemma evalProgram_cons (Ev : Node -> env_id -> EV Value) (s : Statement)
    (rest : list Statement) (env : env_id) (w w1 : World) (v : Value) :
  Ev (NStmt s) env w = Done v w1 ->
  evalProgram Ev (mkProgram (s :: rest)) env w =
  if program_stop v then Done (unwrapReturnValue v) w1
  else match rest with
       | [] => Done v w1
       | _ => evalProgram Ev (mkProgram rest) env w1
       end.
Proof.
  intros Hs. unfold evalProgram; simpl. unfold bind at 1. rewrite Hs.
  destruct rest as [ | s' rest'].
  - by destruct v.
  - destruct v; try reflexivity.
Qed.

(** Programs. If the statements before a position run through and the
    statement at the position yields a Return value or an error value, the
    program ends there: the later statements are not evaluated, a Return
    value is unwrapped and an error value is the result as it is.  A
    program that runs through yields the value of its last statement, and
    the empty program yields null. *)
Theorem evalProgram_stops (Ev : Node -> env_id -> EV Value)
    (pre : list Statement) (s : Statement) (post : list Statement)
    (env : env_id) (w w1 w2 : World) (v : Value) :
  program_runs_through Ev pre env w w1 ->
  Ev (NStmt s) env w1 = Done v w2 ->
  (program_stop v = true ->
   evalProgram Ev (mkProgram (pre ++ s :: post)) env w = Done (unwrapReturnValue v) w2)
  /\ (program_stop v = false ->
      evalProgram Ev (mkProgram (pre ++ [s])) env w = Done v w2)
  /\ evalProgram Ev (mkProgram []) env w = Done NullValue w.
Proof.
  intros Hrun Hs.
  assert (Hprefix : forall post',
             evalProgram Ev (mkProgram (pre ++ s :: post')) env w
             = evalProgram Ev (mkProgram (s :: post')) env w1).
  { intros post'. revert w Hrun. induction pre as [ | p pre IH]; intros w Hrun.
    - simpl in Hrun. by subst.
    - destruct Hrun as (vp & w' & Hp & Hstop & Hrest).
      change ((p :: pre) ++ s :: post')%list with (p :: (pre ++ s :: post'))%list.
      rewrite (evalProgram_cons Ev p _ env w w' vp Hp), Hstop.
      rewrite <- (IH w' Hrest). by destruct pre. }
  split; [ | split; [ | reflexivity] ].
  - intros Hstop. by rewrite Hprefix, (evalProgram_cons Ev s post env w1 w2 v Hs), Hstop.
  - intros Hstop. by rewrite Hprefix, (evalProgram_cons Ev s [] env w1 w2 v Hs), Hstop.
Qed.

Lemma evalProgram_stops_witness :
  evalProgram (Eval plain_host 3) (mkProgram [stmt_def_x; stmt_zzz; stmt_5]) 0%nat one_env_world
  = Done (errorMessage "undefined: zzz")
      (set_envs (fun es => <[ 0%nat := mkEnvironment {[ "x" := IntegerValue 1 ]} None ]> es)
                one_env_world).
Proof.
  destruct (evalProgram_stops (Eval plain_host 3) [stmt_def_x] stmt_zzz [stmt_5] 0%nat
              one_env_world
              (set_envs (fun es => <[ 0%nat := mkEnvironment {[ "x" := IntegerValue 1 ]} None ]> es)
                        one_env_world)
              (set_envs (fun es => <[ 0%nat := mkEnvironment {[ "x" := IntegerValue 1 ]} None ]> es)
                        one_env_world)
              (errorMessage "undefined: zzz")) as (Hstop & _ & _).
  - simpl. eexists _, _. split; [vm_compute; reflexivity | split; reflexivity].
  - vm_compute; reflexivity.
  - exact (Hstop eq_refl).
Defined.

(** ** for loops *)

Lemma evalForStatement_list (Ev : Node -> env_id -> EV Value) (var : Identifier)
    (iterable : Expression) (body : BlockStatement) (env : env_id) (w w0 : World)
    (elems : list Value) :
  Ev (NExpr iterable) env w = Done (ListValue elems) w0 ->
  evalForStatement Ev var iterable body env w
  = for_rounds Ev var.(id_Value) body env elems w0.
Proof.
  intros Hit. unfold evalForStatement, bind at 1. rewrite Hit. cbn [isError].
  cbn [UnwrapValue]. unfold bind at 1, ret at 1.
  clear Hit. generalize w0. induction elems as [ | elem rest IH]; intros w1; [reflexivity | ].
  cbn [for_rounds]. unfold for_round, bind.
  destruct (NewEnclosedEnvironment env w1) as [loopEnv w2 | | ]; try reflexivity.
  destruct (Environment_Set loopEnv (id_Value var) elem w2) as [[] w3 | | ]; try reflexivity.
  destruct (Ev (NStmt (BlockStmt body)) loopEnv w3) as [result w4 | | ]; try reflexivity.
  destruct (loop_signal result); try reflexivity; apply IH.
Qed.

Lemma for_rounds_cons (Ev : Node -> env_id -> EV Value) (var : string) (body : BlockStatement)
    (env : env_id) (x : Value) (rest : list Value) (w w1 : World) (v : Value) :
  for_round Ev var body env x w = Done v w1 ->
  for_rounds Ev var body env (x :: rest) w =
  match loop_signal v with
  | LoopReturn r => Done r w1
  | _ => for_rounds Ev var body env rest w1
  end.
Proof.
  intros Hx. cbn [for_rounds]. unfold bind at 1. rewrite Hx.
  by destruct (loop_signal v).
Qed.

(** for loops. When the iterable is a list and the rounds for the
    elements before a position go on, a Break in the round at the position
    ends the loop with null, a Return value or an error value ends it with
    that value unchanged, and the elements after the position are never
    visited.  A loop whose rounds all go on yields null. *)
Theorem evalForStatement_exit (Ev : Node -> env_id -> EV Value) (var : Identifier)
    (iterable : Expression) (body : BlockStatement) (env : env_id)
    (pre : list Value) (x : Value) (post : list Value)
    (w w0 w1 w2 : World) (v : Value) :
  Ev (NExpr iterable) env w = Done (ListValue (pre ++ x :: post)) w0 ->
  rounds_go_on Ev var.(id_Value) body env pre w0 w1 ->
  for_round Ev var.(id_Value) body env x w1 = Done v w2 ->
  (v = BreakValue -> evalForStatement Ev var iterable body env w = Done NullValue w2)
  /\ (program_stop v = true -> evalForStatement Ev var iterable body env w = Done v w2)
  /\ (loop_signal v = LoopNext tt -> post = [] ->
      evalForStatement Ev var iterable body env w = Done NullValue w2).
Proof.
  intros Hit Hpre Hx. rewrite (evalForStatement_list Ev var iterable body env w w0 _ Hit).
  clear Hit. revert w0 Hpre. induction pre as [ | p pre IH]; intros w0 Hpre.
  - simpl in Hpre. subst w1. cbn [app].
    rewrite (for_rounds_cons Ev _ body env x post w0 w2 v Hx).
    split; [by intros -> | ]. split.
    + intros Hstop. by destruct v.
    + intros Hnext ->. by rewrite Hnext.
  - destruct Hpre as (vp & w' & Hp & Hnext & Hrest).
    change ((p :: pre) ++ x :: post)%list with (p :: (pre ++ x :: post))%list.
    rewrite (for_rounds_cons Ev _ body env p _ w0 w' vp Hp), Hnext.
    exact (IH w' Hrest).
Qed.

(** ** Higher-order list methods *)

(** map, filter and find. When they return, [L.map(f)] is a list as long
    as [L], [L.filter(f)] is a list whose elements are elements of [L] in
    the order of [L], and [L.find(f)] is None or Some of an element of
    [L]; on the empty list they are the empty list and None, and
    [reduce] is its initial value. *)
Theorem list_higher_order_methods (host : Host) (fuel : nat)
    (Ev : Node -> env_id -> EV Value) (L : list Value) (fn : FunctionRec) (env : env_id) :
  (forall w r w', listMap host fuel Ev L fn env w = Done r w' ->
                  exists L', r = ListValue L' /\ length L' = length L)
  /\ (forall w r w', listFilter host fuel Ev L fn env w = Done r w' ->
                     exists L', r = ListValue L' /\ sublist L' L)
  /\ (forall w r w', listFind host fuel Ev L fn env w = Done r w' ->
                     r = NoneValue \/ exists x, r = OptionValue true x /\ x ∈ L)
  /\ (forall w init,
        listMap host fuel Ev [] fn env w = Done (ListValue []) w
        /\ listFilter host fuel Ev [] fn env w = Done (ListValue []) w
        /\ listFind host fuel Ev [] fn env w = Done NoneValue w
        /\ listReduce host fuel Ev [] fn init env w = Done init w).
Proof.
  split; [ | split; [ | split] ].
  - unfold listMap, bind, ret. intros w r w'.
    destruct (mapM _ L w) as [L' w1 | | ] eqn:Hm; try discriminate.
    intros [= <- <-]. exists L'. split; [reflexivity | ].
    revert w L' w1 Hm. induction L as [ | x L IH]; intros w L' w1.
    + by intros [= <- <-].
    + cbn [mapM]. unfold bind, ret.
      destruct (applyFunction host fuel Ev (FunctionValue fn) [x] env w)
        as [y w2 | | ]; try discriminate.
      destruct (mapM _ L w2) as [ys w3 | | ] eqn:Hrest; try discriminate.
      intros [= <- <-]. simpl. f_equal. by apply (IH w2 ys w3).
  - unfold listFilter. intros w r w'. unfold bind at 1, ret at 1.
    match goal with
    | |- match ?go L w with _ => _ end = _ -> _ =>
        destruct (go L w) as [L' w1 | | ] eqn:Hm; try discriminate
    end.
    intros [= <- <-]. exists L'. split; [reflexivity | ].
    revert w L' w1 Hm. induction L as [ | x L IH]; intros w L' w1.
    + intros [= <- <-]. constructor.
    + unfold bind, ret.
      destruct (applyFunction host fuel Ev (FunctionValue fn) [x] env w)
        as [y w2 | | ]; try discriminate.
      destruct (IsTruthy fuel y w2) as [t w3 | | ]; try discriminate.
      match goal with
      | |- match ?go L w3 with _ => _ end = _ -> _ =>
          destruct (go L w3) as [kept w4 | | ] eqn:Hrest; try discriminate
      end.
      intros [= <- <-]. specialize (IH w3 kept w4 Hrest).
      destruct t; [by apply sublist_skip | by apply sublist_cons].
  - unfold listFind. revert L. induction L as [ | x L IH]; intros w r w'.
    + intros [= <- <-]. by left.
    + unfold bind, ret.
      destruct (applyFunction host fuel Ev (FunctionValue fn) [x] env w)
        as [y w2 | | ]; try discriminate.
      destruct (IsTruthy fuel y w2) as [[ | ] w3 | | ]; try discriminate.
      * intros [= <- <-]. right. exists x. split; [reflexivity | constructor].
      * intros Hrest. destruct (IH w3 r w' Hrest) as [-> | (z & -> & Hz)]; [by left | ].
        right. exists z. split; [reflexivity | by constructor].
  - intros w init. repeat split; reflexivity.
Qed.

(** ** Equality of values *)

Lemma Z_eqb_decide (a b : Z) : (a =? b) = bool_decide (a = b).
Proof.
  destruct (Z.eqb_spec a b).
  - by rewrite bool_decide_eq_true_2.
  - by rewrite bool_decide_eq_false_2.
Qed.

Lemma valuesEqual_Integer (a b : Z) (w : World) :
  valuesEqual (IntegerValue a) (IntegerValue b) w = Done (bool_decide (a = b)) w.
Proof. unfold valuesEqual, bind, ret. cbn [UnwrapValue]. unfold ret. by rewrite Z_eqb_decide. Qed.

(** The [is] comparison. Integers, strings and booleans are equal
    exactly when they are the same, floats when [==] of the floats holds,
    and null equals null.  Both operands are unwrapped first, so that a
    Mutable is compared through its content, on either side.  Whatever the
    second operand is, a list, a map, a struct, an option, and every other
    value that is no integer, float, string, boolean or null, equals
    nothing, not even itself, and two values of different types are
    never equal.  The state is left as it is. *)
Theorem valuesEqual_cases (w : World) :
  (forall a b : Z,
     valuesEqual (IntegerValue a) (IntegerValue b) w = Done (bool_decide (a = b)) w)
  /\ (forall a b : string,
        valuesEqual (StringValue a) (StringValue b) w = Done (bool_decide (a = b)) w)
  /\ (forall a b : bool,
        valuesEqual (BooleanValue a) (BooleanValue b) w = Done (bool_decide (a = b)) w)
  /\ (forall a b : float,
        valuesEqual (FloatValue a) (FloatValue b) w = Done (PrimFloat.eqb a b) w)
  /\ valuesEqual NullValue NullValue w = Done true w
  /\ (forall a b a' b' : Value,
        UnwrapValue a w = Done a' w -> UnwrapValue b w = Done b' w ->
        comparable a' = false \/ comparable b' = false \/ Value_Type a' <> Value_Type b' ->
        valuesEqual a b w = Done false w)
  /\ (forall b b' : Value,
        UnwrapValue b w = Done b' w ->
        (forall L : list Value,
           valuesEqual (ListValue L) b w = Done false w
           /\ valuesEqual b (ListValue L) w = Done false w)
        /\ (forall m : gmap string Value,
              valuesEqual (MapValue m) b w = Done false w
              /\ valuesEqual b (MapValue m) w = Done false w)
        /\ (forall (s : bool) (x : Value),
              valuesEqual (OptionValue s x) b w = Done false w
              /\ valuesEqual b (OptionValue s x) w = Done false w)
        /\ (forall (name : string) (defFields : list StructField) (fields : gmap string Value),
              valuesEqual (StructValue name defFields fields) b w = Done false w
              /\ valuesEqual b (StructValue name defFields fields) w = Done false w))
  /\ (forall (l : loc) (v b : Value),
        w.(cells) !! l = Some v -> (forall l' : loc, v <> MutableValue l') ->
        valuesEqual (MutableValue l) b w = valuesEqual v b w
        /\ valuesEqual b (MutableValue l) w = valuesEqual b v w)
  /\ (forall (a b : Value) (r : bool) (w' : World),
        valuesEqual a b w = Done r w' -> w' = w).
Proof.
  assert (Hgen : forall a b a' b' : Value,
             UnwrapValue a w = Done a' w -> UnwrapValue b w = Done b' w ->
             comparable a' = false \/ comparable b' = false
             \/ Value_Type a' <> Value_Type b' ->
             valuesEqual a b w = Done false w).
  { intros a b a' b' Ha Hb Hcases. unfold valuesEqual, bind. rewrite Ha, Hb. unfold ret.
    f_equal.
    destruct a'; try reflexivity; destruct b'; try reflexivity;
      destruct Hcases as [Hc | [Hc | Hc] ]; try discriminate Hc; contradiction. }
  assert (Hun : forall v : Value, (forall l' : loc, v <> MutableValue l') ->
                                  UnwrapValue v w = Done v w).
  { intros v Hv. destruct v; try reflexivity. by destruct (Hv l). }
  split; [intros a b; apply valuesEqual_Integer | ].
  split.
  { intros a b. unfold valuesEqual, bind, ret. cbn [UnwrapValue]. unfold ret. f_equal.
    destruct (String.eqb_spec a b).
    - by rewrite bool_decide_eq_true_2.
    - by rewrite bool_decide_eq_false_2. }
  split; [intros a b; by destruct a, b | ].
  split; [reflexivity | ].
  split; [reflexivity | ].
  split; [exact Hgen | ].
  split.
  { intros b b' Hb.
    repeat match goal with |- _ /\ _ => split | |- forall _, _ => intros ? end;
      first [ eapply Hgen; [reflexivity | exact Hb | by left]
            | eapply Hgen; [exact Hb | reflexivity | right; by left] ]. }
  split.
  { intros l v b Hl Hv. unfold valuesEqual, bind. cbn [UnwrapValue].
    unfold read_cell, bind, gets, or_panic. rewrite Hl. unfold ret at 1.
    rewrite (Hun v Hv). split; [reflexivity | ].
    destruct (UnwrapValue b w) as [b' w1 | | ] eqn:Hb; try reflexivity.
    assert (w1 = w) as ->.
    { destruct b; cbn in Hb; unfold ret in Hb; try (by inversion Hb).
      unfold read_cell, bind, gets, or_panic in Hb.
      destruct (cells w !! l0); [by inversion Hb | discriminate]. }
    unfold ret at 1. rewrite Hl, (Hun v Hv). reflexivity. }
  intros a b r w' H. unfold valuesEqual, bind in H.
  assert (Hsame : forall v v' w1, UnwrapValue v w = Done v' w1 -> w1 = w).
  { intros v v' w1 Hv. destruct v; cbn in Hv; unfold ret in Hv; try (by inversion Hv).
    unfold read_cell, bind, gets, or_panic in Hv.
    destruct (cells w !! l); [by inversion Hv | discriminate]. }
  destruct (UnwrapValue a w) as [a' w1 | | ] eqn:Ha; try discriminate.
  apply Hsame in Ha. subst w1.
  destruct (UnwrapValue b w) as [b' w2 | | ] eqn:Hb; try discriminate.
  apply Hsame in Hb. subst w2. unfold ret in H. by inversion H.
Qed.

Lemma listContains_cons (x : Value) (L : list Value) (v : Value) :
  listContains (x :: L) v
  = (let* eq := valuesEqual x v in if eq then ret true else listContains L v).
Proof. reflexivity. Qed.

(** contains. On a list of integers, [contains] of an integer says
    whether the integer is an element. *)
Theorem listContains_integers (zs : list Z) (z : Z) (w : World) :
  listContains (map IntegerValue zs) (IntegerValue z) w = Done (bool_decide (z ∈ zs)) w.
Proof.
  induction zs as [ | a zs IH]; [reflexivity | ].
  change (map IntegerValue (a :: zs)) with (IntegerValue a :: map IntegerValue zs).
  rewrite listContains_cons. unfold bind. rewrite valuesEqual_Integer.
  destruct (decide (a = z)) as [-> | Hne].
  - rewrite bool_decide_eq_true_2 by reflexivity. unfold ret. f_equal.
    symmetry. apply bool_decide_eq_true. constructor.
  - rewrite bool_decide_eq_false_2 by exact Hne. rewrite IH. f_equal.
    apply bool_decide_ext. rewrite elem_of_cons.
    split; [tauto | intros [? | ?]; [congruence | done]].
Qed.

(** ** Integer arithmetic *)

Lemma wrap64_congruent (z : Z) : (wrap64 z - z) mod 2 ^ 64 = 0.
Proof.
  unfold wrap64. pose proof (Z.div_mod (z + 2 ^ 63) (2 ^ 64) ltac:(lia)) as Hdm.
  replace ((z + 2 ^ 63) mod 2 ^ 64 - 2 ^ 63 - z)
    with (- ((z + 2 ^ 63) / 2 ^ 64) * 2 ^ 64) by lia.
  apply Z.mod_mul. lia.
Qed.

(** Integer arithmetic wraps around. The sum, difference and product of
    two integers are integer values in the int64 range that differ from the
    exact result by a multiple of [2^64], so they are the exact result
    whenever that is in the range; the largest integer plus one is the
    smallest. *)
Theorem evalIntegerInfixExpression_wraps (a b : Z) :
  (exists r : Z,
     evalIntegerInfixExpression "+" a b = IntegerValue r
     /\ in_int64 r /\ (r - (a + b)) mod 2 ^ 64 = 0 /\ (in_int64 (a + b) -> r = a + b))
  /\ (exists r : Z,
        evalIntegerInfixExpression "-" a b = IntegerValue r
        /\ in_int64 r /\ (r - (a - b)) mod 2 ^ 64 = 0 /\ (in_int64 (a - b) -> r = a - b))
  /\ (exists r : Z,
        evalIntegerInfixExpression "*" a b = IntegerValue r
        /\ in_int64 r /\ (r - a * b) mod 2 ^ 64 = 0 /\ (in_int64 (a * b) -> r = a * b))
  /\ evalIntegerInfixExpression "+" int64_max 1 = IntegerValue int64_min.
Proof.
  split; [ | split; [ | split; [ | reflexivity] ] ];
    (eexists; split; [reflexivity | ];
     split; [apply wrap64_range | ];
     split; [apply wrap64_congruent | apply wrap64_id]).
Qed.

(** ** Option methods *)

(** Option methods. [unwrap] of None is the error "called unwrap on
    None" and of [Some(x)] is [x]; [unwrapOr(d)] is [d] on None and [x] on
    [Some(x)]; [map(a)] returns None as it is, whatever [a] is and without
    applying it; on [Some(x)], [map(f)] with a function value [f] (a
    function of the language or a lambda) applies [f] to [x] and is
    [Some(y)] for the result [y], and does not return when the call does
    not, while [map(a)] with anything else, a built-in function included,
    is the error "map() argument must be a function"; [isSome] and [isNone]
    are opposite. *)
Theorem evalOptionMethod_cases
    (host : Host) (fuel : nat) (Ev : Node -> env_id -> EV Value)
    (x xn d a : Value) (args : list Value) (env : env_id) (w : World) :
  evalOptionMethod host fuel Ev false xn "unwrap" args env w
    = Done (Some (errorMessage "called unwrap on None")) w
  /\ evalOptionMethod host fuel Ev true x "unwrap" args env w = Done (Some x) w
  /\ evalOptionMethod host fuel Ev false xn "unwrapOr" [d] env w = Done (Some d) w
  /\ evalOptionMethod host fuel Ev true x "unwrapOr" [d] env w = Done (Some x) w
  /\ evalOptionMethod host fuel Ev false xn "map" [a] env w
     = Done (Some (OptionValue false xn)) w
  /\ (forall f : FunctionRec,
        evalOptionMethod host fuel Ev true x "map" [FunctionValue f] env w
        = (let* y := applyFunction host fuel Ev (FunctionValue f) [x] env in
           ret (Some (OptionValue true y))) w)
  /\ (forall (f : FunctionRec) (y : Value) (w' : World),
        applyFunction host fuel Ev (FunctionValue f) [x] env w = Done y w' ->
        evalOptionMethod host fuel Ev true x "map" [FunctionValue f] env w
        = Done (Some (OptionValue true y)) w')
  /\ ((forall f : FunctionRec, a <> FunctionValue f) ->
      evalOptionMethod host fuel Ev true x "map" [a] env w
      = Done (Some (errorMessage "map() argument must be a function")) w)
  /\ (forall s : bool,
        evalOptionMethod host fuel Ev s x "isSome" args env w = Done (Some (BooleanValue s)) w
        /\ evalOptionMethod host fuel Ev s x "isNone" args env w
           = Done (Some (BooleanValue (negb s))) w)
  /\ (forall (s : bool) (v : Value) (method : string),
        evalBuiltinMethod host fuel Ev (OptionValue s v) method args env w
        = evalOptionMethod host fuel Ev s v method args env w).
Proof.
  repeat match goal with |- _ /\ _ => split end; try reflexivity.
  - intros f y w' Happ. unfold evalOptionMethod. cbn [String.eqb Ascii.eqb Bool.eqb negb].
    unfold bind. by rewrite Happ.
  - intros Hnf. destruct a; try reflexivity. exfalso. by eapply Hnf.
  - intros s. split; reflexivity.
Qed.

Lemma evalOptionMethod_cases_witness :
  exists w' : World,
    evalOptionMethod plain_host 3 (Eval plain_host 3) true (IntegerValue 1) "map"
      [FunctionValue identity_lambda] 0%nat one_env_world
    = Done (Some (OptionValue true (IntegerValue 1))) w'
    /\ evalOptionMethod plain_host 3 (Eval plain_host 3) true (IntegerValue 1) "map"
         [BuiltinFunction Bstr] 0%nat one_env_world
       = Done (Some (errorMessage "map() argument must be a function")) one_env_world.
Proof.
  eexists.
  assert (Happ : applyFunction plain_host 3 (Eval plain_host 3) (FunctionValue identity_lambda)
                   [IntegerValue 1] 0%nat one_env_world = Done (IntegerValue 1) _)
    by (vm_compute; reflexivity).
  destruct (evalOptionMethod_cases plain_host 3 (Eval plain_host 3)
              (IntegerValue 1) NullValue NullValue (BuiltinFunction Bstr) [] 0%nat
              one_env_world) as (_ & _ & _ & _ & _ & _ & Hmap & Hnofun & _).
  split; [exact (Hmap identity_lambda _ _ Happ) | ].
  apply Hnofun. intros f. discriminate.
Defined.

(** ** match *)



(** ** Assignment and Mutable *)

Lemma evalAssignmentExpression_lookup (fuel : nat) (Ev : Node -> env_id -> EV Value)
    (name : Identifier) (value : Expression) (env : env_id) (w w1 : World)
    (val : Value) (existing : option Value) :
  Ev (NExpr value) env w = Done val w1 ->
  isError val = false ->
  Environment_Get fuel env name.(id_Value) w1 = Done existing w1 ->
  evalAssignmentExpression fuel Ev name value env w =
  match existing with
  | None => ret (errorMessage ("undefined: " ++ name.(id_Value)))
  | Some (MutableValue l) =>
    let* v := UnwrapValue val in
    do write_cell l v then
    ret v
  | Some _ => ret (errorMessage (name.(id_Value) ++ " is not mutable"))
  end w1.
Proof.
  intros Hval Herr Hget. unfold evalAssignmentExpression, bind at 1. rewrite Hval, Herr.
  unfold bind at 1. by rewrite Hget.
Qed.

(** Assignment. [name == value] writes the unwrapped value into the cell
    of a Mutable binding and yields it, leaving every other cell and every
    environment as they were; on a binding that is not a Mutable it yields
    the error "is not mutable", on a name without binding the error
    "undefined", and in both cases changes nothing. *)
Theorem evalAssignmentExpression_cases (fuel : nat) (Ev : Node -> env_id -> EV Value)
    (name : Identifier) (value : Expression) (env : env_id) (w w1 : World)
    (val : Value) (existing : option Value) :
  Ev (NExpr value) env w = Done val w1 ->
  isError val = false ->
  Environment_Get fuel env name.(id_Value) w1 = Done existing w1 ->
  (existing = None ->
   evalAssignmentExpression fuel Ev name value env w
   = Done (errorMessage ("undefined: " ++ name.(id_Value))) w1)
  /\ (forall x : Value,
        existing = Some x -> (forall l, x <> MutableValue l) ->
        evalAssignmentExpression fuel Ev name value env w
        = Done (errorMessage (name.(id_Value) ++ " is not mutable")) w1)
  /\ (forall (l : loc) (v : Value),
        existing = Some (MutableValue l) ->
        UnwrapValue val w1 = Done v w1 ->
        exists w2 : World,
          evalAssignmentExpression fuel Ev name value env w = Done v w2
          /\ w2.(cells) !! l = Some v
          /\ (forall l', l' <> l -> w2.(cells) !! l' = w1.(cells) !! l')
          /\ w2.(envs) = w1.(envs)
          /\ UnwrapValue (MutableValue l) w2 = Done v w2).
Proof.
  intros Hval Herr Hget.
  rewrite (evalAssignmentExpression_lookup fuel Ev name value env w w1 val existing)
    by assumption.
  split; [by intros -> | ]. split.
  - intros x -> Hx. destruct x; try reflexivity. exfalso. by eapply Hx.
  - intros l v -> Hun. unfold bind at 1. rewrite Hun.
    eexists. split; [reflexivity | ]. cbn [write_cell modify cells envs].
    split; [by rewrite lookup_insert_eq | ].
    split; [intros l' Hne; by rewrite lookup_insert_ne by congruence | ].
    split; [reflexivity | ].
    cbn [UnwrapValue]. unfold read_cell, bind, gets, or_panic. cbn [cells].
    by rewrite lookup_insert_eq.
Qed.

Lemma evalAssignmentExpression_cases_witness :
  (exists w2 : World,
     evalAssignmentExpression 2 (Eval plain_host 2) (mkIdentifier Token_zero "c")
       (IntegerLiteral Token_zero 5) 0%nat counter_world = Done (IntegerValue 5) w2
     /\ w2.(cells) !! 0%nat = Some (IntegerValue 5))
  /\ evalAssignmentExpression 2 (Eval plain_host 2) (mkIdentifier Token_zero "k")
       (IntegerLiteral Token_zero 5) 0%nat counter_world
     = Done (errorMessage "k is not mutable") counter_world.
Proof.
  split.
  - destruct (evalAssignmentExpression_cases 2 (Eval plain_host 2)
                (mkIdentifier Token_zero "c") (IntegerLiteral Token_zero 5) 0%nat
                counter_world counter_world (IntegerValue 5) (Some (MutableValue 0%nat)))
      as (_ & _ & Hmut).
    + reflexivity.
    + reflexivity.
    + vm_compute; reflexivity.
    + destruct (Hmut 0%nat (IntegerValue 5) eq_refl eq_refl) as (w2 & Hrun & Hcell & _).
      exists w2. split; [exact Hrun | exact Hcell].
  - destruct (evalAssignmentExpression_cases 2 (Eval plain_host 2)
                (mkIdentifier Token_zero "k") (IntegerLiteral Token_zero 5) 0%nat
                counter_world counter_world (IntegerValue 5) (Some (IntegerValue 0)))
      as (_ & Himm & _).
    + reflexivity.
    + reflexivity.
    + vm_compute; reflexivity.
    + apply (Himm (IntegerValue 0) eq_refl). discriminate.
Defined.

(** Mutable. [Mutable(value)] stores the unwrapped value in the next free
    cell and yields the Mutable of that cell: reading it gives the value
    back, every other cell and every environment is as before, and the next
    Mutable gets another cell. *)
Theorem evalMutableExpression_fresh (Ev : Node -> env_id -> EV Value)
    (value : Expression) (env : env_id) (w w1 : World) (v inner : Value) :
  Ev (NExpr value) env w = Done v w1 ->
  isError v = false ->
  UnwrapValue v w1 = Done inner w1 ->
  exists w2 : World,
    evalMutableExpression Ev value env w = Done (MutableValue w1.(next_cell)) w2
    /\ UnwrapValue (MutableValue w1.(next_cell)) w2 = Done inner w2
    /\ (forall l, l <> w1.(next_cell) -> w2.(cells) !! l = w1.(cells) !! l)
    /\ w2.(envs) = w1.(envs)
    /\ w2.(next_cell) = S w1.(next_cell).
Proof.
  intros Hv Herr Hun. unfold evalMutableExpression, bind at 1. rewrite Hv, Herr.
  unfold bind at 1. rewrite Hun.
  eexists. split; [reflexivity | ]. cbn [cells envs next_cell].
  split; [ | split; [ | split; reflexivity] ].
  - cbn [UnwrapValue]. unfold read_cell, bind, gets, or_panic. cbn [cells].
    by rewrite lookup_insert_eq.
  - intros l Hne. by rewrite lookup_insert_ne by congruence.
Qed.

Lemma evalMutableExpression_fresh_witness :
  exists w2 : World,
    evalMutableExpression (Eval plain_host 2) (IntegerLiteral Token_zero 7) 0%nat counter_world
    = Done (MutableValue 1%nat) w2
    /\ UnwrapValue (MutableValue 1%nat) w2 = Done (IntegerValue 7) w2
    /\ w2.(cells) !! 0%nat = Some (IntegerValue 0).
Proof.
  destruct (evalMutableExpression_fresh (Eval plain_host 2) (IntegerLiteral Token_zero 7)
              0%nat counter_world counter_world (IntegerValue 7) (IntegerValue 7))
    as (w2 & Hrun & Hread & Hframe & _).
  - reflexivity.
  - reflexivity.
  - reflexivity.
  - exists w2. split; [exact Hrun | split; [exact Hread | ] ].
    etrans; [apply Hframe; discriminate | reflexivity].
Defined.


Lemma evalForStatement_exit_witness :
  evalForStatement (Eval plain_host 4) (mkIdentifier Token_zero "x") expr_list_1_2
    block_break 0%nat one_env_world
  = Done NullValue
      (mkWorld (<[ 1%nat := mkEnvironment {[ "x" := IntegerValue 1 ]} (Some 0%nat) ]>
                  {[ 0%nat := mkEnvironment ∅ None ]})
               2%nat ∅ 0%nat ∅ ∅ ∅ (mkModuleLoader "/" ∅) "" []).
Proof.
  destruct (evalForStatement_exit (Eval plain_host 4) (mkIdentifier Token_zero "x")
              expr_list_1_2 block_break 0%nat [] (IntegerValue 1) [IntegerValue 2]
              one_env_world one_env_world one_env_world
              (mkWorld (<[ 1%nat := mkEnvironment {[ "x" := IntegerValue 1 ]} (Some 0%nat) ]>
                          {[ 0%nat := mkEnvironment ∅ None ]})
                       2%nat ∅ 0%nat ∅ ∅ ∅ (mkModuleLoader "/" ∅) "" [])
              BreakValue) as (Hbreak & _).
  - reflexivity.
  - reflexivity.
  - vm_compute; reflexivity.
  - exact (Hbreak eq_refl).
Defined.

(** ** The lexer terminates *)

Lemma lexer_synced_NUL (l : Lexer) :
  lexer_synced l -> (String.length l.(input) <= l.(pos))%nat -> l.(ch) = NUL.
Proof.
  intros [_ Hch] Hle. rewrite Hch.
  destruct (Nat.ltb_spec (pos l) (String.length (input l))); [lia | reflexivity].
Qed.

Lemma lexer_advance_refl (l : Lexer) : lexer_synced l -> lexer_advance l l.
Proof. intros H. repeat split; try apply H; lia. Qed.

Lemma lexer_advance_trans (l1 l2 l3 : Lexer) :
  lexer_advance l1 l2 -> lexer_advance l2 l3 -> lexer_advance l1 l3.
Proof.
  intros (_ & Hi1 & Hp1) (Hs & Hi2 & Hp2). repeat split; try apply Hs; [congruence | lia].
Qed.

(** [readChar] moves one byte forward. *)
Lemma readChar_advance (l : Lexer) :
  lexer_synced l ->
  exists l' : Lexer,
    readChar l = Done tt l' /\ lexer_advance l l' /\ l'.(pos) = S l.(pos)
    /\ l'.(ch) = peekChar l /\ l'.(line) = l.(line).
Proof.
  intros [Hrp Hch]. eexists. split; [reflexivity | ].
  cbn [pos readPos input ch line]. unfold lexer_advance, lexer_synced, peekChar.
  cbn [pos readPos input ch]. rewrite Hrp.
  repeat split; try lia.
  destruct (Nat.leb_spec (String.length (input l)) (S (pos l)));
    destruct (Nat.ltb_spec (S (pos l)) (String.length (input l))); try lia; reflexivity.
Qed.

(** A scanning loop whose condition fails at [NUL] and whose body moves
    forward ends before the fuel does. *)
Lemma while_loop_advance (cond : Lexer -> bool) (body : M Lexer unit) :
  (forall l, cond l = true -> l.(ch) <> NUL) ->
  (forall l, lexer_synced l -> cond l = true ->
             exists l', body l = Done tt l' /\ lexer_advance l l' /\ (l.(pos) < l'.(pos))%nat) ->
  forall (fuel : nat) (l : Lexer),
    lexer_synced l ->
    (1 <= fuel)%nat ->
    (String.length l.(input) < l.(pos) + fuel)%nat ->
    exists l' : Lexer,
      while_loop fuel cond body l = Done tt l'
      /\ lexer_advance l l' /\ cond l' = false
      /\ (cond l = true -> (l.(pos) < l'.(pos))%nat).
Proof.
  intros Hnul Hbody. induction fuel as [ | fuel IH]; intros l Hs Hone Hfuel; [lia | ].
  cbn [while_loop]. destruct (cond l) eqn:Hcnd.
  - destruct (Hbody l Hs Hcnd) as (l1 & Hb & Hadv & Hlt).
    assert (Hlen : (pos l < String.length (input l))%nat).
    { destruct (Nat.ltb_spec (pos l) (String.length (input l))) as [ | Hge]; [done | ].
      exfalso. apply (Hnul l Hcnd). by apply lexer_synced_NUL. }
    pose proof Hadv as (Hs1 & Hi1 & Hp1).
    destruct (IH l1 Hs1) as (l' & Hrun & Hadv' & Hc' & _); [lia | rewrite Hi1; lia | ].
    exists l'. unfold bind. rewrite Hb. split; [exact Hrun | ].
    split; [by apply (lexer_advance_trans l l1 l') | ].
    split; [exact Hc' | ].
    intros _. destruct Hadv' as (_ & _ & Hp'). lia.
  - exists l. split; [reflexivity | ]. split; [by apply lexer_advance_refl | ].
    split; [exact Hcnd | discriminate].
Qed.

Lemma readChar_body (l : Lexer) :
  lexer_synced l ->
  exists l', readChar l = Done tt l' /\ lexer_advance l l' /\ (l.(pos) < l'.(pos))%nat.
Proof.
  intros Hs. destruct (readChar_advance l Hs) as (l' & Hr & Hadv & Hp & _).
  exists l'. split; [exact Hr | split; [exact Hadv | lia] ].
Qed.

Lemma single_step (t : TokenType) (lit : string) (l : Lexer) :
  lexer_synced l -> t <> EOF -> l.(ch) <> NUL ->
  token_step l ((let* tok := newToken t lit in do readChar then ret tok) l).
Proof.
  intros Hs Ht Hc. destruct (readChar_advance l Hs) as (l' & Hr & Hadv & Hp & _).
  exists (mkToken t lit l.(line) l.(column)), l'.
  unfold bind, newToken, gets. rewrite Hr. unfold ret.
  split; [reflexivity | ]. split; [exact Hadv | ]. split; [lia | done].
Qed.

Lemma double_step (tok : Token) (l : Lexer) :
  lexer_synced l -> l.(ch) <> NUL ->
  token_step l ((do readChar then do readChar then ret tok) l).
Proof.
  intros Hs Hc. destruct (readChar_advance l Hs) as (l1 & Hr1 & Hadv1 & Hp1 & _).
  destruct (readChar_advance l1 (proj1 Hadv1)) as (l2 & Hr2 & Hadv2 & Hp2 & _).
  exists tok, l2. unfold bind. rewrite Hr1, Hr2. unfold ret.
  split; [reflexivity | ].
  split; [by apply (lexer_advance_trans l l1 l2) | ]. split; [lia | done].
Qed.

Lemma newline_step (l : Lexer) (lit : string) :
  lexer_synced l -> l.(ch) <> NUL ->
  token_step l
    ((let* tok := newToken NEWLINE lit in
      do modify (fun l => mkLexer l.(input) l.(pos) l.(readPos) l.(ch) (S l.(line)) 0) then
      do readChar then ret tok) l).
Proof.
  intros Hs Hc.
  assert (Hs' : lexer_synced (mkLexer l.(input) l.(pos) l.(readPos) l.(ch) (S l.(line)) 0))
    by exact Hs.
  destruct (readChar_advance _ Hs') as (l' & Hr & Hadv & Hp & _).
  exists (mkToken NEWLINE lit l.(line) l.(column)), l'.
  unfold bind, newToken, gets, modify. rewrite Hr. unfold ret.
  split; [reflexivity | ]. split; [exact Hadv | ]. split; [exact (eq_ind _ _ (Nat.lt_succ_diag_r _) _ (eq_sym Hp)) | done].
Qed.

Lemma isLetter_isDigit_not_NUL (l : Lexer) :
  isLetter l.(ch) || isDigit l.(ch) = true -> l.(ch) <> NUL.
Proof. intros H Heq. rewrite Heq in H. discriminate. Qed.

Lemma isDigit_not_NUL (l : Lexer) : isDigit l.(ch) = true -> l.(ch) <> NUL.
Proof. intros H Heq. rewrite Heq in H. discriminate. Qed.

Lemma readIdentifier_step (fuel : nat) (l : Lexer) :
  lexer_synced l -> (1 <= fuel)%nat ->
  (String.length l.(input) < l.(pos) + fuel)%nat ->
  isLetter l.(ch) = true ->
  exists (lit : string) (l' : Lexer),
    readIdentifier fuel l = Done lit l' /\ lexer_advance l l' /\ (l.(pos) < l'.(pos))%nat.
Proof.
  intros Hs Hone Hfuel Hletter.
  destruct (while_loop_advance (fun l => isLetter l.(ch) || isDigit l.(ch)) readChar
              isLetter_isDigit_not_NUL
              (fun l Hl _ => readChar_body l Hl) fuel l Hs Hone Hfuel)
    as (l' & Hrun & Hadv & _ & Hlt).
  eexists _, l'. unfold readIdentifier, bind, gets. rewrite Hrun.
  split; [reflexivity | ]. split; [exact Hadv | ].
  apply Hlt. cbn beta. by rewrite Hletter.
Qed.

Lemma readNumber_step (fuel : nat) (l : Lexer) :
  lexer_synced l -> (1 <= fuel)%nat ->
  (String.length l.(input) < l.(pos) + fuel)%nat ->
  isDigit l.(ch) = true ->
  exists (r : string * TokenType) (l' : Lexer),
    readNumber fuel l = Done r l' /\ lexer_advance l l' /\ (l.(pos) < l'.(pos))%nat
    /\ snd r <> EOF.
Proof.
  intros Hs Hone Hfuel Hdigit.
  destruct (while_loop_advance (fun l => isDigit l.(ch)) readChar isDigit_not_NUL
              (fun l Hl _ => readChar_body l Hl) fuel l Hs Hone Hfuel)
    as (l1 & Hrun & Hadv & _ & Hlt).
  specialize (Hlt Hdigit).
  unfold readNumber, bind at 1, gets at 1. unfold bind at 1. rewrite Hrun.
  unfold bind at 1, get at 1.
  destruct (Ascii.eqb (ch l1) "." && isDigit (peekChar l1)) eqn:Hdot.
  - destruct (readChar_advance l1 (proj1 Hadv)) as (l2 & Hr2 & Hadv2 & Hp2 & _).
    destruct (while_loop_advance (fun l => isDigit l.(ch)) readChar isDigit_not_NUL
                (fun l Hl _ => readChar_body l Hl) fuel l2 (proj1 Hadv2) Hone)
      as (l3 & Hrun3 & Hadv3 & _ & _).
    { destruct Hadv as (_ & Hi & Hp). destruct Hadv2 as (_ & Hi2 & _).
      rewrite Hi2, Hi. lia. }
    eexists _, l3. unfold bind. rewrite Hr2, Hrun3. unfold ret, gets.
    split; [reflexivity | ].
    split; [exact (lexer_advance_trans _ _ _ Hadv (lexer_advance_trans _ _ _ Hadv2 Hadv3)) | ].
    split; [ | discriminate].
    destruct Hadv3 as (_ & _ & Hp3). lia.
  - eexists _, l1. unfold bind, ret, gets.
    split; [reflexivity | ]. split; [exact Hadv | ]. split; [exact Hlt | discriminate].
Qed.

Lemma readString_step (fuel : nat) (l : Lexer) :
  lexer_synced l -> (1 <= fuel)%nat ->
  (String.length l.(input) < l.(pos) + fuel)%nat ->
  exists (lit : string) (l' : Lexer),
    readString fuel l = Done lit l' /\ lexer_advance l l' /\ (l.(pos) < l'.(pos))%nat.
Proof.
  intros Hs Hone Hfuel.
  destruct (readChar_advance l Hs) as (l1 & Hr1 & Hadv1 & Hp1 & _).
  destruct (while_loop_advance
              (fun l => negb (Ascii.eqb l.(ch) "034") && negb (Ascii.eqb l.(ch) NUL))
              (let* l := get in
               do when (Ascii.eqb l.(ch) "092" && negb (Ascii.eqb (peekChar l) NUL)) readChar then
               readChar)) with (fuel := fuel) (l := l1)
    as (l2 & Hrun & Hadv2 & _ & _).
  - intros l0 Hc Heq. rewrite Heq in Hc. discriminate.
  - intros l0 Hl0 _. unfold bind at 1, get at 1.
    destruct (Ascii.eqb (ch l0) "092" && negb (Ascii.eqb (peekChar l0) NUL)).
    + destruct (readChar_advance l0 Hl0) as (la & Hra & Hadva & Hpa & _).
      destruct (readChar_advance la (proj1 Hadva)) as (lb & Hrb & Hadvb & Hpb & _).
      exists lb. unfold when, bind. rewrite Hra, Hrb.
      split; [reflexivity | ].
      split; [exact (lexer_advance_trans _ _ _ Hadva Hadvb) | lia].
    + destruct (readChar_advance l0 Hl0) as (la & Hra & Hadva & Hpa & _).
      exists la. unfold when, bind, ret. rewrite Hra.
      split; [reflexivity | split; [exact Hadva | lia] ].
  - exact (proj1 Hadv1).
  - exact Hone.
  - destruct Hadv1 as (_ & Hi & _). rewrite Hi. lia.
  - eexists _, l2. unfold readString, bind at 1. rewrite Hr1.
    unfold bind at 1, gets at 1. unfold bind at 1. rewrite Hrun. unfold gets.
    split; [reflexivity | ].
    split; [exact (lexer_advance_trans _ _ _ Hadv1 Hadv2) | ].
    destruct Hadv2 as (_ & _ & Hp2). lia.
Qed.

Lemma LookupIdent_not_EOF (ident : string) : LookupIdent ident <> EOF.
Proof.
  unfold LookupIdent, keywords.
  repeat match goal with
         | |- context [if ?b then _ else _] => destruct b; [discriminate | ]
         end.
  discriminate.
Qed.

Lemma skipWhitespace_step (fuel : nat) (l : Lexer) :
  lexer_synced l -> (1 <= fuel)%nat ->
  (String.length l.(input) < l.(pos) + fuel)%nat ->
  exists l' : Lexer,
    skipWhitespaceExceptNewline fuel l = Done tt l' /\ lexer_advance l l'.
Proof.
  intros Hs Hone Hfuel.
  destruct (while_loop_advance
              (fun l => Ascii.eqb l.(ch) " " || Ascii.eqb l.(ch) "009" || Ascii.eqb l.(ch) "013")
              readChar) with (fuel := fuel) (l := l)
    as (l' & Hrun & Hadv & _ & _); try assumption.
  - intros l0 Hc Heq. rewrite Heq in Hc. discriminate.
  - intros l0 Hl0 _. exact (readChar_body l0 Hl0).
  - exists l'. split; [exact Hrun | exact Hadv].
Qed.

Lemma token_step_weaken (l0 l1 : Lexer) (o : outcome Lexer Token) :
  lexer_advance l0 l1 -> token_step l1 o ->
  exists (tok : Token) (l' : Lexer),
    o = Done tok l' /\ lexer_advance l0 l' /\ (l0.(pos) < l'.(pos))%nat
    /\ (tok.(tok_Type) <> EOF -> (l0.(pos) < String.length l0.(input))%nat).
Proof.
  intros Hadv (tok & l' & Ho & Hadv' & Hlt & Heof).
  exists tok, l'. split; [exact Ho | ].
  split; [exact (lexer_advance_trans _ _ _ Hadv Hadv') | ].
  destruct Hadv as (Hs1 & Hi & Hp). split; [lia | ].
  intros Hne. specialize (Heof Hne).
  destruct (Nat.ltb_spec (pos l1) (String.length (input l1))) as [Hlt1 | Hge].
  - rewrite <- Hi. lia.
  - exfalso. apply Heof. by apply lexer_synced_NUL.
Qed.

Ltac char_not_NUL :=
  match goal with
  | H : Ascii.eqb (ch ?l) _ = true |- ch ?l <> NUL =>
      apply Ascii.eqb_eq in H; rewrite H; discriminate
  | H : Ascii.eqb (ch ?l) NUL = false |- ch ?l <> NUL =>
      by apply Ascii.eqb_neq
  end.

(** One call of [NextToken], with fuel for the rest of the input, ends
    with a token and moves the lexer forward. *)
Lemma NextToken_step (fuel : nat) :
  forall l : Lexer,
    lexer_synced l -> (1 <= fuel)%nat ->
    (String.length l.(input) < l.(pos) + fuel)%nat ->
    exists (tok : Token) (l' : Lexer),
      NextToken fuel l = Done tok l' /\ lexer_advance l l' /\ (l.(pos) < l'.(pos))%nat
      /\ (tok.(tok_Type) <> EOF -> (l.(pos) < String.length l.(input))%nat).
Proof.
  induction fuel as [ | n IH]; intros l Hs Hone Hfuel; [lia | ].
  destruct (skipWhitespace_step (S n) l Hs Hone Hfuel) as (l1 & Hws & Hadv).
  pose proof Hadv as (Hs1 & Hi1 & Hp1).
  cbn [NextToken]. unfold bind at 1. rewrite Hws. unfold bind at 1, get at 1.
  cbv beta zeta.
  destruct (Ascii.eqb (ch l1) "010") eqn:E1;
    [apply (token_step_weaken l l1 _ Hadv), newline_step; [done | char_not_NUL] | ].
  destruct (Ascii.eqb (ch l1) "=") eqn:E2.
  { apply (token_step_weaken l l1 _ Hadv).
    destruct (Ascii.eqb (peekChar l1) "=");
      [apply double_step | apply single_step]; try done; char_not_NUL. }
  destruct (Ascii.eqb (ch l1) "+") eqn:E3;
    [apply (token_step_weaken l l1 _ Hadv), single_step; [done | done | char_not_NUL] | ].
  destruct (Ascii.eqb (ch l1) "-") eqn:E4.
  { apply (token_step_weaken l l1 _ Hadv).
    destruct (Ascii.eqb (peekChar l1) ">");
      [apply double_step | apply single_step]; try done; char_not_NUL. }
  destruct (Ascii.eqb (ch l1) "*") eqn:E5;
    [apply (token_step_weaken l l1 _ Hadv), single_step; [done | done | char_not_NUL] | ].
  destruct (Ascii.eqb (ch l1) "/") eqn:E6.
  { destruct (Ascii.eqb (peekChar l1) "/") eqn:Epeek;
      [ | apply (token_step_weaken l l1 _ Hadv), single_step; [done | done | char_not_NUL] ].
    (* a comment: skipped, then the next token *)
    destruct (readChar_advance l1 Hs1) as (l2 & Hr2 & Hadv2 & Hp2 & Hch2 & _).
    assert (Hlen1 : (pos l1 < String.length (input l1))%nat).
    { destruct (Nat.ltb_spec (pos l1) (String.length (input l1))) as [ | Hge]; [done | ].
      exfalso. pose proof (lexer_synced_NUL l1 Hs1 Hge) as Hnul.
      rewrite Hnul in E6. discriminate. }
    assert (Hlen2 : (pos l2 < String.length (input l2))%nat).
    { pose proof Hadv2 as (Hs2 & Hi2 & _).
      destruct (Nat.ltb_spec (pos l2) (String.length (input l2))) as [ | Hge]; [done | ].
      exfalso. pose proof (lexer_synced_NUL l2 Hs2 Hge) as Hnul.
      rewrite Hch2 in Hnul. rewrite Hnul in Epeek. discriminate. }
    pose proof Hadv2 as (Hs2 & Hi2 & _).
    destruct (while_loop_advance
                (fun l => negb (Ascii.eqb l.(ch) "010") && negb (Ascii.eqb l.(ch) NUL))
                readChar) with (fuel := n) (l := l2)
      as (l3 & Hrun3 & Hadv3 & _ & _); try assumption.
    - intros l0 Hc Heq. rewrite Heq in Hc. discriminate.
    - intros l0 Hl0 _. exact (readChar_body l0 Hl0).
    - rewrite Hi2, Hi1 in Hlen2. lia.
    - rewrite Hi2, Hi1. lia.
    - pose proof Hadv3 as (Hs3 & Hi3 & Hp3).
      destruct (IH l3 Hs3) as (tok & l' & Hnext & Hadv' & Hlt' & _).
      + rewrite Hi2, Hi1 in Hlen2. lia.
      + rewrite Hi3, Hi2, Hi1. lia.
      + assert (Hsc : skipComment (S n) l1 = Done tt l3).
        { unfold skipComment. cbn [while_loop]. cbv beta. rewrite E1.
          replace (Ascii.eqb (ch l1) NUL) with false
            by (apply Ascii.eqb_eq in E6; rewrite E6; reflexivity).
          cbn [negb andb]. unfold bind. rewrite Hr2. exact Hrun3. }
        exists tok, l'. unfold bind. rewrite Hsc.
        split; [exact Hnext | ].
        split; [exact (lexer_advance_trans _ _ _ Hadv
                         (lexer_advance_trans _ _ _ Hadv2
                            (lexer_advance_trans _ _ _ Hadv3 Hadv'))) | ].
        split; [lia | ]. intros _. rewrite <- Hi1. lia. }
  destruct (Ascii.eqb (ch l1) "%") eqn:E7;
    [apply (token_step_weaken l l1 _ Hadv), single_step; [done | done | char_not_NUL] | ].
  destruct (Ascii.eqb (ch l1) ">") eqn:E8.
  { apply (token_step_weaken l l1 _ Hadv).
    destruct (Ascii.eqb (peekChar l1) "=");
      [apply double_step | apply single_step]; try done; char_not_NUL. }
  destruct (Ascii.eqb (ch l1) "<") eqn:E9.
  { apply (token_step_weaken l l1 _ Hadv).
    destruct (Ascii.eqb (peekChar l1) "=");
      [apply double_step | apply single_step]; try done; char_not_NUL. }
  destruct (Ascii.eqb (ch l1) "(") eqn:E10;
    [apply (token_step_weaken l l1 _ Hadv), single_step; [done | done | char_not_NUL] | ].
  destruct (Ascii.eqb (ch l1) ")") eqn:E11;
    [apply (token_step_weaken l l1 _ Hadv), single_step; [done | done | char_not_NUL] | ].
  destruct (Ascii.eqb (ch l1) "{") eqn:E12;
    [apply (token_step_weaken l l1 _ Hadv), single_step; [done | done | char_not_NUL] | ].
  destruct (Ascii.eqb (ch l1) "}") eqn:E13;
    [apply (token_step_weaken l l1 _ Hadv), single_step; [done | done | char_not_NUL] | ].
  destruct (Ascii.eqb (ch l1) "[") eqn:E14;
    [apply (token_step_weaken l l1 _ Hadv), single_step; [done | done | char_not_NUL] | ].
  destruct (Ascii.eqb (ch l1) "]") eqn:E15;
    [apply (token_step_weaken l l1 _ Hadv), single_step; [done | done | char_not_NUL] | ].
  destruct (Ascii.eqb (ch l1) ",") eqn:E16;
    [apply (token_step_weaken l l1 _ Hadv), single_step; [done | done | char_not_NUL] | ].
  destruct (Ascii.eqb (ch l1) ":") eqn:E17;
    [apply (token_step_weaken l l1 _ Hadv), single_step; [done | done | char_not_NUL] | ].
  destruct (Ascii.eqb (ch l1) ".") eqn:E18;
    [apply (token_step_weaken l l1 _ Hadv), single_step; [done | done | char_not_NUL] | ].
  assert (Hfuel1 : (String.length (input l1) < pos l1 + S n)%nat) by (rewrite Hi1; lia).
  destruct (Ascii.eqb (ch l1) "034") eqn:E19.
  { apply (token_step_weaken l l1 _ Hadv).
    destruct (readString_step (S n) l1 Hs1 Hone Hfuel1) as (lit & l2 & Hrs & Hadv2 & Hlt2).
    destruct (readChar_advance l2 (proj1 Hadv2)) as (l3 & Hr3 & Hadv3 & Hp3 & _).
    eexists _, l3. unfold bind at 1. rewrite Hrs. unfold bind. rewrite Hr3. unfold ret.
    split; [reflexivity | ].
    split; [exact (lexer_advance_trans _ _ _ Hadv2 Hadv3) | ].
    split; [lia | intros _; char_not_NUL]. }
  destruct (Ascii.eqb (ch l1) NUL) eqn:E20.
  { apply (token_step_weaken l l1 _ Hadv).
    destruct (readChar_advance l1 Hs1) as (l2 & Hr2 & Hadv2 & Hp2 & _).
    eexists _, l2. unfold bind. rewrite Hr2. unfold ret.
    split; [reflexivity | ]. split; [exact Hadv2 | ]. split; [lia | ].
    cbn [tok_Type]. congruence. }
  destruct (isLetter (ch l1)) eqn:E21.
  { apply (token_step_weaken l l1 _ Hadv).
    destruct (readIdentifier_step (S n) l1 Hs1 Hone Hfuel1 E21) as (lit & l2 & Hri & Hadv2 & Hlt2).
    eexists _, l2. unfold bind. rewrite Hri. unfold ret.
    split; [reflexivity | ]. split; [exact Hadv2 | ]. split; [exact Hlt2 | ].
    intros _. char_not_NUL. }
  destruct (isDigit (ch l1)) eqn:E22.
  { apply (token_step_weaken l l1 _ Hadv).
    destruct (readNumber_step (S n) l1 Hs1 Hone Hfuel1 E22) as (r & l2 & Hrn & Hadv2 & Hlt2 & _).
    eexists _, l2. unfold bind. rewrite Hrn. unfold ret.
    split; [reflexivity | ]. split; [exact Hadv2 | ]. split; [exact Hlt2 | ].
    intros _. char_not_NUL. }
  apply (token_step_weaken l l1 _ Hadv), single_step; [done | done | char_not_NUL].
Qed.

Lemma TokenType_eqb_EOF (t : TokenType) : TokenType_eqb t EOF = true <-> t = EOF.
Proof. split; [by destruct t | by intros ->]. Qed.

Lemma tokenize_loop_total (fuel : nat) :
  forall (n : nat) (l : Lexer),
    lexer_synced l -> (1 <= fuel)%nat ->
    (String.length l.(input) < l.(pos) + fuel)%nat ->
    (1 <= n)%nat ->
    (String.length l.(input) < l.(pos) + n)%nat ->
    exists (front : list Token) (eof : Token) (l' : Lexer),
      tokenize_loop fuel n l = Done (front ++ [eof])%list l'
      /\ eof.(tok_Type) = EOF
      /\ Forall (fun t => t.(tok_Type) <> EOF) front
      /\ (length front <= String.length l.(input) - l.(pos))%nat.
Proof.
  induction n as [ | n IH]; intros l Hs Hone Hfuel Hn1 Hn; [lia | ].
  - destruct (NextToken_step fuel l Hs Hone Hfuel) as (tok & l1 & Hnext & Hadv & Hlt & Hne).
    cbn [tokenize_loop]. unfold bind at 1. rewrite Hnext.
    destruct (TokenType_eqb (tok_Type tok) EOF) eqn:Heof.
    + exists [], tok, l1. apply TokenType_eqb_EOF in Heof.
      split; [reflexivity | ]. split; [exact Heof | ]. split; [constructor | cbn; lia].
    + assert (Htok : tok_Type tok <> EOF).
      { intros Heq. apply TokenType_eqb_EOF in Heq. congruence. }
      specialize (Hne Htok). pose proof Hadv as (Hs1 & Hi1 & Hp1).
      destruct (IH l1 Hs1 Hone) as (front & eof & l' & Hrun & Heof' & Hfront & Hlen).
      * rewrite Hi1. lia.
      * lia.
      * rewrite Hi1. lia.
      * exists (tok :: front), eof, l'. unfold bind. rewrite Hrun. unfold ret.
        split; [reflexivity | ]. split; [exact Heof' | ].
        split; [by constructor | ]. rewrite Hi1 in Hlen. cbn [length]. lia.
Qed.

Lemma NewLexer_synced (src : string) :
  lexer_synced (NewLexer src) /\ (NewLexer src).(input) = src /\ (NewLexer src).(pos) = 0%nat.
Proof.
  unfold NewLexer, lexer_synced. cbn. split; [ | split; reflexivity].
  split; [reflexivity | ]. by destruct src.
Qed.

(** The lexer terminates. For every source text, [tokenize] with the
    fuel it takes returns the tokens: a list that ends with the one [EOF]
    token, and whose other tokens are at most as many as the text has
    bytes. *)
Theorem tokenize_terminates (src : string) :
  exists (front : list Token) (eof : Token),
    tokenize src = Some (front ++ [eof])%list
    /\ eof.(tok_Type) = EOF
    /\ Forall (fun t => t.(tok_Type) <> EOF) front
    /\ (length front <= String.length src)%nat.
Proof.
  destruct (NewLexer_synced src) as (Hs & Hi & Hp).
  destruct (tokenize_loop_total (S (S (String.length src))) (S (S (String.length src)))
              (NewLexer src) Hs) as (front & eof & l' & Hrun & Heof & Hfront & Hlen).
  - lia.
  - rewrite Hi, Hp. lia.
  - lia.
  - rewrite Hi, Hp. lia.
  - exists front, eof. unfold tokenize. rewrite Hrun.
    split; [reflexivity | ]. split; [exact Heof | ]. split; [exact Hfront | ].
    rewrite Hi, Hp in Hlen. lia.
Qed.

(** ** Types *)

Lemma Equals_refl_params (ps : list Ty) :
  Forall (fun p => Equals p p = Some true) ps ->
  (fix go (ps ops : list Ty) : option bool :=
     match ps, ops with
     | p :: ps', op :: ops' =>
       opt_bind (Equals p op) (fun b => if b then go ps' ops' else Some false)
     | _, _ => Some true
     end) ps ps = Some true.
Proof.
  induction 1 as [ | p ps Hp _ IH]; [reflexivity | ]. by rewrite Hp.
Qed.

Lemma Equals_refl : forall t : Ty, no_nil_struct t = true -> Equals t t = Some true.
Proof.
  fix Equals_refl 1. intros t.
  destruct t as [ | | | | | e | k v | e | v e | e | ps r | name fields | | ];
    cbn [no_nil_struct Equals]; intros Hn; try reflexivity; try discriminate.
  - by apply Equals_refl.
  - apply andb_prop in Hn as [Hk Hv].
    by rewrite (Equals_refl k Hk), (Equals_refl v Hv).
  - by apply Equals_refl.
  - apply andb_prop in Hn as [Hv He].
    by rewrite (Equals_refl v Hv), (Equals_refl e He).
  - by apply Equals_refl.
  - apply andb_prop in Hn as [Hps Hr].
    rewrite Nat.eqb_refl. cbn [negb].
    rewrite Equals_refl_params; [by rewrite (Equals_refl r Hr) | ].
    clear Hr. induction ps as [ | p ps IH]; [constructor | ].
    cbn [forallb] in Hps. apply andb_prop in Hps as [Hp Hps].
    constructor; [by apply Equals_refl | by apply IH].
  - by rewrite String.eqb_refl.
Qed.

Lemma TypeFromAnnotation_no_nil : forall ta : TypeAnnotation,
  no_nil_struct (TypeFromAnnotation ta) = true.
Proof.
  fix IH 1. intros [tok name params]. cbn [TypeFromAnnotation].
  assert (Hfirst : no_nil_struct
                     (default AnyType match params with
                                      | p :: _ => Some (TypeFromAnnotation p)
                                      | [] => None
                                      end) = true).
  { destruct params as [ | p ?]; [reflexivity | apply IH]. }
  assert (Hsecond : forall d, no_nil_struct d = true ->
             no_nil_struct
               (default d match params with
                          | _ :: p :: _ => Some (TypeFromAnnotation p)
                          | _ => None
                          end) = true).
  { intros d Hd. destruct params as [ | ? [ | p ?] ]; try exact Hd. apply IH. }
  repeat match goal with
         | |- context [if ?b then _ else _] => destruct b
         end; cbn [no_nil_struct]; try reflexivity; try exact Hfirst;
    try (apply Hsecond; reflexivity).
  rewrite Hfirst. by apply Hsecond.
Qed.

(** Equality of types. [Equals] is reflexive on every type that holds
    no nil struct pointer, in particular on every type made from an
    annotation.  It is not symmetric: [Any] equals every type, and no other
    type equals [Any].  Two struct types are equal when their names are,
    whatever their fields. *)
Theorem Equals_reflexive :
  (forall t : Ty, no_nil_struct t = true -> Equals t t = Some true)
  /\ (forall ta : TypeAnnotation,
        Equals (TypeFromAnnotation ta) (TypeFromAnnotation ta) = Some true)
  /\ (forall t : Ty, Equals AnyType t = Some true)
  /\ (forall t : Ty, t <> AnyType -> Equals t AnyType = Some false)
  /\ (forall (name : string) (f g : gmap string Ty),
        Equals (StructType name f) (StructType name g) = Some true).
Proof.
  split; [exact Equals_refl | ].
  split; [intros ta; apply Equals_refl, TypeFromAnnotation_no_nil | ].
  split; [reflexivity | ].
  split; [intros t Ht; by destruct t | ].
  intros name f g. cbn. by rewrite String.eqb_refl.
Qed.

(** Assignability to a declared Mutable. A Mutable on the side of the
    value is always unwrapped before the comparison, so a declared type
    [Mutable[T]] accepts a value exactly when the type under the value's
    Mutable wrappers is [Any]: a value of type [Mutable[Integer]] is not
    assignable to a variable declared [Mutable[Integer]].  Where the
    declared type is not a Mutable, a Mutable value is as assignable as its
    content. *)
Theorem isAssignable_Mutable (e : Ty) :
  (forall a : Ty, isAssignable (MutableType e) a = Some (isAnyType (mutable_core a)))
  /\ isAssignable (MutableType IntegerType) (MutableType IntegerType) = Some false
  /\ (forall t a : Ty, isAssignable t (MutableType a) = isAssignable t a).
Proof.
  split; [ | split; [reflexivity | ] ].
  - intros a. induction a; cbn [mutable_core isAssignable isAnyType];
      try reflexivity. exact IHa.
  - intros t a. cbn [isAssignable]. destruct (isAnyType t) eqn:Ht; [ | reflexivity].
    destruct a; cbn [isAssignable]; by rewrite ?Ht.
Qed.

(** ** The checker on definitions *)

(** Declared variables. For [def name: T = value], once the value has
    been checked the variable gets the declared type [T], whether or not the
    value fits: a value whose type is not assignable to [T] adds the one
    error "cannot assign" and nothing else differs. *)
Theorem checkDefStatement_declared (host : Host) (tok : Token) (name : Identifier)
    (h : TypeAnnotation) (v : Expression) (tc tc1 : TypeChecker) (vt : Ty) (ok : bool)
    (vs es : string) :
  checkExpression host v tc = Done vt tc1 ->
  isAssignable (TypeFromAnnotation h) vt = Some ok ->
  Ty_String vt = Some vs ->
  Ty_String (TypeFromAnnotation h) = Some es ->
  exists tc2 : TypeChecker,
    checkStatement host (DefStatement tok name (Some h) v) tc
    = Done (TypeFromAnnotation h) tc2
    /\ TypeEnvironment_Get tc2.(tc_env) name.(id_Value) = Some (TypeFromAnnotation h)
    /\ tc2.(tc_errors)
       = (tc1.(tc_errors)
          ++ if ok then []
             else [("cannot assign " ++ vs ++ " to variable of type " ++ es)%string])%list
    /\ tc2.(tc_structs) = tc1.(tc_structs)
    /\ tc2.(tc_functions) = tc1.(tc_functions).
Proof.
  intros Hv Hok Hvs Hes. cbn [checkStatement]. unfold bind at 1. rewrite Hv.
  unfold bind at 1, assignable at 1. rewrite Hok. cbn [or_panic]. unfold ret at 1.
  destruct ok; cbn [negb].
  - eexists. unfold bind, ret, env_Set, modify. split; [reflexivity | ].
    cbn [tc_env tc_errors tc_structs tc_functions]. rewrite app_nil_r.
    split; [ | done].
    destruct (tc_env tc1); cbn [TypeEnvironment_Set TypeEnvironment_Get];
      [by rewrite lookup_singleton_eq | by rewrite lookup_insert_eq].
  - eexists. unfold bind, Ty_str. rewrite Hvs, Hes. cbn [or_panic].
    unfold ret, addError, env_Set, modify. split; [reflexivity | ].
    cbn [tc_env tc_errors tc_structs tc_functions].
    split; [ | done].
    destruct (tc_env tc1); cbn [TypeEnvironment_Set TypeEnvironment_Get];
      [by rewrite lookup_singleton_eq | by rewrite lookup_insert_eq].
Qed.

Lemma checkDefStatement_declared_witness :
  exists tc2 : TypeChecker,
    checkStatement plain_host
      (DefStatement Token_zero (mkIdentifier Token_zero "c")
         (Some (mkTypeAnnotation Token_zero "Mutable" [mkTypeAnnotation Token_zero "Integer" []]))
         (MutableExpression Token_zero
            (Some (mkTypeAnnotation Token_zero "Integer" []))
            (IntegerLiteral Token_zero 0)))
      NewTypeChecker
    = Done (MutableType IntegerType) tc2
    /\ tc2.(tc_errors)
       = ["cannot assign Mutable[Integer] to variable of type Mutable[Integer]"].
Proof.
  destruct (checkDefStatement_declared plain_host Token_zero (mkIdentifier Token_zero "c")
              (mkTypeAnnotation Token_zero "Mutable" [mkTypeAnnotation Token_zero "Integer" []])
              (MutableExpression Token_zero
                 (Some (mkTypeAnnotation Token_zero "Integer" []))
                 (IntegerLiteral Token_zero 0))
              NewTypeChecker NewTypeChecker (MutableType IntegerType) false
              "Mutable[Integer]" "Mutable[Integer]")
    as (tc2 & Hrun & _ & Herrs & _).
  - reflexivity.
  - reflexivity.
  - reflexivity.
  - reflexivity.
  - exists tc2. split; [exact Hrun | exact Herrs].
Defined.

(** ** What evaluation never does *)

Lemma world_kept_refl (w : World) : world_kept w w.
Proof.
  constructor; try done; try lia.
  - exists []. by rewrite app_nil_r.
  - intros e env He. by exists env.
Qed.

Lemma world_kept_trans (w1 w2 w3 : World) :
  world_kept w1 w2 -> world_kept w2 w3 -> world_kept w1 w3.
Proof.
  intros [[m1 H1] ? ? ? ? He1 ? ? ?] [[m2 H2] ? ? ? ? He2 ? ? ?].
  constructor; try (etrans; eassumption); try lia; try auto.
  - exists (m1 ++ m2)%list. by rewrite H2, H1, app_assoc.
  - intros e env He. destruct (He1 e env He) as (env' & He' & Hp').
    destruct (He2 e env' He') as (env'' & He'' & Hp''). exists env''. split; [done | congruence].
Qed.

Lemma world_grows_refl (w : World) : world_grows w w.
Proof. intros Hf. split; [exact Hf | apply world_kept_refl]. Qed.

Lemma world_grows_trans (w1 w2 w3 : World) :
  world_grows w1 w2 -> world_grows w2 w3 -> world_grows w1 w3.
Proof.
  intros H12 H23 Hf. destruct (H12 Hf) as [Hf2 Hk12]. destruct (H23 Hf2) as [Hf3 Hk23].
  split; [exact Hf3 | exact (world_kept_trans _ _ _ Hk12 Hk23)].
Qed.

Lemma grows_ret {A} (a : A) : grows (ret a).
Proof. intros w a' w' [= <- <-]. apply world_grows_refl. Qed.

Lemma grows_bind {A B} (m : EV A) (k : A -> EV B) :
  grows m -> (forall a, grows (k a)) -> grows (bind m k).
Proof.
  intros Hm Hk w b w'. unfold bind. destruct (m w) as [a w1 | | ] eqn:Hmw; try discriminate.
  intros Hkw. exact (world_grows_trans _ _ _ (Hm _ _ _ Hmw) (Hk a _ _ _ Hkw)).
Qed.

Lemma grows_gets {A} (f : World -> A) : grows (gets f).
Proof. intros w a w' [= <- <-]. apply world_grows_refl. Qed.

Lemma grows_panic {A} (msg : string) : grows (@panic World A msg).
Proof. intros w a w'. discriminate. Qed.

Lemma grows_out_of_fuel {A} : grows (@out_of_fuel World A).
Proof. intros w a w'. discriminate. Qed.

Lemma grows_or_panic {A} (o : option A) : grows (or_panic o).
Proof. destruct o; [apply grows_ret | apply grows_panic]. Qed.

Lemma grows_modify (f : World -> World) :
  (forall w, world_grows w (f w)) -> grows (modify f).
Proof. intros Hf w a w'. unfold modify. intros [= _ <-]. exact (Hf w). Qed.

Lemma grows_mapM {A B} (f : A -> EV B) (l : list A) :
  (forall a, grows (f a)) -> grows (mapM f l).
Proof.
  intros Hf. induction l as [ | x l IH]; [apply grows_ret | ].
  cbn [mapM]. apply grows_bind; [apply Hf | intros y].
  apply grows_bind; [exact IH | intros ys; apply grows_ret].
Qed.

Lemma grows_forM_ {A} (f : A -> EV unit) (l : list A) :
  (forall a, grows (f a)) -> grows (forM_ f l).
Proof.
  intros Hf. induction l as [ | x l IH]; [apply grows_ret | ].
  cbn [forM_]. apply grows_bind; [apply Hf | intros _; exact IH].
Qed.

Lemma grows_loop {A R} (fuel : nat) (cond : World -> bool)
    (body : A -> EV (loop_ctl A R)) (a : A) :
  (forall a, grows (body a)) -> grows (loop fuel cond body a).
Proof.
  intros Hb. revert a. induction fuel as [ | n IH]; intros a w r w'; [discriminate | ].
  cbn [loop]. destruct (cond w); [ | intros [= <- <-]; apply world_grows_refl].
  destruct (body a w) as [[a' | a' | r'] w1 | | ] eqn:Hbw; try discriminate.
  - intros Hrest. exact (world_grows_trans _ _ _ (Hb _ _ _ _ Hbw) (IH _ _ _ _ Hrest)).
  - intros [= <- <-]. exact (Hb _ _ _ _ Hbw).
  - intros [= <- <-]. exact (Hb _ _ _ _ Hbw).
Qed.

Lemma grows_Environment_Get (fuel : nat) (e : env_id) (name : string) :
  grows (Environment_Get fuel e name).
Proof.
  intros w r w' Hget. rewrite (Environment_Get_state _ _ _ _ _ _ Hget).
  apply world_grows_refl.
Qed.

Lemma grows_Environment_Set (e : env_id) (name : string) (val : Value) :
  grows (Environment_Set e name val).
Proof.
  intros w [] w'. unfold Environment_Set, bind, gets.
  destruct (envs w !! e) as [env | ] eqn:He; [ | discriminate].
  unfold modify. intros [= <-] Hf. split.
  - intros e' [env' He']. apply Hf. cbn [set_envs envs] in He'.
    destruct (decide (e' = e)) as [-> | Hne]; [by eexists | ].
    rewrite lookup_insert_ne in He' by congruence. by eexists.
  - constructor; cbn [set_envs envs next_env stdout next_cell currentFn loader cells
                        structs modules]; try done.
    + exists []. by rewrite app_nil_r.
    + intros e' env' He'. destruct (decide (e' = e)) as [-> | Hne].
      * rewrite lookup_insert_eq. eexists. split; [reflexivity | ]. cbn. congruence.
      * rewrite lookup_insert_ne by congruence. by exists env'.
Qed.

Lemma world_grows_new_env (o : option env_id) (w : World) :
  world_grows w
    (mkWorld (<[ w.(next_env) := mkEnvironment ∅ o ]> w.(envs)) (S w.(next_env))
             w.(cells) w.(next_cell) w.(structs) w.(extensions) w.(modules) w.(loader)
             w.(currentFn) w.(stdout)).
Proof.
  intros Hf. split.
  - intros e [env He]. cbn [envs next_env] in *.
    destruct (decide (e = next_env w)) as [-> | Hne]; [lia | ].
    rewrite lookup_insert_ne in He by congruence.
    assert (e < next_env w)%nat by (apply Hf; by eexists). lia.
  - constructor; cbn [envs next_env stdout next_cell currentFn loader cells structs modules];
      try done; try lia.
    + exists []. by rewrite app_nil_r.
    + intros e env He. exists env. split; [ | reflexivity].
      rewrite lookup_insert_ne; [exact He | ].
      assert (e < next_env w)%nat by (apply Hf; by eexists). lia.
Qed.

Lemma grows_NewEnvironment : grows NewEnvironment.
Proof. intros w e w' [= <- <-]. apply world_grows_new_env. Qed.

Lemma grows_NewEnclosedEnvironment (p : env_id) : grows (NewEnclosedEnvironment p).
Proof. intros w e w' [= <- <-]. apply world_grows_new_env. Qed.

Lemma grows_new_cell (v : Value) : grows (new_cell v).
Proof.
  intros w l w' [= <- <-] Hf. split; [exact Hf | ].
  constructor; cbn [envs next_env stdout next_cell currentFn loader cells structs modules];
    try done; try lia.
  - exists []. by rewrite app_nil_r.
  - intros e env He. by exists env.
  - intros l [v' Hl]. destruct (decide (l = next_cell w)) as [-> | Hne].
    + rewrite lookup_insert_eq. by eexists.
    + rewrite lookup_insert_ne by congruence. by eexists.
Qed.

Lemma grows_write_cell (l : loc) (v : Value) : grows (write_cell l v).
Proof.
  apply grows_modify. intros w Hf. split; [exact Hf | ].
  constructor; cbn [envs next_env stdout next_cell currentFn loader cells structs modules];
    try done; try lia.
  - exists []. by rewrite app_nil_r.
  - intros e env He. by exists env.
  - intros l' [v' Hl]. destruct (decide (l' = l)) as [-> | Hne].
    + rewrite lookup_insert_eq. by eexists.
    + rewrite lookup_insert_ne by congruence. by eexists.
Qed.

Lemma grows_read_cell (l : loc) : grows (read_cell l).
Proof.
  unfold read_cell. apply grows_bind; [apply grows_gets | intros cs; apply grows_or_panic].
Qed.

Lemma grows_write_stdout (s : string) : grows (write_stdout s).
Proof.
  apply grows_modify. intros w Hf. split; [exact Hf | ].
  constructor; cbn [envs next_env stdout next_cell currentFn loader cells structs modules];
    try done; try lia.
  - by exists [s].
  - intros e env He. by exists env.
Qed.

Lemma grows_UnwrapValue (v : Value) : grows (UnwrapValue v).
Proof. destruct v; try apply grows_ret. apply grows_read_cell. Qed.

Lemma grows_IsTruthy (fuel : nat) (v : Value) : grows (IsTruthy fuel v).
Proof.
  revert v. induction fuel as [ | n IH]; intros v; [apply grows_out_of_fuel | ].
  destruct v; cbn [IsTruthy]; try apply grows_ret.
  apply grows_bind; [apply grows_read_cell | intros inner; apply IH].
Qed.

Lemma grows_Value_type (v : Value) : grows (Value_type v).
Proof. apply grows_or_panic. Qed.

Lemma grows_Value_String (host : Host) (fuel : nat) (v : Value) :
  grows (Value_String host fuel v).
Proof.
  revert v. induction fuel as [ | n IH]; intros v; [apply grows_out_of_fuel | ].
  destruct v; cbn [Value_String];
    try apply grows_ret; try apply grows_panic; try apply IH.
  - apply grows_bind; [apply grows_mapM, IH | intros; apply grows_ret].
  - apply grows_bind; [apply grows_mapM | intros; apply grows_ret].
    intros kv. apply grows_bind; [apply IH | intros; apply grows_ret].
  - apply grows_bind; [apply grows_mapM | intros; apply grows_ret].
    intros kv. apply grows_bind; [apply IH | intros; apply grows_ret].
  - destruct IsSome; [ | apply grows_ret].
    apply grows_bind; [apply IH | intros; apply grows_ret].
  - destruct IsOk; [apply grows_bind; [apply IH | intros; apply grows_ret] | ].
    destruct Error; [apply grows_ret | apply grows_panic].
  - apply grows_bind; [apply grows_read_cell | intros; apply IH].
Qed.

Lemma grows_valuesEqual (a b : Value) : grows (valuesEqual a b).
Proof.
  unfold valuesEqual. apply grows_bind; [apply grows_UnwrapValue | intros a'].
  apply grows_bind; [apply grows_UnwrapValue | intros b']. apply grows_ret.
Qed.

Ltac grows_step :=
  match goal with
  | |- grows (bind _ _) => apply grows_bind; [ | intros ?]
  | |- grows (ret _) => apply grows_ret
  | |- grows (gets _) => apply grows_gets
  | |- grows (panic _) => apply grows_panic
  | |- grows out_of_fuel => apply grows_out_of_fuel
  | |- grows (or_panic _) => apply grows_or_panic
  | |- grows (Environment_Get _ _ _) => apply grows_Environment_Get
  | |- grows (Environment_Set _ _ _) => apply grows_Environment_Set
  | |- grows NewEnvironment => apply grows_NewEnvironment
  | |- grows (NewEnclosedEnvironment _) => apply grows_NewEnclosedEnvironment
  | |- grows (new_cell _) => apply grows_new_cell
  | |- grows (read_cell _) => apply grows_read_cell
  | |- grows (write_cell _ _) => apply grows_write_cell
  | |- grows (write_stdout _) => apply grows_write_stdout
  | |- grows (UnwrapValue _) => apply grows_UnwrapValue
  | |- grows (IsTruthy _ _) => apply grows_IsTruthy
  | |- grows (Value_type _) => apply grows_Value_type
  | |- grows (Value_String _ _ _) => apply grows_Value_String
  | |- grows (valuesEqual _ _) => apply grows_valuesEqual
  | |- grows (mapM _ _) => apply grows_mapM; intros ?
  | |- grows (forM_ _ _) => apply grows_forM_; intros ?
  | |- grows (loop _ _ _ _) => apply grows_loop; intros ?
  | |- grows (if ?b then _ else _) => destruct b
  | |- grows (match ?x with _ => _ end) => destruct x
  | H : forall node env, grows (_ node env) |- grows _ => apply H
  | H : forall _, grows _ |- grows _ => apply H
  | H : forall _ _, grows _ |- grows _ => apply H
  | H : grows _ |- grows _ => exact H
  end.

Ltac grows_tac := repeat grows_step.

Lemma world_grows_bracket (name : string) (w w3 : World) :
  world_grows (set_currentFn name w) w3 ->
  world_grows w (set_currentFn w.(currentFn) w3).
Proof.
  intros H Hf. destruct (H Hf) as [Hf3 Hk]. split; [exact Hf3 | ].
  destruct Hk. by constructor.
Qed.

Lemma grows_listContains (elems : list Value) (val : Value) :
  grows (listContains elems val).
Proof.
  unfold listContains. induction elems as [ | x l IH]; grows_tac.
Qed.

Lemma grows_RegisterBuiltins (env : env_id) : grows (RegisterBuiltins env).
Proof. unfold RegisterBuiltins. grows_tac. Qed.

Lemma grows_builtin_Fn (host : Host) (fuel : nat) (b : Builtin) (args : list Value) :
  grows (builtin_Fn host fuel b args).
Proof.
  destruct b; cbn [builtin_Fn];
    unfold builtinPrint, builtinPrintln, builtinRange, builtinLen, builtinType, builtinStr,
           builtinInt, builtinFloat, render_args, range_elements;
    grows_tac.
Qed.

Lemma grows_Load (host : Host) (fuel : nat) (modulePath : string) :
  grows (Load host fuel modulePath).
Proof.
  intros w r w'. unfold Load, bind, gets.
  destruct (cache (loader w) !! modulePath);
    [intros [= <- <-]; apply world_grows_refl | ].
  destruct (ReadFile host (resolvePath (loader w) modulePath));
    [ | intros [= <- <-]; apply world_grows_refl].
  destruct (parse_source host fuel s) as [[program errs] p | | ]; try discriminate.
  destruct errs; [ | intros [= <- <-]; apply world_grows_refl].
  unfold modify, ret. intros [= <- <-] Hf. split; [exact Hf | ].
  constructor; cbn [set_loader envs next_env stdout next_cell currentFn loader cells structs
                      modules basePath]; try done; try lia.
  - exists []. by rewrite app_nil_r.
  - intros e env He. by exists env.
Qed.

Lemma world_grows_tables (w : World) (st : gmap string (string * list StructField))
    (ext : gmap string (gmap string FunctionRec)) (md : gmap string (string * env_id)) :
  (forall k, is_Some (w.(structs) !! k) -> is_Some (st !! k)) ->
  (forall k, is_Some (w.(modules) !! k) -> is_Some (md !! k)) ->
  world_grows w
    (mkWorld w.(envs) w.(next_env) w.(cells) w.(next_cell) st ext md w.(loader)
             w.(currentFn) w.(stdout)).
Proof.
  intros Hst Hmd Hf. split; [exact Hf | ].
  constructor; cbn [envs next_env stdout next_cell currentFn loader cells structs modules];
    try done; try lia.
  - exists []. by rewrite app_nil_r.
  - intros e env He. by exists env.
Qed.

Lemma is_Some_insert_keep {V} (m : gmap string V) (k0 : string) (v : V) (k : string) :
  is_Some (m !! k) -> is_Some (<[ k0 := v ]> m !! k).
Proof.
  intros Hk. destruct (decide (k = k0)) as [-> | Hne].
  - rewrite lookup_insert_eq. by eexists.
  - by rewrite lookup_insert_ne by congruence.
Qed.

Section EvaluationGrows.

Variable host : Host.
Variable fuel : nat.
Variable Ev : Node -> env_id -> EV Value.
Hypothesis Ev_grows : forall node env, grows (Ev node env).

Lemma grows_evalExpressions (exprs : list Expression) (env : env_id) :
  grows (evalExpressions Ev exprs env).
Proof. unfold evalExpressions. grows_tac. Qed.

Lemma grows_evalProgram (program : Program) (env : env_id) :
  grows (evalProgram Ev program env).
Proof.
  unfold evalProgram. generalize NullValue.
  induction (Statements program) as [ | stmt rest IH]; intros result; grows_tac.
Qed.

Lemma grows_evalBlockStatement (block : BlockStatement) (env : env_id) :
  grows (evalBlockStatement Ev block env).
Proof.
  unfold evalBlockStatement. generalize NullValue.
  induction (block_Statements block) as [ | stmt rest IH]; intros result; grows_tac.
Qed.

Lemma grows_evalWhileStatement (c : Expression) (body : BlockStatement) (env : env_id) :
  grows (evalWhileStatement fuel Ev c body env).
Proof. unfold evalWhileStatement. grows_tac. Qed.

Lemma grows_evalForStatement (var : Identifier) (it : Expression) (body : BlockStatement)
    (env : env_id) :
  grows (evalForStatement Ev var it body env).
Proof.
  unfold evalForStatement. grows_tac.
  induction Elements as [ | elem rest IH]; grows_tac.
Qed.

Lemma grows_evalStructStatement (name : Identifier) (fields : list StructField)
    (env : env_id) :
  grows (evalStructStatement name fields env).
Proof.
  unfold evalStructStatement. grows_tac.
  apply grows_modify. intros w. apply world_grows_tables; [ | done].
  intros k. apply is_Some_insert_keep.
Qed.

Lemma grows_evalExtendStatement (typeName : Identifier) (methods : list FunctionStatement)
    (env : env_id) :
  grows (evalExtendStatement typeName methods env).
Proof.
  unfold evalExtendStatement. grows_tac.
  apply grows_modify. intros w. by apply world_grows_tables.
Qed.

Lemma grows_evalImportStatement (path : list string) (env : env_id) :
  grows (evalImportStatement host fuel Ev path env).
Proof.
  unfold evalImportStatement. destruct path as [ | moduleName rest]; grows_tac.
  - apply grows_Load.
  - apply grows_RegisterBuiltins.
  - apply grows_modify. intros w. apply world_grows_tables; [done | ].
    intros k. apply is_Some_insert_keep.
Qed.

Lemma grows_evalInfixValues (op : string) (l r : Value) :
  grows (evalInfixValues fuel op l r).
Proof. unfold evalInfixValues. grows_tac. Qed.

Lemma grows_bindParameters (env : env_id) (params : list FunctionParameter)
    (args : list Value) :
  grows (bindParameters env params args).
Proof. unfold bindParameters. grows_tac. Qed.

Lemma grows_applyFunction (fn : Value) (args : list Value) (callerEnv : env_id) :
  grows (applyFunction host fuel Ev fn args callerEnv).
Proof.
  destruct fn; cbn [applyFunction]; try (grows_tac; fail).
  - intros w v w'. unfold bind at 1, gets at 1. unfold bind at 1, modify at 1.
    set (body := bind (extendFunctionEnv f args) _).
    assert (Hbody : grows
              (let* extendedEnv := extendFunctionEnv f args in
               if fn_IsLambda f && negb (is_NilExpression (fn_LambdaBody f))
               then Ev (NExpr (fn_LambdaBody f)) extendedEnv
               else match fn_Body f with
                    | Some body => Ev (NStmt (BlockStmt body)) extendedEnv
                    | None => panic nil_deref
                    end)).
    { unfold extendFunctionEnv. grows_tac; apply grows_bindParameters. }
    subst body. unfold bind at 1.
    destruct (extendFunctionEnv f args (set_currentFn (fn_Name f) w))
      as [extendedEnv w1 | | ] eqn:Hext; try discriminate.
    unfold bind at 1.
    match goal with
    | |- match ?m w1 with _ => _ end = _ -> _ =>
        destruct (m w1) as [evaluated w2 | | ] eqn:Hev; try discriminate
    end.
    unfold bind, modify, ret. intros [= <- <-].
    apply (world_grows_bracket (fn_Name f)).
    apply (Hbody _ evaluated). unfold bind. by rewrite Hext.
  - apply grows_builtin_Fn.
Qed.

Lemma grows_listMap (elems : list Value) (fn : FunctionRec) (env : env_id) :
  grows (listMap host fuel Ev elems fn env).
Proof. unfold listMap. grows_tac. apply grows_applyFunction. Qed.

Lemma grows_listFilter (elems : list Value) (fn : FunctionRec) (env : env_id) :
  grows (listFilter host fuel Ev elems fn env).
Proof.
  unfold listFilter. apply grows_bind; [ | intros; apply grows_ret].
  induction elems as [ | elem rest IH]; grows_tac. apply grows_applyFunction.
Qed.

Lemma grows_listReduce (elems : list Value) (fn : FunctionRec) (initial : Value)
    (env : env_id) :
  grows (listReduce host fuel Ev elems fn initial env).
Proof.
  unfold listReduce. revert initial.
  induction elems as [ | elem rest IH]; intros initial; grows_tac. apply grows_applyFunction.
Qed.

Lemma grows_listFind (elems : list Value) (fn : FunctionRec) (env : env_id) :
  grows (listFind host fuel Ev elems fn env).
Proof.
  unfold listFind. induction elems as [ | elem rest IH]; grows_tac.
  apply grows_applyFunction.
Qed.

Lemma grows_evalBuiltinMethod (obj : Value) (method : string) (args : list Value)
    (env : env_id) :
  grows (evalBuiltinMethod host fuel Ev obj method args env).
Proof.
  unfold evalBuiltinMethod. apply grows_bind; [apply grows_UnwrapValue | intros o].
  destruct o; try apply grows_ret;
    unfold evalListMethod, evalMapMethod, evalStringMethod, evalOptionMethod,
           evalResultMethod;
    cbv zeta; grows_tac;
    first [apply grows_listMap | apply grows_listFilter | apply grows_listReduce
          | apply grows_listFind | apply grows_listContains | apply grows_applyFunction].
Qed.

Lemma grows_evalMethodCall (object : Expression) (member : Identifier)
    (args : list Expression) (env : env_id) :
  grows (evalMethodCall host fuel Ev object member args env).
Proof.
  unfold evalMethodCall. grows_tac;
    first [apply grows_evalExpressions | apply grows_evalBuiltinMethod
          | apply grows_bindParameters].
Qed.

Lemma grows_evalMapLiteral (pairs : list (Expression * Expression)) (env : env_id) :
  grows (evalMapLiteral host Ev pairs env).
Proof.
  unfold evalMapLiteral. generalize (∅ : gmap string Value).
  induction (range_order host "evalMapLiteral"
               (fun kv => default "" (Expression_String host (fst kv))) pairs)
    as [ | [k v] rest IH]; intros acc; grows_tac.
Qed.

Lemma grows_evalFields (site : string) (fields : list (string * Expression))
    (env : env_id) :
  grows (evalFields host Ev site fields env).
Proof.
  unfold evalFields. generalize (∅ : gmap string Value).
  induction (range_order host site fst fields) as [ | [k v] rest IH]; intros acc; grows_tac.
Qed.

Lemma grows_evalMatchExpression (value : Expression) (cases : list MatchCase)
    (env : env_id) :
  grows (evalMatchExpression Ev value cases env).
Proof.
  unfold evalMatchExpression. grows_tac.
  induction cases as [ | c rest IH]; grows_tac.
Qed.

Lemma grows_EvalF (node : Node) (env : env_id) : grows (EvalF host fuel Ev node env).
Proof.
  destruct node as [program | stmt | expr].
  - apply grows_evalProgram.
  - destruct stmt; cbn [EvalF]; try (grows_tac; fail).
    + unfold evalDefStatement. grows_tac.
    + unfold evalReturnStatement. grows_tac.
    + apply grows_evalBlockStatement.
    + unfold evalFunctionStatement. grows_tac.
    + apply grows_evalWhileStatement.
    + apply grows_evalForStatement.
    + apply grows_evalStructStatement.
    + apply grows_evalExtendStatement.
    + apply grows_evalImportStatement.
  - destruct expr; cbn [EvalF]; try (grows_tac; fail).
    + unfold evalIdentifier. grows_tac.
    + unfold evalPrefixExpression, evalMinusPrefixExpression, evalNotPrefixExpression.
      grows_tac.
    + unfold evalInfixExpression. grows_tac. apply grows_evalInfixValues.
    + unfold evalAssignmentExpression. grows_tac.
    + unfold evalIfExpression. grows_tac.
    + unfold evalFunctionLiteral. grows_tac.
    + unfold evalCallExpression. grows_tac;
        first [apply grows_evalMethodCall | apply grows_evalExpressions
              | apply grows_applyFunction].
    + unfold evalMemberExpression. grows_tac.
    + unfold evalIndexExpression, evalIndexValues. grows_tac.
    + unfold evalListLiteral. grows_tac; apply grows_evalExpressions.
    + apply grows_evalMapLiteral.
    + unfold evalStructLiteral. grows_tac; apply grows_evalFields.
    + unfold evalWithExpression. grows_tac; apply grows_evalFields.
    + unfold evalOptionExpression. grows_tac.
    + unfold evalResultExpression. grows_tac.
    + apply grows_evalMatchExpression.
    + unfold evalMutableExpression. grows_tac.
Qed.

End EvaluationGrows.

Lemma grows_Eval (host : Host) (fuel : nat) :
  forall (node : Node) (env : env_id), grows (Eval host fuel node env).
Proof.
  induction fuel as [ | n IH]; intros node env; [apply grows_out_of_fuel | ].
  cbn [Eval]. by apply grows_EvalF.
Qed.

Lemma envs_fresh_one_env_world : envs_fresh one_env_world.
Proof.
  intros e [env Hlook]. cbn in Hlook.
  apply lookup_singleton_Some in Hlook as [<- _]. cbn. lia.
Qed.

(** What evaluation never does. In a state whose environments all have
    addresses below the next free one, a run of [Eval] that returns leaves
    such a state again, and in it: the output written so far is a prefix of
    the output, no environment, cell, struct definition or module has been
    removed, every environment has the parent it had, no address is handed
    out twice, and the name of the current function and the base path of the
    module loader are what they were before the run. *)
Theorem Eval_only_grows (host : Host) (fuel : nat) (node : Node) (env : env_id)
    (w w' : World) (v : Value) :
  envs_fresh w ->
  Eval host fuel node env w = Done v w' ->
  envs_fresh w' /\ world_kept w w'.
Proof. intros Hf Hrun. exact (grows_Eval host fuel node env w v w' Hrun Hf). Qed.

Lemma Eval_only_grows_witness :
  world_kept one_env_world
    (set_envs (fun es => <[ 0%nat := mkEnvironment {[ "x" := IntegerValue 1 ]} None ]> es)
              one_env_world).
Proof.
  destruct (Eval_only_grows plain_host 3 (NStmt stmt_def_x) 0%nat one_env_world
              (set_envs (fun es => <[ 0%nat := mkEnvironment {[ "x" := IntegerValue 1 ]} None ]> es)
                        one_env_world)
              (IntegerValue 1)) as [_ Hkept].
  - exact envs_fresh_one_env_world.
  - vm_compute; reflexivity.
  - exact Hkept.
Defined.

(** ** Operands and arguments are always evaluated *)

Lemma reads_only_ret {A} (a : A) : reads_only (ret a).
Proof. intros w a' w'. unfold ret. congruence. Qed.

Lemma reads_only_bind {A B} (m : EV A) (k : A -> EV B) :
  reads_only m -> (forall a, reads_only (k a)) -> reads_only (bind m k).
Proof.
  intros Hm Hk w b w'. unfold bind. destruct (m w) as [a w1 | msg | ] eqn:Hrun; try discriminate.
  intros Hrun'. apply Hm in Hrun as ->. by apply Hk in Hrun'.
Qed.

Lemma reads_only_or_panic {A} (o : option A) : reads_only (or_panic o).
Proof. intros w a w'. destruct o; cbn; unfold ret, panic; congruence. Qed.

Lemma reads_only_UnwrapValue (v : Value) : reads_only (UnwrapValue v).
Proof.
  destruct v; cbn [UnwrapValue]; try apply reads_only_ret.
  intros w a w'. unfold read_cell, bind, gets.
  destruct (cells w !! _); cbn; unfold ret, panic; congruence.
Qed.

Lemma reads_only_IsTruthy (n : nat) (v : Value) : reads_only (IsTruthy n v).
Proof.
  revert v. induction n as [ | n IH]; intros v; [intros w a w'; discriminate | ].
  destruct v; cbn [IsTruthy]; try apply reads_only_ret.
  apply reads_only_bind; [ | intros a; apply IH].
  apply (reads_only_UnwrapValue (MutableValue _)).
Qed.

Lemma reads_only_Value_type (v : Value) : reads_only (Value_type v).
Proof. apply reads_only_or_panic. Qed.

Lemma reads_only_valuesEqual (a b : Value) : reads_only (valuesEqual a b).
Proof.
  unfold valuesEqual.
  apply reads_only_bind; [apply reads_only_UnwrapValue | intros a'].
  apply reads_only_bind; [apply reads_only_UnwrapValue | intros b'].
  apply reads_only_ret.
Qed.

Lemma reads_only_evalInfixValues (fuel : nat) (operator : string) (l r : Value) :
  reads_only (evalInfixValues fuel operator l r).
Proof.
  unfold evalInfixValues.
  destruct (String.eqb operator "and").
  { apply reads_only_bind; [apply reads_only_IsTruthy | intros [ | ] ];
      [ | apply reads_only_ret].
    apply reads_only_bind; [apply reads_only_IsTruthy | intros; apply reads_only_ret]. }
  destruct (String.eqb operator "or").
  { apply reads_only_bind; [apply reads_only_IsTruthy | intros [ | ] ];
      [apply reads_only_ret | ].
    apply reads_only_bind; [apply reads_only_IsTruthy | intros; apply reads_only_ret]. }
  destruct (String.eqb operator "is").
  { apply reads_only_bind; [apply reads_only_valuesEqual | intros; apply reads_only_ret]. }
  destruct l, r; try apply reads_only_ret;
    (apply reads_only_bind; [apply reads_only_Value_type | intros lt];
     apply reads_only_bind; [apply reads_only_Value_type | intros rt];
     apply reads_only_ret).
Qed.

(** [and] and [or] do not short-circuit. Whatever the operator, the right
    operand is evaluated after a left operand that is no error, also when
    the left one decides the result: an error of the right operand is then
    the result, of [false and ...] and [true or ...] too; otherwise the
    state after the expression is the state the right operand left, and
    there [false and r] is false and [true or r] is true. *)
Theorem evalInfixExpression_no_short_circuit (fuel : nat) (Ev : Node -> env_id -> EV Value)
    (left right : Expression) (operator : string) (env : env_id) (w w1 w2 : World)
    (l r : Value) :
  Ev (NExpr left) env w = Done l w1 ->
  isError l = false ->
  Ev (NExpr right) env w1 = Done r w2 ->
  (isError r = true ->
   evalInfixExpression fuel Ev left operator right env w = Done r w2)
  /\ (forall (v : Value) (w3 : World),
        evalInfixExpression fuel Ev left operator right env w = Done v w3 -> w3 = w2)
  /\ (forall (b : bool) (r' : Value),
        l = BooleanValue b -> isError r = false -> UnwrapValue r w2 = Done r' w2 ->
        evalInfixExpression (S fuel) Ev left (if b then "or" else "and") right env w
        = Done (BooleanValue b) w2).
Proof.
  intros Hl Herr Hr.
  split; [ | split].
  - intros Hrerr. unfold evalInfixExpression, bind at 1. rewrite Hl, Herr.
    unfold bind at 1. by rewrite Hr, Hrerr.
  - intros v w3. unfold evalInfixExpression, bind at 1. rewrite Hl, Herr.
    unfold bind at 1. rewrite Hr.
    destruct (isError r); [unfold ret; congruence | ].
    unfold bind at 1. destruct (UnwrapValue l w2) as [l' wa | | ] eqn:Hul; try discriminate.
    apply reads_only_UnwrapValue in Hul as ->.
    unfold bind at 1. destruct (UnwrapValue r w2) as [r' wb | | ] eqn:Hur; try discriminate.
    apply reads_only_UnwrapValue in Hur as ->.
    apply reads_only_evalInfixValues.
  - intros b r' -> Hrok Hun. unfold evalInfixExpression, bind at 1. rewrite Hl.
    cbn [isError]. unfold bind at 1. rewrite Hr, Hrok.
    cbn [UnwrapValue]. unfold bind at 1, ret at 1. unfold bind at 1. rewrite Hun.
    destruct b; reflexivity.
Qed.

Lemma evalInfixExpression_no_short_circuit_witness :
  evalInfixExpression 3 (Eval plain_host 3) (BooleanLiteral Token_zero false) "and"
    (IdentifierE (mkIdentifier Token_zero "zzz")) 0%nat one_env_world
  = Done (errorMessage "undefined: zzz") one_env_world.
Proof.
  destruct (evalInfixExpression_no_short_circuit 3 (Eval plain_host 3)
              (BooleanLiteral Token_zero false) (IdentifierE (mkIdentifier Token_zero "zzz"))
              "and" 0%nat one_env_world one_env_world one_env_world
              (BooleanValue false) (errorMessage "undefined: zzz")) as (Herr & _).
  - reflexivity.
  - reflexivity.
  - vm_compute; reflexivity.
  - exact (Herr eq_refl).
Defined.

Lemma mapM_length {A B} (f : A -> EV B) (l : list A) (w w' : World) (r : list B) :
  mapM f l w = Done r w' -> length r = length l.
Proof.
  revert w w' r. induction l as [ | x l IH]; intros w w' r; cbn [mapM].
  - unfold ret. intros [= <- _]. reflexivity.
  - unfold bind at 1. destruct (f x w) as [y w1 | | ]; try discriminate.
    unfold bind at 1. destruct (mapM f l w1) as [ys w2 | | ] eqn:Hrest; try discriminate.
    unfold ret. intros [= <- _]. cbn [length]. f_equal. exact (IH _ _ _ Hrest).
Qed.

(** Errors among arguments and elements are not checked. [evalExpressions]
    evaluates every expression and keeps error values in its result.  A call
    (that is no method call) evaluates the callee and then all arguments and
    applies the callee to all the values, errors included; a callee that is
    itself an error gives "not a function: Error" in the state after the
    arguments, so that the message of the callee's error is lost.  A list
    literal yields the error only when it has exactly one element and this
    element is an error: with more elements the error values are elements
    of the list. *)
Theorem evalExpressions_unchecked (host : Host) (fuel : nat) (Ev : Node -> env_id -> EV Value)
    (function : Expression) (exprs : list Expression) (env : env_id) (w w1 w2 : World)
    (fn : Value) (vals : list Value) :
  (forall t o m, function <> MemberExpression t o m) ->
  Ev (NExpr function) env w = Done fn w1 ->
  evalExpressions Ev exprs env w1 = Done vals w2 ->
  length vals = length exprs
  /\ evalCallExpression host fuel Ev function exprs env w
     = applyFunction host fuel Ev fn vals env w2
  /\ (isError fn = true ->
      evalCallExpression host fuel Ev function exprs env w
      = Done (errorMessage "not a function: Error") w2)
  /\ (length exprs <> 1%nat ->
      evalListLiteral Ev exprs env w1 = Done (ListValue vals) w2)
  /\ (forall e : Value,
        vals = [e] ->
        evalListLiteral Ev exprs env w1
        = Done (if isError e then e else ListValue [e]) w2).
Proof.
  intros Hnm Hfn Hargs.
  assert (Hlen : length vals = length exprs) by exact (mapM_length _ _ _ _ _ Hargs).
  assert (Hcall : evalCallExpression host fuel Ev function exprs env w
                  = applyFunction host fuel Ev fn vals env w2).
  { unfold evalCallExpression.
    destruct function; try (unfold bind at 1; rewrite Hfn; unfold bind at 1; by rewrite Hargs).
    exfalso. by eapply Hnm. }
  split; [exact Hlen | ]. split; [exact Hcall | ].
  split; [ | split].
  - intros Herr. rewrite Hcall. destruct fn; try discriminate; reflexivity.
  - intros Hne. unfold evalListLiteral, bind at 1. rewrite Hargs.
    destruct vals as [ | e [ | e' vals] ]; try reflexivity.
    exfalso. apply Hne. by rewrite <- Hlen.
  - intros e ->. unfold evalListLiteral, bind at 1. rewrite Hargs.
    by destruct (isError e).
Qed.

Lemma evalExpressions_unchecked_witness :
  evalCallExpression plain_host 3 (Eval plain_host 3)
    (IdentifierE (mkIdentifier Token_zero "zzz")) [IntegerLiteral Token_zero 1] 0%nat
    one_env_world
  = Done (errorMessage "not a function: Error") one_env_world
  /\ evalListLiteral (Eval plain_host 3)
       [IntegerLiteral Token_zero 1; IdentifierE (mkIdentifier Token_zero "zzz")] 0%nat
       one_env_world
     = Done (ListValue [IntegerValue 1; errorMessage "undefined: zzz"]) one_env_world.
Proof.
  split.
  - destruct (evalExpressions_unchecked plain_host 3 (Eval plain_host 3)
                (IdentifierE (mkIdentifier Token_zero "zzz")) [IntegerLiteral Token_zero 1]
                0%nat one_env_world one_env_world one_env_world
                (errorMessage "undefined: zzz") [IntegerValue 1])
      as (_ & _ & Herr & _).
    + discriminate.
    + vm_compute; reflexivity.
    + vm_compute; reflexivity.
    + exact (Herr eq_refl).
  - destruct (evalExpressions_unchecked plain_host 3 (Eval plain_host 3)
                (IdentifierE (mkIdentifier Token_zero "zzz"))
                [IntegerLiteral Token_zero 1; IdentifierE (mkIdentifier Token_zero "zzz")]
                0%nat one_env_world one_env_world one_env_world
                (errorMessage "undefined: zzz")
                [IntegerValue 1; errorMessage "undefined: zzz"])
      as (_ & _ & _ & Hlist & _).
    + discriminate.
    + vm_compute; reflexivity.
    + vm_compute; reflexivity.
    + apply Hlist. cbn. lia.
Defined.

(** ** Parameters and arguments *)

Lemma bindParameters_loop (env : env_id) (args : list Value) :
  forall (params : list FunctionParameter) (k : nat) (w : World) (E : Environment),
    w.(envs) !! env = Some E ->
    exists (w' : World) (E' : Environment),
      forM_ (fun ip : nat * FunctionParameter =>
               match args !! fst ip with
               | Some a => Environment_Set env (snd ip).(fp_Name).(id_Value) a
               | None => ret tt
               end) (imap (fun i => pair (k + i)%nat) params) w = Done tt w'
      /\ w'.(envs) !! env = Some E'
      /\ E'.(parent) = E.(parent)
      /\ (forall e : env_id, e <> env -> w'.(envs) !! e = w.(envs) !! e)
      /\ w'.(next_env) = w.(next_env)
      /\ (forall name : string,
            (forall i p, params !! i = Some p -> p.(fp_Name).(id_Value) = name ->
                         args !! (k + i)%nat = None) ->
            E'.(store) !! name = E.(store) !! name)
      /\ (forall i p a,
            params !! i = Some p -> args !! (k + i)%nat = Some a ->
            (forall j q, params !! j = Some q ->
                         q.(fp_Name).(id_Value) = p.(fp_Name).(id_Value) ->
                         is_Some (args !! (k + j)%nat) -> (j <= i)%nat) ->
            E'.(store) !! p.(fp_Name).(id_Value) = Some a).
Proof.
  induction params as [ | x params IH]; intros k w E HE.
  - exists w, E. cbn. repeat match goal with |- _ /\ _ => split end; try done.
  - rewrite imap_cons. cbn [forM_]. unfold bind at 1. cbn [fst snd].
    rewrite Nat.add_0_r.
    assert (Hext : imap ((fun i => pair (k + i)%nat) ∘ S) params
                   = imap (fun i => pair (S k + i)%nat) params
                     :> list (nat * FunctionParameter)).
    { apply imap_ext. intros i p _. cbn. f_equal. lia. }
    rewrite Hext. clear Hext.
    destruct (args !! k) as [a0 | ] eqn:Hk.
    + unfold Environment_Set at 1, bind at 1, gets. rewrite HE. cbn [modify].
      set (E1 := mkEnvironment (<[ x.(fp_Name).(id_Value) := a0 ]> E.(store)) E.(parent)).
      set (w1 := set_envs _ w).
      assert (H1 : w1.(envs) !! env = Some E1) by (cbn; by rewrite lookup_insert_eq).
      destruct (IH (S k) w1 E1 H1) as (w' & E' & Hrun & HE' & Hpar & Hoth & Hnext & Hkeep & Hset).
      exists w', E'. repeat match goal with |- _ /\ _ => split end; try done.
      * intros e Hne. rewrite (Hoth e Hne). cbn. by rewrite lookup_insert_ne.
      * intros name Hname. rewrite Hkeep.
        -- cbn [E1 store]. apply lookup_insert_ne. intros Heq.
           specialize (Hname 0%nat x eq_refl Heq). rewrite Nat.add_0_r in Hname. congruence.
        -- intros i p Hp Hn. specialize (Hname (S i) p Hp Hn).
           by replace (S k + i)%nat with (k + S i)%nat by lia.
      * intros [ | i] p a Hp Ha Hlast.
        -- cbn in Hp. injection Hp as <-. rewrite Nat.add_0_r in Ha.
           rewrite Hkeep.
           ++ cbn [E1 store]. rewrite lookup_insert_eq. congruence.
           ++ intros j q Hq Hn. destruct (args !! (S k + j)%nat) eqn:Hj; [ | done].
              exfalso. assert (S j <= 0)%nat; [ | lia].
              apply (Hlast (S j) q Hq Hn).
              replace (k + S j)%nat with (S k + j)%nat by lia. by rewrite Hj.
        -- cbn in Hp. apply (Hset i p a Hp).
           ++ by replace (S k + i)%nat with (k + S i)%nat by lia.
           ++ intros j q Hq Hn Hj.
              assert (S j <= S i)%nat; [ | lia].
              apply (Hlast (S j) q Hq Hn).
              by replace (k + S j)%nat with (S k + j)%nat by lia.
    + unfold ret at 1.
      destruct (IH (S k) w E HE) as (w' & E' & Hrun & HE' & Hpar & Hoth & Hnext & Hkeep & Hset).
      exists w', E'. repeat match goal with |- _ /\ _ => split end; try done.
      * intros name Hname. apply Hkeep.
        intros i p Hp Hn. specialize (Hname (S i) p Hp Hn).
        by replace (S k + i)%nat with (k + S i)%nat by lia.
      * intros [ | i] p a Hp Ha Hlast.
        -- rewrite Nat.add_0_r in Ha. congruence.
        -- cbn in Hp. apply (Hset i p a Hp).
           ++ by replace (S k + i)%nat with (k + S i)%nat by lia.
           ++ intros j q Hq Hn Hj.
              assert (S j <= S i)%nat; [ | lia].
              apply (Hlast (S j) q Hq Hn).
              by replace (k + S j)%nat with (S k + j)%nat by lia.
Qed.

(** Arity is not checked. [extendFunctionEnv] makes a new environment
    enclosed in the function's own environment and binds parameter [i] to
    argument [i] as far as there are arguments: the last parameter of a name
    that has an argument wins, arguments beyond the parameters are dropped,
    and a name that no bound parameter carries, a parameter without argument
    included, is looked up in the function's environment.  Lookups from the
    environments that existed before are unchanged. *)
Theorem extendFunctionEnv_binds (fn : FunctionRec) (args : list Value) (w : World)
    (closure : Environment) :
  parents_older w ->
  w.(envs) !! fn.(fn_Env) = Some closure ->
  exists (env : env_id) (w' : World),
    extendFunctionEnv fn args w = Done env w'
    /\ (forall n i p a,
          fn.(fn_Parameters) !! i = Some p -> args !! i = Some a ->
          (forall j q, fn.(fn_Parameters) !! j = Some q ->
                       q.(fp_Name).(id_Value) = p.(fp_Name).(id_Value) ->
                       is_Some (args !! j) -> (j <= i)%nat) ->
          Environment_Get (S n) env p.(fp_Name).(id_Value) w' = Done (Some a) w')
    /\ (forall n name r,
          (forall i p, fn.(fn_Parameters) !! i = Some p -> p.(fp_Name).(id_Value) = name ->
                       (length args <= i)%nat) ->
          Environment_Get n fn.(fn_Env) name w = Done r w ->
          Environment_Get (S n) env name w' = Done r w')
    /\ (forall n (e : env_id) name r,
          (e < w.(next_env))%nat ->
          Environment_Get n e name w = Done r w ->
          Environment_Get n e name w' = Done r w')
    /\ parents_older w'.
Proof.
  intros Hwf Hclo.
  assert (Hpc : (fn.(fn_Env) < w.(next_env))%nat) by (by destruct (Hwf _ _ Hclo)).
  assert (Hparb : forall (e' : env_id) env, (e' < w.(next_env))%nat ->
                    w.(envs) !! e' = Some env ->
                    forall q, env.(parent) = Some q -> (q < w.(next_env))%nat).
  { intros e' env He' Hlook q Hq. destruct (Hwf e' env Hlook) as [_ Hlt].
    specialize (Hlt q Hq). lia. }
  unfold extendFunctionEnv, bind at 1. cbn [NewEnclosedEnvironment].
  set (c := w.(next_env)).
  set (w1 := mkWorld _ _ _ _ _ _ _ _ _ _).
  assert (H1 : w1.(envs) !! c = Some (mkEnvironment ∅ (Some fn.(fn_Env))))
    by (cbn; by rewrite lookup_insert_eq).
  destruct (bindParameters_loop c args fn.(fn_Parameters) 0 w1 _ H1)
    as (w' & E' & Hrun & HE' & Hpar & Hoth & Hnext & Hkeep & Hset).
  cbn [parent store] in Hpar, Hkeep.
  assert (Hagree : forall e' : env_id, (e' < w.(next_env))%nat ->
                     w'.(envs) !! e' = w.(envs) !! e').
  { intros e' He'. rewrite Hoth by (unfold c; lia). cbn. apply lookup_insert_ne.
    unfold c. lia. }
  exists c, w'. split.
  { unfold bindParameters, bind at 1.
    assert (Hext : imap pair fn.(fn_Parameters)
                   = imap (fun i => pair (0 + i)%nat) fn.(fn_Parameters)
                     :> list (nat * FunctionParameter)) by reflexivity.
    rewrite Hext, Hrun. reflexivity. }
  split; [ | split; [ | split] ].
  - intros n i p a Hp Ha Hlast. cbn [Environment_Get]. unfold bind, gets. rewrite HE'.
    by rewrite (Hset i p a Hp Ha Hlast).
  - intros n name r Hname Hget. cbn [Environment_Get]. unfold bind, gets. rewrite HE'.
    rewrite Hkeep, lookup_empty, Hpar.
    + apply (Environment_Get_agree n fn.(fn_Env) name w w' w.(next_env)); done.
    + intros i p Hp Hn. apply lookup_ge_None. cbn. exact (Hname i p Hp Hn).
  - intros n e name r He Hget.
    apply (Environment_Get_agree n e name w w' w.(next_env)); done.
  - intros e env Hlook. rewrite Hnext. cbn [w1 next_env].
    destruct (decide (e = c)) as [-> | Hne].
    + rewrite HE' in Hlook. injection Hlook as <-. split; [unfold c; lia | ].
      rewrite Hpar. intros q [= <-]. exact Hpc.
    + rewrite (Hoth e Hne) in Hlook. cbn in Hlook.
      rewrite lookup_insert_ne in Hlook by congruence.
      destruct (Hwf e env Hlook) as [Hlt Hq]. split; [lia | exact Hq].
Qed.

Lemma extendFunctionEnv_binds_witness :
  exists (env : env_id) (w' : World),
    extendFunctionEnv
      (mkFunctionRec "f" [mkFunctionParameter (mkIdentifier Token_zero "a") None;
                          mkFunctionParameter (mkIdentifier Token_zero "b") None]
                     None 0%nat false NilExpression)
      [IntegerValue 7] one_env_world = Done env w'
    /\ Environment_Get 2 env "a" w' = Done (Some (IntegerValue 7)) w'
    /\ Environment_Get 2 env "b" w' = Done None w'.
Proof.
  destruct (extendFunctionEnv_binds
              (mkFunctionRec "f" [mkFunctionParameter (mkIdentifier Token_zero "a") None;
                                  mkFunctionParameter (mkIdentifier Token_zero "b") None]
                             None 0%nat false NilExpression)
              [IntegerValue 7] one_env_world (mkEnvironment ∅ None)
              parents_older_one_env_world eq_refl)
    as (env & w' & Hrun & Hbound & Hfree & _).
  exists env, w'. split; [exact Hrun | ]. split.
  - apply (Hbound 1%nat 0%nat (mkFunctionParameter (mkIdentifier Token_zero "a") None)
             (IntegerValue 7) eq_refl eq_refl).
    intros [ | [ | j] ] q Hq Hn [x Hx]; try lia; cbn in Hq, Hx; try discriminate.
  - apply (Hfree 1%nat "b" None).
    + intros [ | [ | i] ] p Hp Hn; cbn in Hp |- *; try lia; try discriminate.
      injection Hp as <-. discriminate.
    + reflexivity.
Defined.

(** ** Imports *)

Lemma Environment_Set_done (e : env_id) (name : string) (v : Value) (w w' : World) :
  Environment_Set e name v w = Done tt w' ->
  exists env : Environment,
    w.(envs) !! e = Some env
    /\ w' = set_envs (fun es => <[ e := mkEnvironment (<[ name := v ]> env.(store))
                                          env.(parent) ]> es) w.
Proof.
  unfold Environment_Set, bind, gets.
  destruct (envs w !! e) as [env | ]; [ | discriminate].
  cbn [modify]. intros [= <-]. by exists env.
Qed.

(** A module is evaluated once. When an import of [name] has returned a
    value that is no error, this value is a module that the evaluator's
    module table now holds under [name], and a further import of a path
    starting with [name], from any existing environment, returns the same
    module: nothing is read, parsed or evaluated, for only the binding of
    [name] in the importing environment changes, and the name is then bound
    to the module there. *)
Theorem evalImportStatement_cached (host : Host) (fuel : nat)
    (Ev : Node -> env_id -> EV Value) (name : string) (rest rest' : list string)
    (env env' : env_id) (w w' : World) (v : Value) :
  evalImportStatement host fuel Ev (name :: rest) env w = Done v w' ->
  isError v = false ->
  is_Some (w'.(envs) !! env') ->
  exists (modName : string) (exports : env_id) (w'' : World),
    v = ModuleValue modName exports
    /\ w'.(modules) !! name = Some (modName, exports)
    /\ evalImportStatement host fuel Ev (name :: rest') env' w' = Done v w''
    /\ (exists scope : Environment,
          w'.(envs) !! env' = Some scope
          /\ w'' = set_envs (fun es => <[ env' := mkEnvironment (<[ name := v ]> scope.(store))
                                                    scope.(parent) ]> es) w')
    /\ (forall n, Environment_Get (S n) env' name w'' = Done (Some v) w'').
Proof.
  intros Hrun Hok [scope Hscope].
  assert (Hhit : forall modName exports,
             w'.(modules) !! name = Some (modName, exports) ->
             v = ModuleValue modName exports ->
             exists (modName : string) (exports : env_id) (w'' : World),
               v = ModuleValue modName exports
               /\ w'.(modules) !! name = Some (modName, exports)
               /\ evalImportStatement host fuel Ev (name :: rest') env' w' = Done v w''
               /\ (exists scope : Environment,
                     w'.(envs) !! env' = Some scope
                     /\ w'' = set_envs (fun es =>
                                <[ env' := mkEnvironment (<[ name := v ]> scope.(store))
                                                         scope.(parent) ]> es) w')
               /\ (forall n, Environment_Get (S n) env' name w'' = Done (Some v) w'')).
  { intros modName exports Hmod ->. eexists modName, exports, _.
    split; [reflexivity | ]. split; [exact Hmod | ]. split; [ | split].
    - unfold evalImportStatement, bind at 1, gets. rewrite Hmod.
      unfold bind at 1, Environment_Set, bind at 1, gets. rewrite Hscope. reflexivity.
    - exists scope. split; [exact Hscope | reflexivity].
    - intros n. cbn [Environment_Get]. unfold bind, gets. cbn [set_envs envs].
      rewrite lookup_insert_eq. cbn [store]. by rewrite lookup_insert_eq. }
  revert Hrun. unfold evalImportStatement at 1, bind at 1, gets.
  destruct (modules w !! name) as [[modName exports] | ] eqn:Hmod.
  - unfold bind at 1.
    destruct (Environment_Set env name (ModuleValue modName exports) w) as [[] ws | | ] eqn:Hset;
      try discriminate.
    unfold ret. intros [= <- <-].
    apply Environment_Set_done in Hset as (E & _ & ->).
    apply (Hhit modName exports); [exact Hmod | reflexivity].
  - unfold bind at 1.
    destruct (Load host fuel name w) as [[program | err] wl | | ]; try discriminate;
      [ | unfold ret; intros [= <- _]; discriminate].
    unfold bind at 1. destruct (NewEnvironment wl) as [modEnv w1 | | ]; try discriminate.
    unfold bind at 1. destruct (RegisterBuiltins modEnv w1) as [[] w2 | | ]; try discriminate.
    unfold bind at 1. destruct (Ev (NProgram program) modEnv w2) as [result w3 | | ];
      try discriminate.
    destruct (isError result) eqn:Hres; [unfold ret; intros [= <- _]; congruence | ].
    unfold bind at 1. cbn [modify]. unfold bind at 1.
    match goal with
    | |- context [Environment_Set env name ?m ?ws] =>
      destruct (Environment_Set env name m ws) as [[] w4 | | ] eqn:Hset; try discriminate
    end.
    unfold ret. intros [= <- <-].
    apply Environment_Set_done in Hset as (E & _ & ->).
    apply (Hhit name modEnv); [ | reflexivity].
    cbn [set_envs modules]. by rewrite lookup_insert_eq.
Qed.

Lemma evalImportStatement_cached_witness :
  exists (v : Value) (w' w'' : World),
    evalImportStatement (files_host [("/work/a.moon", "def x = 1")]) 12
      (Eval (files_host [("/work/a.moon", "def x = 1")]) 12) ["a"] 0%nat
      (set_loader (mkModuleLoader "/work" ∅) one_env_world) = Done v w'
    /\ evalImportStatement (files_host [("/work/a.moon", "def x = 1")]) 12
         (Eval (files_host [("/work/a.moon", "def x = 1")]) 12) ["a"; "b"] 0%nat w'
       = Done v w''.
Proof.
  assert (exists (v : Value) (w' : World),
             evalImportStatement (files_host [("/work/a.moon", "def x = 1")]) 12
               (Eval (files_host [("/work/a.moon", "def x = 1")]) 12) ["a"] 0%nat
               (set_loader (mkModuleLoader "/work" ∅) one_env_world) = Done v w'
             /\ isError v = false /\ is_Some (w'.(envs) !! 0%nat))
    as (v & w' & Hrun & Hok & Henv).
  { eexists _, _. split; [vm_compute; reflexivity | ].
    split; [reflexivity | eexists; vm_compute; reflexivity]. }
  destruct (evalImportStatement_cached _ _ _ "a" [] ["b"] 0%nat 0%nat _ w' v Hrun Hok Henv)
    as (modName & exports & w'' & _ & _ & Hagain & _).
  exists v, w', w''. split; [exact Hrun | exact Hagain].
Defined.

(** ** What the checker keeps *)

Lemma tc_kept_refl (tc : TypeChecker) : tc_kept tc tc.
Proof. constructor; try done. exists []. by rewrite app_nil_r. Qed.

Lemma tc_kept_trans (a b c : TypeChecker) : tc_kept a b -> tc_kept b c -> tc_kept a c.
Proof.
  intros [? ? ? ? [m1 H1] ] [? ? ? ? [m2 H2] ].
  constructor; try (etrans; eassumption).
  exists (m1 ++ m2)%list. by rewrite H2, H1, app_assoc.
Qed.

Lemma keeps_scoped {A} (m : TC A) : keeps m -> scoped m.
Proof. intros H tc a tc' Hrun. by destruct (H tc a tc' Hrun). Qed.

Lemma keeps_ret {A} (a : A) : keeps (ret a).
Proof. intros tc a' tc'. unfold ret. intros [= _ <-]. split; [apply tc_kept_refl | done]. Qed.

Lemma keeps_panic {A} (msg : string) : keeps (panic msg : TC A).
Proof. intros tc a tc'. discriminate. Qed.

Lemma keeps_gets {A} (f : TypeChecker -> A) : keeps (gets f).
Proof. intros tc a tc'. unfold gets. intros [= _ <-]. split; [apply tc_kept_refl | done]. Qed.

Lemma keeps_or_panic {A} (o : option A) : keeps (or_panic o : TC A).
Proof. destruct o; [apply keeps_ret | apply keeps_panic]. Qed.

Lemma keeps_bind {A B} (m : TC A) (k : A -> TC B) :
  keeps m -> (forall a, keeps (k a)) -> keeps (bind m k).
Proof.
  intros Hm Hk tc b tc'. unfold bind.
  destruct (m tc) as [a tc1 | | ] eqn:Hrun; try discriminate.
  intros Hrun'. destruct (Hm _ _ _ Hrun) as [H1 E1]. destruct (Hk _ _ _ _ Hrun') as [H2 E2].
  split; [by eapply tc_kept_trans | congruence].
Qed.

Lemma scoped_bind {A B} (m : TC A) (k : A -> TC B) :
  scoped m -> (forall a, scoped (k a)) -> scoped (bind m k).
Proof.
  intros Hm Hk tc b tc'. unfold bind.
  destruct (m tc) as [a tc1 | | ] eqn:Hrun; try discriminate.
  intros Hrun'. eapply tc_kept_trans; [exact (Hm _ _ _ Hrun) | exact (Hk _ _ _ _ Hrun')].
Qed.

Lemma keeps_addError (msg : string) : keeps (addError msg).
Proof.
  intros tc a tc'. unfold addError. cbn [modify]. intros [= _ <-].
  split; [ | done]. constructor; try done. by exists [msg].
Qed.

Lemma keeps_when (b : bool) (m : TC unit) : keeps m -> keeps (when b m).
Proof. intros H. unfold when. destruct b; [exact H | apply keeps_ret]. Qed.

Lemma scoped_env_Set (name : string) (t : Ty) : scoped (env_Set name t).
Proof.
  intros tc a tc'. unfold env_Set. cbn [modify]. intros [= _ <-].
  constructor; cbn; try done.
  - by destruct (tc_env tc).
  - destruct (tc_env tc); cbn; lia.
  - exists []. by rewrite app_nil_r.
Qed.

Lemma scoped_forM_ {A} (f : A -> TC unit) (l : list A) :
  (forall x, scoped (f x)) -> scoped (forM_ f l).
Proof.
  intros Hf. induction l as [ | x l IH]; cbn [forM_].
  - apply keeps_scoped, keeps_ret.
  - apply scoped_bind; [apply Hf | intros _; exact IH].
Qed.

Lemma pops_panic {A} (outer : list (gmap string Ty)) (msg : string) :
  pops outer (panic msg : TC A).
Proof. intros tc a tc' _ _. discriminate. Qed.

Lemma pops_pop {A} (outer : list (gmap string Ty)) (k : TC A) :
  keeps k -> pops outer (bind pop_scope (fun _ => k)).
Proof.
  intros Hk tc a tc' Hout Hne. unfold bind at 1, pop_scope. cbn [modify].
  intros Hrun. destruct (Hk _ _ _ Hrun) as [ [_ _ Hs Hf He] Henv]. cbn in *.
  repeat match goal with |- _ /\ _ => split end; try done. congruence.
Qed.

Lemma pops_bind {A B} (outer : list (gmap string Ty)) (m : TC A) (k : A -> TC B) :
  scoped m -> (forall a, pops outer (k a)) -> pops outer (bind m k).
Proof.
  intros Hm Hk tc b tc' Hout Hne. unfold bind.
  destruct (m tc) as [a tc1 | | ] eqn:Hrun; try discriminate.
  intros Hrun'. destruct (Hm _ _ _ Hrun) as [Ho Hd Hs Hf [m1 He] ].
  destruct (Hk a tc1 b tc') as (Henv & Hs' & Hf' & m2 & He'); try done.
  - congruence.
  - destruct (tc_env tc); [done | ]. destruct (tc_env tc1); [cbn in Hd; lia | done].
  - repeat match goal with |- _ /\ _ => split end; try congruence.
    exists (m1 ++ m2)%list. by rewrite He', He, app_assoc.
Qed.

Lemma keeps_push {A} (rest : TC A) :
  (forall outer, pops outer rest) -> keeps (bind push_scope (fun _ => rest)).
Proof.
  intros Hrest tc a tc'. unfold bind at 1, push_scope. cbn [modify]. intros Hrun.
  destruct (Hrest (tc_env tc) _ a tc' (eq_refl : tail (tc_env (mkTypeChecker (∅ :: tc_env tc)
                (tc_structs tc) (tc_functions tc) (tc_errors tc))) = tc_env tc))
    as (Henv & Hs & Hf & He); [done | exact Hrun | ].
  cbn in *. split; [ | done]. constructor; try done; [congruence | by rewrite Henv].
Qed.

Ltac keeps_step :=
  match goal with
  | |- keeps (bind push_scope _) => apply keeps_push; intros ?
  | |- keeps (bind _ _) => apply keeps_bind; [ | intros ?]
  | |- pops _ (bind pop_scope _) => apply pops_pop
  | |- pops _ (bind _ _) => apply pops_bind; [ | intros ?]
  | |- pops _ (panic _) => apply pops_panic
  | |- scoped (bind push_scope _) => apply keeps_scoped, keeps_push; intros ?
  | |- scoped (bind _ _) => apply scoped_bind; [ | intros ?]
  | |- scoped (env_Set _ _) => apply scoped_env_Set
  | |- scoped (forM_ _ _) => apply scoped_forM_; intros ?
  | |- keeps (ret _) => apply keeps_ret
  | |- keeps (gets _) => apply keeps_gets
  | |- keeps (env_Get _) => apply keeps_gets
  | |- keeps (panic _) => apply keeps_panic
  | |- keeps (or_panic _) => apply keeps_or_panic
  | |- keeps (Ty_str _) => apply keeps_or_panic
  | |- keeps (assignable _ _) => apply keeps_or_panic
  | |- keeps (addError _) => apply keeps_addError
  | |- keeps (when _ _) => apply keeps_when
  | |- keeps (if ?b then _ else _) => destruct b
  | |- scoped (if ?b then _ else _) => destruct b
  | |- pops _ (if ?b then _ else _) => destruct b
  | |- keeps (match ?x with _ => _ end) => destruct x
  | |- scoped (match ?x with _ => _ end) => destruct x
  | |- pops _ (match ?x with _ => _ end) => destruct x
  | H : forall _, keeps _ |- keeps _ => apply H
  | H : forall _ _, keeps _ |- keeps _ => apply H
  | H : forall _, scoped _ |- scoped _ => apply H
  | H : forall _ _, scoped _ |- scoped _ => apply H
  | |- scoped _ => apply keeps_scoped
  end.

Ltac keeps_tac := repeat keeps_step.

Lemma keeps_checkIdentifier (i : Identifier) : keeps (checkIdentifier i).
Proof. unfold checkIdentifier. keeps_tac. Qed.

Lemma keeps_checkInfixTypes (op : string) (l r : Ty) : keeps (checkInfixTypes op l r).
Proof. unfold checkInfixTypes. cbv zeta. keeps_tac. Qed.

Lemma keeps_checkField (stName : string) (stFields : gmap string Ty) (fieldName : string)
    (checkValue : TC Ty) :
  keeps checkValue -> keeps (checkField stName stFields fieldName checkValue).
Proof. intros H. unfold checkField. keeps_tac. exact H. Qed.

Lemma keeps_forM_snd (l : list (string * TC unit)) :
  Forall (fun c => keeps (snd c)) l -> keeps (forM_ snd l).
Proof.
  induction 1 as [ | c l Hc _ IH]; cbn [forM_]; [apply keeps_ret | ].
  apply keeps_bind; [exact Hc | intros _; exact IH].
Qed.

Section CheckerKeeps.

Variable host : Host.

Ltac keeps_more :=
  keeps_tac;
  try first [apply keeps_checkIdentifier | apply keeps_checkInfixTypes
            | apply keeps_checkField; keeps_tac].

Lemma keeps_checkExpression (e : Expression) : keeps (checkExpression host e)
with scoped_checkStatement (s : Statement) : scoped (checkStatement host s)
with scoped_checkBlockStatement (b : BlockStatement) :
  forall er : option Ty, scoped (checkBlockStatement host b er)
with keeps_checkFunctionStatement (f : FunctionStatement) :
  keeps (checkFunctionStatement host f).
Proof.
  - destruct e; simpl checkExpression.
    all: try (keeps_more; fail).
    + (* CallExpression *)
      apply keeps_bind; [apply keeps_checkExpression | intros fnType].
      assert (Hplain : keeps ((fix go (l : list Expression) : TC unit :=
                                 match l with
                                 | [] => ret tt
                                 | a :: rest => let* _ := checkExpression host a in go rest
                                 end) Arguments)).
      { induction Arguments as [ | a rest IHl]; keeps_tac. exact IHl. }
      destruct fnType; try (keeps_tac; exact Hplain); keeps_tac.
      clear Hplain. match goal with |- keeps (_ Arguments ?ps) => generalize ps end.
      induction Arguments as [ | a rest IHl]; intros ps; keeps_tac; apply IHl.
    + (* ListLiteral *)
      destruct Elements as [ | e0 rest]; keeps_tac.
      induction rest as [ | e1 rest IHl]; keeps_tac. exact IHl.
    + (* MapLiteral *)
      match goal with
      | |- keeps (match range_order _ _ _ ?checks with _ => _ end) =>
        assert (Hchecks : Forall (fun c : string * TC Ty => keeps (snd c)) checks)
      end.
      { induction Pairs as [ | [k v] rest IHl]; constructor;
          [apply keeps_checkExpression | exact IHl]. }
      rewrite <- (range_order_Permutation host "checkMapLiteral" fst) in Hchecks.
      destruct (range_order host "checkMapLiteral" fst _) as [ | [k c] rest];
        [apply keeps_ret | ].
      apply Forall_cons in Hchecks as [Hc _]. keeps_tac. exact Hc.
    + (* StructLiteral *)
      keeps_tac. apply keeps_forM_snd.
      rewrite (range_order_Permutation host "checkStructLiteral" fst).
      induction Fields as [ | [fieldName fieldExpr] rest IHl]; constructor;
        [apply keeps_checkField, keeps_checkExpression | exact IHl].
    + (* WithExpression *)
      keeps_tac. apply keeps_forM_snd.
      rewrite (range_order_Permutation host "checkWithExpression" fst).
      induction Updates as [ | [fieldName fieldExpr] rest IHl]; constructor;
        [apply keeps_checkField, keeps_checkExpression | exact IHl].
    + (* MatchExpression *)
      apply keeps_bind; [apply keeps_checkExpression | intros _].
      generalize NullType.
      induction Cases as [ | [pat binding body] rest IHl]; intros t; keeps_tac.
  - destruct s; simpl checkStatement.
    all: try (keeps_more; fail).
    (* ExtendStatement *)
    keeps_tac.
    induction Methods as [ | [mtok mname mparams mret mbody] rest IHl]; keeps_tac.
    exact IHl.
  - destruct b as [tok stmts]. intros er. simpl checkBlockStatement.
    generalize NullType.
    induction stmts as [ | stmt rest IHl]; intros t; keeps_tac.
  - destruct f as [tok name params ret body]. simpl checkFunctionStatement.
    keeps_tac.
Qed.

Lemma keeps_checkStatement (s : Statement) :
  (forall tok name hint value, s <> DefStatement tok name hint value) ->
  keeps (checkStatement host s).
Proof.
  pose proof keeps_checkExpression as He.
  pose proof scoped_checkBlockStatement as Hb.
  intros Hnodef. destruct s; simpl checkStatement.
  all: try (keeps_tac; fail).
  - exfalso. by eapply Hnodef.
  - apply keeps_checkFunctionStatement.
  - clear Hnodef. keeps_tac.
    induction Methods as [ | [mtok mname mparams mret mbody] rest IHl]; keeps_tac.
    exact IHl.
Qed.

End CheckerKeeps.

(** Scopes of the checker. Checking a statement never drops an error that
    was reported, never changes the table of structs or of functions, and
    leaves every scope outside the innermost one as it was.  Only a [def]
    statement declares a name, in the innermost scope: after any other
    statement, and so after any expression, the scopes are exactly what
    they were, so that whatever is declared in the body of an [if], a
    [while], a [for], a [match] case, a function or a method is gone when
    the body has been checked. *)
Theorem checkStatement_scopes (host : Host) (stmt : Statement) (tc tc' : TypeChecker)
    (t : Ty) :
  checkStatement host stmt tc = Done t tc' ->
  tc_kept tc tc'
  /\ ((forall tok name hint value, stmt <> DefStatement tok name hint value) ->
      tc'.(tc_env) = tc.(tc_env)).
Proof.
  intros Hrun. split.
  - exact (scoped_checkStatement host stmt tc t tc' Hrun).
  - intros Hnodef. by destruct (keeps_checkStatement host stmt Hnodef tc t tc' Hrun).
Qed.

Lemma checkStatement_scopes_witness :
  exists (t : Ty) (tc' : TypeChecker),
    checkStatement plain_host
      (ExpressionStatement Token_zero
         (IfExpression Token_zero (BooleanLiteral Token_zero true)
            (mkBlockStatement Token_zero
               [DefStatement Token_zero (mkIdentifier Token_zero "x") None
                  (IntegerLiteral Token_zero 1)])
            None))
      NewTypeChecker = Done t tc'
    /\ tc'.(tc_env) = NewTypeChecker.(tc_env).
Proof.
  assert (exists (t : Ty) (tc' : TypeChecker),
             checkStatement plain_host
               (ExpressionStatement Token_zero
                  (IfExpression Token_zero (BooleanLiteral Token_zero true)
                     (mkBlockStatement Token_zero
                        [DefStatement Token_zero (mkIdentifier Token_zero "x") None
                           (IntegerLiteral Token_zero 1)])
                     None))
               NewTypeChecker = Done t tc') as (t & tc' & Hrun).
  { eexists _, _. vm_compute. reflexivity. }
  exists t, tc'. split; [exact Hrun | ].
  destruct (checkStatement_scopes _ _ _ _ _ Hrun) as [_ Henv].
  apply Henv. discriminate.
Defined.

(** ** Identifiers and keywords *)

(** A scanning loop over [readChar] stops at the first byte that fails
    its test. *)
Lemma while_loop_scan (P : ascii -> bool) :
  P NUL = false ->
  forall (fuel : nat) (l : Lexer) (q : nat),
    lexer_synced l ->
    (l.(pos) <= q)%nat -> (q <= String.length l.(input))%nat ->
    (forall i, (l.(pos) <= i)%nat -> (i < q)%nat -> P (byte_at l.(input) i) = true) ->
    ((q < String.length l.(input))%nat -> P (byte_at l.(input) q) = false) ->
    (q - l.(pos) < fuel)%nat ->
    exists l' : Lexer,
      while_loop fuel (fun l => P l.(ch)) readChar l = Done tt l'
      /\ lexer_synced l' /\ l'.(input) = l.(input) /\ l'.(pos) = q
      /\ l'.(line) = l.(line).
Proof.
  intros HNUL. induction fuel as [ | fuel IH]; intros l q Hs Hle Hq Hin Hstop Hfuel; [lia | ].
  cbn [while_loop]. pose proof Hs as [Hrp Hch].
  destruct (decide (l.(pos) = q)) as [Heq | Hne].
  - assert (Hc : P l.(ch) = false).
    { rewrite Hch. destruct (Nat.ltb_spec (pos l) (String.length (input l))); [ | exact HNUL].
      rewrite Heq. apply Hstop. lia. }
    rewrite Hc. exists l. by repeat split.
  - assert (Hc : P l.(ch) = true).
    { rewrite Hch. destruct (Nat.ltb_spec (pos l) (String.length (input l))); [ | lia].
      apply Hin; lia. }
    rewrite Hc. destruct (readChar_advance l Hs) as (l1 & Hr & (Hs1 & Hi1 & _) & Hp1 & _ & Hl1).
    unfold bind. rewrite Hr.
    destruct (IH l1 q Hs1) as (l' & Hrun & Hs' & Hi' & Hp' & Hl'); try (rewrite ?Hi1, ?Hp1; lia).
    + rewrite Hi1, Hp1. intros i Hi Hiq. apply Hin; lia.
    + by rewrite Hi1.
    + exists l'. split; [exact Hrun | ]. repeat split; try apply Hs'; congruence.
Qed.

Lemma isLetter_not (c x : ascii) : isLetter c = true -> isLetter x = false -> Ascii.eqb c x = false.
Proof.
  intros Hc Hx. destruct (Ascii.eqb_spec c x) as [-> | ]; [congruence | reflexivity].
Qed.

(** On a letter, [NextToken] reads an identifier. *)
Lemma NextToken_letter (n : nat) (l : Lexer) :
  isLetter l.(ch) = true ->
  NextToken (S n) l
  = (let* lit := readIdentifier (S n) in
     ret (mkToken (LookupIdent lit) lit l.(line) l.(column))) l.
Proof.
  intros Hletter. cbn [NextToken]. unfold skipWhitespaceExceptNewline.
  unfold bind at 1. cbn [while_loop].
  rewrite !(isLetter_not _ _ Hletter) by reflexivity. cbn [orb].
  unfold bind at 1, get. cbv zeta.
  rewrite !(isLetter_not _ _ Hletter) by reflexivity.
  rewrite Hletter. reflexivity.
Qed.

(** Identifiers are read whole. With the lexer on a letter at [pos], and
    [q] the first position after it whose byte is neither a letter nor a
    digit (or the end of the input), [NextToken] yields one token whose
    literal is the input from [pos] to [q] and whose type is the keyword the
    literal spells, [IDENT] when it spells none; it carries the line and
    column of the first byte, and the lexer is then at [q].  So a keyword is
    recognized only when it is not followed by a letter or a digit. *)
Theorem NextToken_identifier (fuel : nat) (l : Lexer) (q : nat) :
  lexer_synced l ->
  isLetter l.(ch) = true ->
  (l.(pos) < q)%nat -> (q <= String.length l.(input))%nat ->
  (forall i, (l.(pos) < i)%nat -> (i < q)%nat ->
             isLetter (byte_at l.(input) i) || isDigit (byte_at l.(input) i) = true) ->
  ((q < String.length l.(input))%nat ->
   isLetter (byte_at l.(input) q) || isDigit (byte_at l.(input) q) = false) ->
  (q - l.(pos) < fuel)%nat ->
  exists l' : Lexer,
    NextToken fuel l
    = Done (mkToken (LookupIdent (slice l.(input) l.(pos) q)) (slice l.(input) l.(pos) q)
                    l.(line) l.(column)) l'
    /\ lexer_synced l' /\ l'.(input) = l.(input) /\ l'.(pos) = q /\ l'.(line) = l.(line).
Proof.
  intros Hs Hletter Hpq Hq Hin Hstop Hfuel.
  destruct fuel as [ | n]; [lia | ].
  rewrite (NextToken_letter n l Hletter).
  assert (Hlen : (l.(pos) < String.length l.(input))%nat).
  { destruct (Nat.ltb_spec (pos l) (String.length (input l))) as [ | Hge]; [done | ].
    rewrite (lexer_synced_NUL l Hs Hge) in Hletter. discriminate. }
  assert (Hch : l.(ch) = byte_at l.(input) l.(pos)).
  { destruct Hs as [_ Hch]. rewrite Hch.
    destruct (Nat.ltb_spec (pos l) (String.length (input l))); [reflexivity | lia]. }
  destruct (while_loop_scan (fun c => isLetter c || isDigit c) eq_refl (S n) l q Hs)
    as (l' & Hrun & Hs' & Hi' & Hp' & Hl'); try lia.
  - intros i Hi Hiq. destruct (decide (i = l.(pos))) as [-> | Hne].
    + by rewrite <- Hch, Hletter.
    + apply Hin; lia.
  - exact Hstop.
  - exists l'. unfold readIdentifier, bind at 1, bind at 1, gets at 1, bind at 1.
    rewrite Hrun. unfold gets, ret. rewrite Hi', Hp'.
    by repeat split; try apply Hs'.
Qed.

Lemma NextToken_identifier_witness :
  exists l' : Lexer,
    NextToken 7 (NewLexer "define x") = Done (mkToken IDENT "define" 1 1) l'
    /\ l'.(pos) = 6%nat.
Proof.
  destruct (NextToken_identifier 7 (NewLexer "define x") 6) as (l' & Hrun & _ & _ & Hp & _).
  - split; reflexivity.
  - reflexivity.
  - cbn; lia.
  - cbn; lia.
  - intros [ | [ | [ | [ | [ | [ | i] ] ] ] ] ] Hlo Hhi; cbn in Hlo, Hhi; try lia; reflexivity.
  - intros _. reflexivity.
  - cbn; lia.
  - exists l'. split; [exact Hrun | exact Hp].
Defined.

(** ** Struct literals, members and update *)

Lemma elem_of_map_fst_lookup {A B} (l : list (A * B)) (a : A) :
  a ∈ map fst l -> exists j b, l !! j = Some (a, b).
Proof.
  induction l as [ | [a0 b0] l IH]; cbn [map fst].
  - intros H. by apply elem_of_nil in H.
  - intros [-> | H]%elem_of_cons.
    + by exists 0%nat, b0.
    + destruct (IH H) as (j & b & Hj). by exists (S j), b.
Qed.

Lemma NoDup_fst_lookup {A B} (l : list (A * B)) (i j : nat) (a : A) (b b' : B) :
  NoDup (map fst l) -> l !! i = Some (a, b) -> l !! j = Some (a, b') -> i = j.
Proof.
  intros Hnd Hi Hj. eapply NoDup_lookup; [exact Hnd | | ].
  - rewrite list_lookup_fmap, Hi. reflexivity.
  - rewrite list_lookup_fmap, Hj. reflexivity.
Qed.

Section StructFields.

Variable Ev : Node -> env_id -> EV Value.
Variable env : env_id.

(** The loop of [evalFields] over the entries in the order [fields]. *)
Lemma evalFields_loop :
  forall (fields : list (string * Expression)) (acc : gmap string Value)
         (vals : list Value) (w w' : World),
    mapM (fun expr => Ev (NExpr expr) env) (map snd fields) w = Done vals w' ->
    Forall (fun v => isError v = false) vals ->
    exists fs : gmap string Value,
      (fix go (l : list (string * Expression)) (acc : gmap string Value)
           : EV (gmap string Value + Value) :=
         match l with
         | [] => ret (inl acc)
         | (name, valueNode) :: rest =>
           let* value := Ev (NExpr valueNode) env in
           if isError value then ret (inr value) else
           go rest (<[ name := value ]> acc)
         end) fields acc w = Done (inl fs) w'
      /\ (forall name, name ∉ map fst fields -> fs !! name = acc !! name)
      /\ (forall name, name ∈ map fst fields -> is_Some (fs !! name))
      /\ (forall i name e v,
            fields !! i = Some (name, e) -> vals !! i = Some v ->
            (forall j e', fields !! j = Some (name, e') -> (j <= i)%nat) ->
            fs !! name = Some v).
Proof.
  induction fields as [ | [n0 e0] rest IH]; intros acc vals w w'; cbn [map snd mapM].
  - unfold ret. intros [= <- <-] _. exists acc. split; [reflexivity | ].
    split; [done | ]. split; [intros name H; by apply elem_of_nil in H | done].
  - intros Hm Hok. unfold bind at 1 in Hm.
    destruct (Ev (NExpr e0) env w) as [v0 w1 | | ] eqn:Hev; try discriminate.
    unfold bind at 1 in Hm.
    destruct (mapM _ (map snd rest) w1) as [vals' w2 | | ] eqn:Hrest; try discriminate.
    unfold ret in Hm. injection Hm as <- <-.
    apply Forall_cons in Hok as [Hv0 Hok].
    unfold bind at 1. rewrite Hev, Hv0.
    destruct (IH (<[ n0 := v0 ]> acc) vals' w1 w2 Hrest Hok) as (fs & Hrun & Hout & Hin & Hlast).
    exists fs. split; [exact Hrun | ]. split; [ | split].
    + intros name Hname. cbn [map fst] in Hname.
      apply not_elem_of_cons in Hname as [Hne Hname].
      rewrite (Hout name Hname). by apply lookup_insert_ne.
    + intros name Hname. cbn [map fst] in Hname.
      destruct (decide (name ∈ map fst rest)) as [Hr | Hr]; [by apply Hin | ].
      apply elem_of_cons in Hname as [-> | ]; [ | done].
      rewrite (Hout n0 Hr), lookup_insert_eq. by eexists.
    + intros [ | i] name e v Hf Hv Hj.
      * cbn in Hf, Hv. injection Hf as <- <-. injection Hv as <-.
        rewrite Hout; [by rewrite lookup_insert_eq | ].
        intros (j & e' & Hje)%elem_of_map_fst_lookup.
        specialize (Hj (S j) e' Hje). lia.
      * cbn in Hf, Hv. apply (Hlast i name e v Hf Hv).
        intros j e' Hje. specialize (Hj (S j) e' Hje). lia.
Qed.

(** [evalFields] on entries with distinct names, as they come out of a Go
    map: when no value is an error, the field map has exactly the names of
    the entries, each with the value of its expression, the expressions
    being evaluated in the order of the range. *)
Lemma evalFields_values (host : Host) (site : string) (fields : list (string * Expression))
    (vals : list Value) (w w' : World) :
  NoDup (map fst fields) ->
  evalExpressions Ev (map snd (range_order host site fst fields)) env w = Done vals w' ->
  Forall (fun v => isError v = false) vals ->
  exists fs : gmap string Value,
    evalFields host Ev site fields env w = Done (inl fs) w'
    /\ (forall name, is_Some (fs !! name) <-> name ∈ map fst fields)
    /\ (forall i name e v,
          range_order host site fst fields !! i = Some (name, e) -> vals !! i = Some v ->
          fs !! name = Some v).
Proof.
  intros Hnd Hvals Hok.
  pose proof (range_order_Permutation host site fst fields) as Hperm.
  assert (Hnd' : NoDup (map fst (range_order host site fst fields))).
  { change (NoDup (fst <$> range_order host site fst fields)). by rewrite Hperm. }
  assert (Hnames : forall name, name ∈ map fst (range_order host site fst fields)
                                <-> name ∈ map fst fields).
  { intros name. change (name ∈ fst <$> range_order host site fst fields
                         <-> name ∈ fst <$> fields). by rewrite Hperm. }
  destruct (evalFields_loop (range_order host site fst fields) ∅ vals w w' Hvals Hok)
    as (fs & Hrun & Hout & Hin & Hlast).
  exists fs. split; [exact Hrun | ]. split.
  - intros name. rewrite <- Hnames. split; [ | apply Hin].
    intros Hsome.
    destruct (decide (name ∈ map fst (range_order host site fst fields))) as [ | Hno];
      [done | ].
    rewrite (Hout name Hno), lookup_empty in Hsome. by destruct Hsome.
  - intros i name e v Hi Hv. apply (Hlast i name e v Hi Hv).
    intros j e' Hj. by rewrite (NoDup_fst_lookup _ _ _ _ _ _ Hnd' Hj Hi).
Qed.

End StructFields.

(** Struct literals. The definition that a [struct] statement stores under
    its name is the one a literal of that name carries.  The entries of a
    literal have distinct names, being the keys of a Go map, and their
    expressions are evaluated in the order of the range over that map,
    whichever it is.  When the values are no errors, the literal yields a
    struct whose fields are exactly the names written in the literal, each
    with the value of its expression, whatever fields the definition lists:
    no field is required and none is refused.  Member access to such a
    struct yields the value of the field, and the error "undefined field"
    for a name that the literal did not write. *)
Theorem evalStructLiteral_fields (host : Host) (Ev : Node -> env_id -> EV Value)
    (structName : Identifier) (fields : list (string * Expression)) (env : env_id)
    (w w' : World) (defName : string) (defFields : list StructField) (vals : list Value) :
  w.(structs) !! structName.(id_Value) = Some (defName, defFields) ->
  NoDup (map fst fields) ->
  evalExpressions Ev (map snd (range_order host "evalStructLiteral" fst fields)) env w
  = Done vals w' ->
  Forall (fun v => isError v = false) vals ->
  exists fs : gmap string Value,
    evalStructLiteral host Ev structName fields env w
    = Done (StructValue defName defFields fs) w'
    /\ (forall name, is_Some (fs !! name) <-> name ∈ map fst fields)
    /\ (forall i name e v,
          range_order host "evalStructLiteral" fst fields !! i = Some (name, e) ->
          vals !! i = Some v ->
          fs !! name = Some v)
    /\ (forall (fuel : nat) (object : Expression) (member : Identifier) (env0 : env_id)
               (w0 w1 : World),
          Ev (NExpr object) env0 w0 = Done (StructValue defName defFields fs) w1 ->
          evalMemberExpression fuel Ev object member env0 w0
          = Done match fs !! member.(id_Value) with
                 | Some v => v
                 | None => errorMessage ("undefined field " ++ member.(id_Value) ++ " on "
                                         ++ defName)
                 end w1)
    /\ (forall (fields0 : list StructField) (env0 : env_id) (w0 : World) (d : Value),
          evalStructStatement structName fields0 env0 w0 = Done d w ->
          defName = structName.(id_Value) /\ defFields = fields0).
Proof.
  intros Hdef Hnd Hvals Hok.
  destruct (evalFields_values Ev env host "evalStructLiteral" fields vals w w' Hnd Hvals Hok)
    as (fs & Hrun & Hnames & Hvalues).
  exists fs. split; [ | split; [exact Hnames | split; [exact Hvalues | split] ] ].
  - unfold evalStructLiteral, bind at 1, gets. rewrite Hdef.
    unfold bind at 1. by rewrite Hrun.
  - intros fuel object member env0 w0 w1 Hobj.
    unfold evalMemberExpression, bind at 1. rewrite Hobj. cbn [isError UnwrapValue].
    unfold bind at 1, ret at 1. by destruct (fs !! id_Value member).
  - intros fields0 env0 w0 d. unfold evalStructStatement. cbv zeta.
    unfold bind at 1. cbn [modify]. unfold bind at 1.
    match goal with
    | |- context [Environment_Set env0 ?n ?v ?ws] =>
      destruct (Environment_Set env0 n v ws) as [ [] w2 | | ] eqn:Hset; try discriminate
    end.
    unfold ret. intros [= _ <-].
    unfold Environment_Set, bind, gets in Hset. cbn [envs] in Hset.
    destruct (envs w0 !! env0); [ | discriminate]. cbn [modify] in Hset.
    injection Hset as <-. cbn [set_envs structs] in Hdef.
    rewrite lookup_insert_eq in Hdef. by injection Hdef as <- <-.
Qed.

Lemma evalStructLiteral_fields_witness :
  range_order last_first_host "evalStructLiteral" fst
    [("x", IntegerLiteral Token_zero 1); ("y", IntegerLiteral Token_zero 2)]
  = [("y", IntegerLiteral Token_zero 2); ("x", IntegerLiteral Token_zero 1)]
  /\ exists fs : gmap string Value,
       evalStructLiteral last_first_host (Eval last_first_host 3) (mkIdentifier Token_zero "P")
         [("x", IntegerLiteral Token_zero 1); ("y", IntegerLiteral Token_zero 2)]
         0%nat point_world
       = Done (StructValue "P" [] fs) point_world
       /\ fs !! "x" = Some (IntegerValue 1)
       /\ fs !! "y" = Some (IntegerValue 2).
Proof.
  split; [reflexivity | ].
  destruct (evalStructLiteral_fields last_first_host (Eval last_first_host 3)
              (mkIdentifier Token_zero "P")
              [("x", IntegerLiteral Token_zero 1); ("y", IntegerLiteral Token_zero 2)]
              0%nat point_world point_world
              "P" [] [IntegerValue 2; IntegerValue 1]) as (fs & Hrun & _ & Hvalues & _).
  - reflexivity.
  - apply (bool_decide_unpack _). vm_compute. exact I.
  - reflexivity.
  - by repeat constructor.
  - exists fs. split; [exact Hrun | ]. split.
    + by apply (Hvalues 1%nat "x" (IntegerLiteral Token_zero 1) (IntegerValue 1)).
    + by apply (Hvalues 0%nat "y" (IntegerLiteral Token_zero 2) (IntegerValue 2)).
Defined.

(** with. The names of the updates are distinct, being the keys of a Go
    map, and their expressions are evaluated in the order of the range over
    that map, whichever it is.  When the values are no errors, the struct
    made by [obj with { updates }] has the definition of [obj]; a field
    named in the updates has the value of its expression, whether or not
    [obj] had the field, and every other field has the value it has in
    [obj]. *)
Theorem evalWithExpression_fields (host : Host) (Ev : Node -> env_id -> EV Value)
    (object : Expression) (updates : list (string * Expression)) (env : env_id)
    (w w1 w2 : World) (defName : string) (defFields : list StructField)
    (fields : gmap string Value) (vals : list Value) :
  Ev (NExpr object) env w = Done (StructValue defName defFields fields) w1 ->
  NoDup (map fst updates) ->
  evalExpressions Ev (map snd (range_order host "evalWithExpression" fst updates)) env w1
  = Done vals w2 ->
  Forall (fun v => isError v = false) vals ->
  exists fields' : gmap string Value,
    evalWithExpression host Ev object updates env w
    = Done (StructValue defName defFields fields') w2
    /\ (forall i name e v,
          range_order host "evalWithExpression" fst updates !! i = Some (name, e) ->
          vals !! i = Some v ->
          fields' !! name = Some v)
    /\ (forall name, name ∈ map fst updates -> is_Some (fields' !! name))
    /\ (forall name, name ∉ map fst updates -> fields' !! name = fields !! name).
Proof.
  intros Hobj Hnd Hvals Hok.
  destruct (evalFields_values Ev env host "evalWithExpression" updates vals w1 w2 Hnd Hvals Hok)
    as (us & Hrun & Hnames & Hvalues).
  unfold evalWithExpression, bind at 1. rewrite Hobj. cbn [isError].
  cbn [UnwrapValue]. unfold bind at 1, ret at 1. unfold bind at 1. rewrite Hrun.
  eexists. split; [reflexivity | ]. unfold With. split; [ | split].
  - intros i name e v Hi Hv. apply lookup_union_Some_l. by eapply Hvalues.
  - intros name Hname. apply Hnames in Hname as [v Hv].
    exists v. by apply lookup_union_Some_l.
  - intros name Hname. apply lookup_union_r.
    destruct (us !! name) eqn:Hus; [ | done].
    exfalso. apply Hname, Hnames. by eexists.
Qed.

Lemma evalWithExpression_fields_witness :
  exists fields' : gmap string Value,
    evalWithExpression last_first_host (Eval last_first_host 2)
      (IdentifierE (mkIdentifier Token_zero "p"))
      [("age", IntegerLiteral Token_zero 17); ("email", IntegerLiteral Token_zero 0)] 0%nat
      (set_envs (fun es => <[ 0%nat := mkEnvironment {[ "p" := bob ]} None ]> es) one_env_world)
    = Done (StructValue "User"
              [mkStructField (mkIdentifier (mkToken IDENT "id" 1 15) "id")
                 (Some (mkTypeAnnotation (mkToken IDENT "Integer" 1 19) "Integer" []));
               mkStructField (mkIdentifier (mkToken IDENT "name" 1 28) "name")
                 (Some (mkTypeAnnotation (mkToken IDENT "String" 1 34) "String" []));
               mkStructField (mkIdentifier (mkToken IDENT "age" 1 42) "age")
                 (Some (mkTypeAnnotation (mkToken IDENT "Integer" 1 47) "Integer" []))]
              fields')
        (set_envs (fun es => <[ 0%nat := mkEnvironment {[ "p" := bob ]} None ]> es) one_env_world)
    /\ fields' !! "age" = Some (IntegerValue 17)
    /\ fields' !! "email" = Some (IntegerValue 0)
    /\ fields' !! "name" = Some (StringValue "Bob").
Proof.
  destruct (evalWithExpression_fields last_first_host (Eval last_first_host 2)
              (IdentifierE (mkIdentifier Token_zero "p"))
              [("age", IntegerLiteral Token_zero 17); ("email", IntegerLiteral Token_zero 0)]
              0%nat
              (set_envs (fun es => <[ 0%nat := mkEnvironment {[ "p" := bob ]} None ]> es)
                        one_env_world)
              (set_envs (fun es => <[ 0%nat := mkEnvironment {[ "p" := bob ]} None ]> es)
                        one_env_world)
              (set_envs (fun es => <[ 0%nat := mkEnvironment {[ "p" := bob ]} None ]> es)
                        one_env_world)
              "User"
              [mkStructField (mkIdentifier (mkToken IDENT "id" 1 15) "id")
                 (Some (mkTypeAnnotation (mkToken IDENT "Integer" 1 19) "Integer" []));
               mkStructField (mkIdentifier (mkToken IDENT "name" 1 28) "name")
                 (Some (mkTypeAnnotation (mkToken IDENT "String" 1 34) "String" []));
               mkStructField (mkIdentifier (mkToken IDENT "age" 1 42) "age")
                 (Some (mkTypeAnnotation (mkToken IDENT "Integer" 1 47) "Integer" []))]
              (<["id" := IntegerValue 1]> (<["name" := StringValue "Bob"]>
                 (<["age" := IntegerValue 16]> ∅)))
              [IntegerValue 0; IntegerValue 17])
    as (fields' & Hrun & Hnew & _ & Hold).
  - vm_compute; reflexivity.
  - apply (bool_decide_unpack _). vm_compute. exact I.
  - vm_compute; reflexivity.
  - by repeat constructor.
  - exists fields'. split; [exact Hrun | ]. split; [ | split].
    + by apply (Hnew 1%nat "age" (IntegerLiteral Token_zero 17) (IntegerValue 17)).
    + by apply (Hnew 0%nat "email" (IntegerLiteral Token_zero 0) (IntegerValue 0)).
    + rewrite Hold; [reflexivity | ]. apply (bool_decide_unpack _). vm_compute. exact I.
Defined.
